(** * Music-Usenet-Manager: quality ranking, search fan-out, download
      status and monitoring, verified against the TypeScript sources.

    The first part is the model, one module per source unit:

    - [Js]           the JavaScript primitives the services rely on
                     (strings, [parseInt], truthiness, a stable [sort]);
    - [Double]       binary64 arithmetic: round to nearest, ties to even;
    - [Regex]        the regular expressions of [IndexerService];
    - [Types]        the records of [shared/types];
    - [Quality]      [QualityProfileService]: filter, and the ranking in
                     exact arithmetic;
    - [Ranking]      [QualityProfileService]: rank and select, in the
                     binary64 arithmetic of the code;
    - [Indexer]      [IndexerService]: item parsing and the fan-out search;
    - [Profiles]     [QualityProfileRepository] and the profile operations
                     of [QualityProfileService];
    - [DownloadRepo] [DownloadRepository];
    - [App]          the application state, the outbound calls and the
                     state-and-exception monad of the services;
    - [Repos]        the album, artist, indexer and config repositories;
    - [Services]     [SabnzbdService], [DownloadService], [MonitoringService];
    - [IsoDate], [Examples]   a date parser and data for the examples;
    - [Listings]     the ordered queries of the repositories;
    - [IndexerRepo]  [IndexerRepository] and the indexer operations of
                     [ConfigService];
    - [Settings]     [ConfigRepository] and the settings of [ConfigService];
    - [Scheduler]    the scheduler of [MonitoringService];
    - [Frames]       what an operation leaves alone.

    The second part states and proves the properties.

    Modelling conventions.  Strings are sequences of ASCII characters;
    what the string functions of the source do outside ASCII is not
    modelled.  A JavaScript number that the code obtains from [parseInt]
    or [Math.floor] is an integer or NaN ([num]); every other number is
    an integer far below 2^53, except the ranking score, which is a
    binary64 number: a rational, rounded after every operation
    ([Ranking]).  [Quality] keeps the same score without the rounding,
    for the statements that do not depend on the last digit.  A value
    that the code reads from parsed JSON without checking its type (the
    attributes of an indexer item, the keys of the monitoring
    configuration) may be missing or of another type than declared.
    Tables are lists of rows in insertion order; where a query orders
    rows, rows of equal key are listed in insertion order.  A call that
    throws returns [Throw] and keeps whatever it had already written.
    One operation of a service sees one value of the clock. *)

From Stdlib Require Import ZArith QArith Qminmax Qround Qpower Qreduction.
From Stdlib Require Import Ascii String List Permutation Sorted Lia Lqa Bool.
From stdpp Require Import gmap strings list.

Open Scope string_scope.
Open Scope Z_scope.

(* ================================================================== *)
(** ** JavaScript primitives *)
(* ================================================================== *)

Module Js.

(** *** Characters and strings *)

Definition code (c : ascii) : nat := nat_of_ascii c.

Definition is_upper (c : ascii) : bool :=
  (Nat.leb 65 (code c)) && (Nat.leb (code c) 90).

Definition is_lower (c : ascii) : bool :=
  (Nat.leb 97 (code c)) && (Nat.leb (code c) 122).

Definition is_digit (c : ascii) : bool :=
  (Nat.leb 48 (code c)) && (Nat.leb (code c) 57).

(** [\s] restricted to ASCII: TAB, LF, VT, FF, CR and SPACE. *)
Definition is_space (c : ascii) : bool :=
  ((Nat.leb 9 (code c)) && (Nat.leb (code c) 13)) || Nat.eqb (code c) 32.

(** [\w] is [A-Za-z0-9_]. *)
Definition is_word (c : ascii) : bool :=
  is_upper c || is_lower c || is_digit c || Nat.eqb (code c) 95.

Definition lower_char (c : ascii) : ascii :=
  if is_upper c then ascii_of_nat (code c + 32) else c.

Definition upper_char (c : ascii) : ascii :=
  if is_lower c then ascii_of_nat (code c - 32) else c.

Fixpoint map_string (f : ascii -> ascii) (s : string) : string :=
  match s with
  | EmptyString => EmptyString
  | String c s' => String (f c) (map_string f s')
  end.

Fixpoint filter_string (f : ascii -> bool) (s : string) : string :=
  match s with
  | EmptyString => EmptyString
  | String c s' => if f c then String c (filter_string f s')
                   else filter_string f s'
  end.

(** [toLowerCase] and [toUpperCase] on a string of ASCII characters;
    outside ASCII the source also maps letters, some to more than one
    character. *)
Definition toLowerCase : string -> string := map_string lower_char.
Definition toUpperCase : string -> string := map_string upper_char.

(** The strings of ASCII characters. *)
Definition is_ascii (c : ascii) : bool := Nat.ltb (code c) 128.

Fixpoint ascii_only (s : string) : bool :=
  match s with
  | EmptyString => true
  | String c s' => is_ascii c && ascii_only s'
  end.

Definition is_empty (s : string) : bool :=
  match s with EmptyString => true | _ => false end.

Fixpoint trimStart (s : string) : string :=
  match s with
  | EmptyString => EmptyString
  | String c s' => if is_space c then trimStart s' else s
  end.

Fixpoint trimEnd (s : string) : string :=
  match s with
  | EmptyString => EmptyString
  | String c s' =>
      let r := trimEnd s' in
      if is_space c && is_empty r then EmptyString else String c r
  end.

Definition trim (s : string) : string := trimEnd (trimStart s).

(** [s.replace(/\s+/g, ' ')]: every maximal run of white space becomes one
    space.  [in_run] tells whether the previous character was white space. *)
Fixpoint collapse_spaces (in_run : bool) (s : string) : string :=
  match s with
  | EmptyString => EmptyString
  | String c s' =>
      if is_space c
      then (if in_run then collapse_spaces true s'
            else String " "%char (collapse_spaces true s'))
      else String c (collapse_spaces false s')
  end.

(** A string is truthy when it is not empty. *)
Definition truthy_string (s : string) : bool := negb (is_empty s).

(** *** Numbers *)

(** The numbers the services compute with [parseInt] and [Math.floor]:
    an integer, or NaN. *)
Inductive num : Type :=
| NaN
| Int (z : Z).

Definition num_eq_dec (a b : num) : {a = b} + {a <> b}.
Proof. decide equality. apply Z.eq_dec. Defined.

(** Truthiness of a number: NaN and 0 are falsy. *)
Definition truthy_num (n : num) : bool :=
  match n with
  | NaN => false
  | Int z => negb (z =? 0)
  end.

(** Truthiness of an optional number ([undefined] is falsy). *)
Definition truthy_opt_num (n : option num) : bool :=
  match n with
  | None => false
  | Some x => truthy_num x
  end.

Definition truthy_opt_Z (n : option Z) : bool :=
  match n with
  | None => false
  | Some z => negb (z =? 0)
  end.

(** Comparisons with NaN are false. *)
Definition num_lt (a : num) (b : Z) : bool :=
  match a with
  | NaN => false
  | Int z => z <? b
  end.

Definition num_gt (a : num) (b : Z) : bool :=
  match a with
  | NaN => false
  | Int z => b <? z
  end.

(** [a < b] on rationals. *)
Definition Qlt_bool (a b : Q) : bool := negb (Qle_bool b a).

Definition digit_value (c : ascii) : option Z :=
  if is_digit c then Some (Z.of_nat (code c - 48)) else None.

(** The longest prefix of decimal digits, as a number; [acc] is [None]
    until a first digit has been read. *)
Fixpoint read_digits (acc : option Z) (s : string) : option Z :=
  match s with
  | EmptyString => acc
  | String c s' =>
      match digit_value c with
      | Some d =>
          read_digits (Some (10 * (match acc with Some a => a | None => 0 end) + d)) s'
      | None => acc
      end
  end.

(** [parseInt(s, 10)]: leading white space is skipped, one sign is read,
    then the longest run of digits; no digit gives NaN. *)
Definition parseInt (s : string) : num :=
  let s1 := trimStart s in
  let '(sign, s2) :=
    match s1 with
    | String "-"%char r => (-1, r)
    | String "+"%char r => (1, r)
    | _ => (1, s1)
    end in
  match read_digits None s2 with
  | Some v => Int (sign * v)
  | None => NaN
  end.

(** *** Exceptions *)

(** The outcome of a call that may throw (or of a promise that may
    reject). *)
Inductive result (A : Type) : Type :=
| Ok (a : A)
| Throw (message : string).

Arguments Ok {A} a.
Arguments Throw {A} message.

(** *** [Array.prototype.sort] *)

(** [sort] is stable (ECMAScript 2019).  [after a b] is the sign test the
    engine makes on the comparator's result: [true] when
    [comparefn(a, b) > 0], that is when [a] has to come after [b].  With a
    consistent comparator every stable algorithm returns the list below,
    an insertion sort that never moves an element past an equal one. *)
Section Sort.
Context {A : Type} (after : A -> A -> bool).

Fixpoint insert_sorted (x : A) (l : list A) : list A :=
  match l with
  | [] => [x]
  | y :: l' => if after x y then y :: insert_sorted x l' else x :: y :: l'
  end.

Fixpoint sort (l : list A) : list A :=
  match l with
  | [] => []
  | x :: l' => insert_sorted x (sort l')
  end.

(** [x] may stay in front of [y]. *)
Definition not_after (x y : A) : Prop := after x y = false.

End Sort.

End Js.

(* ================================================================== *)
(** ** JavaScript numbers: binary64 arithmetic *)
(* ================================================================== *)

Module Double.

(** A finite double is the rational number it denotes.  An arithmetic
    operation of JavaScript is the exact operation followed by [round]:
    the nearest number with a significand of 53 bits, a tie going to the
    even significand (IEEE 754 binary64, round to nearest even).  The
    exponent is not bounded here: there is no overflow to Infinity and no
    gradual underflow, so [round] is the rounding of binary64 for
    magnitudes from 2^-1022 up to 2^1024, far beyond what bitrates, ages
    in days and sizes in bytes reach.  NaN is kept apart, as [None]. *)

Definition pow2 (k : Z) : Q := Qpower 2 k.

(** floor(log2 x) of a positive rational: the difference of the bit
    lengths of numerator and denominator, or one less. *)
Definition ilog2 (x : Q) : Z :=
  let k := Z.log2 (Qnum x) - Z.log2 (Zpos (Qden x)) in
  if Qle_bool (pow2 k) x then k else k - 1.

(** The nearest integer, a tie going to the even one. *)
Definition nearest_even (x : Q) : Z :=
  let f := Qfloor x in
  match Qcompare (x - inject_Z f) (1 # 2) with
  | Lt => f
  | Gt => f + 1
  | Eq => if Z.even f then f else f + 1
  end.

(** A positive number is scaled to a significand between 2^52 and 2^53,
    which is rounded to an integer. *)
Definition round_pos (x : Q) : Q :=
  let e := ilog2 x - 52 in
  (inject_Z (nearest_even (x / pow2 e)) * pow2 e)%Q.

Definition nearest (x : Q) : Q :=
  match Qcompare x 0 with
  | Eq => 0
  | Gt => round_pos x
  | Lt => - round_pos (- x)
  end.

(** Results are kept in lowest terms, so equal doubles are equal
    terms. *)
Definition round (x : Q) : Q := Qred (nearest (Qred x)).

Definition add (x y : Q) : Q := round (x + y).
Definition sub (x y : Q) : Q := round (x - y).
Definition mul (x y : Q) : Q := round (x * y).
Definition div (x y : Q) : Q := round (x / y).

(** The double of an integer the model carries exactly. *)
Definition of_Z (z : Z) : Q := round (inject_Z z).

End Double.

(* ================================================================== *)
(** ** The regular expressions of IndexerService *)
(* ================================================================== *)

Module Regex.
Import Js.

(** The patterns of [IndexerService] are sequences of four kinds of
    items; each pattern has exactly one capture group. *)
Inductive item : Type :=
| Lit (s : string)          (* literal text *)
| NotStar (c : ascii)       (* any run without c, greedy *)
| CapLazyAny                (* any run, lazy, captured *)
| CapNotStar (c : ascii).   (* any run without c, greedy, captured *)

(** Equality of characters, ignoring case under the flag [i]. *)
Definition char_eq (ci : bool) (a b : ascii) : bool :=
  if ci then Ascii.eqb (lower_char a) (lower_char b) else Ascii.eqb a b.

(** Matches the literal [p] at the head of [s]; returns the rest. *)
Fixpoint lit (ci : bool) (p s : string) : option string :=
  match p with
  | EmptyString => Some s
  | String a p' =>
      match s with
      | EmptyString => None
      | String b s' => if char_eq ci a b then lit ci p' s' else None
      end
  end.

Definition snoc (s : string) (c : ascii) : string := s ++ String c EmptyString.

(** A match: the text of the capture group and the input that follows
    the match. *)
Definition found : Type := (string * string)%type.

Section Backtracking.
(** [k taken rest] runs the remainder of the pattern. *)
Context (k : string -> string -> option found).

(** Greedy: take as many characters as possible, give back one at a
    time when the remainder fails. *)
Fixpoint greedy_not (c : ascii) (taken s : string) : option found :=
  match s with
  | EmptyString => k taken s
  | String x s' =>
      if Ascii.eqb x c then k taken s
      else match greedy_not c (snoc taken x) s' with
           | Some r => Some r
           | None => k taken s
           end
  end.

(** Lazy: take as few characters as possible. *)
Fixpoint lazy_any (taken s : string) : option found :=
  match k taken s with
  | Some r => Some r
  | None =>
      match s with
      | EmptyString => None
      | String x s' => lazy_any (snoc taken x) s'
      end
  end.

End Backtracking.

(** Matches the pattern at the head of [s]. *)
Fixpoint match_here (ci : bool) (p : list item) (cap : string) (s : string)
  : option found :=
  match p with
  | [] => Some (cap, s)
  | Lit l :: p' =>
      match lit ci l s with
      | Some s' => match_here ci p' cap s'
      | None => None
      end
  | NotStar c :: p' =>
      greedy_not (fun _ s' => match_here ci p' cap s') c EmptyString s
  | CapLazyAny :: p' =>
      lazy_any (fun t s' => match_here ci p' t s') EmptyString s
  | CapNotStar c :: p' =>
      greedy_not (fun t s' => match_here ci p' t s') c EmptyString s
  end.

(** [s.match(re)]: the leftmost position where the pattern matches. *)
Fixpoint exec (ci : bool) (p : list item) (s : string) : option found :=
  match match_here ci p EmptyString s with
  | Some r => Some r
  | None =>
      match s with
      | EmptyString => None
      | String _ s' => exec ci p s'
      end
  end.

(** [s.matchAll(re)] for a global pattern that cannot match the empty
    string: the capture groups of the successive matches, each search
    starting where the previous match ended.  [fuel] bounds the number of
    matches; the length of the input is always enough. *)
Fixpoint matchAll (fuel : nat) (ci : bool) (p : list item) (s : string)
  : list string :=
  match fuel with
  | O => []
  | S fuel' =>
      match exec ci p s with
      | Some (cap, rest) => cap :: matchAll fuel' ci p rest
      | None => []
      end
  end.

Definition dquote : string := String (ascii_of_nat 34) EmptyString.

(** The pattern reads: the text <TAG, a greedy run without >, the
    character >, a lazy captured run of any characters, the text </TAG>;
    flag [i].  The result is the trimmed capture group, or the empty
    string without a match. *)
Definition extractXmlValue (xml tag : string) : string :=
  match exec true [Lit ("<" ++ tag); NotStar ">"%char; Lit ">"; CapLazyAny;
                   Lit ("</" ++ tag ++ ">")] xml with
  | Some (cap, _) => trim cap
  | None => EmptyString
  end.

(** The texts the attribute pattern looks for; Q stands for the double
    quote: name=QNAMEQ and value=Q. *)
Definition name_is (attrName : string) : string :=
  "name=" ++ dquote ++ attrName ++ dquote.

Definition value_is : string := "value=" ++ dquote.

(** The pattern reads: the text <newznab:attr, a greedy run without >,
    the text name=QNAMEQ, a greedy run without >, the text value=Q, a
    greedy captured run without Q, the character Q; flag [i]. *)
Definition attr_pattern (attrName : string) : list item :=
  [Lit "<newznab:attr"; NotStar ">"%char; Lit (name_is attrName); NotStar ">"%char;
   Lit value_is; CapNotStar (ascii_of_nat 34); Lit dquote].

(** The result is the capture group, or [null] without a match. *)
Definition extractNewznabAttr (xml attrName : string) : option string :=
  option_map fst (exec true (attr_pattern attrName) xml).

(** The item pattern of [parseNewznabXml]: the text <item>, a lazy
    captured run, the text </item>; global, case sensitive. *)
Definition itemRegex : list item := [Lit "<item>"; CapLazyAny; Lit "</item>"].

(** *** Where a literal occurs *)

(** The literal matches at some position of the text. *)
Fixpoint occurs (ci : bool) (p s : string) : bool :=
  match lit ci p s with
  | Some _ => true
  | None =>
      match s with
      | EmptyString => false
      | String _ s' => occurs ci p s'
      end
  end.

(** The text is empty or ends with the character. *)
Fixpoint closed_by (c : ascii) (s : string) : bool :=
  match s with
  | EmptyString => true
  | String x EmptyString => Ascii.eqb x c
  | String _ s' => closed_by c s'
  end.

(** The character does not occur in the text. *)
Fixpoint free_of (c : ascii) (s : string) : bool :=
  match s with
  | EmptyString => true
  | String x s' => negb (Ascii.eqb x c) && free_of c s'
  end.


End Regex.

(* ================================================================== *)
(** ** Shared types ([shared/types]) *)
(* ================================================================== *)

Module Types.
Import Js.

(** [SearchResult.quality] *)
Record Quality : Type := mkQuality {
  format : string;
  bitrate : option num;     (* [bitrate?: number] *)
}.

Record SearchResult : Type := mkSearchResult {
  title : string;
  nzbUrl : string;
  size : num;
  age : num;
  indexer : string;
  quality : Quality;
}.

Record QualityProfile : Type := mkQualityProfile {
  qp_id : string;
  qp_name : string;
  formats : list string;
  minBitrate : option Z;    (* [minBitrate?: number] *)
  maxFileSize : option Z;   (* [maxFileSize?: number], in MB *)
  isDefault : bool;
  qp_createdAt : Z;
}.

Record IndexerConfig : Type := mkIndexerConfig {
  ix_id : string;
  ix_name : string;
  ix_url : string;
  ix_apiKey : string;
  ix_enabled : bool;
  ix_createdAt : Z;
}.

(** [Download['status']] *)
Inductive Status : Type :=
| queued
| downloading
| completed
| failed.

Record Download : Type := mkDownload {
  d_id : string;
  d_albumId : string;
  sabnzbdId : option string;
  indexerName : option string;
  status : Status;
  progress : Z;
  qualityProfileId : option string;
  initiatedAt : Z;
  completedAt : option Z;
  errorMessage : option string;
}.

(** What the download client reports for one job. *)
Record DownloadStatus : Type := mkDownloadStatus {
  ds_id : string;
  ds_status : Status;
  ds_progress : Z;
  ds_errorMessage : option string;
}.

Record SabnzbdConfig : Type := mkSabnzbdConfig {
  sab_url : string;
  sab_apiKey : string;
}.

(** Dates are time values in milliseconds. *)
Record Artist : Type := mkArtist {
  a_id : string;
  a_name : string;
  monitored : bool;
  albumCount : Z;
  lastChecked : option Z;
  a_createdAt : Z;
  a_updatedAt : Z;
}.

Record Album : Type := mkAlbum {
  al_id : string;
  al_artistId : string;
  al_title : string;
  al_releaseYear : option Z;
  al_trackCount : option Z;
  al_artworkUrl : option string;
  al_localPath : option string;
  isOwned : bool;
  al_createdAt : Z;
  al_updatedAt : Z;
}.

Record AlbumMetadata : Type := mkAlbumMetadata {
  am_id : string;
  am_title : string;
  am_releaseYear : option Z;
  am_trackCount : option Z;
  am_artworkUrl : option string;
  am_mbid : option string;
}.

Record Discography : Type := mkDiscography {
  dg_artistName : string;
  dg_albums : list AlbumMetadata;
  dg_mbid : option string;
}.

End Types.

(* ================================================================== *)
(** ** QualityProfileService: filtering and ranking *)
(* ================================================================== *)

Module Quality.
Import Js Types.

(** [array.includes(x)] on strings. *)
Definition includes (l : list string) (x : string) : bool :=
  existsb (String.eqb x) l.

(** [array.findIndex(pred)]; [None] stands for [-1]. *)
Fixpoint findIndex {A : Type} (pred : A -> bool) (l : list A) : option nat :=
  match l with
  | [] => None
  | x :: l' => if pred x then Some O
               else match findIndex pred l' with
                    | Some i => Some (S i)
                    | None => None
                    end
  end.

(** The callback of [filterResults]: one early [return false] per rule. *)
Definition accepted (profile : QualityProfile) (result : SearchResult) : bool :=
  let format := toUpperCase (format (quality result)) in
  let acceptedFormats := List.map toUpperCase (formats profile) in
  if negb (includes acceptedFormats format) then false
  else if match minBitrate profile, bitrate (quality result) with
          | Some minb, Some b =>
              truthy_opt_Z (Some minb) && truthy_num b && num_lt b minb
          | _, _ => false
          end then false
  else if match maxFileSize profile with
          | Some maxmb =>
              truthy_opt_Z (Some maxmb) &&
              (let maxSizeBytes := maxmb * 1024 * 1024 in
               num_gt (size result) maxSizeBytes)
          | None => false
          end then false
  else true.

Definition filterResults (results : list SearchResult) (profile : QualityProfile)
  : list SearchResult :=
  List.filter (accepted profile) results.

(** The score of one result in exact arithmetic, that is the number the
    code would compute without rounding; [Ranking.score] below is the
    number it computes.  [None] is NaN, which [Math.min(result.age, 30)]
    yields for a NaN age.  A NaN size makes both size comparisons
    false. *)
Definition score (profile : QualityProfile) (result : SearchResult) : option Q :=
  let score0 : Q := 0%Q in
  let format := toUpperCase (format (quality result)) in
  let formatIndex :=
    findIndex (fun f => String.eqb (toUpperCase f) format) (formats profile) in
  let score1 : Q :=
    match formatIndex with
    | Some i =>
        (score0 + inject_Z ((Z.of_nat (length (formats profile)) - Z.of_nat i) * 20))%Q
    | None => score0
    end in
  let score2 : Q :=
    match bitrate (quality result) with
    | Some (Int b) =>
        if truthy_num (Int b) then
          let isLossless := includes ["FLAC"; "ALAC"; "WAV"] format in
          let maxBitrate : Z := if isLossless then 1411 else 320 in
          let bitrateScore := Qmin ((inject_Z b / inject_Z maxBitrate) * 50)%Q 50%Q in
          (score1 + bitrateScore)%Q
        else score1
    | _ => score1
    end in
  match age result with
  | NaN => None
  | Int a =>
      let agePenalty := Z.min a 30 in
      let score3 : Q := (score2 - inject_Z agePenalty)%Q in
      Some match size result with
           | NaN => score3
           | Int sz =>
               let sizeMB : Q := (inject_Z sz / inject_Z (1024 * 1024))%Q in
               if Qlt_bool sizeMB 10%Q then (score3 - 20)%Q
               else if Qlt_bool 500%Q sizeMB then (score3 - 10)%Q
               else score3
           end
  end.

(** The scored objects [{ result, score }]. *)
Definition Scored : Type := (SearchResult * option Q)%type.

(** [(a, b) => b.score - a.score]; NaN when either score is NaN. *)
Definition comparefn (a b : Scored) : option Q :=
  match snd b, snd a with
  | Some sb, Some sa => Some (sb - sa)%Q
  | _, _ => None
  end.

(** The sign test of the sort: [comparefn(a, b) > 0]; a NaN result counts
    as zero. *)
Definition after (a b : Scored) : bool :=
  match comparefn a b with
  | Some d => Qlt_bool 0%Q d
  | None => false
  end.

(** The ranking by the exact score.  Two results whose exact scores are
    equal or close may come in another order in [Ranking.rankResults],
    which rounds as the code does. *)
Definition rankResults (results : list SearchResult) (profile : QualityProfile)
  : list SearchResult :=
  let scored := List.map (fun result => (result, score profile result)) results in
  let sorted := sort after scored in
  List.map fst sorted.

Definition selectBestResult (results : list SearchResult) (profile : QualityProfile)
  : option SearchResult :=
  let filtered := filterResults results profile in
  if Nat.eqb (length filtered) 0 then None
  else
    let ranked := rankResults filtered profile in
    head ranked.

(** *** The ranking formula as the specification words it *)

(** Position of a format in the preference list, ignoring case. *)
Fixpoint position_ci (fmt : string) (l : list string) : option nat :=
  match l with
  | [] => None
  | f :: l' =>
      if String.eqb (toUpperCase f) (toUpperCase fmt) then Some O
      else option_map S (position_ci fmt l')
  end.

(** 1411 for FLAC, ALAC and WAV, 320 otherwise. *)
Definition ceiling (fmt : string) : Z :=
  let f := toUpperCase fmt in
  if String.eqb f "FLAC" || String.eqb f "ALAC" || String.eqb f "WAV"
  then 1411 else 320.

Definition format_points (p : QualityProfile) (idx : nat) : Q :=
  inject_Z ((Z.of_nat (length (formats p)) - Z.of_nat idx) * 20).

(** min(bitrate / ceiling * 50, 50) for a known bitrate, 0 otherwise. *)
Definition bitrate_points (c : SearchResult) : Q :=
  match bitrate (quality c) with
  | Some (Int b) =>
      Qmin ((inject_Z b / inject_Z (ceiling (format (quality c)))) * 50)%Q 50%Q
  | _ => 0%Q
  end.

Definition age_penalty (ageDays : Z) : Q := inject_Z (Z.min ageDays 30).

Definition size_penalty (sizeBytes : Z) : Q :=
  let sizeMB := (inject_Z sizeBytes / inject_Z (1024 * 1024))%Q in
  if Qlt_bool sizeMB 10%Q then 20%Q
  else if Qlt_bool 500%Q sizeMB then 10%Q
  else 0%Q.

Definition spec_score (p : QualityProfile) (c : SearchResult)
  (idx : nat) (ageDays sizeBytes : Z) : Q :=
  (format_points p idx + bitrate_points c - age_penalty ageDays
   - size_penalty sizeBytes)%Q.

(** A candidate as the data model describes it once it has passed the
    filter: its format is in the profile, its age and size are numbers. *)
Definition rankable (p : QualityProfile) (c : SearchResult) : Prop :=
  (exists idx, position_ci (format (quality c)) (formats p) = Some idx) /\
  (exists a, age c = Int a) /\ (exists s, size c = Int s).

(** The score as a rational, for candidates whose age is a number. *)
Definition score_of (p : QualityProfile) (c : SearchResult) : Q :=
  match score p c with
  | Some q => q
  | None => 0%Q
  end.

(** *** The filter rules as the specification words them *)

Definition format_listed (p : QualityProfile) (c : SearchResult) : Prop :=
  exists f, In f (formats p) /\ toUpperCase f = toUpperCase (format (quality c)).

(** Minimum unset, or bitrate unknown, or bitrate at least the minimum. *)
Definition claimed_bitrate_rule (p : QualityProfile) (c : SearchResult) : Prop :=
  minBitrate p = None \/ bitrate (quality c) = None \/
  exists m b, minBitrate p = Some m /\ bitrate (quality c) = Some (Int b) /\ m <= b.

(** Maximum unset, or size at most the maximum in bytes. *)
Definition claimed_size_rule (p : QualityProfile) (c : SearchResult) : Prop :=
  maxFileSize p = None \/
  exists mx s, maxFileSize p = Some mx /\ size c = Int s /\ s <= mx * 1024 * 1024.

(** *** The filter rules as the code applies them *)

(** A minimum of 0 counts as unset; a bitrate of 0 or NaN counts as
    unknown. *)
Definition bitrate_rule (p : QualityProfile) (c : SearchResult) : Prop :=
  minBitrate p = None \/ minBitrate p = Some 0 \/
  bitrate (quality c) = None \/ bitrate (quality c) = Some NaN \/
  bitrate (quality c) = Some (Int 0) \/
  exists m b, minBitrate p = Some m /\ bitrate (quality c) = Some (Int b) /\ m <= b.

(** A maximum of 0 counts as unset; a NaN size is not greater than any
    limit. *)
Definition size_rule (p : QualityProfile) (c : SearchResult) : Prop :=
  maxFileSize p = None \/ maxFileSize p = Some 0 \/ size c = NaN \/
  exists mx s, maxFileSize p = Some mx /\ size c = Int s /\ s <= mx * 1024 * 1024.

(** The score is a number, not NaN. *)
Definition scored_ok (p : QualityProfile) (c : SearchResult) : Prop :=
  exists q, score p c = Some q.

(** The comparator on results rather than on scored objects. *)
Definition after_score (p : QualityProfile) (a b : SearchResult) : bool :=
  after (a, score p a) (b, score p b).

(** Descending order of the score. *)
Definition score_ge (p : QualityProfile) (a b : SearchResult) : Prop :=
  (score_of p b <= score_of p a)%Q.

(** The candidates of one score value. *)
Definition has_score (p : QualityProfile) (q : Q) (c : SearchResult) : bool :=
  Qeq_bool (score_of p c) q.

End Quality.

(* ================================================================== *)
(** ** QualityProfileService: the ranking in binary64 *)
(* ================================================================== *)

Module Ranking.
Import Js Types Quality Double.

(** [rankResults] computes the score with JavaScript numbers, that is in
    binary64, one rounding per operation, in the order of the source:
    [score += ...], [score += bitrateScore], [score -= agePenalty],
    [score -= 20] or [score -= 10].  [None] is NaN, which
    [Math.min(result.age, 30)] yields for a NaN age and which every later
    operation keeps.  A NaN size makes both size comparisons false; a NaN
    or zero bitrate is falsy. *)
Definition score (profile : QualityProfile) (result : SearchResult) : option Q :=
  let score0 : Q := 0%Q in
  let format := toUpperCase (format (quality result)) in
  let formatIndex :=
    findIndex (fun f => String.eqb (toUpperCase f) format) (formats profile) in
  let score1 : Q :=
    match formatIndex with
    | Some i =>
        add score0 (of_Z ((Z.of_nat (length (formats profile)) - Z.of_nat i) * 20))
    | None => score0
    end in
  let score2 : Q :=
    match bitrate (quality result) with
    | Some (Int b) =>
        if truthy_num (Int b) then
          let isLossless := includes ["FLAC"; "ALAC"; "WAV"] format in
          let maxBitrate : Z := if isLossless then 1411 else 320 in
          let bitrateScore := Qmin (mul (div (of_Z b) (of_Z maxBitrate)) 50) 50 in
          add score1 bitrateScore
        else score1
    | _ => score1
    end in
  match age result with
  | NaN => None
  | Int a =>
      let agePenalty := Qmin (of_Z a) 30 in
      let score3 : Q := sub score2 agePenalty in
      Some match size result with
           | NaN => score3
           | Int sz =>
               let sizeMB : Q := div (of_Z sz) (of_Z (1024 * 1024)) in
               if Qlt_bool sizeMB 10 then sub score3 20
               else if Qlt_bool 500 sizeMB then sub score3 10
               else score3
           end
  end.

(** The scored objects [{ result, score }]. *)
Definition Scored : Type := (SearchResult * option Q)%type.

(** [(a, b) => b.score - a.score]; NaN when either score is NaN. *)
Definition comparefn (a b : Scored) : option Q :=
  match snd b, snd a with
  | Some sb, Some sa => Some (sub sb sa)
  | _, _ => None
  end.

(** The sign test of the sort: [comparefn(a, b) > 0]; the sort takes a
    NaN result for zero. *)
Definition after (a b : Scored) : bool :=
  match comparefn a b with
  | Some d => Qlt_bool 0 d
  | None => false
  end.

Definition rankResults (results : list SearchResult) (profile : QualityProfile)
  : list SearchResult :=
  let scored := List.map (fun result => (result, score profile result)) results in
  let sorted := sort after scored in
  List.map fst sorted.

Definition selectBestResult (results : list SearchResult) (profile : QualityProfile)
  : option SearchResult :=
  let filtered := filterResults results profile in
  if Nat.eqb (length filtered) 0 then None
  else
    let ranked := rankResults filtered profile in
    head ranked.

(** *** The ranking formula as the specification words it, in binary64 *)

(** (len - idx) * 20 for a format at position idx of the profile; a
    format that is not listed earns nothing. *)
Definition format_points (p : QualityProfile) (c : SearchResult) : Q :=
  match position_ci (format (quality c)) (formats p) with
  | Some idx => of_Z ((Z.of_nat (length (formats p)) - Z.of_nat idx) * 20)
  | None => 0
  end.

(** min(bitrate / ceiling * 50, 50) for a known bitrate, 0 otherwise. *)
Definition bitrate_points (c : SearchResult) : Q :=
  match bitrate (quality c) with
  | Some (Int b) =>
      Qmin (mul (div (of_Z b) (of_Z (ceiling (format (quality c))))) 50) 50
  | _ => 0
  end.

Definition age_penalty (ageDays : Z) : Q := Qmin (of_Z ageDays) 30.

(** 20 below 10 MB, 10 above 500 MB; nothing for a NaN size. *)
Definition size_penalty (c : SearchResult) : Q :=
  match size c with
  | Int sizeBytes =>
      let sizeMB := div (of_Z sizeBytes) (of_Z (1024 * 1024)) in
      if Qlt_bool sizeMB 10 then 20
      else if Qlt_bool 500 sizeMB then 10
      else 0
  | NaN => 0
  end.

(** The four terms, added and subtracted from left to right. *)
Definition spec_score (p : QualityProfile) (c : SearchResult) (ageDays : Z) : Q :=
  sub (sub (add (format_points p c) (bitrate_points c)) (age_penalty ageDays))
      (size_penalty c).

(** The age is a number, so the score is one. *)
Definition numeric_age (c : SearchResult) : Prop := exists a, age c = Int a.

(** The score of a candidate whose age is a number. *)
Definition score_of (p : QualityProfile) (c : SearchResult) : Q :=
  match score p c with
  | Some q => q
  | None => 0
  end.

(** The comparator on results rather than on scored objects. *)
Definition after_score (p : QualityProfile) (a b : SearchResult) : bool :=
  after (a, score p a) (b, score p b).

(** Descending order of the score. *)
Definition score_ge (p : QualityProfile) (a b : SearchResult) : Prop :=
  (score_of p b <= score_of p a)%Q.

(** The candidates of one score value. *)
Definition has_score (p : QualityProfile) (q : Q) (c : SearchResult) : bool :=
  Qeq_bool (score_of p c) q.

End Ranking.

(* ================================================================== *)
(** ** IndexerService: the result normalizer and the fan-out search *)
(* ================================================================== *)

Module Indexer.
Import Js Types Regex Quality.
(* The ranking [searchAlbum] calls is the one of the code, in binary64. *)

(** ['@_value'] of an attribute as the untyped JSON has it. *)
Inductive AttrValue : Type :=
| Text (s : string)          (* a string *)
| NoText (shown : string).   (* no string: the key is missing, or holds
                                null, a number, a boolean, an object;
                                [shown] is [String(v)], the text that
                                [parseInt] reads *)

(** A missing ['@_value'] reads as [undefined]. *)
Definition undefined : AttrValue := NoText "undefined".

Definition is_text (v : AttrValue) : bool :=
  match v with Text _ => true | NoText _ => false end.

(** [String(v)] *)
Definition shown_as (v : AttrValue) : string :=
  match v with Text s => s | NoText shown => shown end.

(** One entry of [item['newznab:attr']]: null, or an object with its
    ['@_name'] (when that is a string) and its ['@_value'].  An entry
    that is a number, a boolean or a text has no name and no value. *)
Inductive NewznabAttr : Type :=
| NullAttr
| Attr (name : option string) (value : AttrValue).

(** The entry the interface [NewznabItem] declares: two strings. *)
Definition mkAttr (name value : string) : NewznabAttr :=
  Attr (Some name) (Text value).

(** [attr['@_name'] === name] *)
Definition named (name : option string) (expected : string) : bool :=
  match name with
  | Some n => String.eqb n expected
  | None => false
  end.

(** The field [item['newznab:attr']]: absent, one object, or an array. *)
Inductive AttrField : Type :=
| NoAttr
| OneAttr (a : NewznabAttr)
| AttrArray (l : list NewznabAttr).

(** A JSON item; a field the feed leaves out is [None] ([undefined]). *)
Record NewznabItem : Type := mkItem {
  it_title : option string;
  it_guid : option string;
  it_link : option string;
  it_pubDate : option string;
  it_size : option string;
  it_attr : AttrField;
}.

(** What the normalizer builds.  TypeScript declares it a
    [SearchResult], but on the JSON path [quality.format] is whatever the
    format attribute held: [format_is_string] tells whether that was a
    string.  When it was not, the field [format] of [candidate] shows the
    value as text, and every method call on it ([toUpperCase] in
    [filterResults] and [rankResults]) throws a TypeError. *)
Record Parsed : Type := mkParsed {
  candidate :> SearchResult;
  format_is_string : bool;
}.

(** A candidate whose fields have their declared types. *)
Definition typed (c : SearchResult) : Parsed :=
  {| candidate := c; format_is_string := true |}.

Definition truthy_opt_string (o : option string) : bool :=
  match o with
  | Some s => truthy_string s
  | None => false
  end.

Section Normalizer.

(** [new Date(s).getTime()]: the time value in milliseconds, NaN for an
    invalid date.  The constructor never throws. *)
Variable Date_parse : string -> num.

(** [new Date().getTime()] at the time of the search. *)
Variable now : Z.

(** The [catch] of the source is unreachable: neither [new Date] nor
    [getTime] throws.  A NaN time value gives NaN. *)
Definition calculateAge (pubDate : string) : num :=
  match Date_parse pubDate with
  | NaN => NaN
  | Int date =>
      let diffMs := now - date in
      Int (diffMs / (1000 * 60 * 60 * 24))
  end.

Definition parseXmlItem (itemXml indexerName : string) : option SearchResult :=
  let title := extractXmlValue itemXml "title" in
  let link := extractXmlValue itemXml "link" in
  let size := extractXmlValue itemXml "size" in
  let pubDate := extractXmlValue itemXml "pubDate" in
  if negb (truthy_string title) || negb (truthy_string link) then None
  else
    let format :=
      match extractNewznabAttr itemXml "format" with
      | Some f => if truthy_string f then f else "Unknown"
      | None => "Unknown"
      end in
    let bitrateStr := extractNewznabAttr itemXml "bitrate" in
    let bitrate :=
      if truthy_opt_string bitrateStr
      then match bitrateStr with Some b => Some (parseInt b) | None => None end
      else None in
    let age := if truthy_string pubDate then calculateAge pubDate else Int 0 in
    Some {| title := title;
            nzbUrl := link;
            size := if truthy_string size then parseInt size else Int 0;
            age := age;
            indexer := indexerName;
            quality := {| format := format; bitrate := bitrate |} |}.

(** The loop over the attributes, from the values [acc] of [format] and
    [bitrate] so far: the last [format] and the last [bitrate] entry win.
    Reading ['@_name'] of a null entry throws; that is [None]. *)
Fixpoint read_attrs (attrs : list NewznabAttr) (acc : AttrValue * option num)
  : option (AttrValue * option num) :=
  match attrs with
  | [] => Some acc
  | NullAttr :: _ => None
  | Attr name value :: attrs' =>
      read_attrs attrs'
        (if named name "format" then (value, snd acc)
         else if named name "bitrate"
              then (fst acc, Some (parseInt (shown_as value)))
              else acc)
  end.

(** The whole body runs inside [try]; the one statement that can throw
    is the loop over the attributes, and the [catch] returns null. *)
Definition parseNewznabItem (item : NewznabItem) (indexerName : string)
  : option Parsed :=
  if negb (truthy_opt_string (it_title item)) || negb (truthy_opt_string (it_link item))
  then None
  else
    match it_title item, it_link item with
    | Some title, Some link =>
        let start : AttrValue * option num := (Text "Unknown", None) in
        let attrs :=
          match it_attr item with
          | NoAttr => Some start
          | OneAttr NullAttr => Some start        (* null is falsy *)
          | OneAttr a => read_attrs [a] start
          | AttrArray l => read_attrs l start
          end in
        match attrs with
        | None => None
        | Some (format, bitrate) =>
            let age :=
              match it_pubDate item with
              | Some pubDate =>
                  if truthy_string pubDate then calculateAge pubDate else Int 0
              | None => Int 0
              end in
            Some {| candidate :=
                      {| title := title;
                         nzbUrl := link;
                         size := match it_size item with
                                 | Some size =>
                                     if truthy_string size then parseInt size else Int 0
                                 | None => Int 0
                                 end;
                         age := age;
                         indexer := indexerName;
                         quality := {| format := shown_as format;
                                       bitrate := bitrate |} |};
                    format_is_string := is_text format |}
        end
    | _, _ => None
    end.

(** [data.rss?.channel?.item]: absent, one item, or an array. *)
Inductive JsonItems : Type :=
| ItemsAbsent
| ItemsOne (i : NewznabItem)
| ItemsArray (l : list NewznabItem).

(** [response.data]: an object (JSON) or a string (XML). *)
Inductive Payload : Type :=
| JsonData (items : JsonItems)
| XmlData (xml : string).

(** [results.push(result)] for every item that parses. *)
Definition keep_parsed {A R : Type} (parse : A -> option R) (l : list A)
  : list R :=
  fold_left (fun (results : list R) (x : A) =>
               match parse x with
               | Some result => (results ++ [result])%list
               | None => results
               end) l [].

Definition parseNewznabJson (items : JsonItems) (indexerName : string)
  : list Parsed :=
  match items with
  | ItemsAbsent => []
  | ItemsOne i => keep_parsed (fun it => parseNewznabItem it indexerName) [i]
  | ItemsArray l => keep_parsed (fun it => parseNewznabItem it indexerName) l
  end.

(** The XML path only ever stores strings. *)
Definition parseNewznabXml (xmlData indexerName : string) : list Parsed :=
  let matches := matchAll (String.length xmlData) false itemRegex xmlData in
  keep_parsed (fun itemXml => option_map typed (parseXmlItem itemXml indexerName))
              matches.

Definition parseNewznabResponse (data : Payload) (indexerName : string)
  : list Parsed :=
  match data with
  | JsonData items => parseNewznabJson items indexerName
  | XmlData xml => parseNewznabXml xml indexerName
  end.

(** What [client.get] does: it rejects (network error, timeout, error
    status) or resolves with a payload. *)
Inductive Reply : Type :=
| Rejected (message : string)
| Resolved (data : Payload).

(** The indexer backends: base URL, API key, artist, album. *)
Variable http_get : string -> string -> string -> string -> Reply.

Record IndexerService : Type := mkIndexerService {
  indexers : list IndexerConfig;
  clients : gmap string string;          (* indexer id to client base URL *)
  qualityProfileService : bool;          (* the optional collaborator *)
}.

(** The constructor creates one client per configured indexer. *)
Definition newIndexerService (indexers : list IndexerConfig) (qps : bool)
  : IndexerService :=
  {| indexers := indexers;
     clients := fold_left (fun m indexer => <[ix_id indexer := ix_url indexer]> m)
                          indexers ∅;
     qualityProfileService := qps |}.

Definition searchIndexer (svc : IndexerService) (indexer : IndexerConfig)
  (artist album : string) : result (list Parsed) :=
  match clients svc !! ix_id indexer with
  | None => Throw "No client found for indexer"
  | Some client =>
      match http_get client (ix_apiKey indexer) artist album with
      | Rejected message => Throw message
      | Resolved data => Ok (parseNewznabResponse data (ix_name indexer))
      end
  end.

(** [promise.catch(error => [])] *)
Definition catch_empty (r : result (list Parsed)) : list Parsed :=
  match r with
  | Ok l => l
  | Throw _ => []
  end.

(** [filterResults] and [rankResults] as [searchAlbum] calls them, on
    candidates as the normalizer built them: the callback of the filter
    starts with [result.quality.format.toUpperCase()], which throws a
    TypeError on the first candidate whose format is not a string, and
    the filter visits every candidate. *)
Definition filter_and_rank (allResults : list Parsed) (profile : QualityProfile)
  : result (list Parsed) :=
  if forallb format_is_string allResults
  then
    let filteredResults := filterResults (List.map candidate allResults) profile in
    Ok (List.map typed (Ranking.rankResults filteredResults profile))
  else Throw "TypeError: result.quality.format.toUpperCase is not a function".

(** [Promise.all] of promises that cannot reject resolves with their
    values in the order of the promises.  The filter and the ranking run
    after it, outside every [catch]. *)
Definition searchAlbum (svc : IndexerService) (artist album : string)
  (qualityProfile : option QualityProfile) : result (list Parsed) :=
  let enabledIndexers := List.filter ix_enabled (indexers svc) in
  if Nat.eqb (length enabledIndexers) 0
  then Throw "No enabled indexers configured"
  else
    let searchPromises :=
      List.map (fun indexer => catch_empty (searchIndexer svc indexer artist album))
               enabledIndexers in
    let results := searchPromises in
    let allResults := List.concat results in
    match qualityProfile with
    | Some profile =>
        if qualityProfileService svc
        then filter_and_rank allResults profile
        else Ok allResults
    | None => Ok allResults
    end.

(** The enabled indexers whose query succeeded, and the union of their
    results in the order of the indexers. *)
Definition succeeded (svc : IndexerService) (artist album : string)
  : list IndexerConfig :=
  List.filter (fun indexer =>
                 match searchIndexer svc indexer artist album with
                 | Ok _ => true
                 | Throw _ => false
                 end)
              (List.filter ix_enabled (indexers svc)).

Definition union_of_succeeded (svc : IndexerService) (artist album : string)
  : list Parsed :=
  List.concat
    (List.map (fun indexer => catch_empty (searchIndexer svc indexer artist album))
              (succeeded svc artist album)).

End Normalizer.

(** The items of a JSON response as a list. *)
Definition items_of (items : JsonItems) : list NewznabItem :=
  match items with
  | ItemsAbsent => []
  | ItemsOne i => [i]
  | ItemsArray l => l
  end.

(** The attributes of a JSON item as a list. *)
Definition attrs_of (item : NewznabItem) : list NewznabAttr :=
  match it_attr item with
  | NoAttr => []
  | OneAttr NullAttr => []
  | OneAttr a => [a]
  | AttrArray l => l
  end.

(** The value of the last attribute of the given name. *)
Fixpoint last_value (expected : string) (attrs : list NewznabAttr)
  : option AttrValue :=
  match attrs with
  | [] => None
  | a :: attrs' =>
      match last_value expected attrs' with
      | Some v => Some v
      | None =>
          match a with
          | Attr name value => if named name expected then Some value else None
          | NullAttr => None
          end
      end
  end.

(** No entry of the list is null. *)
Definition no_null_entry (attrs : list NewznabAttr) : bool :=
  forallb (fun a => match a with NullAttr => false | Attr _ _ => true end) attrs.

End Indexer.

(* ================================================================== *)
(** ** QualityProfileRepository and the profile operations of
       QualityProfileService *)
(* ================================================================== *)

Module Profiles.
Import Js Types.

(** The table [quality_profiles], rows in insertion order.  The schema
    declares [id TEXT PRIMARY KEY] and [name TEXT NOT NULL UNIQUE]; a
    statement that would break a constraint throws and changes nothing.
    Every [db.run] commits on its own: there is no transaction around
    the statements of one repository call. *)
Definition table : Type := list QualityProfile.

(** [Omit<QualityProfile, 'id' | 'createdAt'>] *)
Record NewProfile : Type := mkNewProfile {
  np_name : string;
  np_formats : list string;
  np_minBitrate : option Z;
  np_maxFileSize : option Z;
  np_isDefault : bool;
}.

(** [Partial<QualityProfile>], the fields [update] looks at. *)
Record ProfileUpdates : Type := mkProfileUpdates {
  u_name : option string;
  u_formats : option (list string);
  u_minBitrate : option Z;
  u_maxFileSize : option Z;
  u_isDefault : option bool;
}.

Definition set_isDefault (b : bool) (r : QualityProfile) : QualityProfile :=
  {| qp_id := qp_id r; qp_name := qp_name r; formats := formats r;
     minBitrate := minBitrate r; maxFileSize := maxFileSize r;
     isDefault := b; qp_createdAt := qp_createdAt r |}.

Definition has_id (id : string) (r : QualityProfile) : bool :=
  String.eqb (qp_id r) id.

Definition has_name (name : string) (r : QualityProfile) : bool :=
  String.eqb (qp_name r) name.

(** [UPDATE quality_profiles SET is_default = 0] *)
Definition clear_defaults (t : table) : table :=
  List.map (set_isDefault false) t.

(** [UPDATE quality_profiles SET is_default = 1 WHERE id = ?] *)
Definition mark_default (id : string) (t : table) : table :=
  List.map (fun r => if has_id id r then set_isDefault true r else r) t.

Definition findById (id : string) (t : table) : option QualityProfile :=
  List.find (has_id id) t.

Definition findByName (name : string) (t : table) : option QualityProfile :=
  List.find (has_name name) t.

(** [SELECT * FROM quality_profiles WHERE is_default = 1], first row. *)
Definition findDefault (t : table) : option QualityProfile :=
  List.find isDefault t.

(** [create]; [id] is the value of [uuidv4()], [now] the creation date. *)
Definition create (id : string) (now : Z) (profile : NewProfile) (t : table)
  : result QualityProfile * table :=
  let t1 := if np_isDefault profile then clear_defaults t else t in
  let row := {| qp_id := id; qp_name := np_name profile;
                formats := np_formats profile;
                minBitrate := np_minBitrate profile;
                maxFileSize := np_maxFileSize profile;
                isDefault := if np_isDefault profile then true else false;
                qp_createdAt := now |} in
  if existsb (has_id id) t1 || existsb (has_name (np_name profile)) t1
  then (Throw "constraint failed", t1)
  else
    let t2 := (t1 ++ [row])%list in
    match findById id t2 with
    | Some created => (Ok created, t2)
    | None => (Throw "not found", t2)
    end.

Definition no_clause (u : ProfileUpdates) : bool :=
  match u_name u, u_formats u, u_minBitrate u, u_maxFileSize u, u_isDefault u with
  | None, None, None, None, None => true
  | _, _, _, _, _ => false
  end.

Definition or_keep {A : Type} (o : option A) (old : A) : A :=
  match o with
  | Some new => new
  | None => old
  end.

(** The [SET] clauses of [update] applied to one row. *)
Definition apply_updates (u : ProfileUpdates) (r : QualityProfile) : QualityProfile :=
  {| qp_id := qp_id r;
     qp_name := or_keep (u_name u) (qp_name r);
     formats := or_keep (u_formats u) (formats r);
     minBitrate := match u_minBitrate u with
                   | Some b => Some b
                   | None => minBitrate r
                   end;
     maxFileSize := match u_maxFileSize u with
                    | Some m => Some m
                    | None => maxFileSize r
                    end;
     isDefault := match u_isDefault u with
                  | Some b => if b then true else false
                  | None => isDefault r
                  end;
     qp_createdAt := qp_createdAt r |}.

(** The new name of the updated row is taken by another row. *)
Definition name_taken (id : string) (u : ProfileUpdates) (t : table) : bool :=
  match u_name u with
  | Some name =>
      existsb (has_id id) t &&
      existsb (fun r => negb (has_id id r) && has_name name r) t
  | None => false
  end.

(** [update]; without any clause the statement is not valid SQL. *)
Definition update (id : string) (updates : ProfileUpdates) (t : table)
  : result (option QualityProfile) * table :=
  let t1 := match u_isDefault updates with
            | Some true => clear_defaults t
            | _ => t
            end in
  if no_clause updates then (Throw "syntax error", t1)
  else if name_taken id updates t1 then (Throw "constraint failed", t1)
  else
    let t2 := List.map (fun r => if has_id id r then apply_updates updates r else r) t1 in
    (Ok (findById id t2), t2).

(** [DELETE FROM quality_profiles WHERE id = ?] *)
Definition delete (id : string) (t : table) : table :=
  List.filter (fun r => negb (has_id id r)) t.

Definition setDefault (id : string) (t : table) : option QualityProfile * table :=
  let t1 := clear_defaults t in
  let t2 := mark_default id t1 in
  (findById id t2, t2).

(** *** QualityProfileService *)

Definition validFormats : list string :=
  ["FLAC"; "MP3"; "M4A"; "AAC"; "OGG"; "WAV"; "ALAC"].

Definition all_valid (fs : list string) : bool :=
  forallb (fun f => existsb (String.eqb (toUpperCase f)) validFormats) fs.

Definition negative (o : option Z) : bool :=
  match o with
  | Some z => z <? 0
  | None => false
  end.

Definition createProfile (id : string) (now : Z) (profile : NewProfile) (t : table)
  : result QualityProfile * table :=
  if is_empty (np_name profile)
  then (Throw "Quality profile name is required", t)
  else if Nat.eqb (length (np_formats profile)) 0
  then (Throw "At least one format must be specified", t)
  else match findByName (np_name profile) t with
  | Some _ => (Throw "Quality profile with this name already exists", t)
  | None =>
      if negb (all_valid (np_formats profile)) then (Throw "Invalid format", t)
      else if negative (np_minBitrate profile)
      then (Throw "Minimum bitrate must be a positive number", t)
      else if negative (np_maxFileSize profile)
      then (Throw "Maximum file size must be a positive number", t)
      else create id now profile t
  end.

Definition updateProfile (id : string) (updates : ProfileUpdates) (t : table)
  : result QualityProfile * table :=
  match findById id t with
  | None => (Throw "Quality profile not found", t)
  | Some existing =>
      if match u_name updates with
         | Some name =>
             truthy_string name && negb (String.eqb name (qp_name existing)) &&
             match findByName name t with Some _ => true | None => false end
         | None => false
         end
      then (Throw "Quality profile with this name already exists", t)
      else if match u_formats updates with
              | Some fs => Nat.eqb (length fs) 0
              | None => false
              end
      then (Throw "At least one format must be specified", t)
      else if match u_formats updates with
              | Some fs => negb (all_valid fs)
              | None => false
              end
      then (Throw "Invalid format", t)
      else if negative (u_minBitrate updates)
      then (Throw "Minimum bitrate must be a positive number", t)
      else if negative (u_maxFileSize updates)
      then (Throw "Maximum file size must be a positive number", t)
      else
        match update id updates t with
        | (Ok (Some updated), t') => (Ok updated, t')
        | (Ok None, t') => (Throw "Failed to update quality profile", t')
        | (Throw m, t') => (Throw m, t')
        end
  end.

Definition deleteProfile (id : string) (t : table) : result unit * table :=
  match findById id t with
  | None => (Throw "Quality profile not found", t)
  | Some existing =>
      if isDefault existing
      then (Throw "Cannot delete the default quality profile", t)
      else (Ok tt, delete id t)
  end.

Definition setDefaultProfile (id : string) (t : table)
  : result QualityProfile * table :=
  match findById id t with
  | None => (Throw "Quality profile not found", t)
  | Some _ =>
      match setDefault id t with
      | (Some updated, t') => (Ok updated, t')
      | (None, t') => (Throw "Failed to set quality profile as default", t')
      end
  end.

(** *** The invariants *)

(** The primary key. *)
Definition pk_unique (t : table) : Prop := List.NoDup (List.map qp_id t).

Definition defaults (t : table) : list QualityProfile := List.filter isDefault t.

Definition at_most_one_default (t : table) : Prop :=
  (length (defaults t) <= 1)%nat.

Definition table_ok (t : table) : Prop := at_most_one_default t /\ pk_unique t.

(** The profile operations, repository and service level. *)
Inductive operation : Type :=
| OpCreate (id : string) (now : Z) (profile : NewProfile)
| OpUpdate (id : string) (updates : ProfileUpdates)
| OpSetDefault (id : string)
| OpCreateProfile (id : string) (now : Z) (profile : NewProfile)
| OpUpdateProfile (id : string) (updates : ProfileUpdates)
| OpSetDefaultProfile (id : string).

(** The table an operation leaves behind, whether it returns or throws. *)
Definition run (op : operation) (t : table) : table :=
  match op with
  | OpCreate id now profile => snd (create id now profile t)
  | OpUpdate id updates => snd (update id updates t)
  | OpSetDefault id => snd (setDefault id t)
  | OpCreateProfile id now profile => snd (createProfile id now profile t)
  | OpUpdateProfile id updates => snd (updateProfile id updates t)
  | OpSetDefaultProfile id => snd (setDefaultProfile id t)
  end.

End Profiles.

(* ================================================================== *)
(** ** DownloadRepository *)
(* ================================================================== *)

Module DownloadRepo.
Import Js Types.

(** The table [downloads]; [id TEXT PRIMARY KEY]. *)
Definition table : Type := list Download.

(** [Omit<Download, 'id' | 'initiatedAt'>] *)
Record NewDownload : Type := mkNewDownload {
  nd_albumId : string;
  nd_sabnzbdId : option string;
  nd_indexerName : option string;
  nd_status : Status;
  nd_progress : Z;
  nd_qualityProfileId : option string;
  nd_completedAt : option Z;
  nd_errorMessage : option string;
}.

(** [Partial<Download>], the fields [update] looks at. *)
Record Updates : Type := mkUpdates {
  up_sabnzbdId : option string;
  up_status : option Status;
  up_progress : option Z;
  up_completedAt : option Z;
  up_errorMessage : option string;
}.

Definition has_id (id : string) (d : Download) : bool := String.eqb (d_id d) id.

Definition is_terminal (s : Status) : bool :=
  match s with
  | completed | failed => true
  | queued | downloading => false
  end.

Definition findById (id : string) (t : table) : option Download :=
  List.find (has_id id) t.

(** [create]; [id] is the value of [uuidv4()]. *)
Definition create (id : string) (now : Z) (download : NewDownload) (t : table)
  : result Download * table :=
  let row := {| d_id := id;
                d_albumId := nd_albumId download;
                sabnzbdId := nd_sabnzbdId download;
                indexerName := nd_indexerName download;
                status := nd_status download;
                progress := nd_progress download;
                qualityProfileId := nd_qualityProfileId download;
                initiatedAt := now;
                completedAt := nd_completedAt download;
                errorMessage := nd_errorMessage download |} in
  if existsb (has_id id) t then (Throw "constraint failed", t)
  else
    let t' := (t ++ [row])%list in
    match findById id t' with
    | Some created => (Ok created, t')
    | None => (Throw "not found", t')
    end.

(** [ORDER BY initiated_at DESC].  The query does not say in which order
    rows of one timestamp come; they are listed in insertion order
    here. *)
Definition newest_first (t : table) : table :=
  sort (fun a b => initiatedAt a <? initiatedAt b) t.

Definition findActive (t : table) : list Download :=
  newest_first (List.filter (fun d => negb (is_terminal (status d))) t).

Definition no_clause (u : Updates) : bool :=
  match up_sabnzbdId u, up_status u, up_progress u, up_completedAt u,
        up_errorMessage u with
  | None, None, None, None, None => true
  | _, _, _, _, _ => false
  end.

Definition or_set {A : Type} (new : option A) (old : option A) : option A :=
  match new with
  | Some x => Some x
  | None => old
  end.

(** The [SET] clauses of [update] applied to one row. *)
Definition apply_updates (u : Updates) (d : Download) : Download :=
  {| d_id := d_id d;
     d_albumId := d_albumId d;
     sabnzbdId := or_set (up_sabnzbdId u) (sabnzbdId d);
     indexerName := indexerName d;
     status := match up_status u with Some s => s | None => status d end;
     progress := match up_progress u with Some p => p | None => progress d end;
     qualityProfileId := qualityProfileId d;
     initiatedAt := initiatedAt d;
     completedAt := or_set (up_completedAt u) (completedAt d);
     errorMessage := or_set (up_errorMessage u) (errorMessage d) |}.

(** [UPDATE downloads SET ... WHERE id = ?] *)
Definition update_where (id : string) (u : Updates) (t : table) : table :=
  List.map (fun d => if has_id id d then apply_updates u d else d) t.

(** [update]; without any clause the statement is not valid SQL. *)
Definition update (id : string) (updates : Updates) (t : table)
  : result (option Download) * table :=
  if no_clause updates then (Throw "syntax error", t)
  else
    let t' := update_where id updates t in
    (Ok (findById id t'), t').

(** [updateStatus]; [now] is [new Date()]. *)
Definition updateStatus (now : Z) (id : string) (status : Status) (progress : Z)
  (t : table) : result (option Download) * table :=
  let updates := {| up_sabnzbdId := None; up_status := Some status;
                    up_progress := Some progress; up_completedAt := None;
                    up_errorMessage := None |} in
  let updates :=
    if is_terminal status
    then {| up_sabnzbdId := up_sabnzbdId updates; up_status := up_status updates;
            up_progress := up_progress updates; up_completedAt := Some now;
            up_errorMessage := up_errorMessage updates |}
    else updates in
  update id updates t.

Definition delete (id : string) (t : table) : table :=
  List.filter (fun d => negb (has_id id d)) t.

(** What [updateStatus] is expected to store in a row it writes. *)
Definition stamped (now : Z) (st : Status) (pr : Z) (d : Download) : Download :=
  {| d_id := d_id d;
     d_albumId := d_albumId d;
     sabnzbdId := sabnzbdId d;
     indexerName := indexerName d;
     status := st;
     progress := pr;
     qualityProfileId := qualityProfileId d;
     initiatedAt := initiatedAt d;
     completedAt := if is_terminal st then Some now else completedAt d;
     errorMessage := errorMessage d |}.

End DownloadRepo.

(* ================================================================== *)
(** ** The application state and its external collaborators *)
(* ================================================================== *)

Module App.
Import Js Types.

(** Outbound calls, in the order they are made. *)
Inductive Request : Type :=
| ReqDiscography (artistName : string)
| ReqIndexerSearch (baseUrl artist album : string)
| ReqSabAddUrl (nzbUrl category : string)
| ReqSabQueue
| ReqSabHistory.

(** The database, the log of outbound calls, the number of identifiers
    drawn from [uuidv4] and the busy flag of the monitoring service. *)
Record World : Type := mkWorld {
  artists : list Artist;
  albums : list Album;
  downloads : list Download;
  profiles : list QualityProfile;
  indexerTable : list IndexerConfig;
  config : gmap string string;
  requests : list Request;
  drawn : nat;
  isRunning : bool;
}.

Definition set_artists (f : list Artist -> list Artist) (w : World) : World :=
  mkWorld (f (artists w)) (albums w) (downloads w) (profiles w) (indexerTable w)
          (config w) (requests w) (drawn w) (isRunning w).

Definition set_albums (f : list Album -> list Album) (w : World) : World :=
  mkWorld (artists w) (f (albums w)) (downloads w) (profiles w) (indexerTable w)
          (config w) (requests w) (drawn w) (isRunning w).

Definition set_downloads (f : list Download -> list Download) (w : World) : World :=
  mkWorld (artists w) (albums w) (f (downloads w)) (profiles w) (indexerTable w)
          (config w) (requests w) (drawn w) (isRunning w).

Definition add_requests (rs : list Request) (w : World) : World :=
  mkWorld (artists w) (albums w) (downloads w) (profiles w) (indexerTable w)
          (config w) (requests w ++ rs)%list (drawn w) (isRunning w).

Definition set_drawn (n : nat) (w : World) : World :=
  mkWorld (artists w) (albums w) (downloads w) (profiles w) (indexerTable w)
          (config w) (requests w) n (isRunning w).

Definition set_isRunning (b : bool) (w : World) : World :=
  mkWorld (artists w) (albums w) (downloads w) (profiles w) (indexerTable w)
          (config w) (requests w) (drawn w) b.

(** A computation on the state that returns or throws; what it wrote
    before throwing stays written. *)
Definition M (A : Type) : Type := World -> result A * World.

Definition ret {A : Type} (a : A) : M A := fun w => (Ok a, w).

Definition throw {A : Type} (message : string) : M A := fun w => (Throw message, w).

Definition bind {A B : Type} (m : M A) (k : A -> M B) : M B :=
  fun w =>
    match m w with
    | (Ok a, w') => k a w'
    | (Throw e, w') => (Throw e, w')
    end.

(** [try { m } catch (e) { h e }] *)
Definition try_catch {A : Type} (m : M A) (h : string -> M A) : M A :=
  fun w =>
    match m w with
    | (Ok a, w') => (Ok a, w')
    | (Throw e, w') => h e w'
    end.

Definition gets {A : Type} (f : World -> A) : M A := fun w => (Ok (f w), w).

Definition modify (f : World -> World) : M unit := fun w => (Ok tt, f w).

(** A repository call on one table. *)
Definition on_table {T A : Type} (get : World -> T)
  (set : (T -> T) -> World -> World) (op : T -> result A * T) : M A :=
  fun w => let '(r, t') := op (get w) in (r, set (fun _ => t') w).

Declare Scope monad_scope.
Delimit Scope monad_scope with monad.
Notation "x <- m ;; k" := (bind m (fun x => k))
  (at level 100, m at next level, right associativity) : monad_scope.
Notation "m ;;; k" := (bind m (fun _ => k))
  (at level 100, right associativity) : monad_scope.
Open Scope monad_scope.

(** [for (const x of l) { body x }] *)
Fixpoint for_each {A : Type} (body : A -> M unit) (l : list A) : M unit :=
  match l with
  | [] => ret tt
  | x :: l' => body x ;;; for_each body l'
  end.

(** [m] keeps the property [I] of the state, whether it returns or
    throws. *)
Definition preserves {A : Type} (I : World -> Prop) (m : M A) : Prop :=
  forall w, I w -> I (snd (m w)).

(** The replies of the download client. *)
Inductive AddReply : Type :=
| AddRejected (message : string)      (* the request fails *)
| AddRefused (error : option string)  (* [data.status === false] *)
| AddAccepted (nzo_ids : list string).

Record QueueItem : Type := mkQueueItem {
  q_nzo_id : string;
  q_percentage : string;
  q_status : string;
}.

Record HistoryItem : Type := mkHistoryItem {
  h_nzo_id : string;
  h_status : string;
  h_fail_message : string;
}.

(** The world outside: every reply may depend on the calls made so far.
    A failed request is [None] or a [Throw]. *)
Record Env : Type := mkEnv {
  uuidv4 : nat -> string;
  Date_parse : string -> num;
  getArtistDiscography : list Request -> string -> result Discography;
  indexer_get : list Request -> string -> string -> string -> string -> Indexer.Reply;
  sab_addurl : list Request -> string -> string -> AddReply;
  sab_queue : list Request -> option (list QueueItem);
  sab_history : list Request -> option (list HistoryItem);
}.

End App.

(* ================================================================== *)
(** ** The remaining repositories *)
(* ================================================================== *)

Module Repos.
Import Js Types.

(** *** AlbumRepository *)

Record NewAlbum : Type := mkNewAlbum {
  na_artistId : string;
  na_title : string;
  na_releaseYear : option Z;
  na_trackCount : option Z;
  na_artworkUrl : option string;
  na_localPath : option string;
  na_isOwned : bool;
}.

Definition album_create (id : string) (now : Z) (album : NewAlbum) (t : list Album)
  : result Album * list Album :=
  let row := {| al_id := id; al_artistId := na_artistId album;
                al_title := na_title album;
                al_releaseYear := na_releaseYear album;
                al_trackCount := na_trackCount album;
                al_artworkUrl := na_artworkUrl album;
                al_localPath := na_localPath album;
                isOwned := if na_isOwned album then true else false;
                al_createdAt := now; al_updatedAt := now |} in
  if existsb (fun a => String.eqb (al_id a) id) t then (Throw "constraint failed", t)
  else
    let t' := (t ++ [row])%list in
    match List.find (fun a => String.eqb (al_id a) id) t' with
    | Some created => (Ok created, t')
    | None => (Throw "not found", t')
    end.

Definition album_findById (id : string) (t : list Album) : option Album :=
  List.find (fun a => String.eqb (al_id a) id) t.

(** The rows of one artist.  The [ORDER BY] of the query is left out: the
    only caller in this development puts the titles into a set. *)
Definition album_findByArtistId (artistId : string) (t : list Album) : list Album :=
  List.filter (fun a => String.eqb (al_artistId a) artistId) t.

(** *** ArtistRepository *)

Definition artist_findById (id : string) (t : list Artist) : option Artist :=
  List.find (fun a => String.eqb (a_id a) id) t.

(** [SELECT * FROM artists WHERE monitored = 1] *)
Definition getMonitored (t : list Artist) : list Artist :=
  List.filter monitored t.

(** [update(id, { lastChecked })] *)
Definition artist_touch (id : string) (now : Z) (checked : Z) (t : list Artist)
  : list Artist :=
  List.map (fun a =>
              if String.eqb (a_id a) id
              then {| a_id := a_id a; a_name := a_name a; monitored := monitored a;
                      albumCount := albumCount a; lastChecked := Some checked;
                      a_createdAt := a_createdAt a; a_updatedAt := now |}
              else a) t.

Definition incrementAlbumCount (artistId : string) (now : Z) (t : list Artist)
  : list Artist :=
  List.map (fun a =>
              if String.eqb (a_id a) artistId
              then {| a_id := a_id a; a_name := a_name a; monitored := monitored a;
                      albumCount := albumCount a + 1; lastChecked := lastChecked a;
                      a_createdAt := a_createdAt a; a_updatedAt := now |}
              else a) t.

(** *** IndexerRepository *)

(** [SELECT * FROM indexers WHERE enabled = 1 ORDER BY name ASC] *)
Definition findEnabled (t : list IndexerConfig) : list IndexerConfig :=
  sort (fun a b => String.ltb (ix_name b) (ix_name a)) (List.filter ix_enabled t).

(** *** ConfigRepository *)

Definition getSabnzbdConfig (config : gmap string string) : option SabnzbdConfig :=
  match config !! "sabnzbd_url", config !! "sabnzbd_api_key" with
  | Some url, Some apiKey =>
      if negb (truthy_string url) || negb (truthy_string apiKey) then None
      else Some {| sab_url := url; sab_apiKey := apiKey |}
  | _, _ => None
  end.

End Repos.

(* ================================================================== *)
(** ** SabnzbdService, DownloadService, MonitoringService *)
(* ================================================================== *)

Module Services.
Import Js Types App Repos.

(** *** Pure helpers *)

Definition mapSabnzbdStatus (status : string) : Status :=
  let statusLower := toLowerCase status in
  if String.eqb statusLower "paused" || String.eqb statusLower "queued" then queued
  else if String.eqb statusLower "downloading" || String.eqb statusLower "fetching"
  then downloading
  else queued.

Definition mapHistoryStatus (status : string) : Status :=
  let statusLower := toLowerCase status in
  if String.eqb statusLower "completed" then completed
  else if String.eqb statusLower "failed" then failed
  else completed.

Definition is_failed (s : Status) : bool :=
  match s with
  | failed => true
  | _ => false
  end.

(** [parseInt(s, 10) || 0] *)
Definition parseInt_or_0 (s : string) : Z :=
  match parseInt s with
  | Int z => z
  | NaN => 0
  end.

(** [MonitoringService.normalizeTitle] *)
Definition normalizeTitle (title : string) : string :=
  collapse_spaces false
    (filter_string (fun c => is_word c || is_space c)
       (trim (toLowerCase title))).

(** The set of normalized titles of the albums on record. *)
Definition existingTitles (existingAlbums : list Album) : gset string :=
  list_to_set (List.map (fun album => normalizeTitle (al_title album)) existingAlbums).

(** [discography.albums.filter(album => !existingTitles.has(...))] *)
Definition newAlbums (existingAlbums : list Album) (albums : list AlbumMetadata)
  : list AlbumMetadata :=
  List.filter
    (fun album =>
       negb (bool_decide (normalizeTitle (am_title album) ∈ existingTitles existingAlbums)))
    albums.

(** The throttle: [(Date.now() - lastChecked.getTime()) / (1000 * 60 * 60) < 24]. *)
Definition checked_recently (now : Z) (artist : Artist) : bool :=
  match lastChecked artist with
  | Some checked =>
      let hoursSinceLastCheck :=
        (inject_Z (now - checked) / inject_Z (1000 * 60 * 60))%Q in
      Qlt_bool hoursSinceLastCheck 24%Q
  | None => false
  end.

Section Services.

Variable env : Env.

(** [Date.now()] and [new Date()] during the operation at hand. *)
Variable now : Z.

Definition request (r : Request) : M unit := modify (add_requests [r]).

Definition fresh_id : M string :=
  fun w => (Ok (uuidv4 env (drawn w)), set_drawn (S (drawn w)) w).

(** *** SabnzbdService *)

Definition sendNzbUrl (nzbUrl category : string) : M string :=
  log <- gets requests ;;
  request (ReqSabAddUrl nzbUrl category) ;;;
  match sab_addurl env log nzbUrl category with
  | AddRejected message => throw message
  | AddRefused _ => throw "Failed to add NZB to SABnzbd"
  | AddAccepted [] => throw "SABnzbd did not return a download ID"
  | AddAccepted (nzo_id :: _) => ret nzo_id
  end.

Definition getDownloadStatus (sabnzbdId : string) : M DownloadStatus :=
  log <- gets requests ;;
  request ReqSabQueue ;;;
  match sab_queue env log with
  | None => throw "Failed to get download status"
  | Some queueSlots =>
      match List.find (fun item => String.eqb (q_nzo_id item) sabnzbdId) queueSlots with
      | Some queueItem =>
          let progress := parseInt_or_0 (q_percentage queueItem) in
          let status := mapSabnzbdStatus (q_status queueItem) in
          ret {| ds_id := sabnzbdId; ds_status := status; ds_progress := progress;
                 ds_errorMessage := None |}
      | None =>
          log <- gets requests ;;
          request ReqSabHistory ;;;
          match sab_history env log with
          | None => throw "Failed to get download status"
          | Some historySlots =>
              match List.find (fun item => String.eqb (h_nzo_id item) sabnzbdId)
                              historySlots with
              | Some historyItem =>
                  let status := mapHistoryStatus (h_status historyItem) in
                  let progress :=
                    match status with completed => 100 | _ => 0 end in
                  ret {| ds_id := sabnzbdId; ds_status := status;
                         ds_progress := progress;
                         ds_errorMessage :=
                           if truthy_string (h_fail_message historyItem)
                           then Some (h_fail_message historyItem) else None |}
              | None => throw "Download not found in SABnzbd"
              end
          end
      end
  end.

(** *** DownloadService *)

(** One request per enabled indexer, in the order of the fan-out. *)
Definition search_requests (svc : Indexer.IndexerService) (artist album : string)
  : list Request :=
  List.concat
    (List.map (fun indexer =>
                 match Indexer.clients svc !! ix_id indexer with
                 | Some client => [ReqIndexerSearch client artist album]
                 | None => []
                 end)
              (List.filter ix_enabled (Indexer.indexers svc))).

Definition lift_result {A : Type} (r : result A) : M A :=
  match r with
  | Ok a => ret a
  | Throw e => throw e
  end.

Definition searchAlbum (artist album qualityProfileId : string)
  : M (list SearchResult) :=
  indexers <- gets (fun w => findEnabled (indexerTable w)) ;;
  if Nat.eqb (length indexers) 0 then throw "No enabled indexers configured"
  else
    qualityProfile <- gets (fun w => Profiles.findById qualityProfileId (profiles w)) ;;
    match qualityProfile with
    | None => throw "Quality profile not found"
    | Some qualityProfile =>
        let indexerService := Indexer.newIndexerService indexers true in
        log <- gets requests ;;
        modify (add_requests (search_requests indexerService artist album)) ;;;
        results <- lift_result
          (Indexer.searchAlbum (Date_parse env) now (indexer_get env log)
                               indexerService artist album (Some qualityProfile)) ;;
        (* with a profile every candidate returned has passed
           [filterResults], so its format is a string *)
        ret (List.map Indexer.candidate results)
    end.

Definition getArtistForAlbum (album : Album) : M string :=
  artist <- gets (fun w => artist_findById (al_artistId album) (artists w)) ;;
  match artist with
  | None => throw "Artist not found"
  | Some artist => ret (a_name artist)
  end.

Record DownloadRequest : Type := mkDownloadRequest {
  rq_albumId : string;
  rq_qualityProfileId : option string;
}.

Record DownloadResult : Type := mkDownloadResult {
  download : Download;
  searchResults : list SearchResult;
  selectedResult : option SearchResult;
}.

Definition initiateDownload (req : DownloadRequest) : M DownloadResult :=
  album <- gets (fun w => album_findById (rq_albumId req) (albums w)) ;;
  match album with
  | None => throw "Album not found"
  | Some album =>
      artist <- getArtistForAlbum album ;;
      qualityProfile <-
        gets (fun w =>
                match rq_qualityProfileId req with
                | Some id =>
                    if truthy_string id then Profiles.findById id (profiles w)
                    else Profiles.findDefault (profiles w)
                | None => Profiles.findDefault (profiles w)
                end) ;;
      match qualityProfile with
      | None => throw "No quality profile specified and no default profile configured"
      | Some qualityProfile =>
          searchResults <- searchAlbum artist (al_title album) (qp_id qualityProfile) ;;
          match searchResults with
          | [] => throw "No results found"
          | selectedResult :: _ =>
              sabnzbdConfig <- gets (fun w => getSabnzbdConfig (config w)) ;;
              match sabnzbdConfig with
              | None => throw "SABnzbd is not configured"
              | Some _ =>
                  sabnzbdId <- sendNzbUrl (nzbUrl selectedResult) "music" ;;
                  id <- fresh_id ;;
                  download <-
                    on_table downloads set_downloads
                      (DownloadRepo.create id now
                         {| DownloadRepo.nd_albumId := rq_albumId req;
                            DownloadRepo.nd_sabnzbdId := Some sabnzbdId;
                            DownloadRepo.nd_indexerName := Some (indexer selectedResult);
                            DownloadRepo.nd_status := queued;
                            DownloadRepo.nd_progress := 0;
                            DownloadRepo.nd_qualityProfileId := Some (qp_id qualityProfile);
                            DownloadRepo.nd_completedAt := None;
                            DownloadRepo.nd_errorMessage := None |}) ;;
                  ret {| download := download; searchResults := searchResults;
                         selectedResult := Some selectedResult |}
              end
          end
      end
  end.

Definition truthy_opt_string (o : option string) : bool :=
  match o with
  | Some s => truthy_string s
  | None => false
  end.

Definition updateDownloadStatus (downloadId : string) : M Download :=
  download <- gets (fun w => DownloadRepo.findById downloadId (downloads w)) ;;
  match download with
  | None => throw "Download not found"
  | Some download =>
      if DownloadRepo.is_terminal (status download) then ret download
      else
        match sabnzbdId download with
        | None => throw "Download does not have a SABnzbd ID"
        | Some sabId =>
            if negb (truthy_string sabId)
            then throw "Download does not have a SABnzbd ID"
            else
              sabnzbdConfig <- gets (fun w => getSabnzbdConfig (config w)) ;;
              match sabnzbdConfig with
              | None => throw "SABnzbd is not configured"
              | Some _ =>
                  st <- getDownloadStatus sabId ;;
                  updatedDownload <-
                    on_table downloads set_downloads
                      (DownloadRepo.updateStatus now downloadId (ds_status st)
                                                 (ds_progress st)) ;;
                  match updatedDownload with
                  | None => throw "Failed to update download"
                  | Some updatedDownload =>
                      if is_failed (ds_status st) && truthy_opt_string (ds_errorMessage st)
                      then
                        withError <-
                          on_table downloads set_downloads
                            (DownloadRepo.update downloadId
                               {| DownloadRepo.up_sabnzbdId := None;
                                  DownloadRepo.up_status := None;
                                  DownloadRepo.up_progress := None;
                                  DownloadRepo.up_completedAt := None;
                                  DownloadRepo.up_errorMessage := ds_errorMessage st |}) ;;
                        match withError with
                        | Some d => ret d
                        | None => throw "undefined"
                        end
                      else ret updatedDownload
                  end
              end
        end
  end.

(** The loop of [updateAllActiveDownloads]: a download whose update
    throws is left out of the result. *)
Fixpoint update_each (l : list Download) (updatedDownloads : list Download)
  : M (list Download) :=
  match l with
  | [] => ret updatedDownloads
  | d :: l' =>
      r <- try_catch (u <- updateDownloadStatus (d_id d) ;; ret (Some u))
                     (fun _ => ret None) ;;
      match r with
      | Some updated => update_each l' (updatedDownloads ++ [updated])%list
      | None => update_each l' updatedDownloads
      end
  end.

Definition updateAllActiveDownloads : M (list Download) :=
  activeDownloads <- gets (fun w => DownloadRepo.findActive (downloads w)) ;;
  update_each activeDownloads [].

(** *** MonitoringService *)

Definition processNewRelease (artist : Artist) (albumMetadata : AlbumMetadata) : M unit :=
  id <- fresh_id ;;
  album <-
    on_table albums set_albums
      (album_create id now
         {| na_artistId := a_id artist;
            na_title := am_title albumMetadata;
            na_releaseYear := am_releaseYear albumMetadata;
            na_trackCount := am_trackCount albumMetadata;
            na_artworkUrl := am_artworkUrl albumMetadata;
            na_localPath := None;
            na_isOwned := false |}) ;;
  modify (set_artists (incrementAlbumCount (a_id artist) now)) ;;;
  try_catch
    (initiateDownload {| rq_albumId := al_id album; rq_qualityProfileId := None |} ;;;
     ret tt)
    (fun _ => ret tt).

(** What follows the throttle in [checkArtistForNewReleases]; the source
    catches an error only to log and rethrow it. *)
Definition check_discography (artist : Artist) : M unit :=
  log <- gets requests ;;
  request (ReqDiscography (a_name artist)) ;;;
  discography <- lift_result (getArtistDiscography env log (a_name artist)) ;;
  existingAlbums <- gets (fun w => album_findByArtistId (a_id artist) (albums w)) ;;
  for_each (processNewRelease artist)
           (newAlbums existingAlbums (dg_albums discography)) ;;;
  modify (set_artists (artist_touch (a_id artist) now now)).

Definition checkArtistForNewReleases (artist : Artist) : M unit :=
  if checked_recently now artist then ret tt
  else check_discography artist.

(** The loop of the monitoring pass: an artist whose check throws does
    not stop the pass. *)
Definition check_each (monitoredArtists : list Artist) : M unit :=
  for_each (fun artist =>
              try_catch (checkArtistForNewReleases artist) (fun _ => ret tt))
           monitoredArtists.

Definition checkForNewReleases : M unit :=
  running <- gets isRunning ;;
  if running then ret tt
  else
    modify (set_isRunning true) ;;;
    try_catch
      (monitoredArtists <- gets (fun w => getMonitored (artists w)) ;;
       check_each monitoredArtists)
      (fun _ => ret tt) ;;;
    modify (set_isRunning false).

Definition checkArtist (artistId : string) : M unit :=
  artist <- gets (fun w => artist_findById artistId (artists w)) ;;
  match artist with
  | None => throw "Artist not found"
  | Some artist =>
      if negb (monitored artist) then throw "Artist is not monitored"
      else checkArtistForNewReleases artist
  end.

End Services.

(** The calls the application layer can make on the two services. *)
Inductive service_call : Type :=
| CallInitiateDownload (now : Z) (req : DownloadRequest)
| CallUpdateDownloadStatus (now : Z) (downloadId : string)
| CallUpdateAllActiveDownloads (now : Z)
| CallCheckForNewReleases (now : Z)
| CallCheckArtist (now : Z) (artistId : string).

(** The state a call leaves behind, whether it returns or throws. *)
Definition perform (env : Env) (w : World) (c : service_call) : World :=
  match c with
  | CallInitiateDownload now req => snd (initiateDownload env now req w)
  | CallUpdateDownloadStatus now id => snd (updateDownloadStatus env now id w)
  | CallUpdateAllActiveDownloads now => snd (updateAllActiveDownloads env now w)
  | CallCheckForNewReleases now => snd (checkForNewReleases env now w)
  | CallCheckArtist now artistId => snd (checkArtist env now artistId w)
  end.

(** The stored record of a download. *)
Definition stored (id : string) (d : Download) (w : World) : Prop :=
  DownloadRepo.findById id (downloads w) = Some d.

End Services.

(* ================================================================== *)
(** ** A date parser for the examples *)
(* ================================================================== *)

Module IsoDate.
Import Js.

(** The services only assume a parser [Date_parse].  The examples use the
    one below, which reads exactly the format that [toISOString] writes,
    YYYY-MM-DDTHH:mm:ss.sssZ, and gives NaN for everything else. *)

(** Reads exactly [n] digits. *)
Fixpoint read_fixed (n : nat) (acc : Z) (s : string) : option (Z * string) :=
  match n with
  | O => Some (acc, s)
  | S n' =>
      match s with
      | EmptyString => None
      | String c s' =>
          match digit_value c with
          | Some d => read_fixed n' (10 * acc + d) s'
          | None => None
          end
      end
  end.

Definition expect (c : ascii) (s : string) : option string :=
  match s with
  | String x s' => if Ascii.eqb x c then Some s' else None
  | EmptyString => None
  end.

Definition is_leap (y : Z) : bool :=
  ((y mod 4 =? 0) && negb (y mod 100 =? 0)) || (y mod 400 =? 0).

Definition days_in_month (y m : Z) : Z :=
  if m =? 2 then (if is_leap y then 29 else 28)
  else if (m =? 4) || (m =? 6) || (m =? 9) || (m =? 11) then 30
  else 31.

(** Days between 1970-01-01 and the given civil date. *)
Definition days_from_civil (y m d : Z) : Z :=
  let y' := if m <=? 2 then y - 1 else y in
  let era := y' / 400 in
  let yoe := y' - era * 400 in
  let mp := if 2 <? m then m - 3 else m + 9 in
  let doy := (153 * mp + 2) / 5 + d - 1 in
  let doe := yoe * 365 + yoe / 4 - yoe / 100 + doy in
  era * 146097 + doe - 719468.

Definition parse (s : string) : num :=
  match read_fixed 4 0 s with
  | None => NaN
  | Some (y, s) =>
  match expect "-" s with None => NaN | Some s =>
  match read_fixed 2 0 s with None => NaN | Some (mo, s) =>
  match expect "-" s with None => NaN | Some s =>
  match read_fixed 2 0 s with None => NaN | Some (d, s) =>
  match expect "T" s with None => NaN | Some s =>
  match read_fixed 2 0 s with None => NaN | Some (h, s) =>
  match expect ":" s with None => NaN | Some s =>
  match read_fixed 2 0 s with None => NaN | Some (mi, s) =>
  match expect ":" s with None => NaN | Some s =>
  match read_fixed 2 0 s with None => NaN | Some (sec, s) =>
  match expect "." s with None => NaN | Some s =>
  match read_fixed 3 0 s with None => NaN | Some (ms, s) =>
  match s with
  | String "Z" EmptyString =>
      if (1 <=? mo) && (mo <=? 12) && (1 <=? d) && (d <=? days_in_month y mo)
         && (h <=? 23) && (mi <=? 59) && (sec <=? 59)
      then Int ((((days_from_civil y mo d * 24 + h) * 60 + mi) * 60 + sec) * 1000 + ms)
      else NaN
  | _ => NaN
  end end end end end end end end end end end end end
  end.

End IsoDate.

(* ================================================================== *)
(** ** Concrete data for the examples *)
(* ================================================================== *)

Module Examples.
Import Js Types Regex Quality Indexer Profiles App Repos Services.

Definition MB : Z := 1024 * 1024.

(** The profile and the candidates of the end-to-end scenario. *)
Definition profile_std : QualityProfile :=
  mkQualityProfile "p1" "Standard" ["FLAC"; "MP3"] (Some 256) (Some 200) true 0.

Definition cand_A : SearchResult :=
  mkSearchResult "A" "http://ix/a" (Int (50 * MB)) (Int 2) "ix"
                 (mkQuality "FLAC" (Some (Int 1000))).

Definition cand_B : SearchResult :=
  mkSearchResult "B" "http://ix/b" (Int (8 * MB)) (Int 1) "ix"
                 (mkQuality "MP3" (Some (Int 192))).

Definition cand_C : SearchResult :=
  mkSearchResult "C" "http://ix/c" (Int (80 * MB)) (Int 10) "ix"
                 (mkQuality "mp3" (Some (Int 320))).







(** A profile whose size limit is 0, as [createProfile] accepts it. *)
Definition profile_zero_limit : QualityProfile :=
  mkQualityProfile "p2" "Zero" ["FLAC"] None (Some 0) false 0.

Definition cand_flac_50MB : SearchResult :=
  mkSearchResult "F" "http://ix/f" (Int (50 * MB)) (Int 0) "ix"
                 (mkQuality "FLAC" None).

(** Titles. *)
Definition album_the_wall : Album :=
  mkAlbum "al1" "ar1" "The Wall" (Some 1979) None None None true 0 0.

Definition entry_wall_the : AlbumMetadata :=
  mkAlbumMetadata "rg1" "Wall, The!!" (Some 1979) None None None.

Definition entry_the_wall_shouted : AlbumMetadata :=
  mkAlbumMetadata "rg2" "  THE   WALL!! " (Some 1979) None None None.

(** Raw indexer items. *)
Definition xml_bad_numbers : string :=
  "<title>Album</title><link>http://ix/1</link><size>abc</size><pubDate>not a date</pubDate>".

Definition xml_no_attrs : string :=
  "<title>Album</title><link>http://ix/1</link><size>1048576</size><pubDate>2024-01-01T00:00:00.000Z</pubDate>".

Definition xml_lower_flac : string :=
  "<title>Album</title><link>http://ix/1</link><newznab:attr name="
  ++ dquote ++ "format" ++ dquote ++ " value=" ++ dquote ++ "flac" ++ dquote ++ "/>".

(** An item with a category attribute before the format attribute. *)
Definition xml_two_attrs : string :=
  "<title>Album</title><link>http://ix/1</link><newznab:attr name="
  ++ dquote ++ "category" ++ dquote ++ " value=" ++ dquote ++ "3040" ++ dquote
  ++ "/><newznab:attr name=" ++ dquote ++ "format" ++ dquote ++ " value="
  ++ dquote ++ "flac" ++ dquote ++ "/>".

(** The format attribute written value first. *)
Definition xml_value_first : string :=
  "<title>Album</title><link>http://ix/1</link><newznab:attr value="
  ++ dquote ++ "FLAC" ++ dquote ++ " name=" ++ dquote ++ "format" ++ dquote ++ "/>".

Definition json_no_attrs : NewznabItem :=
  mkItem (Some "Album") None (Some "http://ix/1") None None NoAttr.

Definition json_lower_flac : NewznabItem :=
  mkItem (Some "Album") None (Some "http://ix/1") None None
         (OneAttr (mkAttr "format" "flac")).

Definition json_bad_numbers : NewznabItem :=
  mkItem (Some "Album") None (Some "http://ix/1") (Some "not a date") (Some "abc") NoAttr.

(** 2024-01-11T12:00:00.000Z *)
Definition now_jan_11 : Z := 1704974400000.

(** Two indexers: the first answers with one MP3 release, the second
    times out. *)
Definition ix_good : IndexerConfig := mkIndexerConfig "i1" "Good" "http://good" "k1" true 0.
Definition ix_down : IndexerConfig := mkIndexerConfig "i2" "Down" "http://down" "k2" true 0.

Definition json_mp3 : NewznabItem :=
  mkItem (Some "Album MP3") None (Some "http://good/1") None (Some "52428800")
         (AttrArray [mkAttr "format" "MP3"; mkAttr "bitrate" "320"]).

Definition http_one_down (baseUrl apiKey artist album : string) : Reply :=
  if String.eqb baseUrl "http://good" then Resolved (JsonData (ItemsOne json_mp3))
  else Rejected "timeout of 30000ms exceeded".

Definition service_two : IndexerService := newIndexerService [ix_good; ix_down] true.

(** An item whose format attribute has a name and no value. *)
Definition json_format_no_value : NewznabItem :=
  mkItem (Some "Album") None (Some "http://down/1") None None
         (OneAttr (Attr (Some "format") undefined)).

(** The first indexer answers with one MP3 release, the second with the
    item above. *)
Definition http_one_untyped (baseUrl apiKey artist album : string) : Reply :=
  if String.eqb baseUrl "http://good" then Resolved (JsonData (ItemsOne json_mp3))
  else Resolved (JsonData (ItemsOne json_format_no_value)).

Definition profile_flac_only : QualityProfile :=
  mkQualityProfile "p3" "Lossless" ["FLAC"] None None false 0.

(** Profiles: two rows, both flagged default. *)
Definition profiles_two_defaults : Profiles.table :=
  [ mkQualityProfile "p1" "One" ["FLAC"] None None true 0;
    mkQualityProfile "p2" "Two" ["MP3"] None None true 0 ].

(** A world with one completed download, and an outside world in which
    every request fails. *)
Definition download_done : Download :=
  mkDownload "d1" "al1" (Some "SABnzbd_nzo_1") (Some "Good") completed 100
             (Some "p1") 0 (Some 1000) None.

Definition artist_floyd : Artist :=
  mkArtist "ar1" "Pink Floyd" true 1 (Some (now_jan_11 - 10 * 60 * 60 * 1000)) 0 0.

Definition world_one : World :=
  mkWorld [artist_floyd] [album_the_wall] [download_done] [profile_std]
          [ix_good] ∅ [] O false.

Definition env_offline : Env :=
  mkEnv (fun n => "uuid") IsoDate.parse
        (fun _ _ => Throw "offline")
        (fun _ _ _ _ _ => Rejected "offline")
        (fun _ _ _ => AddRejected "offline")
        (fun _ => None)
        (fun _ => None).

(** A world in which the artist was never checked, "The Wall" is on
    record, the discography lists "Wall, The!!", the indexer has a FLAC
    release and the download client accepts it. *)
Definition artist_unchecked : Artist :=
  mkArtist "ar1" "Pink Floyd" true 1 None 0 0.

Definition json_flac : NewznabItem :=
  mkItem (Some "Pink Floyd - The Wall FLAC") None (Some "http://good/nzb/1") None
         (Some "104857600")
         (AttrArray [mkAttr "format" "FLAC"; mkAttr "bitrate" "1000"]).

Definition world_wall : World :=
  mkWorld [artist_unchecked] [album_the_wall] [] [profile_std] [ix_good]
          (<["sabnzbd_url" := "http://sab"]> (<["sabnzbd_api_key" := "key"]> ∅))
          [] O false.

Definition env_online : Env :=
  mkEnv (fun n => match n with O => "uuid-0" | _ => "uuid-1" end)
        IsoDate.parse
        (fun _ name => Ok (mkDiscography name [entry_wall_the] None))
        (fun _ _ _ _ _ => Resolved (JsonData (ItemsOne json_flac)))
        (fun _ _ _ => AddAccepted ["SABnzbd_nzo_7"])
        (fun _ => Some [])
        (fun _ => Some []).

(** The same, with a discography that lists an owned entry before the
    new one. *)
Definition env_mixed : Env :=
  mkEnv (fun n => match n with O => "uuid-0" | _ => "uuid-1" end)
        IsoDate.parse
        (fun _ name => Ok (mkDiscography name [entry_the_wall_shouted; entry_wall_the] None))
        (fun _ _ _ _ _ => Resolved (JsonData (ItemsOne json_flac)))
        (fun _ _ _ => AddAccepted ["SABnzbd_nzo_7"])
        (fun _ => Some [])
        (fun _ => Some []).

End Examples.

(* ================================================================== *)
(** ** Listings: the ordered queries of the repositories *)
(* ================================================================== *)

Module Listings.
Import Js Types.

(** *** QualityProfileRepository.findAll *)

(** [ORDER BY is_default DESC, name ASC]: [a] comes after [b] when [b] is
    the default and [a] is not, or when the flags agree and the name of
    [a] is the greater one. *)
Definition profile_after (a b : QualityProfile) : bool :=
  (negb (isDefault a) && isDefault b) ||
  (Bool.eqb (isDefault a) (isDefault b) && String.ltb (qp_name b) (qp_name a)).

Definition profile_findAll (t : Profiles.table) : list QualityProfile :=
  sort profile_after t.

(** *** DownloadRepository.findAll, findByAlbumId, findBySabnzbdId *)

Record DownloadFilters : Type := mkDownloadFilters {
  f_status : option Status;
  f_startDate : option Z;
  f_endDate : option Z;
}.

Definition status_eqb (a b : Status) : bool :=
  match a, b with
  | queued, queued | downloading, downloading
  | completed, completed | failed, failed => true
  | _, _ => false
  end.

(** The [WHERE] clause that [findAll] builds: one condition per filter
    that is present. *)
Definition matches (filters : option DownloadFilters) (d : Download) : bool :=
  match filters with
  | None => true
  | Some f =>
      match f_status f with
      | Some s => status_eqb (status d) s
      | None => true
      end &&
      match f_startDate f with
      | Some startDate => startDate <=? initiatedAt d
      | None => true
      end &&
      match f_endDate f with
      | Some endDate => initiatedAt d <=? endDate
      | None => true
      end
  end.


Definition findByAlbumId (albumId : string) (t : DownloadRepo.table) : list Download :=
  DownloadRepo.newest_first
    (List.filter (fun d => String.eqb (d_albumId d) albumId) t).

Definition findBySabnzbdId (sabId : string) (t : DownloadRepo.table) : option Download :=
  List.find (fun d => match sabnzbdId d with
                      | Some s => String.eqb s sabId
                      | None => false
                      end) t.




End Listings.

(* ================================================================== *)
(** ** IndexerRepository and the indexer operations of ConfigService *)
(* ================================================================== *)

Module IndexerRepo.
Import Js Types.

(** The table [indexers]; [id TEXT PRIMARY KEY]. *)
Definition table : Type := list IndexerConfig.

(** [Omit<IndexerConfig, 'id' | 'createdAt'>] *)
Record NewIndexer : Type := mkNewIndexer {
  ni_name : string;
  ni_url : string;
  ni_apiKey : string;
  ni_enabled : bool;
}.

(** [Partial<IndexerConfig>], the fields [update] looks at. *)
Record IndexerUpdates : Type := mkIndexerUpdates {
  iu_name : option string;
  iu_url : option string;
  iu_apiKey : option string;
  iu_enabled : option bool;
}.

Definition has_id (id : string) (r : IndexerConfig) : bool := String.eqb (ix_id r) id.

Definition findById (id : string) (t : table) : option IndexerConfig :=
  List.find (has_id id) t.

(** [SELECT * FROM indexers ORDER BY name ASC] *)
Definition findAll (t : table) : list IndexerConfig :=
  sort (fun a b => String.ltb (ix_name b) (ix_name a)) t.

Definition create (id : string) (now : Z) (indexer : NewIndexer) (t : table)
  : result IndexerConfig * table :=
  let row := {| ix_id := id; ix_name := ni_name indexer; ix_url := ni_url indexer;
                ix_apiKey := ni_apiKey indexer;
                ix_enabled := if ni_enabled indexer then true else false;
                ix_createdAt := now |} in
  if existsb (has_id id) t then (Throw "constraint failed", t)
  else
    let t' := (t ++ [row])%list in
    match findById id t' with
    | Some created => (Ok created, t')
    | None => (Throw "not found", t')
    end.

Definition no_clause (u : IndexerUpdates) : bool :=
  match iu_name u, iu_url u, iu_apiKey u, iu_enabled u with
  | None, None, None, None => true
  | _, _, _, _ => false
  end.

Definition or_keep {A : Type} (o : option A) (old : A) : A :=
  match o with
  | Some new => new
  | None => old
  end.

(** The [SET] clauses of [update] applied to one row. *)
Definition apply_updates (u : IndexerUpdates) (r : IndexerConfig) : IndexerConfig :=
  {| ix_id := ix_id r;
     ix_name := or_keep (iu_name u) (ix_name r);
     ix_url := or_keep (iu_url u) (ix_url r);
     ix_apiKey := or_keep (iu_apiKey u) (ix_apiKey r);
     ix_enabled := match iu_enabled u with
                   | Some b => if b then true else false
                   | None => ix_enabled r
                   end;
     ix_createdAt := ix_createdAt r |}.

(** [update]; without any clause the statement is not valid SQL. *)
Definition update (id : string) (updates : IndexerUpdates) (t : table)
  : result (option IndexerConfig) * table :=
  if no_clause updates then (Throw "syntax error", t)
  else
    let t' := List.map (fun r => if has_id id r then apply_updates updates r else r) t in
    (Ok (findById id t'), t').

Definition delete (id : string) (t : table) : table :=
  List.filter (fun r => negb (has_id id r)) t.

Definition enable (id : string) (t : table) : result (option IndexerConfig) * table :=
  update id {| iu_name := None; iu_url := None; iu_apiKey := None;
               iu_enabled := Some true |} t.

Definition disable (id : string) (t : table) : result (option IndexerConfig) * table :=
  update id {| iu_name := None; iu_url := None; iu_apiKey := None;
               iu_enabled := Some false |} t.

(** *** ConfigService: indexers *)

(** [s.endsWith('/')] *)
Fixpoint endsWith_slash (s : string) : bool :=
  match s with
  | EmptyString => false
  | String c EmptyString => Ascii.eqb c "/"%char
  | String _ s' => endsWith_slash s'
  end.

(** [s.slice(0, -1)] *)
Fixpoint slice_0_m1 (s : string) : string :=
  match s with
  | EmptyString => EmptyString
  | String _ EmptyString => EmptyString
  | String c s' => String c (slice_0_m1 s')
  end.

(** [url.endsWith('/') ? url.slice(0, -1) : url] *)
Definition strip_slash (url : string) : string :=
  if endsWith_slash url then slice_0_m1 url else url.

Definition createIndexer (id : string) (now : Z) (indexer : NewIndexer) (t : table)
  : result IndexerConfig * table :=
  if negb (truthy_string (ni_name indexer)) || negb (truthy_string (ni_url indexer))
     || negb (truthy_string (ni_apiKey indexer))
  then (Throw "Indexer name, URL, and API key are required", t)
  else
    let url := strip_slash (ni_url indexer) in
    create id now {| ni_name := ni_name indexer; ni_url := url;
                     ni_apiKey := ni_apiKey indexer;
                     ni_enabled := ni_enabled indexer |} t.

Definition updateIndexer (id : string) (updates : IndexerUpdates) (t : table)
  : result IndexerConfig * table :=
  match findById id t with
  | None => (Throw "Indexer not found", t)
  | Some _ =>
      let updates :=
        match iu_url updates with
        | Some url =>
            if truthy_string url
            then {| iu_name := iu_name updates; iu_url := Some (strip_slash url);
                    iu_apiKey := iu_apiKey updates; iu_enabled := iu_enabled updates |}
            else updates
        | None => updates
        end in
      match update id updates t with
      | (Ok (Some updated), t') => (Ok updated, t')
      | (Ok None, t') => (Throw "Failed to update indexer", t')
      | (Throw m, t') => (Throw m, t')
      end
  end.

Definition deleteIndexer (id : string) (t : table) : result unit * table :=
  match findById id t with
  | None => (Throw "Indexer not found", t)
  | Some _ => (Ok tt, delete id t)
  end.

Definition enableIndexer (id : string) (t : table) : result IndexerConfig * table :=
  match enable id t with
  | (Ok (Some updated), t') => (Ok updated, t')
  | (Ok None, t') => (Throw "Indexer not found", t')
  | (Throw m, t') => (Throw m, t')
  end.

Definition disableIndexer (id : string) (t : table) : result IndexerConfig * table :=
  match disable id t with
  | (Ok (Some updated), t') => (Ok updated, t')
  | (Ok None, t') => (Throw "Indexer not found", t')
  | (Throw m, t') => (Throw m, t')
  end.

End IndexerRepo.

(* ================================================================== *)
(** ** ConfigRepository and the settings of ConfigService *)
(* ================================================================== *)

Module Settings.
Import Js Types.

(** The table [config], [key TEXT PRIMARY KEY, value TEXT NOT NULL], is
    a finite map from keys to values, as in the application state. *)

Definition get (key : string) (t : gmap string string) : option string := t !! key.

(** [set] updates the row when [get] returns a truthy value and inserts
    one otherwise; an insert for a key that is present (with the empty
    string as its value) breaks the primary key and throws. *)
Definition set (key value : string) (t : gmap string string) : result unit * gmap string string :=
  match get key t with
  | Some existing =>
      if truthy_string existing then (Ok tt, <[key := value]> t)
      else (Throw "constraint failed", t)
  | None => (Ok tt, <[key := value]> t)
  end.

Definition delete (key : string) (t : gmap string string) : gmap string string := base.delete key t.

(** [ConfigRepository.setSabnzbdConfig]: two statements, one after the
    other. *)
Definition repo_setSabnzbdConfig (config : SabnzbdConfig) (t : gmap string string)
  : result unit * gmap string string :=
  match set "sabnzbd_url" (sab_url config) t with
  | (Ok _, t1) => set "sabnzbd_api_key" (sab_apiKey config) t1
  | (Throw m, t1) => (Throw m, t1)
  end.

Definition getLibraryPath (t : gmap string string) : option string := get "library_path" t.

(** [value ? parseInt(value, 10) : 6] *)
Definition getMonitoringInterval (t : gmap string string) : num :=
  match get "monitoring_interval" t with
  | Some value => if truthy_string value then parseInt value else Int 6
  | None => Int 6
  end.

(** [Number.prototype.toString] on an integer of absolute value up to
    2^53: the decimal digits, after a minus sign for a negative number.
    (Above 2^53 the source writes the shortest digits that identify the
    double, and exponent form from 10^21 on; the definition is used up
    to 2^53 only.) *)
Definition digit_char (d : Z) : ascii := ascii_of_nat (48 + Z.to_nat d).

Fixpoint digits (fuel : nat) (n : Z) : string :=
  match fuel with
  | O => EmptyString
  | S fuel' =>
      String.append (if n <? 10 then EmptyString else digits fuel' (n / 10))
                    (String (digit_char (n mod 10)) EmptyString)
  end.

Definition toString (n : Z) : string :=
  if n <? 0 then String "-"%char (digits (S (Z.to_nat (Z.log2 (- n)))) (- n))
  else digits (S (Z.to_nat (Z.log2 n))) n.

Definition repo_setMonitoringInterval (hours : Z) (t : gmap string string) : result unit * gmap string string :=
  set "monitoring_interval" (toString hours) t.

(** *** ConfigService *)

Definition setSabnzbdConfig (config : SabnzbdConfig) (t : gmap string string)
  : result unit * gmap string string :=
  if negb (truthy_string (sab_url config)) || negb (truthy_string (sab_apiKey config))
  then (Throw "SABnzbd URL and API key are required", t)
  else
    let url := IndexerRepo.strip_slash (sab_url config) in
    repo_setSabnzbdConfig {| sab_url := url; sab_apiKey := sab_apiKey config |} t.

Definition setLibraryPath (path : string) (t : gmap string string) : result unit * gmap string string :=
  if negb (truthy_string path) then (Throw "Library path is required", t)
  else set "library_path" path t.

(** [hours] is an integer here, of at most 2^53 where the text written
    matters. *)
Definition setMonitoringInterval (hours : Z) (t : gmap string string) : result unit * gmap string string :=
  if hours <? 1 then (Throw "Monitoring interval must be at least 1 hour", t)
  else repo_setMonitoringInterval hours t.

End Settings.

(* ================================================================== *)
(** ** MonitoringService: the scheduler *)
(* ================================================================== *)

Module Scheduler.
Import Js.

(** A value held in the configuration.  The fields are declared
    [boolean] and [string], but the route hands over whatever the request
    body holds, and a key that is missing there arrives as a key whose
    value is [undefined].  Of a value that is neither a boolean nor a
    string (a number, an array, an object) the service only tests the
    truthiness. *)
Inductive Value : Type :=
| Undefined
| Null
| Bool (b : bool)
| Str (s : string)
| Other (truthy : bool).

Definition truthy (v : Value) : bool :=
  match v with
  | Undefined | Null => false
  | Bool b => b
  | Str s => truthy_string s
  | Other t => t
  end.

(** [v ?? d] *)
Definition coalesce (v d : Value) : Value :=
  match v with
  | Undefined | Null => d
  | _ => v
  end.

Record MonitoringConfig : Type := mkMonitoringConfig {
  enabled : Value;
  schedule : Value;
}.

(** [Partial<MonitoringConfig>]: a key is absent ([None]) or present with
    a value, which may be [undefined]. *)
Record PartialConfig : Type := mkPartialConfig {
  pc_enabled : option Value;
  pc_schedule : option Value;
}.

(** Reading a key: an absent key reads as [undefined]. *)
Definition read (key : option Value) : Value :=
  match key with
  | Some v => v
  | None => Undefined
  end.

(** The fields [task] and [config] of the service.  A scheduled task is
    represented by the value it was created with. *)
Record State : Type := mkState {
  task : option Value;
  config : MonitoringConfig;
}.

(** The constructor: [enabled] defaults to [true], [schedule] to every
    six hours. *)
Definition defaultSchedule : string := "0 */6 * * *".

Definition newMonitoringService (config : option PartialConfig) : State :=
  {| task := None;
     config :=
       {| enabled := match config with
                     | Some c => coalesce (read (pc_enabled c)) (Bool true)
                     | None => Bool true
                     end;
          schedule := match config with
                      | Some c => coalesce (read (pc_schedule c)) (Str defaultSchedule)
                      | None => Str defaultSchedule
                      end |} |}.

Section Cron.

(** [cron.validate], on whatever it is given. *)
Variable cron_validate : Value -> bool.

(** The message of the error also quotes the schedule. *)
Definition startScheduler (st : State) : result unit * State :=
  match task st with
  | Some _ => (Ok tt, st)
  | None =>
      if negb (truthy (enabled (config st))) then (Ok tt, st)
      else if negb (cron_validate (schedule (config st)))
      then (Throw "Invalid cron schedule", st)
      else (Ok tt, {| task := Some (schedule (config st)); config := config st |})
  end.

Definition stopScheduler (st : State) : State :=
  match task st with
  | Some _ => {| task := None; config := config st |}
  | None => st
  end.

Definition isSchedulerRunning (st : State) : bool :=
  match task st with
  | Some _ => true
  | None => false
  end.

(** [{ ...this.config, ...config }]: every key that is present in
    [config] overwrites, also with [undefined]. *)
Definition merge (old : MonitoringConfig) (new : PartialConfig) : MonitoringConfig :=
  {| enabled := match pc_enabled new with Some v => v | None => enabled old end;
     schedule := match pc_schedule new with Some v => v | None => schedule old end |}.

Definition updateConfig (new : PartialConfig) (st : State) : result unit * State :=
  let wasRunning := isSchedulerRunning st in
  let st1 := if wasRunning then stopScheduler st else st in
  let st2 := {| task := task st1; config := merge (config st1) new |} in
  if wasRunning && truthy (enabled (config st2)) then startScheduler st2
  else (Ok tt, st2).

Definition getConfig (st : State) : MonitoringConfig := config st.

(** The body of [POST /api/monitoring/config]: both keys are passed,
    whether the request body holds them or not. *)
Definition post_config (body : PartialConfig) : PartialConfig :=
  {| pc_enabled := Some (read (pc_enabled body));
     pc_schedule := Some (read (pc_schedule body)) |}.

(** The calls on the scheduler. *)
Inductive call : Type :=
| Start
| Stop
| Update (new : PartialConfig).

(** The state a call leaves behind, whether it returns or throws. *)
Definition perform (st : State) (c : call) : State :=
  match c with
  | Start => snd (startScheduler st)
  | Stop => stopScheduler st
  | Update new => snd (updateConfig new st)
  end.

End Cron.

End Scheduler.

(* ================================================================== *)
(** ** What an operation leaves alone *)
(* ================================================================== *)

Module Frames.
Import Js Types App.

(** Every table but [downloads] is the same in both states. *)
Definition same_catalog (w w' : World) : Prop :=
  artists w' = artists w /\ albums w' = albums w /\ profiles w' = profiles w /\
  indexerTable w' = indexerTable w /\ config w' = config w.

(** The fields of a download that no status update writes. *)
Definition same_identity (d d' : Download) : Prop :=
  d_id d' = d_id d /\ d_albumId d' = d_albumId d /\ sabnzbdId d' = sabnzbdId d /\
  indexerName d' = indexerName d /\ qualityProfileId d' = qualityProfileId d /\
  initiatedAt d' = initiatedAt d.

(** The same rows in the same order, each with its identity. *)
Definition same_rows (t t' : list Download) : Prop := Forall2 same_identity t t'.

(** The log of outbound calls only grows. *)
Definition log_extends (w w' : World) : Prop :=
  exists rs, requests w' = (requests w ++ rs)%list.

End Frames.

(* ================================================================== *)
(** * Verification *)
(* ================================================================== *)

Import Js Types Examples.
Open Scope list_scope.

(** ** The stable sort *)

Section SortFacts.
Context {A : Type} (after : A -> A -> bool) (ok : A -> Prop).

(** On the elements being sorted the comparator is consistent. *)
Hypothesis after_asym :
  forall x y, ok x -> ok y -> after x y = true -> after y x = false.
Hypothesis not_after_trans :
  forall x y z, ok x -> ok y -> ok z ->
    after x y = false -> after y z = false -> after x z = false.

Lemma insert_sorted_perm (x : A) (l : list A) :
  Permutation (x :: l) (insert_sorted after x l).
Proof.
  induction l as [|y l IH]; simpl.
  - apply Permutation_refl.
  - destruct (after x y).
    + eapply perm_trans; [apply perm_swap|]. now apply perm_skip.
    + apply Permutation_refl.
Qed.

Lemma sort_perm (l : list A) : Permutation l (sort after l).
Proof.
  induction l as [|x l IH]; simpl.
  - apply perm_nil.
  - eapply perm_trans; [apply perm_skip, IH|]. apply insert_sorted_perm.
Qed.

Lemma sort_ok (l : list A) : Forall ok l -> Forall ok (sort after l).
Proof.
  intros H. eapply Permutation_Forall; [apply sort_perm|exact H].
Qed.

Lemma insert_sorted_sorted (x : A) (l : list A) :
  ok x -> Forall ok l -> StronglySorted (not_after after) l ->
  StronglySorted (not_after after) (insert_sorted after x l).
Proof.
  intros Hx Hok Hs. induction Hs as [|y l Hs IH Hy]; simpl.
  - constructor; [constructor|constructor].
  - inversion Hok as [|? ? Hoky Hokl]; subst.
    destruct (after x y) eqn:E.
    + constructor; [now apply IH|].
      eapply Permutation_Forall; [apply insert_sorted_perm|].
      constructor; [|exact Hy].
      now apply after_asym.
    + constructor; [now constructor|].
      constructor; [exact E|].
      rewrite List.Forall_forall in Hy, Hokl. apply List.Forall_forall. intros z Hz.
      apply (not_after_trans x y z); auto. apply Hy, Hz.
Qed.

Lemma sort_sorted (l : list A) :
  Forall ok l -> StronglySorted (not_after after) (sort after l).
Proof.
  induction 1 as [|x l Hx Hl IH]; simpl.
  - constructor.
  - apply insert_sorted_sorted; auto using sort_ok.
Qed.

(** Elements that the comparator does not separate keep their order. *)
Lemma insert_sorted_stable (P : A -> bool) (x : A) (l : list A) :
  (forall y, In y l -> P x = true -> P y = true -> after x y = false) ->
  List.filter P (insert_sorted after x l) = List.filter P (x :: l).
Proof.
  induction l as [|y l IH]; intros H; simpl; [reflexivity|].
  destruct (after x y) eqn:E; [|reflexivity].
  simpl. rewrite IH by (intros; apply H; simpl; auto).
  simpl. destruct (P x) eqn:Px, (P y) eqn:Py; try reflexivity.
  rewrite H in E; simpl; auto. discriminate.
Qed.

Lemma sort_stable (P : A -> bool) (l : list A) :
  (forall x y, In x l -> In y l -> P x = true -> P y = true -> after x y = false) ->
  List.filter P (sort after l) = List.filter P l.
Proof.
  induction l as [|x l IH]; intros H; simpl; [reflexivity|].
  rewrite insert_sorted_stable.
  - simpl. rewrite IH; [reflexivity|]. intros; apply H; simpl; auto.
  - intros y Hy. apply H; simpl; auto.
    right. eapply Permutation_in; [apply Permutation_sym, sort_perm|exact Hy].
Qed.

End SortFacts.

(** Sorting commutes with a map that respects the comparator. *)
Lemma sort_map {A B : Type} (f : A -> B) (afterA : A -> A -> bool)
  (afterB : B -> B -> bool) (l : list A) :
  (forall x y, afterB (f x) (f y) = afterA x y) ->
  sort afterB (List.map f l) = List.map f (sort afterA l).
Proof.
  intros H. induction l as [|x l IH]; simpl; [reflexivity|].
  rewrite IH. generalize (sort afterA l) as s. clear IH.
  induction s as [|y s IHs]; simpl; [reflexivity|].
  rewrite H. destruct (afterA x y); simpl; [now rewrite IHs|reflexivity].
Qed.

(** ** Binary64 arithmetic *)

Import Double.

Lemma pow2_pos (k : Z) : (0 < pow2 k)%Q.
Proof. apply Qpower_0_lt. reflexivity. Qed.

Lemma pow2_plus (a b : Z) : (pow2 (a + b) == pow2 a * pow2 b)%Q.
Proof. apply Qpower_plus. discriminate. Qed.

Lemma pow2_le (a b : Z) : a <= b -> (pow2 a <= pow2 b)%Q.
Proof. intros H. apply Qpower_le_compat_l; [exact H|discriminate]. Qed.

Lemma pow2_lt (a b : Z) : a < b -> (pow2 a < pow2 b)%Q.
Proof. intros H. apply Qpower_lt_compat_l; [exact H|reflexivity]. Qed.

Lemma pow2_lt_inv (a b : Z) : (pow2 a < pow2 b)%Q -> a < b.
Proof. intros H. eapply Qpower_lt_compat_l_inv; [exact H|reflexivity]. Qed.

Lemma pow2_Z (k : Z) : 0 <= k -> (pow2 k == inject_Z (2 ^ k))%Q.
Proof. intros H. unfold pow2. now rewrite (Zpower_Qpower 2 k H). Qed.

(** Dividing by a power of two is multiplying by the opposite power. *)
Lemma pow2_div (x : Q) (k : Z) : (x / pow2 k == x * pow2 (- k))%Q.
Proof.
  unfold Qdiv, pow2. now rewrite Qpower_opp.
Qed.

Lemma pow2_scale_le (x : Q) (a k : Z) :
  (pow2 a <= x)%Q <-> (pow2 (a - k) <= x / pow2 k)%Q.
Proof.
  rewrite pow2_div.
  replace (a - k) with (a + - k) by lia. rewrite pow2_plus.
  symmetry. apply Qmult_le_r. apply pow2_pos.
Qed.

Lemma pow2_scale_lt (x : Q) (a k : Z) :
  (x < pow2 a)%Q <-> (x / pow2 k < pow2 (a - k))%Q.
Proof.
  rewrite pow2_div.
  replace (a - k) with (a + - k) by lia. rewrite pow2_plus.
  symmetry. apply Qmult_lt_r. apply pow2_pos.
Qed.

Lemma Qdiv_lt_cross (A B C D : Q) :
  (0 < B)%Q -> (0 < D)%Q -> (A * D < C * B)%Q -> (A / B < C / D)%Q.
Proof.
  intros HB HD H. apply Qlt_shift_div_r; [exact HB|].
  assert (E : (C / D * B == (C * B) / D)%Q) by (field; lra).
  rewrite E.
  apply Qlt_shift_div_l; [exact HD|exact H].
Qed.

Lemma pow2_frac (a b : Z) :
  0 <= a -> 0 <= b -> (pow2 (a - b) == inject_Z (2 ^ a) / inject_Z (2 ^ b))%Q.
Proof.
  intros Ha Hb. replace (a - b) with (a + - b) by lia.
  rewrite pow2_plus, <- pow2_div. now rewrite !pow2_Z.
Qed.

Lemma inject_Z_pow_pos (k : Z) : 0 <= k -> (0 < inject_Z (2 ^ k))%Q.
Proof.
  intros H. change 0%Q with (inject_Z 0). rewrite <- Zlt_Qlt.
  apply Z.pow_pos_nonneg; lia.
Qed.

Lemma ilog2_rough (n : Z) (d : positive) :
  0 < n ->
  (pow2 (Z.log2 n - Z.log2 (Zpos d) - 1) < n # d)%Q /\
  (n # d < pow2 (Z.log2 n - Z.log2 (Zpos d) + 1))%Q.
Proof.
  intros Hn.
  destruct (Z.log2_spec n Hn) as [Hn1 Hn2].
  destruct (Z.log2_spec (Zpos d) (Pos2Z.is_pos d)) as [Hd1 Hd2].
  pose proof (Z.log2_nonneg n) as Ha. pose proof (Z.log2_nonneg (Zpos d)) as Hb.
  set (a := Z.log2 n) in *. set (b := Z.log2 (Zpos d)) in *.
  replace (Z.succ a) with (a + 1) in Hn2 by lia.
  replace (Z.succ b) with (b + 1) in Hd2 by lia.
  rewrite (Qmake_Qdiv n d).
  assert (Hdpos : (0 < inject_Z (Zpos d))%Q) by reflexivity.
  split.
  - replace (a - b - 1) with (a - (b + 1)) by lia.
    rewrite pow2_frac by lia.
    apply Qdiv_lt_cross; [apply inject_Z_pow_pos; lia|exact Hdpos|].
    rewrite <- !inject_Z_mult. rewrite <- Zlt_Qlt. nia.
  - replace (a - b + 1) with ((a + 1) - b) by lia.
    rewrite pow2_frac by lia.
    apply Qdiv_lt_cross; [exact Hdpos|apply inject_Z_pow_pos; lia|].
    rewrite <- !inject_Z_mult. rewrite <- Zlt_Qlt. nia.
Qed.

Lemma Qpos_num (x : Q) : (0 < x)%Q -> 0 < Qnum x.
Proof. unfold Qlt. simpl. lia. Qed.

Lemma ilog2_spec (x : Q) :
  (0 < x)%Q -> (pow2 (ilog2 x) <= x)%Q /\ (x < pow2 (ilog2 x + 1))%Q.
Proof.
  intros Hx. destruct x as [n d]. pose proof (Qpos_num _ Hx) as Hn. simpl in Hn.
  destruct (ilog2_rough n d Hn) as [Hlo Hhi].
  unfold ilog2. simpl Qnum. simpl Qden.
  set (k := Z.log2 n - Z.log2 (Zpos d)) in *.
  destruct (Qle_bool (pow2 k) (n # d)) eqn:E.
  - apply Qle_bool_iff in E. split; [exact E|exact Hhi].
  - split; [now apply Qlt_le_weak|].
    replace (k - 1 + 1) with k by lia.
    apply Qnot_le_lt. intros H. apply Qle_bool_iff in H. congruence.
Qed.

Lemma ilog2_unique (x : Q) (e : Z) :
  (pow2 e <= x)%Q -> (x < pow2 (e + 1))%Q -> ilog2 x = e.
Proof.
  intros Hlo Hhi.
  assert (Hx : (0 < x)%Q) by (eapply Qlt_le_trans; [apply pow2_pos|exact Hlo]).
  destruct (ilog2_spec x Hx) as [Ilo Ihi].
  assert (H1 : ilog2 x < e + 1).
  { apply pow2_lt_inv. eapply Qle_lt_trans; eauto. }
  assert (H2 : e < ilog2 x + 1).
  { apply pow2_lt_inv. eapply Qle_lt_trans; eauto. }
  lia.
Qed.

(** *** Rounding to the nearest integer *)

Lemma nearest_even_comp (x y : Q) : (x == y)%Q -> nearest_even x = nearest_even y.
Proof.
  intros H. unfold nearest_even. rewrite (Qfloor_comp x y H).
  assert (E : Qcompare (x - inject_Z (Qfloor y)) (1 # 2)
              = Qcompare (y - inject_Z (Qfloor y)) (1 # 2)).
  { apply Qcompare_comp; [now rewrite H|reflexivity]. }
  now rewrite E.
Qed.

Lemma nearest_even_Z (z : Z) : nearest_even (inject_Z z) = z.
Proof.
  unfold nearest_even. rewrite Qfloor_Z.
  assert (E : Qcompare (inject_Z z - inject_Z z) (1 # 2) = Lt).
  { apply -> Qlt_alt. lra. }
  now rewrite E.
Qed.

(** The fractional part lies in [0, 1). *)
Lemma frac_range (x : Q) :
  (0 <= x - inject_Z (Qfloor x))%Q /\ (x - inject_Z (Qfloor x) < 1)%Q.
Proof.
  pose proof (Qfloor_le x) as H1. pose proof (Qlt_floor x) as H2.
  rewrite inject_Z_plus in H2. change (inject_Z 1) with 1%Q in H2.
  split; lra.
Qed.

Lemma nearest_even_cases (x : Q) :
  (nearest_even x = Qfloor x /\ (x - inject_Z (Qfloor x) <= 1 # 2)%Q) \/
  (nearest_even x = Qfloor x + 1 /\ (1 # 2 <= x - inject_Z (Qfloor x))%Q).
Proof.
  unfold nearest_even.
  destruct (Qcompare (x - inject_Z (Qfloor x)) (1 # 2)) eqn:E.
  - apply Qeq_alt in E. destruct (Z.even (Qfloor x)); [left|right]; split; auto; lra.
  - apply Qlt_alt in E. left. split; [reflexivity|lra].
  - apply Qgt_alt in E. right. split; [reflexivity|lra].
Qed.

Lemma nearest_even_bounds (x : Q) (lo hi : Z) :
  (inject_Z lo <= x)%Q -> (x <= inject_Z hi)%Q ->
  lo <= nearest_even x <= hi.
Proof.
  intros Hlo Hhi.
  assert (Hf : lo <= Qfloor x).
  { rewrite <- (Qfloor_Z lo). now apply Qfloor_resp_le. }
  pose proof (Qfloor_le x) as Hfx.
  assert (Hf2 : Qfloor x <= hi).
  { rewrite Zle_Qle. eapply Qle_trans; eauto. }
  destruct (nearest_even_cases x) as [[-> _] | [-> Hr]]; [lia|].
  split; [lia|].
  assert (Qfloor x < hi); [|lia].
  rewrite Zlt_Qlt. eapply Qlt_le_trans; [|exact Hhi].
  generalize dependent (inject_Z (Qfloor x)). intros q Hfx Hr. lra.
Qed.

Ltac compare_in H :=
  match type of H with
  | _ = Eq => apply Qeq_alt in H
  | _ = Lt => apply Qlt_alt in H
  | _ = Gt => apply Qgt_alt in H
  end.

Lemma nearest_even_mono (x y : Q) :
  (x <= y)%Q -> nearest_even x <= nearest_even y.
Proof.
  intros H. pose proof (Qfloor_resp_le x y H) as Hf.
  destruct (Z.eq_dec (Qfloor x) (Qfloor y)) as [E|NE].
  - unfold nearest_even. rewrite E.
    destruct (Qcompare (x - inject_Z (Qfloor y)) (1 # 2)) eqn:Ex;
      destruct (Qcompare (y - inject_Z (Qfloor y)) (1 # 2)) eqn:Ey;
      try (destruct (Z.even (Qfloor y))); try lia;
      exfalso; compare_in Ex; compare_in Ey; lra.
  - destruct (nearest_even_cases x) as [[-> _] | [-> _]];
      destruct (nearest_even_cases y) as [[-> _] | [-> _]]; lia.
Qed.

(** *** Rounding a positive number *)

(** The scaled significand lies in [2^52, 2^53). *)
Lemma scaled_range (x : Q) :
  (0 < x)%Q ->
  (inject_Z (2 ^ 52) <= x / pow2 (ilog2 x - 52))%Q /\
  (x / pow2 (ilog2 x - 52) < inject_Z (2 ^ 53))%Q.
Proof.
  intros Hx. destruct (ilog2_spec x Hx) as [Hlo Hhi].
  rewrite <- (pow2_Z 52), <- (pow2_Z 53) by lia. split.
  - apply (proj1 (pow2_scale_le x (ilog2 x) (ilog2 x - 52))) in Hlo.
    now replace (ilog2 x - (ilog2 x - 52)) with 52 in Hlo by lia.
  - apply (proj1 (pow2_scale_lt x (ilog2 x + 1) (ilog2 x - 52))) in Hhi.
    now replace (ilog2 x + 1 - (ilog2 x - 52)) with 53 in Hhi by lia.
Qed.

Lemma significand_range (x : Q) :
  (0 < x)%Q ->
  2 ^ 52 <= nearest_even (x / pow2 (ilog2 x - 52)) <= 2 ^ 53.
Proof.
  intros Hx. destruct (scaled_range x Hx) as [Hlo Hhi].
  apply nearest_even_bounds; [exact Hlo|now apply Qlt_le_weak].
Qed.

Lemma round_pos_pos (x : Q) : (0 < x)%Q -> (0 < round_pos x)%Q.
Proof.
  intros Hx. unfold round_pos.
  pose proof (significand_range x Hx) as [Hm _].
  apply Qmult_lt_0_compat; [|apply pow2_pos].
  change 0%Q with (inject_Z 0). rewrite <- Zlt_Qlt. lia.
Qed.

Lemma round_pos_comp (x y : Q) : (x == y)%Q -> (0 < x)%Q -> (round_pos x == round_pos y)%Q.
Proof.
  intros E Hx.
  assert (Hy : (0 < y)%Q) by now rewrite <- E.
  destruct (ilog2_spec y Hy) as [Hlo Hhi].
  assert (Ei : ilog2 x = ilog2 y).
  { apply ilog2_unique; now rewrite E. }
  unfold round_pos. rewrite Ei.
  rewrite (nearest_even_comp (x / pow2 (ilog2 y - 52)) (y / pow2 (ilog2 y - 52)));
    [reflexivity|now rewrite E].
Qed.

(** A significand of at most 53 bits is not rounded. *)
Lemma round_pos_exact (m e : Z) :
  2 ^ 52 <= m <= 2 ^ 53 ->
  (round_pos (inject_Z m * pow2 e) == inject_Z m * pow2 e)%Q.
Proof.
  intros [Hlo Hhi].
  assert (H52 : (pow2 (e + 52) == inject_Z (2 ^ 52) * pow2 e)%Q).
  { rewrite Z.add_comm, pow2_plus, (pow2_Z 52) by lia. reflexivity. }
  assert (H53 : (pow2 (e + 53) == inject_Z (2 ^ 53) * pow2 e)%Q).
  { rewrite Z.add_comm, pow2_plus, (pow2_Z 53) by lia. reflexivity. }
  pose proof (pow2_pos e) as He.
  destruct (Z.eq_dec m (2 ^ 53)) as [->|Hne].
  - assert (Ei : ilog2 (inject_Z (2 ^ 53) * pow2 e) = e + 53).
    { apply ilog2_unique.
      - rewrite H53. apply Qle_refl.
      - rewrite <- H53. apply pow2_lt. lia. }
    unfold round_pos. rewrite Ei.
    replace (e + 53 - 52) with (e + 1) by lia.
    rewrite (nearest_even_comp _ (inject_Z (2 ^ 52))).
    + rewrite nearest_even_Z. rewrite pow2_plus.
      change (pow2 1) with 2%Q.
      change (inject_Z (2 ^ 53)) with (inject_Z (2 ^ 52) * 2)%Q. ring.
    + rewrite pow2_plus. change (pow2 1) with 2%Q.
      change (inject_Z (2 ^ 53)) with (inject_Z (2 ^ 52) * 2)%Q.
      field. intros H0. rewrite H0 in He. discriminate.
  - assert (Ei : ilog2 (inject_Z m * pow2 e) = e + 52).
    { apply ilog2_unique.
      - rewrite H52. apply Qmult_le_compat_r; [|now apply Qlt_le_weak].
        now rewrite <- Zle_Qle.
      - replace (e + 52 + 1) with (e + 53) by lia. rewrite H53.
        apply Qmult_lt_compat_r; [exact He|]. rewrite <- Zlt_Qlt. lia. }
    unfold round_pos. rewrite Ei.
    replace (e + 52 - 52) with e by lia.
    rewrite (nearest_even_comp _ (inject_Z m)).
    + now rewrite nearest_even_Z.
    + field. intros H0. rewrite H0 in He. discriminate.
Qed.

Lemma round_pos_idem (x : Q) :
  (0 < x)%Q -> (round_pos (round_pos x) == round_pos x)%Q.
Proof.
  intros Hx. unfold round_pos at 2 3.
  apply round_pos_exact. now apply significand_range.
Qed.

Lemma round_pos_mono (x y : Q) :
  (0 < x)%Q -> (x <= y)%Q -> (round_pos x <= round_pos y)%Q.
Proof.
  intros Hx Hxy.
  assert (Hy : (0 < y)%Q) by (eapply Qlt_le_trans; eauto).
  destruct (ilog2_spec x Hx) as [Xlo Xhi].
  destruct (ilog2_spec y Hy) as [Ylo Yhi].
  assert (He : ilog2 x <= ilog2 y).
  { assert (ilog2 x < ilog2 y + 1); [|lia].
    apply pow2_lt_inv. eapply Qle_lt_trans; [exact Xlo|].
    eapply Qle_lt_trans; eauto. }
  pose proof (significand_range x Hx) as [_ Mx].
  pose proof (significand_range y Hy) as [My _].
  unfold round_pos.
  destruct (Z.eq_dec (ilog2 x) (ilog2 y)) as [E|NE].
  - rewrite E. apply Qmult_le_compat_r; [|apply Qlt_le_weak, pow2_pos].
    rewrite <- Zle_Qle. apply nearest_even_mono.
    apply Qmult_le_compat_r; [exact Hxy|].
    apply Qlt_le_weak, Qinv_lt_0_compat, pow2_pos.
  - apply Qle_trans with (pow2 (ilog2 x + 1)).
    + replace (ilog2 x + 1) with (53 + (ilog2 x - 52)) by lia.
      rewrite pow2_plus, (pow2_Z 53) by lia.
      apply Qmult_le_compat_r; [|apply Qlt_le_weak, pow2_pos].
      now rewrite <- Zle_Qle.
    + apply Qle_trans with (pow2 (ilog2 y)); [apply pow2_le; lia|].
      replace (ilog2 y) with (52 + (ilog2 y - 52)) at 1 by lia.
      rewrite pow2_plus, (pow2_Z 52) by lia.
      apply Qmult_le_compat_r; [|apply Qlt_le_weak, pow2_pos].
      now rewrite <- Zle_Qle.
Qed.

(** *** Rounding *)

Lemma round_comp (x y : Q) : (x == y)%Q -> round x = round y.
Proof. intros H. unfold round. now rewrite (Qred_complete x y H). Qed.

Lemma nearest_comp (x y : Q) : (x == y)%Q -> (nearest x == nearest y)%Q.
Proof.
  intros E. unfold nearest.
  assert (Ec : Qcompare x 0 = Qcompare y 0).
  { apply Qcompare_comp; [exact E|reflexivity]. }
  rewrite Ec. destruct (Qcompare y 0) eqn:C.
  - reflexivity.
  - compare_in C.
    assert (H : (round_pos (- x) == round_pos (- y))%Q).
    { apply round_pos_comp; [now rewrite E|]. rewrite E. lra. }
    now rewrite H.
  - compare_in C. apply round_pos_comp; [exact E|]. now rewrite E.
Qed.

Lemma round_value (x : Q) : (round x == nearest x)%Q.
Proof.
  unfold round. rewrite Qred_correct. apply nearest_comp, Qred_correct.
Qed.

Lemma nearest_pos (x : Q) : (0 < x)%Q -> nearest x = round_pos x.
Proof.
  intros H. unfold nearest.
  assert (C : Qcompare x 0 = Gt) by now apply -> Qgt_alt.
  now rewrite C.
Qed.

Lemma nearest_neg (x : Q) : (x < 0)%Q -> nearest x = (- round_pos (- x))%Q.
Proof.
  intros H. unfold nearest.
  assert (C : Qcompare x 0 = Lt) by now apply -> Qlt_alt.
  now rewrite C.
Qed.

Lemma nearest_zero (x : Q) : (x == 0)%Q -> nearest x = 0%Q.
Proof.
  intros H. unfold nearest.
  assert (C : Qcompare x 0 = Eq) by now apply -> Qeq_alt.
  now rewrite C.
Qed.

Lemma round_0 : round 0 = 0%Q.
Proof. reflexivity. Qed.

Lemma round_pos_sign (x : Q) : (0 < x)%Q -> (0 < round x)%Q.
Proof.
  intros H. rewrite round_value, nearest_pos by exact H. now apply round_pos_pos.
Qed.

Lemma nearest_opp (x : Q) : (nearest (- x) == - nearest x)%Q.
Proof.
  destruct (Q_dec x 0) as [[H|H]|H].
  - rewrite (nearest_neg x H), nearest_pos by lra. ring.
  - rewrite (nearest_pos x H), nearest_neg by lra.
    assert (E : (round_pos (- - x) == round_pos x)%Q).
    { apply round_pos_comp; [ring|lra]. }
    now rewrite E.
  - rewrite (nearest_zero x H), nearest_zero by lra. reflexivity.
Qed.

Lemma round_opp (x : Q) : round (- x) = (- round x)%Q.
Proof.
  unfold round. rewrite <- Qred_opp. apply Qred_complete.
  rewrite <- nearest_opp. apply nearest_comp.
  rewrite !Qred_correct. reflexivity.
Qed.

Lemma round_neg_sign (x : Q) : (x < 0)%Q -> (round x < 0)%Q.
Proof.
  intros H. assert (H' : (0 < round (- x))%Q) by (apply round_pos_sign; lra).
  rewrite round_opp in H'. lra.
Qed.

(** Rounding keeps the sign: a difference is positive, zero or
    negative with its rounded value. *)
Lemma round_sign (x : Q) : (0 < round x)%Q <-> (0 < x)%Q.
Proof.
  split; [|apply round_pos_sign].
  intros H. destruct (Q_dec x 0) as [[Hn|Hp]|He]; [|exact Hp|].
  - apply round_neg_sign in Hn. lra.
  - rewrite (round_comp x 0 He), round_0 in H. lra.
Qed.

Lemma nearest_idem (x : Q) : (nearest (nearest x) == nearest x)%Q.
Proof.
  destruct (Q_dec x 0) as [[H|H]|H].
  - rewrite (nearest_neg x H).
    assert (Hp : (0 < round_pos (- x))%Q) by (apply round_pos_pos; lra).
    rewrite nearest_neg by lra.
    assert (E : (round_pos (- - round_pos (- x)) == round_pos (round_pos (- x)))%Q).
    { apply round_pos_comp; [ring|lra]. }
    rewrite E, round_pos_idem by lra. reflexivity.
  - rewrite (nearest_pos x H).
    rewrite nearest_pos by now apply round_pos_pos.
    now apply round_pos_idem.
  - rewrite (nearest_zero x H). reflexivity.
Qed.

Lemma round_idem (x : Q) : round (round x) = round x.
Proof.
  unfold round. apply Qred_complete.
  rewrite <- (nearest_idem (Qred x)) at 2. apply nearest_comp.
  rewrite !Qred_correct. reflexivity.
Qed.

Lemma nearest_mono (x y : Q) : (x <= y)%Q -> (nearest x <= nearest y)%Q.
Proof.
  intros H.
  destruct (Q_dec x 0) as [[Hx|Hx]|Hx]; destruct (Q_dec y 0) as [[Hy|Hy]|Hy];
    try (exfalso; lra).
  - rewrite (nearest_neg x Hx), (nearest_neg y Hy).
    apply Qopp_le_compat. apply round_pos_mono; lra.
  - rewrite (nearest_neg x Hx), (nearest_pos y Hy).
    assert (0 < round_pos (- x))%Q by (apply round_pos_pos; lra).
    assert (0 < round_pos y)%Q by (apply round_pos_pos; lra). lra.
  - rewrite (nearest_neg x Hx), (nearest_zero y Hy).
    assert (0 < round_pos (- x))%Q by (apply round_pos_pos; lra). lra.
  - rewrite (nearest_pos x Hx), (nearest_pos y Hy). now apply round_pos_mono.
  - rewrite (nearest_zero x Hx), (nearest_pos y Hy).
    apply Qlt_le_weak. now apply round_pos_pos.
  - rewrite (nearest_zero x Hx), (nearest_zero y Hy). lra.
Qed.

Lemma round_mono (x y : Q) : (x <= y)%Q -> (round x <= round y)%Q.
Proof.
  intros H. rewrite !round_value. now apply nearest_mono.
Qed.

(** An integer of at most 53 bits is a double. *)
Lemma round_pos_Z (z : Z) :
  0 < z <= 2 ^ 53 -> (round_pos (inject_Z z) == inject_Z z)%Q.
Proof.
  intros [H0 H53].
  destruct (Z.log2_spec z H0) as [Hlo Hhi].
  pose proof (Z.log2_nonneg z) as Hn.
  assert (Hl : Z.log2 z <= 53).
  { rewrite <- (Z.log2_pow2 53) by lia. apply Z.log2_le_mono. lia. }
  set (k := 52 - Z.log2 z).
  destruct (Z.eq_dec z (2 ^ 53)) as [->|Hne].
  - assert (E : (inject_Z (2 ^ 53) == inject_Z (2 ^ 53) * pow2 0)%Q).
    { change (pow2 0) with 1%Q. ring. }
    rewrite (round_pos_comp _ _ E) by reflexivity.
    rewrite round_pos_exact by lia. now rewrite <- E.
  - assert (Hk : 0 <= k).
    { unfold k. assert (Z.log2 z < 53); [|lia].
      apply (proj1 (Z.log2_lt_pow2 z 53 H0)). lia. }
    assert (E : (inject_Z z == inject_Z (z * 2 ^ k) * pow2 (- k))%Q).
    { rewrite inject_Z_mult, <- (pow2_Z k Hk), <- Qmult_assoc, <- pow2_plus.
      replace (k + - k) with 0 by lia. change (pow2 0) with 1%Q. ring. }
    rewrite (round_pos_comp _ _ E) by (change 0%Q with (inject_Z 0); now rewrite <- Zlt_Qlt).
    rewrite round_pos_exact; [now rewrite <- E|].
    unfold k. split.
    + replace 52 with (Z.log2 z + (52 - Z.log2 z)) at 1 by lia.
      rewrite Z.pow_add_r by lia. nia.
    + replace 53 with (Z.succ (Z.log2 z) + (52 - Z.log2 z)) by lia.
      rewrite Z.pow_add_r by lia. nia.
Qed.

Lemma round_Z (z : Z) :
  - 2 ^ 53 <= z <= 2 ^ 53 -> (round (inject_Z z) == inject_Z z)%Q.
Proof.
  intros H. rewrite round_value.
  destruct (Z.lt_trichotomy z 0) as [Hz|[->|Hz]].
  - rewrite nearest_neg by (change 0%Q with (inject_Z 0); now rewrite <- Zlt_Qlt).
    rewrite <- inject_Z_opp, round_pos_Z by lia.
    rewrite inject_Z_opp. ring.
  - reflexivity.
  - rewrite nearest_pos by (change 0%Q with (inject_Z 0); now rewrite <- Zlt_Qlt).
    apply round_pos_Z. lia.
Qed.

(** ** Ranking (QualityProfileService.rankResults) *)

Import Quality.

Lemma findIndex_position_ci (fmt : string) (l : list string) :
  findIndex (fun f => String.eqb (toUpperCase f) (toUpperCase fmt)) l
  = position_ci fmt l.
Proof.
  induction l as [|f l IH]; simpl; [reflexivity|].
  destruct (String.eqb (toUpperCase f) (toUpperCase fmt)); [reflexivity|].
  rewrite IH. now destruct (position_ci fmt l).
Qed.

Lemma includes_lossless (f : string) :
  (if includes ["FLAC"; "ALAC"; "WAV"] (toUpperCase f) then 1411 else 320)
  = ceiling f.
Proof.
  unfold includes, ceiling. simpl. now rewrite orb_false_r, orb_assoc.
Qed.

(** A bitrate of 0 is falsy and adds nothing; so does the formula. *)
Lemma zero_bitrate_points (f : string) :
  (Qmin ((inject_Z 0 / inject_Z (ceiling f)) * 50) 50 == 0)%Q.
Proof. unfold ceiling. destruct (_ || _); reflexivity. Qed.

(** The code's running total equals the additive formula. *)
Lemma score_formula (p : QualityProfile) (c : SearchResult) (idx : nat) (a s : Z) :
  position_ci (format (quality c)) (formats p) = Some idx ->
  age c = Int a -> size c = Int s ->
  exists q, score p c = Some q /\ (q == spec_score p c idx a s)%Q.
Proof.
  intros Hidx Ha Hs. unfold score.
  rewrite findIndex_position_ci, Hidx, Ha, Hs.
  eexists; split; [reflexivity|].
  unfold spec_score, format_points, bitrate_points, age_penalty, size_penalty.
  destruct (bitrate (quality c)) as [[|b]|]; simpl truthy_num; cbv zeta.
  1, 3: destruct (Qlt_bool _ 10); [|destruct (Qlt_bool 500 _)]; ring.
  rewrite includes_lossless.
  destruct (Z.eqb_spec b 0) as [->|Hb]; simpl negb; cbv iota.
  - rewrite zero_bitrate_points.
    destruct (Qlt_bool _ 10); [|destruct (Qlt_bool 500 _)]; ring.
  - destruct (Qlt_bool _ 10); [|destruct (Qlt_bool 500 _)]; ring.
Qed.

Lemma rankResults_sort (results : list SearchResult) (p : QualityProfile) :
  rankResults results p = sort (after_score p) results.
Proof.
  unfold rankResults.
  rewrite (sort_map (fun r => (r, score p r)) (after_score p) after)
    by reflexivity.
  rewrite List.map_map. simpl. apply List.map_id.
Qed.

Lemma Qlt_bool_iff (x y : Q) : Qlt_bool x y = true <-> (x < y)%Q.
Proof.
  unfold Qlt_bool. rewrite negb_true_iff. split.
  - intros H. apply Qnot_le_lt. intros Hle.
    apply Qle_bool_iff in Hle. congruence.
  - intros H. destruct (Qle_bool y x) eqn:E; [|reflexivity].
    apply Qle_bool_iff in E. exfalso. eapply Qlt_not_le; eauto.
Qed.

Lemma after_score_lt (p : QualityProfile) (a b : SearchResult) :
  scored_ok p a -> scored_ok p b ->
  (after_score p a b = true <-> (score_of p a < score_of p b)%Q).
Proof.
  intros [qa Ha] [qb Hb]. unfold after_score, after, comparefn, score_of.
  simpl. rewrite Ha, Hb. rewrite Qlt_bool_iff. split; intros H.
  - apply Qlt_minus_iff. exact H.
  - apply Qlt_minus_iff in H. exact H.
Qed.

Lemma after_score_false (p : QualityProfile) (a b : SearchResult) :
  scored_ok p a -> scored_ok p b ->
  (after_score p a b = false <-> (score_of p b <= score_of p a)%Q).
Proof.
  intros Ha Hb. rewrite <- not_true_iff_false, (after_score_lt p a b Ha Hb).
  split; [apply Qnot_lt_le|apply Qle_not_lt].
Qed.

Lemma rankable_scored_ok (p : QualityProfile) (c : SearchResult) :
  rankable p c -> scored_ok p c.
Proof.
  intros (_ & [a Ha] & _). unfold scored_ok, score. rewrite Ha. eauto.
Qed.

Lemma StronglySorted_impl {A : Type} (R S : A -> A -> Prop) (ok : A -> Prop)
  (l : list A) :
  (forall x y, ok x -> ok y -> R x y -> S x y) ->
  Forall ok l -> StronglySorted R l -> StronglySorted S l.
Proof.
  intros HRS Hok Hs. induction Hs as [|x l Hs IH Hx]; [constructor|].
  inversion Hok as [|? ? Hokx Hokl]; subst.
  constructor; [now apply IH|].
  rewrite List.Forall_forall in Hx, Hokl. apply List.Forall_forall.
  intros y Hy. apply HRS; auto.
Qed.

Lemma rankResults_perm (results : list SearchResult) (p : QualityProfile) :
  Permutation results (rankResults results p).
Proof. rewrite rankResults_sort. apply sort_perm. Qed.

Lemma rankResults_sorted (results : list SearchResult) (p : QualityProfile) :
  Forall (scored_ok p) results ->
  StronglySorted (score_ge p) (rankResults results p).
Proof.
  intros Hok. rewrite rankResults_sort.
  apply (StronglySorted_impl (not_after (after_score p)) _ (scored_ok p)).
  - intros x y Hx Hy H. now apply after_score_false.
  - eapply Permutation_Forall; [apply sort_perm|exact Hok].
  - apply (sort_sorted _ (scored_ok p)); [| |exact Hok].
    + intros x y Hx Hy H. apply after_score_false; auto.
      apply after_score_lt in H; auto. now apply Qlt_le_weak.
    + intros x y z Hx Hy Hz Hxy Hyz.
      apply after_score_false in Hxy, Hyz; auto.
      apply after_score_false; auto. eapply Qle_trans; eauto.
Qed.

Lemma rankResults_stable (results : list SearchResult) (p : QualityProfile) (q : Q) :
  Forall (scored_ok p) results ->
  List.filter (has_score p q) (rankResults results p)
  = List.filter (has_score p q) results.
Proof.
  intros Hok. rewrite rankResults_sort. apply sort_stable.
  rewrite List.Forall_forall in Hok.
  intros x y Hx Hy Px Py. apply after_score_false; auto.
  unfold has_score in Px, Py. apply Qeq_bool_iff in Px, Py.
  apply Qle_lteq. right. eapply Qeq_trans; [exact Py|apply Qeq_sym, Px].
Qed.

Lemma selectBestResult_head (results : list SearchResult) (p : QualityProfile) :
  selectBestResult results p = head (rankResults (filterResults results p) p).
Proof.
  unfold selectBestResult.
  destruct (filterResults results p) as [|c l] eqn:E; reflexivity.
Qed.

Lemma selectBestResult_none (results : list SearchResult) (p : QualityProfile) :
  selectBestResult results p = None <-> filterResults results p = [].
Proof.
  rewrite selectBestResult_head. split.
  - intros H. destruct (rankResults (filterResults results p) p) eqn:E;
      [|discriminate].
    apply Permutation_nil. rewrite <- E. apply Permutation_sym, rankResults_perm.
  - intros ->. reflexivity.
Qed.

(** *** The ranking of the code, in binary64 *)

(** A rounded number is not rounded again. *)
Lemma add_0_l (y : Q) : Double.round y = y -> Double.add 0 y = y.
Proof.
  intros H. unfold Double.add. rewrite (round_comp (0 + y) y) by ring. exact H.
Qed.

Lemma add_0_r (x : Q) : Double.round x = x -> Double.add x 0 = x.
Proof.
  intros H. unfold Double.add. rewrite (round_comp (x + 0) x) by ring. exact H.
Qed.

Lemma sub_0_r (x : Q) : Double.round x = x -> Double.sub x 0 = x.
Proof.
  intros H. unfold Double.sub. rewrite (round_comp (x - 0) x) by ring. exact H.
Qed.

(** A bitrate of 0 is falsy and adds nothing; so does the formula. *)
Lemma zero_bitrate_adds_nothing (f : string) :
  Qmin (Double.mul (Double.div (Double.of_Z 0) (Double.of_Z (ceiling f))) 50) 50 = 0%Q.
Proof. unfold ceiling. destruct (_ || _); vm_compute; reflexivity. Qed.

(** The code's running total is the additive formula. *)
Lemma ranking_score_formula (p : QualityProfile) (c : SearchResult) (a : Z) :
  age c = Int a -> Ranking.score p c = Some (Ranking.spec_score p c a).
Proof.
  intros Ha. unfold Ranking.score, Ranking.spec_score. rewrite Ha. f_equal.
  rewrite findIndex_position_ci.
  unfold Ranking.format_points, Ranking.bitrate_points, Ranking.age_penalty,
    Ranking.size_penalty.
  set (fp := match position_ci (format (quality c)) (formats p) with
             | Some idx => Double.of_Z ((Z.of_nat (length (formats p)) - Z.of_nat idx) * 20)
             | None => 0%Q
             end).
  assert (Hfp : Double.round fp = fp).
  { unfold fp. destruct (position_ci _ _); [apply round_idem|reflexivity]. }
  assert (E1 : match position_ci (format (quality c)) (formats p) with
               | Some i => Double.add 0
                             (Double.of_Z ((Z.of_nat (length (formats p)) - Z.of_nat i) * 20))
               | None => 0%Q
               end = fp).
  { unfold fp. destruct (position_ci _ _); [|reflexivity].
    apply add_0_l, round_idem. }
  rewrite E1. clear E1.
  set (s2 := match bitrate (quality c) with
             | Some (Int b) =>
                 if truthy_num (Int b)
                 then Double.add fp
                        (Qmin (Double.mul
                                 (Double.div (Double.of_Z b)
                                    (Double.of_Z
                                       (if includes ["FLAC"; "ALAC"; "WAV"]
                                             (toUpperCase (format (quality c)))
                                        then 1411 else 320))) 50) 50)
                 else fp
             | _ => fp
             end).
  assert (E2 : s2 = Double.add fp
                      match bitrate (quality c) with
                      | Some (Int b) =>
                          Qmin (Double.mul
                                  (Double.div (Double.of_Z b)
                                     (Double.of_Z (ceiling (format (quality c))))) 50) 50
                      | _ => 0%Q
                      end).
  { unfold s2. destruct (bitrate (quality c)) as [[|b]|];
      try (symmetry; now apply add_0_r).
    rewrite includes_lossless. simpl truthy_num.
    destruct (Z.eqb_spec b 0) as [->|Hb]; simpl negb; cbv iota; [|reflexivity].
    rewrite zero_bitrate_adds_nothing. symmetry. now apply add_0_r. }
  rewrite E2. clear E2 s2.
  set (s3 := Double.sub _ (Qmin (Double.of_Z a) 30)).
  assert (H3 : Double.round s3 = s3) by apply round_idem.
  destruct (size c) as [|sz]; [symmetry; now apply sub_0_r|].
  destruct (Qlt_bool _ 10); [reflexivity|].
  destruct (Qlt_bool 500 _); [reflexivity|].
  symmetry. now apply sub_0_r.
Qed.

Lemma ranking_sort (results : list SearchResult) (p : QualityProfile) :
  Ranking.rankResults results p = sort (Ranking.after_score p) results.
Proof.
  unfold Ranking.rankResults.
  rewrite (sort_map (fun r => (r, Ranking.score p r)) (Ranking.after_score p)
                    Ranking.after) by reflexivity.
  rewrite List.map_map. simpl. apply List.map_id.
Qed.

Lemma numeric_age_score (p : QualityProfile) (c : SearchResult) :
  Ranking.numeric_age c -> exists q, Ranking.score p c = Some q.
Proof. intros [a Ha]. rewrite (ranking_score_formula p c a Ha). eauto. Qed.

(** The sign of the rounded difference is the sign of the difference:
    the comparator orders by the scores. *)
Lemma ranking_after_lt (p : QualityProfile) (a b : SearchResult) :
  Ranking.numeric_age a -> Ranking.numeric_age b ->
  (Ranking.after_score p a b = true
   <-> (Ranking.score_of p a < Ranking.score_of p b)%Q).
Proof.
  intros Ha Hb.
  destruct (numeric_age_score p a Ha) as [qa Ea].
  destruct (numeric_age_score p b Hb) as [qb Eb].
  unfold Ranking.after_score, Ranking.after, Ranking.comparefn, Ranking.score_of.
  simpl. rewrite Ea, Eb. rewrite Qlt_bool_iff. unfold Double.sub.
  rewrite round_sign. split; intros H.
  - apply Qlt_minus_iff. exact H.
  - apply Qlt_minus_iff in H. exact H.
Qed.

Lemma ranking_after_false (p : QualityProfile) (a b : SearchResult) :
  Ranking.numeric_age a -> Ranking.numeric_age b ->
  (Ranking.after_score p a b = false
   <-> (Ranking.score_of p b <= Ranking.score_of p a)%Q).
Proof.
  intros Ha Hb. rewrite <- not_true_iff_false, (ranking_after_lt p a b Ha Hb).
  split; [apply Qnot_lt_le|apply Qle_not_lt].
Qed.

Lemma ranking_perm (results : list SearchResult) (p : QualityProfile) :
  Permutation results (Ranking.rankResults results p).
Proof. rewrite ranking_sort. apply sort_perm. Qed.



Lemma ranking_select_head (results : list SearchResult) (p : QualityProfile) :
  Ranking.selectBestResult results p
  = head (Ranking.rankResults (filterResults results p) p).
Proof.
  unfold Ranking.selectBestResult.
  destruct (filterResults results p) as [|c l] eqn:E; reflexivity.
Qed.





(** The total has no floor: a stale, tiny release in the last listed
    format scores 20 - 30 - 20. *)
Example score_can_be_negative :
  score profile_std
        (mkSearchResult "old" "u" (Int 1024) (Int 400) "ix" (mkQuality "mp3" None))
  = Some (-30)%Q.
Proof.
  vm_compute. reflexivity.
Qed.

(** The end-to-end scenario: B is dropped, A ranks above C. *)
Example scenario_filter_then_rank :
  filterResults [cand_A; cand_B; cand_C] profile_std = [cand_A; cand_C] /\
  rankResults [cand_C; cand_A] profile_std = [cand_A; cand_C].
Proof.
  split; vm_compute; reflexivity.
Qed.

(** ** Default-profile exclusivity (QualityProfileRepository) *)

Import Profiles.

Lemma ids_clear_defaults (t : table) :
  List.map qp_id (clear_defaults t) = List.map qp_id t.
Proof. unfold clear_defaults. rewrite List.map_map. reflexivity. Qed.

Lemma ids_map_where (id : string) (f : QualityProfile -> QualityProfile) (t : table) :
  (forall r, qp_id (f r) = qp_id r) ->
  List.map qp_id (List.map (fun r => if has_id id r then f r else r) t)
  = List.map qp_id t.
Proof.
  intros Hf. rewrite List.map_map. apply List.map_ext.
  intros r. destruct (has_id id r); auto.
Qed.

Lemma defaults_clear (t : table) : defaults (clear_defaults t) = [].
Proof. induction t as [|r t IH]; simpl; auto. Qed.

Lemma clear_defaults_none (t : table) :
  Forall (fun r => isDefault r = false) (clear_defaults t).
Proof. induction t as [|r t IH]; simpl; constructor; auto. Qed.

Lemma has_id_true (id : string) (r : QualityProfile) :
  has_id id r = true <-> qp_id r = id.
Proof. unfold has_id. apply String.eqb_eq. Qed.

(** Rows that are not the target of a [WHERE id = ?] are left alone. *)
Lemma map_where_absent (id : string) (f : QualityProfile -> QualityProfile) (t : table) :
  ~ In id (List.map qp_id t) ->
  List.map (fun r => if has_id id r then f r else r) t = t.
Proof.
  induction t as [|r t IH]; simpl; intros H; [reflexivity|].
  destruct (has_id id r) eqn:E.
  - apply has_id_true in E. tauto.
  - rewrite IH; tauto.
Qed.

Lemma defaults_none (t : table) :
  Forall (fun r => isDefault r = false) t -> defaults t = [].
Proof.
  induction 1 as [|r t Hr Ht IH]; simpl; [reflexivity|]. now rewrite Hr.
Qed.

(** With a primary key, a statement [WHERE id = ?] on a table without a
    default leaves at most one. *)
Lemma where_id_at_most_one (id : string) (f : QualityProfile -> QualityProfile)
  (t : table) :
  pk_unique t -> Forall (fun r => isDefault r = false) t ->
  at_most_one_default (List.map (fun r => if has_id id r then f r else r) t).
Proof.
  unfold pk_unique, at_most_one_default.
  induction t as [|r t IH]; simpl; intros Hnd Hno; [lia|].
  inversion Hnd as [|? ? Hnotin Hnd']; subst.
  inversion Hno as [|? ? Hr Hno']; subst.
  destruct (has_id id r) eqn:E.
  - apply has_id_true in E. subst id.
    rewrite map_where_absent by exact Hnotin.
    unfold defaults in *. simpl.
    fold (defaults t). rewrite (defaults_none t Hno').
    destruct (isDefault (f r)); simpl; lia.
  - unfold defaults in *. simpl. rewrite Hr. now apply IH.
Qed.

(** A rewriting of the rows that sets no flag adds no default. *)
Lemma map_no_new_default (g : QualityProfile -> QualityProfile) (t : table) :
  (forall r, isDefault (g r) = true -> isDefault r = true) ->
  (length (defaults (List.map g t)) <= length (defaults t))%nat.
Proof.
  intros Hg. unfold defaults. induction t as [|r t IH]; simpl; [lia|].
  destruct (isDefault (g r)) eqn:E.
  - rewrite (Hg r E). simpl. lia.
  - destruct (isDefault r); simpl; lia.
Qed.

Lemma defaults_app (t1 t2 : table) : defaults (t1 ++ t2) = (defaults t1 ++ defaults t2)%list.
Proof. unfold defaults. apply List.filter_app. Qed.

Lemma existsb_has_id_false (id : string) (t : table) :
  existsb (has_id id) t = false -> ~ In id (List.map qp_id t).
Proof.
  intros H Hin. apply List.in_map_iff in Hin. destruct Hin as (r & Hr & Hin).
  assert (existsb (has_id id) t = true); [|congruence].
  apply List.existsb_exists. exists r. split; [exact Hin|].
  now apply has_id_true.
Qed.

Lemma pk_unique_snoc (t : table) (row : QualityProfile) :
  pk_unique t -> ~ In (qp_id row) (List.map qp_id t) -> pk_unique (t ++ [row]).
Proof.
  unfold pk_unique. intros Hnd Hnotin. rewrite List.map_app. simpl.
  apply List.NoDup_app. repeat split; auto.
  - repeat constructor. simpl. tauto.
  - intros x Hx [<-|[]]. contradiction.
Qed.

Lemma pk_unique_clear (t : table) : pk_unique t -> pk_unique (clear_defaults t).
Proof. unfold pk_unique. now rewrite ids_clear_defaults. Qed.

Lemma at_most_one_clear (t : table) : at_most_one_default (clear_defaults t).
Proof. unfold at_most_one_default. rewrite defaults_clear. simpl. lia. Qed.

Lemma setDefault_table (id : string) (t : table) :
  snd (setDefault id t) = mark_default id (clear_defaults t).
Proof. reflexivity. Qed.

Lemma setDefault_ok (id : string) (t : table) :
  pk_unique t -> table_ok (snd (setDefault id t)).
Proof.
  intros Hpk. rewrite setDefault_table. split.
  - apply where_id_at_most_one; [now apply pk_unique_clear|apply clear_defaults_none].
  - unfold pk_unique, mark_default.
    rewrite ids_map_where by reflexivity. now apply pk_unique_clear.
Qed.

Lemma find_default_marked (id : string) (t : table) :
  Forall (fun r => isDefault r = false) t ->
  List.find isDefault (mark_default id t) = List.find (has_id id) (mark_default id t).
Proof.
  induction 1 as [|r t Hr Ht IH]; simpl; [reflexivity|].
  destruct (has_id id r) eqn:E; simpl.
  - unfold has_id in *. simpl. now rewrite E.
  - now rewrite Hr, E.
Qed.

Lemma only_marked_default (id : string) (t : table) (r : QualityProfile) :
  Forall (fun r => isDefault r = false) t ->
  In r (mark_default id t) -> isDefault r = true -> qp_id r = id.
Proof.
  intros Hno Hin Hd. unfold mark_default in Hin.
  apply List.in_map_iff in Hin. destruct Hin as (r0 & <- & Hin).
  rewrite List.Forall_forall in Hno. specialize (Hno r0 Hin).
  destruct (has_id id r0) eqn:E.
  - now apply has_id_true in E.
  - congruence.
Qed.

Lemma create_ok (id : string) (now : Z) (profile : NewProfile) (t : table) :
  table_ok t -> table_ok (snd (create id now profile t)).
Proof.
  intros [Hone Hpk]. unfold create.
  set (t1 := if np_isDefault profile then clear_defaults t else t).
  assert (Ht1 : table_ok t1).
  { unfold t1. destruct (np_isDefault profile); split; auto.
    - apply at_most_one_clear.
    - now apply pk_unique_clear. }
  cbv zeta.
  destruct (existsb (has_id id) t1) eqn:Eid; simpl; [exact Ht1|].
  destruct (existsb (has_name (np_name profile)) t1); simpl; [exact Ht1|].
  set (row := mkQualityProfile _ _ _ _ _ _ _).
  assert (Hok : table_ok (t1 ++ [row])).
  { split.
    - unfold at_most_one_default. rewrite defaults_app, List.length_app.
      unfold t1 in *. subst row. destruct (np_isDefault profile); simpl.
      + rewrite defaults_clear. simpl. lia.
      + unfold at_most_one_default in Hone. lia.
    - apply pk_unique_snoc; [apply Ht1|]. simpl. now apply existsb_has_id_false. }
  destruct (findById id (t1 ++ [row])); exact Hok.
Qed.

Lemma update_ok (id : string) (updates : ProfileUpdates) (t : table) :
  table_ok t -> table_ok (snd (update id updates t)).
Proof.
  intros [Hone Hpk]. unfold update.
  set (t1 := match u_isDefault updates with
             | Some true => clear_defaults t
             | _ => t
             end).
  assert (Ht1 : table_ok t1).
  { unfold t1. destruct (u_isDefault updates) as [[|]|]; split; auto.
    - apply at_most_one_clear.
    - now apply pk_unique_clear. }
  cbv zeta.
  destruct (no_clause updates); [exact Ht1|].
  destruct (name_taken id updates t1); [exact Ht1|].
  simpl. split.
  - unfold t1 in *. destruct (u_isDefault updates) as [[|]|] eqn:E.
    + apply where_id_at_most_one; [now apply pk_unique_clear|apply clear_defaults_none].
    + eapply Nat.le_trans; [apply map_no_new_default|exact Hone].
      intros r. destruct (has_id id r); [|auto].
      unfold apply_updates. simpl. rewrite E. discriminate.
    + eapply Nat.le_trans; [apply map_no_new_default|exact Hone].
      intros r. destruct (has_id id r); [|auto].
      unfold apply_updates. simpl. now rewrite E.
  - unfold pk_unique. rewrite ids_map_where by reflexivity. apply Ht1.
Qed.

Lemma createProfile_ok (id : string) (now : Z) (profile : NewProfile) (t : table) :
  table_ok t -> table_ok (snd (createProfile id now profile t)).
Proof.
  intros Ht. unfold createProfile.
  repeat match goal with
         | |- context [if ?b then _ else _] => destruct b
         | |- context [match findByName ?n ?t with _ => _ end] =>
             destruct (findByName n t)
         end; simpl; auto using create_ok.
Qed.

Lemma updateProfile_ok (id : string) (updates : ProfileUpdates) (t : table) :
  table_ok t -> table_ok (snd (updateProfile id updates t)).
Proof.
  intros Ht. unfold updateProfile.
  destruct (findById id t); [|exact Ht].
  repeat match goal with
         | |- table_ok (snd (if ?b then _ else _)) => destruct b; [exact Ht|]
         end.
  pose proof (update_ok id updates t Ht) as H.
  destruct (update id updates t) as [[[u|]|m] t']; exact H.
Qed.

Lemma setDefaultProfile_ok (id : string) (t : table) :
  table_ok t -> table_ok (snd (setDefaultProfile id t)).
Proof.
  intros Ht. unfold setDefaultProfile.
  destruct (findById id t); [|exact Ht].
  pose proof (setDefault_ok id t (proj2 Ht)) as H.
  destruct (setDefault id t) as [[u|] t']; exact H.
Qed.

Lemma findById_clear_defaults (id : string) (t : table) :
  findById id (clear_defaults t) = option_map (set_isDefault false) (findById id t).
Proof.
  unfold findById, clear_defaults.
  induction t as [|r t IH]; simpl; [reflexivity|].
  unfold has_id at 1. simpl. fold (has_id id r).
  destruct (has_id id r); [reflexivity|exact IH].
Qed.

Lemma findById_mark_default (id : string) (t : table) :
  findById id (mark_default id t) = option_map (set_isDefault true) (findById id t).
Proof.
  unfold findById, mark_default.
  induction t as [|r t IH]; simpl; [reflexivity|].
  destruct (has_id id r) eqn:E.
  - unfold has_id at 1. simpl. fold (has_id id r). now rewrite E.
  - now rewrite E.
Qed.

(** [setDefaultProfile] on a profile that exists: it returns the stored
    row with the flag set, and the new table in which every other flag
    is cleared. *)
Lemma setDefaultProfile_existing (id : string) (t : table) (row : QualityProfile) :
  findById id t = Some row ->
  setDefaultProfile id t
  = (Ok (set_isDefault true row), mark_default id (clear_defaults t)).
Proof.
  intros H. unfold setDefaultProfile, setDefault. rewrite H. cbv zeta.
  rewrite findById_mark_default, findById_clear_defaults, H. reflexivity.
Qed.

(** C8.  With the primary key of the table in place:
    [setDefaultProfile p2] succeeds for every profile p2 that exists and
    throws, leaving the table alone, for one that does not; after it has
    succeeded, [findDefault] returns the profile p2 (the stored row with
    its flag set), no other row has [isDefault = true], whatever the
    flags were before; and every profile operation (create, update,
    setDefault, in the repository and in the service, returning or
    throwing) keeps at most one profile with [isDefault = true]. *)
Theorem default_profile_exclusive (t : table) :
  pk_unique t ->
  (forall p2 row,
     findById p2 t = Some row ->
     exists t',
       setDefaultProfile p2 t = (Ok (set_isDefault true row), t') /\
       findDefault t' = Some (set_isDefault true row) /\
       findById p2 t' = Some (set_isDefault true row) /\
       qp_id (set_isDefault true row) = p2 /\
       isDefault (set_isDefault true row) = true /\
       (forall r, In r t' -> isDefault r = true -> qp_id r = p2) /\
       List.map qp_id t' = List.map qp_id t /\
       at_most_one_default t') /\
  (forall p2,
     findById p2 t = None ->
     exists message, setDefaultProfile p2 t = (Throw message, t)) /\
  (forall p2 updated t',
     setDefaultProfile p2 t = (Ok updated, t') ->
     qp_id updated = p2 /\ isDefault updated = true /\
     findDefault t' = Some updated /\
     (forall r, In r t' -> isDefault r = true -> qp_id r = p2) /\
     at_most_one_default t') /\
  (forall op, at_most_one_default t ->
     at_most_one_default (run op t) /\ pk_unique (run op t)).
Proof.
  intros Hpk.
  assert (Hex : forall p2 row,
            findById p2 t = Some row ->
            setDefaultProfile p2 t
            = (Ok (set_isDefault true row), mark_default p2 (clear_defaults t)) /\
            findDefault (mark_default p2 (clear_defaults t))
            = Some (set_isDefault true row) /\
            findById p2 (mark_default p2 (clear_defaults t))
            = Some (set_isDefault true row) /\
            qp_id (set_isDefault true row) = p2).
  { intros p2 row H.
    assert (E : findById p2 (mark_default p2 (clear_defaults t))
                = Some (set_isDefault true row)).
    { rewrite findById_mark_default, findById_clear_defaults, H. reflexivity. }
    split; [now apply setDefaultProfile_existing|].
    split; [|split; [exact E|]].
    - unfold findDefault. rewrite find_default_marked by apply clear_defaults_none.
      exact E.
    - apply List.find_some in H. simpl. now apply has_id_true. }
  split; [|split; [|split]].
  - intros p2 row H. destruct (Hex p2 row H) as (H1 & H2 & H3 & H4).
    exists (mark_default p2 (clear_defaults t)).
    split; [exact H1|]. split; [exact H2|]. split; [exact H3|].
    split; [exact H4|]. split; [reflexivity|].
    split; [intros r; apply only_marked_default, clear_defaults_none|].
    split.
    + unfold mark_default. rewrite ids_map_where by reflexivity.
      apply ids_clear_defaults.
    + apply (setDefault_ok p2 t Hpk).
  - intros p2 H. unfold setDefaultProfile. rewrite H. eauto.
  - intros p2 updated t' H.
    destruct (findById p2 t) as [row|] eqn:F.
    + destruct (Hex p2 row F) as (H1 & H2 & H3 & H4).
      rewrite H1 in H. injection H as <- <-.
      split; [exact H4|]. split; [reflexivity|]. split; [exact H2|].
      split; [intros r; apply only_marked_default, clear_defaults_none|].
      apply (setDefault_ok p2 t Hpk).
    + unfold setDefaultProfile in H. rewrite F in H. discriminate.
  - intros op Hone. assert (Ht : table_ok t) by (split; assumption).
    destruct op; simpl.
    + now apply create_ok.
    + now apply update_ok.
    + now apply setDefault_ok.
    + now apply createProfile_ok.
    + now apply updateProfile_ok.
    + now apply setDefaultProfile_ok.
Qed.

(** Two rows, both flagged default: [setDefaultProfile] of the second
    succeeds, clears the flag of the first, and [findDefault] returns the
    second. *)
Lemma default_profile_exclusive_witness :
  pk_unique profiles_two_defaults /\
  findDefault profiles_two_defaults
  = Some (mkQualityProfile "p1" "One" ["FLAC"] None None true 0) /\
  setDefaultProfile "p2" profiles_two_defaults
  = (Ok (mkQualityProfile "p2" "Two" ["MP3"] None None true 0),
     [ mkQualityProfile "p1" "One" ["FLAC"] None None false 0;
       mkQualityProfile "p2" "Two" ["MP3"] None None true 0 ]) /\
  findDefault (snd (setDefaultProfile "p2" profiles_two_defaults))
  = Some (mkQualityProfile "p2" "Two" ["MP3"] None None true 0) /\
  at_most_one_default (snd (setDefaultProfile "p2" profiles_two_defaults)).
Proof.
  assert (Hpk : pk_unique profiles_two_defaults).
  { unfold pk_unique. simpl. repeat constructor; simpl; intuition discriminate. }
  split; [exact Hpk|]. split; [reflexivity|].
  destruct (default_profile_exclusive profiles_two_defaults Hpk) as [H _].
  destruct (H "p2" (mkQualityProfile "p2" "Two" ["MP3"] None None true 0) eq_refl)
    as (t' & H1 & H2 & _ & _ & _ & _ & _ & H3).
  rewrite H1. simpl snd.
  assert (Et : t' = [ mkQualityProfile "p1" "One" ["FLAC"] None None false 0;
                      mkQualityProfile "p2" "Two" ["MP3"] None None true 0 ]).
  { assert (E : setDefaultProfile "p2" profiles_two_defaults
                = (Ok (mkQualityProfile "p2" "Two" ["MP3"] None None true 0),
                   [ mkQualityProfile "p1" "One" ["FLAC"] None None false 0;
                     mkQualityProfile "p2" "Two" ["MP3"] None None true 0 ]))
      by reflexivity.
    rewrite H1 in E. now injection E. }
  split; [now rewrite Et|]. split; [exact H2|exact H3].
Defined.

(** ** Download status (DownloadRepository, DownloadService) *)

Import App Repos Services.

Lemma updateStatus_table (now : Z) (id : string) (st : Status) (pr : Z)
  (t : DownloadRepo.table) :
  DownloadRepo.updateStatus now id st pr t
  = (Ok (DownloadRepo.findById id
           (List.map (fun d => if DownloadRepo.has_id id d
                               then DownloadRepo.stamped now st pr d else d) t)),
     List.map (fun d => if DownloadRepo.has_id id d
                        then DownloadRepo.stamped now st pr d else d) t).
Proof.
  unfold DownloadRepo.updateStatus, DownloadRepo.update, DownloadRepo.update_where.
  destruct st; simpl; reflexivity.
Qed.

Lemma find_map_where (id : string) (f : Download -> Download) (t : DownloadRepo.table) :
  (forall d, d_id (f d) = d_id d) ->
  DownloadRepo.findById id
    (List.map (fun d => if DownloadRepo.has_id id d then f d else d) t)
  = option_map f (DownloadRepo.findById id t).
Proof.
  intros Hf. unfold DownloadRepo.findById.
  induction t as [|d t IH]; simpl; [reflexivity|].
  destruct (DownloadRepo.has_id id d) eqn:E.
  - unfold DownloadRepo.has_id in *. now rewrite Hf, E.
  - now rewrite E.
Qed.

(** C10.  [updateStatus(id, status, progress)] rewrites the rows with
    that id and no other: status and progress are stored, and
    [completedAt] becomes the current time exactly when the new status is
    completed or failed; for queued and downloading the stored
    [completedAt] stays as it was.  Hence a row brought to a terminal
    status by [updateStatus] has a non-null [completedAt]. *)
Theorem updateStatus_completedAt (now : Z) (id : string) (st : Status) (pr : Z)
  (t : DownloadRepo.table) :
  let t' := snd (DownloadRepo.updateStatus now id st pr t) in
  t' = List.map (fun d => if DownloadRepo.has_id id d
                          then DownloadRepo.stamped now st pr d else d) t /\
  fst (DownloadRepo.updateStatus now id st pr t) = Ok (DownloadRepo.findById id t') /\
  (forall d, DownloadRepo.findById id t = Some d ->
     exists d', DownloadRepo.findById id t' = Some d' /\
       status d' = st /\ progress d' = pr /\
       (st = completed \/ st = failed -> completedAt d' = Some now) /\
       (st = queued \/ st = downloading -> completedAt d' = completedAt d)) /\
  (forall d', In d' t' -> d_id d' = id -> st = completed \/ st = failed ->
     status d' = st /\ completedAt d' = Some now /\ completedAt d' <> None).
Proof.
  cbv zeta. rewrite updateStatus_table. simpl.
  split; [reflexivity|]. split; [reflexivity|]. split.
  - intros d Hd. rewrite find_map_where by reflexivity. rewrite Hd. simpl.
    eexists; split; [reflexivity|]. simpl.
    repeat split; intros [-> | ->]; reflexivity.
  - intros d' Hin Hid Hst.
    apply List.in_map_iff in Hin. destruct Hin as (d & <- & _).
    destruct (DownloadRepo.has_id id d) eqn:E.
    + destruct Hst as [-> | ->]; simpl; repeat split; discriminate.
    + unfold DownloadRepo.has_id in E. apply String.eqb_neq in E. congruence.
Qed.

Lemma updateStatus_completedAt_witness :
  DownloadRepo.findById "d1"
    (snd (DownloadRepo.updateStatus 5000 "d1" failed 0
            [mkDownload "d1" "al1" (Some "nzo") None downloading 40 None 0 None None]))
  <> None.
Proof.
  destruct (updateStatus_completedAt 5000 "d1" failed 0
              [mkDownload "d1" "al1" (Some "nzo") None downloading 40 None 0 None None])
    as (_ & _ & H & _).
  destruct (H _ eq_refl) as (d' & Hd' & _).
  rewrite Hd'. discriminate.
Defined.

(** *** Invariants through the state monad *)

Section Preserves.
Context (I : World -> Prop).

Lemma preserves_ret {A : Type} (a : A) : preserves I (ret a).
Proof. intros w Hw. exact Hw. Qed.

Lemma preserves_throw {A : Type} (e : string) : preserves I (@throw A e).
Proof. intros w Hw. exact Hw. Qed.

Lemma preserves_gets {A : Type} (f : World -> A) : preserves I (gets f).
Proof. intros w Hw. exact Hw. Qed.

Lemma preserves_modify (f : World -> World) :
  (forall w, I w -> I (f w)) -> preserves I (modify f).
Proof. intros Hf w Hw. now apply Hf. Qed.

Lemma preserves_bind {A B : Type} (m : M A) (k : A -> M B) :
  preserves I m -> (forall a, preserves I (k a)) -> preserves I (bind m k).
Proof.
  intros Hm Hk w Hw. unfold bind. specialize (Hm w Hw).
  destruct (m w) as [[a|e] w']; simpl in *; [now apply Hk|exact Hm].
Qed.

Lemma preserves_try_catch {A : Type} (m : M A) (h : string -> M A) :
  preserves I m -> (forall e, preserves I (h e)) -> preserves I (try_catch m h).
Proof.
  intros Hm Hh w Hw. unfold try_catch. specialize (Hm w Hw).
  destruct (m w) as [[a|e] w']; simpl in *; [exact Hm|now apply Hh].
Qed.

Lemma preserves_lift_result {A : Type} (r : result A) : preserves I (lift_result r).
Proof. destruct r; intros w Hw; exact Hw. Qed.

Lemma preserves_for_each {A : Type} (body : A -> M unit) (l : list A) :
  (forall x, preserves I (body x)) -> preserves I (for_each body l).
Proof.
  intros Hb. induction l as [|x l IH]; simpl.
  - apply preserves_ret.
  - apply preserves_bind; auto.
Qed.

Lemma preserves_on_table {T A : Type} (get : World -> T)
  (set : (T -> T) -> World -> World) (op : T -> result A * T) :
  (forall w, I w -> I (set (fun _ => snd (op (get w))) w)) ->
  preserves I (on_table get set op).
Proof.
  intros H w Hw. unfold on_table. specialize (H w Hw).
  destruct (op (get w)) as [r t']. exact H.
Qed.

End Preserves.

Ltac pres_step :=
  match goal with
  | |- preserves _ (ret _) => apply preserves_ret
  | |- preserves _ (throw _) => apply preserves_throw
  | |- preserves _ (gets _) => apply preserves_gets
  | |- preserves _ (lift_result _) => apply preserves_lift_result
  | |- preserves _ (bind _ _) => apply preserves_bind; [|intros ?]
  | |- preserves _ (try_catch _ _) => apply preserves_try_catch; [|intros ?]
  | |- preserves _ (for_each _ _) => apply preserves_for_each; intros ?
  | |- preserves _ (match ?x with _ => _ end) => destruct x
  end.

Ltac pres := repeat pres_step.

(** *** A terminal download is never touched *)


Lemma find_where_other (id id' : string) (f : Download -> Download)
  (t : DownloadRepo.table) :
  id <> id' -> (forall d, d_id (f d) = d_id d) ->
  DownloadRepo.findById id
    (List.map (fun d => if DownloadRepo.has_id id' d then f d else d) t)
  = DownloadRepo.findById id t.
Proof.
  intros Hne Hf. unfold DownloadRepo.findById.
  induction t as [|d t IH]; simpl; [reflexivity|].
  destruct (DownloadRepo.has_id id' d) eqn:E.
  - unfold DownloadRepo.has_id in *. rewrite Hf.
    apply String.eqb_eq in E. rewrite E.
    destruct (String.eqb id' id) eqn:E'.
    + apply String.eqb_eq in E'. congruence.
    + exact IH.
  - destruct (DownloadRepo.has_id id d); [reflexivity|exact IH].
Qed.

Section Stored.
Context (env : Env) (id : string) (d : Download).











Hypothesis d_terminal : DownloadRepo.is_terminal (status d) = true.







End Stored.



(** ** Monitoring (MonitoringService) *)

Lemma checked_recently_iff (now : Z) (artist : Artist) :
  checked_recently now artist = true <->
  exists checked, lastChecked artist = Some checked /\
                  now - checked < 24 * 60 * 60 * 1000.
Proof.
  unfold checked_recently. destruct (lastChecked artist) as [checked|].
  - rewrite Qlt_bool_iff. unfold Qlt, Qdiv, Qmult, Qinv, inject_Z. simpl.
    split.
    + intros H. exists checked. split; [reflexivity|lia].
    + intros (c & [= <-] & H). lia.
  - split; [discriminate|]. intros (c & H & _). discriminate.
Qed.

Lemma checkArtistForNewReleases_skip (env : Env) (now : Z) (artist : Artist) (w : World) :
  checked_recently now artist = true ->
  checkArtistForNewReleases env now artist w = (Ok tt, w).
Proof. intros H. unfold checkArtistForNewReleases. now rewrite H. Qed.

Lemma check_each_skip (env : Env) (now : Z) (artist : Artist)
  (before after : list Artist) (w : World) :
  checked_recently now artist = true ->
  check_each env now (before ++ artist :: after) w
  = check_each env now (before ++ after) w.
Proof.
  intros H. revert w. induction before as [|b before IH]; intros w.
  - simpl. unfold check_each. simpl. unfold bind at 1. unfold try_catch.
    now rewrite checkArtistForNewReleases_skip.
  - unfold check_each in *. simpl. unfold bind.
    destruct (try_catch _ _ w) as [[u|e] w']; [apply IH|reflexivity].
Qed.

Lemma check_each_all_skipped (env : Env) (now : Z) (l : list Artist) (w : World) :
  Forall (fun a => checked_recently now a = true) l ->
  check_each env now l w = (Ok tt, w).
Proof.
  induction 1 as [|a l Ha Hl IH]; [reflexivity|].
  etransitivity; [apply (check_each_skip env now a [] l w Ha)|exact IH].
Qed.

(** C9.  An artist whose last-checked timestamp is less than 24 hours
    old when a check starts is skipped by the monitoring pass and by the
    manual check alike: the state after the check is the state before it,
    so no discography lookup is logged, no album record is created, no
    download is initiated and the last-checked timestamp is unchanged.
    In the loop of the pass the artist counts for nothing, and a pass in
    which every monitored artist is that recent changes nothing at all. *)
Theorem recently_checked_artist_skipped
  (env : Env) (now : Z) (artist : Artist) (checked : Z) :
  lastChecked artist = Some checked ->
  now - checked < 24 * 60 * 60 * 1000 ->
  (forall w, checkArtistForNewReleases env now artist w = (Ok tt, w)) /\
  (forall w, let w' := snd (checkArtistForNewReleases env now artist w) in
     requests w' = requests w /\ albums w' = albums w /\
     downloads w' = downloads w /\ artists w' = artists w) /\
  (forall w artistId,
     artist_findById artistId (artists w) = Some artist ->
     snd (checkArtist env now artistId w) = w /\
     (monitored artist = true -> checkArtist env now artistId w = (Ok tt, w))) /\
  (forall before after w,
     check_each env now (before ++ artist :: after) w
     = check_each env now (before ++ after) w) /\
  (forall w, isRunning w = false ->
     Forall (fun a => checked_recently now a = true) (getMonitored (artists w)) ->
     checkForNewReleases env now w = (Ok tt, w)).
Proof.
  intros Hc Hlt.
  assert (Hr : checked_recently now artist = true).
  { apply checked_recently_iff. eauto. }
  repeat split.
  - intros w. now apply checkArtistForNewReleases_skip.
  - now rewrite checkArtistForNewReleases_skip.
  - now rewrite checkArtistForNewReleases_skip.
  - now rewrite checkArtistForNewReleases_skip.
  - now rewrite checkArtistForNewReleases_skip.
  - unfold checkArtist, bind, gets. rewrite H.
    destruct (monitored artist); simpl; [|reflexivity].
    now rewrite checkArtistForNewReleases_skip.
  - intros Hm. unfold checkArtist, bind, gets. rewrite H, Hm. simpl.
    now apply checkArtistForNewReleases_skip.
  - intros before after w. now apply check_each_skip.
  - intros w Hrun Hall. unfold checkForNewReleases.
    unfold bind at 1. unfold gets at 1. rewrite Hrun.
    unfold bind at 1. unfold modify at 1.
    unfold bind at 1. unfold try_catch, bind, gets.
    simpl. rewrite (check_each_all_skipped env now _ _ Hall).
    unfold modify. destruct w; simpl in *. now subst.
Qed.

Lemma recently_checked_artist_skipped_witness :
  lastChecked artist_floyd = Some (now_jan_11 - 10 * 60 * 60 * 1000) /\
  now_jan_11 - (now_jan_11 - 10 * 60 * 60 * 1000) < 24 * 60 * 60 * 1000 /\
  checkForNewReleases env_offline now_jan_11 world_one = (Ok tt, world_one).
Proof.
  split; [reflexivity|]. split; [reflexivity|].
  apply (recently_checked_artist_skipped env_offline now_jan_11 artist_floyd
           (now_jan_11 - 10 * 60 * 60 * 1000) eq_refl eq_refl).
  - reflexivity.
  - repeat constructor.
Defined.

(** ** Filtering (QualityProfileService.filterResults) *)

Lemma filter_single (c : SearchResult) (p : QualityProfile) :
  filterResults [c] p <> [] <-> accepted p c = true.
Proof.
  unfold filterResults. simpl. destruct (accepted p c).
  - split; [reflexivity|discriminate].
  - split; [intros H; now contradiction H|discriminate].
Qed.

Lemma includes_format_listed (p : QualityProfile) (c : SearchResult) :
  includes (List.map toUpperCase (formats p)) (toUpperCase (format (quality c))) = true
  <-> format_listed p c.
Proof.
  unfold includes, format_listed. rewrite List.existsb_exists. split.
  - intros (x & Hin & Heq). apply List.in_map_iff in Hin.
    destruct Hin as (f & <- & Hf). apply String.eqb_eq in Heq. eauto.
  - intros (f & Hf & Heq). exists (toUpperCase f). split.
    + now apply List.in_map.
    + now apply String.eqb_eq.
Qed.

Lemma below_minimum_false (p : QualityProfile) (c : SearchResult) :
  match minBitrate p, bitrate (quality c) with
  | Some minb, Some b => truthy_opt_Z (Some minb) && truthy_num b && num_lt b minb
  | _, _ => false
  end = false <-> bitrate_rule p c.
Proof.
  unfold bitrate_rule.
  destruct (minBitrate p) as [m|]; [|tauto].
  destruct (bitrate (quality c)) as [[|b]|]; simpl; try tauto.
  - rewrite andb_false_r. tauto.
  - destruct (Z.eqb_spec m 0) as [->|Hm]; simpl; [tauto|].
    destruct (Z.eqb_spec b 0) as [->|Hb]; simpl; [tauto|].
    destruct (Z.ltb_spec b m) as [Hlt|Hge]; split; intros H; try reflexivity.
    + discriminate.
    + destruct H as [H|[H|[H|[H|[H|(m' & b' & Hm' & Hb' & Hle)]]]]];
        try discriminate; try congruence.
      injection Hm' as <-. injection Hb' as <-. lia.
    + right. right. right. right. right. exists m, b. auto.
Qed.

Lemma above_maximum_false (p : QualityProfile) (c : SearchResult) :
  match maxFileSize p with
  | Some maxmb =>
      truthy_opt_Z (Some maxmb) && num_gt (size c) (maxmb * 1024 * 1024)
  | None => false
  end = false <-> size_rule p c.
Proof.
  unfold size_rule.
  destruct (maxFileSize p) as [mx|]; [|tauto].
  simpl. destruct (Z.eqb_spec mx 0) as [->|Hm]; simpl; [tauto|].
  destruct (size c) as [|s]; simpl; [tauto|].
  destruct (Z.ltb_spec (mx * 1024 * 1024) s) as [Hlt|Hge]; split; intros H;
    try reflexivity.
  - discriminate.
  - destruct H as [H|[H|[H|(mx' & s' & Hm' & Hs' & Hle)]]];
      try discriminate; try congruence.
    injection Hm' as <-. injection Hs' as <-. lia.
  - right. right. right. exists mx, s. auto.
Qed.

Lemma accepted_rules (p : QualityProfile) (c : SearchResult) :
  accepted p c = true <-> format_listed p c /\ bitrate_rule p c /\ size_rule p c.
Proof.
  rewrite <- includes_format_listed, <- below_minimum_false, <- above_maximum_false.
  unfold accepted. cbv zeta.
  destruct (includes _ _); simpl; [|intuition discriminate].
  match goal with |- context [if ?b then false else _] => destruct b end;
    [intuition discriminate|].
  match goal with |- context [if ?b then false else _] => destruct b end;
    intuition discriminate.
Qed.

(** After filtering the format is in the profile: the ranker's index
    exists. *)
Lemma accepted_has_position (p : QualityProfile) (c : SearchResult) :
  accepted p c = true ->
  exists idx, position_ci (format (quality c)) (formats p) = Some idx.
Proof.
  intros H. apply accepted_rules in H. destruct H as [(f & Hin & Heq) _].
  induction (formats p) as [|g l IH]; [contradiction|]. simpl.
  destruct (String.eqb (toUpperCase g) (toUpperCase (format (quality c)))) eqn:E;
    [eauto|].
  destruct Hin as [->|Hin].
  - apply String.eqb_neq in E. contradiction.
  - destruct (IH Hin) as [idx ->]. simpl. eauto.
Qed.

(** C2, as the code has it.  [filterResults [c] p] is non-empty exactly
    when c's format is listed in p.formats ignoring case, and the minimum
    bitrate is unset or 0, or c's bitrate is unknown (absent, 0 or NaN),
    or c's bitrate is at least the minimum, and the maximum file size is
    unset or 0, or c's size is not greater than maxFileSize MB (a NaN
    size is not).  In particular a candidate without a bitrate is never
    rejected by the minimum-bitrate rule. *)
Theorem filterResults_single_candidate (c : SearchResult) (p : QualityProfile) :
  (filterResults [c] p <> [] <->
     format_listed p c /\ bitrate_rule p c /\ size_rule p c) /\
  (bitrate (quality c) = None ->
     (filterResults [c] p <> [] <-> format_listed p c /\ size_rule p c)).
Proof.
  split.
  - rewrite filter_single. apply accepted_rules.
  - intros Hb. rewrite filter_single, accepted_rules.
    unfold bitrate_rule. rewrite Hb. tauto.
Qed.

(** C2, as the specification words it, fails for a profile whose size
    limit is 0: the code treats the limit as unset and keeps a 50 MB
    candidate, while the rule "sizeBytes <= maxFileSizeMB * 1024 * 1024"
    would drop it. *)
Lemma filterResults_zero_limit_counterexample :
  ~ (filterResults [cand_flac_50MB] profile_zero_limit <> [] <->
       format_listed profile_zero_limit cand_flac_50MB /\
       claimed_bitrate_rule profile_zero_limit cand_flac_50MB /\
       claimed_size_rule profile_zero_limit cand_flac_50MB).
Proof.
  intros [H _].
  assert (Hne : filterResults [cand_flac_50MB] profile_zero_limit <> [])
    by (vm_compute; discriminate).
  destruct (H Hne) as (_ & _ & [Hn | (mx & s & Hm & Hs & Hle)]).
  - discriminate.
  - simpl in Hm, Hs. injection Hm as <-. injection Hs as <-.
    vm_compute in Hle. now apply Hle.
Qed.

Lemma filterResults_single_candidate_witness :
  bitrate (quality cand_flac_50MB) = None /\
  (filterResults [cand_flac_50MB] profile_zero_limit <> [] <->
     format_listed profile_zero_limit cand_flac_50MB /\
     size_rule profile_zero_limit cand_flac_50MB).
Proof.
  split; [reflexivity|].
  apply (filterResults_single_candidate cand_flac_50MB profile_zero_limit).
  reflexivity.
Defined.

(** ** Title matching (MonitoringService.normalizeTitle) *)

Lemma existingTitles_spec (existing : list Album) (t : string) :
  t ∈ existingTitles existing <->
  exists a, In a existing /\ normalizeTitle (al_title a) = t.
Proof.
  unfold existingTitles. rewrite elem_of_list_to_set, list_elem_of_In.
  rewrite List.in_map_iff. split; intros (a & H1 & H2); exists a; tauto.
Qed.

Lemma newAlbums_spec (existing : list Album) (albums : list AlbumMetadata)
  (entry : AlbumMetadata) :
  In entry (newAlbums existing albums) <->
  In entry albums /\
  ~ exists a, In a existing /\
              normalizeTitle (al_title a) = normalizeTitle (am_title entry).
Proof.
  unfold newAlbums. rewrite List.filter_In, negb_true_iff, bool_decide_eq_false.
  now rewrite existingTitles_spec.
Qed.

Lemma for_each_nil {A : Type} (body : A -> M unit) (w : World) :
  for_each body [] w = (Ok tt, w).
Proof. reflexivity. Qed.

(** A discography without new albums only costs the lookup. *)
Lemma check_discography_nothing_new (env : Env) (now : Z) (artist : Artist)
  (w : World) (disc : Discography) :
  getArtistDiscography env (requests w) (a_name artist) = Ok disc ->
  newAlbums (album_findByArtistId (a_id artist) (albums w)) (dg_albums disc) = [] ->
  let w' := snd (check_discography env now artist w) in
  albums w' = albums w /\ downloads w' = downloads w /\
  requests w' = requests w ++ [ReqDiscography (a_name artist)].
Proof.
  intros Hd Hn. unfold check_discography, bind, gets, request, modify, lift_result.
  simpl. rewrite Hd. simpl. rewrite Hn. simpl. auto.
Qed.

(** ** The result normalizer (IndexerService) *)

Import Regex Indexer.

(** ** Strings and the backtracking matcher *)

Lemma append_cons (c : ascii) (s r : string) :
  String.append (String c s) r = String c (String.append s r).
Proof. reflexivity. Qed.

Lemma append_nil_l (r : string) : String.append EmptyString r = r.
Proof. reflexivity. Qed.

Lemma append_nil_r (s : string) : String.append s EmptyString = s.
Proof. induction s as [|c s IH]; [reflexivity|]. now rewrite append_cons, IH. Qed.

Lemma append_assoc (a b c : string) :
  String.append (String.append a b) c = String.append a (String.append b c).
Proof. induction a as [|x a IH]; [reflexivity|]. now rewrite !append_cons, IH. Qed.

Lemma char_eq_lt (ci : bool) (x : ascii) :
  x <> "<"%char -> char_eq ci "<"%char x = false.
Proof.
  intros H. unfold char_eq. destruct ci.
  - destruct x as [[] [] [] [] [] [] [] []]; try reflexivity. now contradiction H.
  - apply Ascii.eqb_neq. congruence.
Qed.

(** The greedy run stops at the first occurrence of its character when
    the remainder of the pattern matches there. *)
Lemma greedy_not_stops (k : string -> string -> option found) (c : ascii)
  (run taken s : string) (r : found) :
  (forall x, In x (list_ascii_of_string run) -> x <> c) ->
  k (String.append taken run) (String c s) = Some r ->
  greedy_not k c taken (String.append run (String c s)) = Some r.
Proof.
  revert taken. induction run as [|x run IH]; intros taken Hrun Hk.
  - rewrite append_nil_l. rewrite append_nil_r in Hk. simpl.
    now rewrite Ascii.eqb_refl.
  - rewrite append_cons. simpl.
    assert (Hx : x <> c) by (apply Hrun; now left).
    apply Ascii.eqb_neq in Hx. rewrite Hx.
    rewrite (IH (snoc taken x)); [reflexivity| |].
    + intros y Hy. apply Hrun. now right.
    + unfold snoc. rewrite append_assoc. exact Hk.
Qed.

(** The lazy run skips the characters at which the remainder of the
    pattern fails. *)
Lemma lazy_any_skips (k : string -> string -> option found)
  (run taken s : string) :
  (forall t x s', In x (list_ascii_of_string run) -> k t (String x s') = None) ->
  lazy_any k taken (String.append run s) = lazy_any k (String.append taken run) s.
Proof.
  revert taken. induction run as [|x run IH]; intros taken Hrun.
  - now rewrite append_nil_l, append_nil_r.
  - rewrite append_cons. simpl.
    rewrite (Hrun taken x) by now left.
    rewrite IH by (intros; apply Hrun; now right).
    unfold snoc. now rewrite append_assoc.
Qed.

Lemma lazy_any_now (k : string -> string -> option found) (taken s : string)
  (r : found) :
  k taken s = Some r -> lazy_any k taken s = Some r.
Proof. intros H. destruct s; simpl; now rewrite H. Qed.

Lemma toLowerCase_append (a b : string) :
  toLowerCase (String.append a b) = String.append (toLowerCase a) (toLowerCase b).
Proof.
  unfold toLowerCase. induction a as [|c a IH]; [reflexivity|].
  rewrite append_cons. simpl. now rewrite IH.
Qed.

(** Under the flag [i] a literal matches every text that differs from it
    in letter case only. *)
Lemma lit_ci_append (p q s : string) :
  toLowerCase p = toLowerCase q -> lit true p (String.append q s) = Some s.
Proof.
  unfold toLowerCase. revert q. induction p as [|c p IH]; intros [|d q] H;
    try discriminate H; [reflexivity|].
  simpl in H. injection H as Hc Hp.
  rewrite append_cons. simpl. unfold char_eq. rewrite Hc, Ascii.eqb_refl.
  now apply IH.
Qed.

Section NormalizerFacts.
Context (Date_parse : string -> num) (now : Z).

Lemma calculateAge_floor (pubDate : string) (t : Z) :
  Date_parse pubDate = Int t ->
  calculateAge Date_parse now pubDate = Int ((now - t) / 86400000).
Proof. intros H. unfold calculateAge. now rewrite H. Qed.

Lemma calculateAge_invalid (pubDate : string) :
  Date_parse pubDate = NaN -> calculateAge Date_parse now pubDate = NaN.
Proof. intros H. unfold calculateAge. now rewrite H. Qed.

(** What the attribute loop leaves behind. *)
Lemma read_attrs_last (attrs : list NewznabAttr) (acc : AttrValue * option num) :
  read_attrs attrs acc
  = if no_null_entry attrs
    then Some (match last_value "format" attrs with Some v => v | None => fst acc end,
               match last_value "bitrate" attrs with
               | Some v => Some (parseInt (shown_as v))
               | None => snd acc
               end)
    else None.
Proof.
  revert acc. induction attrs as [|a attrs IH]; intros acc; simpl.
  - now destruct acc.
  - destruct a as [|name value]; simpl; [reflexivity|].
    rewrite IH. clear IH. destruct (no_null_entry attrs); [|reflexivity].
    destruct (last_value "format" attrs), (last_value "bitrate" attrs);
      destruct (named name "format") eqn:Ef;
      destruct (named name "bitrate") eqn:Eb;
      simpl; try reflexivity.
    all: destruct name as [n|]; simpl in Ef, Eb; try discriminate.
    all: apply String.eqb_eq in Ef; apply String.eqb_eq in Eb; congruence.
Qed.

(** The attributes as the loop sees them: [None] when an entry is
    null. *)
Lemma parseNewznabItem_attrs (item : NewznabItem) :
  match it_attr item with
  | NoAttr => Some (Text "Unknown", None)
  | OneAttr NullAttr => Some (Text "Unknown", None)
  | OneAttr a => read_attrs [a] (Text "Unknown", None)
  | AttrArray l => read_attrs l (Text "Unknown", None)
  end
  = if no_null_entry (attrs_of item)
    then Some (match last_value "format" (attrs_of item) with
               | Some v => v
               | None => Text "Unknown"
               end,
               match last_value "bitrate" (attrs_of item) with
               | Some v => Some (parseInt (shown_as v))
               | None => None
               end)
    else None.
Proof.
  unfold attrs_of. destruct (it_attr item) as [|[|name value]|l].
  - reflexivity.
  - reflexivity.
  - now rewrite read_attrs_last.
  - now rewrite read_attrs_last.
Qed.

(** What [parseNewznabItem] returns, in one equation. *)
Lemma parseNewznabItem_eq (item : NewznabItem) (name : string) :
  parseNewznabItem Date_parse now item name
  = match it_title item, it_link item with
    | Some title, Some link =>
        if truthy_string title && truthy_string link && no_null_entry (attrs_of item)
        then
          let format := match last_value "format" (attrs_of item) with
                        | Some v => v
                        | None => Text "Unknown"
                        end in
          Some {| candidate :=
                    {| title := title;
                       nzbUrl := link;
                       size := match it_size item with
                               | Some s => if truthy_string s then parseInt s else Int 0
                               | None => Int 0
                               end;
                       age := match it_pubDate item with
                              | Some p =>
                                  if truthy_string p then calculateAge Date_parse now p
                                  else Int 0
                              | None => Int 0
                              end;
                       indexer := name;
                       quality :=
                         {| format := shown_as format;
                            bitrate := match last_value "bitrate" (attrs_of item) with
                                       | Some v => Some (parseInt (shown_as v))
                                       | None => None
                                       end |} |};
                  format_is_string := is_text format |}
        else None
    | _, _ => None
    end.
Proof.
  unfold parseNewznabItem. cbv zeta.
  destruct (it_title item) as [t|]; simpl; [|reflexivity].
  destruct (it_link item) as [l|]; simpl; [|now rewrite orb_true_r].
  destruct (truthy_string t); simpl; [|reflexivity].
  destruct (truthy_string l); simpl; [|reflexivity].
  rewrite parseNewznabItem_attrs.
  destruct (no_null_entry (attrs_of item)); reflexivity.
Qed.

(** What the JSON path stores for size and age. *)
Lemma parseNewznabItem_numbers (item : NewznabItem) (name : string) (c : Parsed) :
  parseNewznabItem Date_parse now item name = Some c ->
  size c = match it_size item with
           | Some s => if truthy_string s then parseInt s else Int 0
           | None => Int 0
           end /\
  age c = match it_pubDate item with
          | Some p => if truthy_string p then calculateAge Date_parse now p else Int 0
          | None => Int 0
          end.
Proof.
  rewrite parseNewznabItem_eq.
  destruct (it_title item); [|discriminate].
  destruct (it_link item); [|discriminate].
  destruct (_ && _); [|discriminate].
  intros [= <-]. simpl. auto.
Qed.

(** What the XML path stores for size and age. *)
Lemma parseXmlItem_numbers (xml name : string) (c : SearchResult) :
  parseXmlItem Date_parse now xml name = Some c ->
  size c = (if truthy_string (extractXmlValue xml "size")
            then parseInt (extractXmlValue xml "size") else Int 0) /\
  age c = (if truthy_string (extractXmlValue xml "pubDate")
           then calculateAge Date_parse now (extractXmlValue xml "pubDate")
           else Int 0).
Proof.
  unfold parseXmlItem. cbv zeta.
  destruct (_ || _); [discriminate|].
  intros [= <-]. simpl. auto.
Qed.

Lemma parseNewznabItem_quality (item : NewznabItem) (name : string) (c : Parsed) :
  parseNewznabItem Date_parse now item name = Some c ->
  let format := match last_value "format" (attrs_of item) with
                | Some v => v
                | None => Text "Unknown"
                end in
  quality c = {| format := shown_as format;
                 bitrate := match last_value "bitrate" (attrs_of item) with
                            | Some v => Some (parseInt (shown_as v))
                            | None => None
                            end |} /\
  format_is_string c = is_text format.
Proof.
  rewrite parseNewznabItem_eq.
  destruct (it_title item); [|discriminate].
  destruct (it_link item); [|discriminate].
  destruct (_ && _); [|discriminate].
  intros [= <-]. simpl. auto.
Qed.

Lemma parseXmlItem_quality (xml name : string) (c : SearchResult) :
  parseXmlItem Date_parse now xml name = Some c ->
  format (quality c) = match extractNewznabAttr xml "format" with
                       | Some f => if truthy_string f then f else "Unknown"
                       | None => "Unknown"
                       end /\
  bitrate (quality c) = match extractNewznabAttr xml "bitrate" with
                        | Some b => if truthy_string b then Some (parseInt b) else None
                        | None => None
                        end.
Proof.
  unfold parseXmlItem. cbv zeta.
  destruct (_ || _); [discriminate|].
  intros [= <-]. simpl. split; [reflexivity|].
  now destruct (extractNewznabAttr xml "bitrate").
Qed.

End NormalizerFacts.

(** *** The item pattern never runs out of fuel *)

Lemma lit_length (ci : bool) (p s s' : string) :
  lit ci p s = Some s' ->
  String.length s = (String.length p + String.length s')%nat.
Proof.
  revert s. induction p as [|a p IH]; intros s H; simpl in *.
  - now injection H as ->.
  - destruct s as [|b s]; [discriminate|].
    destruct (char_eq ci a b); [|discriminate].
    simpl. now rewrite (IH s H).
Qed.

Lemma lazy_any_shorter (k : string -> string -> option found) (n : nat)
  (taken s : string) (r : found) :
  (forall t s0 r0, k t s0 = Some r0 ->
     (String.length (snd r0) + n <= String.length s0)%nat) ->
  lazy_any k taken s = Some r ->
  (String.length (snd r) + n <= String.length s)%nat.
Proof.
  intros Hk. revert taken. induction s as [|x s IH]; intros taken H; simpl in H.
  - destruct (k taken EmptyString) as [r0|] eqn:E; [|discriminate].
    injection H as <-. now apply (Hk _ _ _ E).
  - destruct (k taken (String x s)) as [r0|] eqn:E.
    + injection H as <-. now apply (Hk _ _ _ E).
    + apply IH in H. simpl. lia.
Qed.

Lemma match_here_lit (ci : bool) (l : string) (p : list item) (cap s : string) :
  match_here ci (Lit l :: p) cap s
  = match lit ci l s with
    | Some s' => match_here ci p cap s'
    | None => None
    end.
Proof. reflexivity. Qed.

Lemma item_match_shorter (s : string) (r : found) :
  match_here false itemRegex EmptyString s = Some r ->
  (String.length (snd r) + 13 <= String.length s)%nat.
Proof.
  unfold itemRegex. rewrite match_here_lit.
  destruct (lit false "<item>" s) as [s1|] eqn:E1; [|discriminate].
  apply lit_length in E1. intros H.
  change (lazy_any (fun t s' => match_here false [Lit "</item>"] t s')
                   EmptyString s1 = Some r) in H.
  apply (lazy_any_shorter _ 7) in H.
  - simpl in E1. lia.
  - intros t s0 r0 H0. cbv beta in H0. rewrite match_here_lit in H0.
    destruct (lit false "</item>" s0) as [s2|] eqn:E2; [|discriminate].
    apply lit_length in E2. injection H0 as <-. simpl in *. lia.
Qed.

Lemma exec_cons (ci : bool) (p : list item) (x : ascii) (s : string) :
  exec ci p (String x s)
  = match match_here ci p EmptyString (String x s) with
    | Some r => Some r
    | None => exec ci p s
    end.
Proof. reflexivity. Qed.

Lemma item_exec_shorter (s : string) (r : found) :
  exec false itemRegex s = Some r ->
  (String.length (snd r) + 13 <= String.length s)%nat.
Proof.
  induction s as [|x s IH].
  - discriminate.
  - rewrite exec_cons.
    destruct (match_here false itemRegex EmptyString (String x s)) eqn:E.
    + intros [= <-]. now apply item_match_shorter in E.
    + intros H. apply IH in H. simpl. lia.
Qed.

(** The length of the input is enough fuel for [matchAll]: more fuel
    finds the same items. *)
Lemma matchAll_enough_fuel (n m : nat) (s : string) :
  (String.length s <= n)%nat -> (String.length s <= m)%nat ->
  matchAll n false itemRegex s = matchAll m false itemRegex s.
Proof.
  revert m s. induction n as [|n IH]; intros m s Hn Hm.
  - destruct m as [|m]; [reflexivity|]. simpl.
    destruct (exec false itemRegex s) as [[cap rest]|] eqn:E; [|reflexivity].
    apply item_exec_shorter in E. simpl in E. lia.
  - simpl. destruct (exec false itemRegex s) as [[cap rest]|] eqn:E.
    + pose proof (item_exec_shorter s _ E) as Hs. simpl in Hs.
      destruct m as [|m]; [lia|]. simpl. rewrite E.
      f_equal. apply IH; lia.
    + destruct m as [|m]; [reflexivity|]. simpl. now rewrite E.
Qed.

(** *** The attribute pattern *)

Lemma lit_app (ci : bool) (p s r t : string) :
  lit ci p s = Some r -> lit ci p (String.append s t) = Some (String.append r t).
Proof.
  revert s. induction p as [|a p IH]; intros s H; simpl in *.
  - now injection H as ->.
  - destruct s as [|b s]; [discriminate|]. rewrite append_cons.
    destruct (char_eq ci a b); [|discriminate]. now apply IH.
Qed.

Lemma lit_consumes (ci : bool) (p s r : string) :
  lit ci p s = Some r -> exists q, s = String.append q r.
Proof.
  revert s. induction p as [|a p IH]; intros s H; simpl in H.
  - injection H as <-. now exists EmptyString.
  - destruct s as [|b s]; [discriminate|].
    destruct (char_eq ci a b); [|discriminate].
    destruct (IH s H) as [q ->]. now exists (String b q).
Qed.

(** A literal that does not hold the character [c] matches before the
    first [c] or not at all. *)
Lemma lit_before_stop (ci : bool) (p z1 z2 r : string) (c : ascii) :
  (forall a, In a (list_ascii_of_string p) -> char_eq ci a c = false) ->
  lit ci p (String.append z1 (String c z2)) = Some r ->
  exists r', lit ci p z1 = Some r' /\ r = String.append r' (String c z2).
Proof.
  intros Hp. revert z1. induction p as [|a p IH]; intros z1 H; simpl in *.
  - injection H as <-. eauto.
  - destruct z1 as [|b z1].
    + rewrite append_nil_l in H. rewrite Hp in H by now left. discriminate.
    + rewrite append_cons in H. destruct (char_eq ci a b); [|discriminate].
      apply IH; [|exact H]. intros a' Ha'. apply Hp. now right.
Qed.

Lemma occurs_cons (ci : bool) (p : string) (x : ascii) (s : string) :
  occurs ci p (String x s)
  = match lit ci p (String x s) with
    | Some _ => true
    | None => occurs ci p s
    end.
Proof. reflexivity. Qed.

Lemma occurs_here (ci : bool) (p s r : string) :
  lit ci p s = Some r -> occurs ci p s = true.
Proof. intros H. destruct s; simpl; now rewrite H. Qed.

Lemma occurs_app (ci : bool) (p a b : string) :
  occurs ci p (String.append a b) = false -> occurs ci p b = false.
Proof.
  induction a as [|x a IH]; [now rewrite append_nil_l|].
  rewrite append_cons, occurs_cons.
  destruct (lit ci p (String x (String.append a b))); [discriminate|exact IH].
Qed.

(** Where the literal does not occur, it matches at no position. *)
Lemma occurs_nowhere (ci : bool) (p a b t : string) :
  occurs ci p (String.append a b) = false ->
  lit ci p (String.append b t) = None \/
  exists r, lit ci p (String.append b t) = Some r /\ lit ci p b = None.
Proof.
  intros H. apply occurs_app in H.
  destruct (lit ci p (String.append b t)) as [r|] eqn:E; [|now left].
  right. exists r. split; [reflexivity|].
  destruct (lit ci p b) as [r'|] eqn:E'; [|reflexivity].
  apply occurs_here in E'. congruence.
Qed.

Lemma lit_fails_before_stop (ci : bool) (p a b z2 : string) (c : ascii) :
  (forall x, In x (list_ascii_of_string p) -> char_eq ci x c = false) ->
  occurs ci p (String.append a b) = false ->
  lit ci p (String.append b (String c z2)) = None.
Proof.
  intros Hp H. apply occurs_app in H.
  destruct (lit ci p (String.append b (String c z2))) as [r|] eqn:E; [|reflexivity].
  apply lit_before_stop in E; [|exact Hp]. destruct E as (r' & E & _).
  apply occurs_here in E. congruence.
Qed.

Lemma free_of_In (c : ascii) (s : string) :
  free_of c s = true <-> forall x, In x (list_ascii_of_string s) -> x <> c.
Proof.
  induction s as [|y s IH]; simpl.
  - split; [intros _ x []|reflexivity].
  - rewrite andb_true_iff, negb_true_iff, Ascii.eqb_neq, IH. split.
    + intros [Hy Hs] x [<- | Hx]; auto.
    + intros H. split; [apply H; now left|]. intros x Hx. apply H. now right.
Qed.

Lemma free_of_app (c : ascii) (a b : string) :
  free_of c (String.append a b) = free_of c a && free_of c b.
Proof.
  induction a as [|x a IH]; [reflexivity|].
  rewrite append_cons. simpl. now rewrite IH, andb_assoc.
Qed.

(** A greedy run gives nothing when the remainder of the pattern fails
    at every position up to the first [c]. *)
Lemma greedy_not_fails (k : string -> string -> option found) (c : ascii)
  (taken s : string) :
  (forall t w z, s = String.append w z -> free_of c w = true -> k t z = None) ->
  greedy_not k c taken s = None.
Proof.
  revert taken. induction s as [|x s IH]; intros taken H; simpl.
  - now apply (H taken EmptyString EmptyString).
  - destruct (Ascii.eqb x c) eqn:E.
    + now apply (H taken EmptyString (String x s)).
    + rewrite IH.
      * now apply (H taken EmptyString (String x s)).
      * intros t w z -> Hw. apply (H t (String x w) z); [reflexivity|].
        simpl. now rewrite E, Hw.
Qed.

(** A text cut before its first [c]. *)
Lemma split_before_stop (c : ascii) (t w z post : string) :
  free_of c t = true -> free_of c w = true ->
  String.append t (String c post) = String.append w z ->
  exists t2, t = String.append w t2 /\ z = String.append t2 (String c post).
Proof.
  revert t. induction w as [|x w IH]; intros t Ht Hw E.
  - exists t. now rewrite append_nil_l in *.
  - destruct t as [|y t].
    + rewrite append_nil_l, append_cons in E. injection E as -> _.
      simpl in Hw. now rewrite Ascii.eqb_refl in Hw.
    + rewrite !append_cons in E. injection E as -> E.
      simpl in Ht, Hw. apply andb_true_iff in Ht, Hw.
      destruct (IH t (proj2 Ht) (proj2 Hw) E) as (t2 & -> & ->).
      exists t2. now rewrite append_cons.
Qed.

(** The run may take a prefix that holds no [c]. *)
Lemma greedy_not_prefix (k : string -> string -> option found) (c : ascii)
  (u s taken : string) (r : found) :
  free_of c u = true ->
  greedy_not k c (String.append taken u) s = Some r ->
  greedy_not k c taken (String.append u s) = Some r.
Proof.
  revert taken. induction u as [|x u IH]; intros taken Hu H.
  - now rewrite append_nil_r in H.
  - rewrite append_cons. simpl in *. apply andb_true_iff in Hu.
    destruct Hu as [Hx Hu]. apply negb_true_iff in Hx. rewrite Hx.
    rewrite (IH (snoc taken x)); [reflexivity|exact Hu|].
    unfold snoc. now rewrite append_assoc.
Qed.

(** The run ends where the remainder of the pattern matches and fails
    at every later position. *)
Lemma greedy_not_here (k : string -> string -> option found) (c : ascii)
  (x : ascii) (s taken : string) (r : found) :
  k taken (String x s) = Some r ->
  greedy_not k c (snoc taken x) s = None ->
  greedy_not k c taken (String x s) = Some r.
Proof.
  intros Hk Hnone. simpl. rewrite Hnone. now destruct (Ascii.eqb x c).
Qed.

(** After a run, a literal that occurs nowhere before the first [c]
    makes the remainder of the pattern fail. *)
Lemma greedy_not_lit_fails (ci : bool) (c : ascii) (l t post taken : string)
  (p : list item) (cap : string) :
  (forall a, In a (list_ascii_of_string l) -> char_eq ci a c = false) ->
  free_of c t = true ->
  occurs ci l t = false ->
  greedy_not (fun _ s' => match_here ci (Lit l :: p) cap s') c taken
             (String.append t (String c post)) = None.
Proof.
  intros Hl Ht Hocc. apply greedy_not_fails. intros _ w z E Hw.
  destruct (split_before_stop c t w z post Ht Hw E) as (t2 & -> & ->).
  rewrite match_here_lit.
  now rewrite (lit_fails_before_stop ci l w t2 post c Hl Hocc).
Qed.

(** No match starts inside a text that is closed by [c] and does not
    hold the second literal of the pattern. *)
Lemma lit_closed (ci : bool) (l pre rest r : string) (c : ascii) :
  (forall a, In a (list_ascii_of_string l) -> char_eq ci a c = false) ->
  pre <> EmptyString -> closed_by c pre = true ->
  lit ci l (String.append pre rest) = Some r ->
  exists pre', pre' <> EmptyString /\ closed_by c pre' = true /\
    r = String.append pre' rest /\
    exists q, pre = String.append q pre'.
Proof.
  intros Hl. revert pre. induction l as [|a l IH]; intros pre Hne Hc H; simpl in H.
  - injection H as <-. exists pre. repeat split; auto. now exists EmptyString.
  - destruct pre as [|b pre]; [contradiction|]. rewrite append_cons in H.
    destruct (char_eq ci a b) eqn:E; [|discriminate].
    destruct pre as [|b' pre].
    + simpl in Hc. apply Ascii.eqb_eq in Hc. subst b.
      rewrite Hl in E by now left. discriminate.
    + destruct (IH (fun a' Ha' => Hl a' (or_intror Ha')) (String b' pre))
        as (pre' & H1 & H2 & H3 & q & H4); [discriminate|exact Hc|exact H|].
      exists pre'. repeat split; auto. exists (String b q).
      now rewrite append_cons, H4.
Qed.

Lemma closed_by_first (c : ascii) (pre : string) :
  pre <> EmptyString -> closed_by c pre = true ->
  exists t post, pre = String.append t (String c post) /\ free_of c t = true.
Proof.
  induction pre as [|x pre IH]; intros Hne Hc; [contradiction|].
  destruct (Ascii.eqb x c) eqn:E.
  - apply Ascii.eqb_eq in E. subst x. exists EmptyString, pre. auto.
  - destruct pre as [|y pre]; [simpl in Hc; congruence|].
    destruct IH as (t & post & Ht & Hf); [discriminate|exact Hc|].
    exists (String x t), post. rewrite append_cons, <- Ht. split; [reflexivity|].
    simpl. now rewrite E, Hf.
Qed.

Section AttrPattern.
Context (attrName : string).

Abbreviation attr_pattern := (Regex.attr_pattern attrName).

(** The name of the attribute holds no closing angle bracket. *)
Hypothesis name_free :
  forall a, In a (list_ascii_of_string (name_is attrName)) ->
    char_eq true a ">"%char = false.

Lemma tag_free :
  forall a, In a (list_ascii_of_string "<newznab:attr") -> char_eq true a ">"%char = false.
Proof. intros a Ha. simpl in Ha. intuition (subst; reflexivity). Qed.

Lemma value_free :
  forall a, In a (list_ascii_of_string value_is) -> char_eq true a ">"%char = false.
Proof. intros a Ha. simpl in Ha. intuition (subst; reflexivity). Qed.

Lemma no_match_in_closed (pre rest : string) :
  pre <> EmptyString -> closed_by ">" pre = true ->
  occurs true (name_is attrName) pre = false ->
  match_here true attr_pattern EmptyString (String.append pre rest) = None.
Proof.
  intros Hne Hc Hocc. unfold Regex.attr_pattern. rewrite match_here_lit.
  destruct (lit true "<newznab:attr" (String.append pre rest)) as [r|] eqn:E;
    [|reflexivity].
  destruct (lit_closed true _ pre rest r ">" tag_free Hne Hc E)
    as (pre' & Hne' & Hc' & -> & q & ->).
  destruct (closed_by_first ">" pre' Hne' Hc') as (t & post & -> & Ht).
  rewrite append_assoc, append_cons.
  change (greedy_not
            (fun _ s' => match_here true
                           [Lit (name_is attrName); NotStar ">"%char; Lit value_is;
                            CapNotStar (ascii_of_nat 34); Lit dquote] EmptyString s')
            ">" EmptyString
            (String.append t (String ">" (String.append post rest))) = None).
  apply greedy_not_lit_fails; [exact name_free|exact Ht|].
  apply occurs_app in Hocc.
  destruct (occurs true (name_is attrName) t) eqn:O; [|reflexivity].
  exfalso. clear - O Hocc.
  induction t as [|x t IH].
  - simpl in O. destruct (lit true (name_is attrName) EmptyString) eqn:L; [|discriminate].
    rewrite append_nil_l in Hocc.
    apply (lit_app true _ _ _ (String ">" post)) in L. rewrite append_nil_l in L.
    apply occurs_here in L. congruence.
  - rewrite append_cons, occurs_cons in Hocc. rewrite occurs_cons in O.
    destruct (lit true (name_is attrName) (String x t)) as [r|] eqn:L.
    + apply (lit_app true _ _ _ (String ">" post)) in L.
      rewrite append_cons in L. now rewrite L in Hocc.
    + destruct (lit true (name_is attrName) (String x (String.append t (String ">" post))));
        [discriminate|]. now apply IH.
Qed.

Lemma exec_skips_closed (pre rest : string) :
  closed_by ">" pre = true ->
  occurs true (name_is attrName) pre = false ->
  exec true attr_pattern (String.append pre rest) = exec true attr_pattern rest.
Proof.
  induction pre as [|x pre IH]; intros Hc Hocc; [now rewrite append_nil_l|].
  rewrite append_cons, exec_cons. rewrite <- append_cons.
  rewrite no_match_in_closed; [|discriminate|exact Hc|exact Hocc].
  apply IH.
  - destruct pre; [reflexivity|exact Hc].
  - rewrite occurs_cons in Hocc.
    now destruct (lit true (name_is attrName) (String x pre)).
Qed.

(** The element that is found: the name, then the value. *)
Lemma attr_pattern_matches (a1 a2 v tail post : string) :
  free_of ">" a1 = true -> free_of ">" a2 = true ->
  free_of ">" v = true -> free_of ">" tail = true ->
  free_of (ascii_of_nat 34) v = true ->
  (forall x r, name_is attrName = String x r ->
     occurs true (name_is attrName)
       (String.append r
          (String.append a2
             (String.append value_is
                (String.append v (String.append dquote tail))))) = false) ->
  occurs true value_is (String.append v (String.append dquote tail)) = false ->
  match_here true attr_pattern EmptyString
    (String.append "<newznab:attr"
       (String.append a1
          (String.append (name_is attrName)
             (String.append a2
                (String.append value_is
                   (String.append v
                      (String.append dquote
                         (String.append tail (String ">" post))))))))) 
  = Some (v, String.append tail (String ">" post)).
Proof.
  intros Ha1 Ha2 Hv Htail Hq Hname Hvalue.
  unfold Regex.attr_pattern. rewrite match_here_lit.
  rewrite lit_ci_append by reflexivity.
  change (greedy_not
            (fun _ s' => match_here true
                           [Lit (name_is attrName); NotStar ">"%char; Lit value_is;
                            CapNotStar (ascii_of_nat 34); Lit dquote] EmptyString s')
            ">" EmptyString
            (String.append a1
               (String.append (name_is attrName)
                  (String.append a2
                     (String.append value_is
                        (String.append v
                           (String.append dquote
                              (String.append tail (String ">" post))))))))
          = Some (v, String.append tail (String ">" post))).
  apply greedy_not_prefix; [exact Ha1|]. rewrite append_nil_l.
  (* the second run, after the name *)
  assert (Second :
    greedy_not
      (fun _ s' => match_here true [Lit value_is; CapNotStar (ascii_of_nat 34); Lit dquote]
                              EmptyString s')
      ">" EmptyString
      (String.append a2
         (String.append value_is
            (String.append v
               (String.append dquote (String.append tail (String ">" post))))))
    = Some (v, String.append tail (String ">" post))).
  { apply greedy_not_prefix; [exact Ha2|]. rewrite append_nil_l.
    change value_is with (String "v" (String.append "alue=" dquote)) at 2.
    rewrite append_cons. apply greedy_not_here.
    - rewrite <- append_cons.
      change (String "v" (String.append "alue=" dquote)) with value_is.
      rewrite match_here_lit, lit_ci_append by reflexivity.
      change (greedy_not (fun t s' => match_here true [Lit dquote] t s')
                         (ascii_of_nat 34) EmptyString
                         (String.append v
                            (String (ascii_of_nat 34)
                               (String.append tail (String ">" post))))
              = Some (v, String.append tail (String ">" post))).
      apply greedy_not_stops; [now apply free_of_In|].
      rewrite append_nil_l. reflexivity.
    - assert (E : String.append (String.append "alue=" dquote)
                    (String.append v
                       (String.append dquote (String.append tail (String ">" post))))
                  = String.append
                      (String.append (String.append "alue=" dquote)
                         (String.append v (String.append dquote tail)))
                      (String ">" post)).
      { now rewrite !append_assoc. }
      rewrite E. apply greedy_not_lit_fails.
      + exact value_free.
      + rewrite !free_of_app, Hv, Htail. reflexivity.
      + change (String.append "alue=" dquote)
          with (String "a" (String "l" (String "u" (String "e" (String "=" dquote))))).
        rewrite !append_cons. rewrite !occurs_cons.
        cbn [lit char_eq lower_char is_upper code Ascii.eqb]. simpl.
        rewrite append_nil_l. exact Hvalue. }
  set (r := String.append "ame=" (String.append dquote (String.append attrName dquote))).
  assert (N : name_is attrName = String "n" r) by reflexivity.
  set (X := String.append a2
              (String.append value_is
                 (String.append v
                    (String.append dquote (String.append tail (String ">" post)))))) in *.
  change (String.append (name_is attrName) X) with (String "n" (String.append r X)).
  apply greedy_not_here.
  - change (String "n" (String.append r X)) with (String.append (name_is attrName) X).
    rewrite match_here_lit, lit_ci_append by reflexivity. exact Second.
  - assert (E : String.append r X
                = String.append
                    (String.append r
                       (String.append a2
                          (String.append value_is
                             (String.append v (String.append dquote tail)))))
                    (String ">" post)).
    { unfold X. now rewrite !append_assoc. }
    rewrite E. apply greedy_not_lit_fails.
    + exact name_free.
    + assert (Hr : free_of ">" r = true).
      { apply free_of_In. intros y Hy E'. subst y.
        assert (F : char_eq true ">" ">" = false).
        { apply name_free. rewrite N. simpl. now right. }
        discriminate F. }
      rewrite !free_of_app, Hr, Ha2, Hv, Htail. reflexivity.
    + apply (Hname "n"%char r). exact N.
Qed.

End AttrPattern.

(** C4.  The code at the failing input: an item whose size is the text
    abc and whose publish date is the text "not a date" is accepted, and
    the candidate carries NaN, not 0, as size and as age, on the XML path
    and on the JSON path alike.  ([parseInt] gives NaN for a text without
    leading digits; [new Date] does not throw on an invalid date, so the
    [catch] that returns 0 in [calculateAge] is never reached.) *)
Theorem unparseable_size_and_date_give_NaN (now : Z) :
  option_map size (parseXmlItem IsoDate.parse now xml_bad_numbers "ix") = Some NaN /\
  option_map age (parseXmlItem IsoDate.parse now xml_bad_numbers "ix") = Some NaN /\
  option_map (fun c : Parsed => size c)
    (parseNewznabItem IsoDate.parse now json_bad_numbers "ix") = Some NaN /\
  option_map (fun c : Parsed => age c)
    (parseNewznabItem IsoDate.parse now json_bad_numbers "ix") = Some NaN /\
  NaN <> Int 0.
Proof. repeat split; try reflexivity. discriminate. Qed.

(** The parts of C4 that hold: an absent size or date gives 0, and a
    date that parses gives the whole days between it and now. *)
Lemma absent_or_parsed_numbers (Date_parse : string -> num) (now : Z)
  (item : NewznabItem) (name : string) (c : Parsed) :
  parseNewznabItem Date_parse now item name = Some c ->
  (it_size item = None -> size c = Int 0) /\
  (it_pubDate item = None -> age c = Int 0) /\
  (forall p t, it_pubDate item = Some p -> truthy_string p = true ->
     Date_parse p = Int t -> age c = Int ((now - t) / 86400000)).
Proof.
  intros H. destruct (parseNewznabItem_numbers Date_parse now item name c H) as [Hs Ha].
  repeat split.
  - intros E. now rewrite Hs, E.
  - intros E. now rewrite Ha, E.
  - intros p t E Hp Ht. rewrite Ha, E, Hp. now apply calculateAge_floor.
Qed.

Lemma lit_first_char (ci : bool) (a x : ascii) (p s : string) :
  char_eq ci a x = false -> lit ci (String a p) (String x s) = None.
Proof. intros H. simpl. now rewrite H. Qed.

Lemma name_is_free (attrName : string) :
  free_of ">" attrName = true ->
  forall a, In a (list_ascii_of_string (name_is attrName)) ->
    char_eq true a ">"%char = false.
Proof.
  intros Hf a Ha.
  change (name_is attrName)
    with (String "n" (String "a" (String "m" (String "e" (String "="
            (String (ascii_of_nat 34)
               (String.append attrName dquote))))))) in Ha.
  simpl in Ha.
  repeat (destruct Ha as [<- | Ha]; [reflexivity|]).
  assert (Hx : a <> ">"%char).
  { intros ->. clear - Hf Ha. induction attrName as [|y n IH]; simpl in *.
    - destruct Ha as [E | []]. discriminate E.
    - apply andb_true_iff in Hf. destruct Hf as [Hy Hn].
      destruct Ha as [-> | Ha]; [discriminate Hy|]. now apply IH. }
  unfold char_eq.
  destruct a as [[] [] [] [] [] [] [] []]; try reflexivity. now contradiction Hx.
Qed.

(** Without the text of the name, the attribute is not found. *)
Lemma extractNewznabAttr_absent (xml attrName : string) :
  free_of ">" attrName = true ->
  occurs true (name_is attrName) xml = false ->
  extractNewznabAttr xml attrName = None.
Proof.
  intros Hf Hocc. unfold extractNewznabAttr.
  assert (E : exec true (attr_pattern attrName) xml = None); [|now rewrite E].
  assert (Hall : forall a b, xml = String.append a b ->
                   match_here true (attr_pattern attrName) EmptyString b = None).
  { intros a b ->. unfold attr_pattern. rewrite match_here_lit.
    destruct (lit true "<newznab:attr" b) as [r|] eqn:L; [|reflexivity].
    change (greedy_not
              (fun _ s' => match_here true
                             [Lit (name_is attrName); NotStar ">"%char; Lit value_is;
                              CapNotStar (ascii_of_nat 34); Lit dquote] EmptyString s')
              ">" EmptyString r = None).
    apply greedy_not_fails. intros _ w z -> _. rewrite match_here_lit.
    destruct (lit true (name_is attrName) z) as [r'|] eqn:L'; [|reflexivity].
    exfalso. apply occurs_here in L'.
    destruct (lit_consumes _ _ _ _ L) as [q ->].
    rewrite <- !append_assoc in Hocc. apply occurs_app in Hocc. congruence. }
  clear Hocc. revert Hall. generalize xml as s.
  induction s as [|x s IH]; intros Hall.
  - change (exec true (attr_pattern attrName) EmptyString)
      with (match match_here true (attr_pattern attrName) EmptyString EmptyString with
            | Some r => Some r
            | None => None
            end).
    now rewrite (Hall EmptyString EmptyString).
  - rewrite exec_cons, (Hall EmptyString (String x s)) by reflexivity.
    apply IH. intros a b ->. apply (Hall (String x a) b). reflexivity.
Qed.

(** The element written name first, then value, after a text that is
    closed and does not mention the name. *)
Lemma extractNewznabAttr_found (attrName pre a1 a2 v tail post : string) :
  free_of ">" attrName = true ->
  closed_by ">" pre = true ->
  occurs true (name_is attrName) pre = false ->
  free_of ">" a1 = true -> free_of ">" a2 = true ->
  free_of ">" v = true -> free_of ">" tail = true ->
  free_of (ascii_of_nat 34) v = true ->
  (forall x r, name_is attrName = String x r ->
     occurs true (name_is attrName)
       (String.append r
          (String.append a2
             (String.append value_is
                (String.append v (String.append dquote tail))))) = false) ->
  occurs true value_is (String.append v (String.append dquote tail)) = false ->
  extractNewznabAttr
    (String.append pre
       (String.append "<newznab:attr"
          (String.append a1
             (String.append (name_is attrName)
                (String.append a2
                   (String.append value_is
                      (String.append v
                         (String.append dquote
                            (String.append tail (String ">" post)))))))))) attrName
  = Some v.
Proof.
  intros Hf Hc Hpre Ha1 Ha2 Hv Htail Hq Hname Hvalue. unfold extractNewznabAttr.
  rewrite (exec_skips_closed attrName (name_is_free attrName Hf) pre _ Hc Hpre).
  change (String.append "<newznab:attr" ?X)
    with (String "<" (String.append "newznab:attr" X)).
  set (rest := String.append a1 _).
  change (String.append "<newznab:attr" rest)
    with (String "<" (String.append "newznab:attr" rest)).
  rewrite exec_cons.
  change (String "<" (String.append "newznab:attr" rest))
    with (String.append "<newznab:attr" rest).
  unfold rest.
  rewrite (attr_pattern_matches attrName (name_is_free attrName Hf)
             a1 a2 v tail post Ha1 Ha2 Hv Htail Hq Hname Hvalue).
  reflexivity.
Qed.

(** The conditions on the element for the attribute [format]. *)
Lemma format_name_once (rest : string) :
  occurs true (name_is "format") rest = false ->
  forall x r, name_is "format" = String x r ->
    occurs true (name_is "format") (String.append r rest) = false.
Proof.
  intros H x r N.
  change (name_is "format")
    with (String "n" (String "a" (String "m" (String "e" (String "="
            (String (ascii_of_nat 34)
               (String "f" (String "o" (String "r" (String "m" (String "a"
                  (String "t" (String (ascii_of_nat 34) EmptyString)))))))))))))
    in N |- *.
  injection N as <- <-.
  rewrite !append_cons, append_nil_l.
  repeat (rewrite occurs_cons, lit_first_char by reflexivity).
  exact H.
Qed.

(** C5, as the code has it.  The normalizer stores the value of the
    format attribute without changing its case.  On the XML path the
    attribute is found when it is written name first, then value, in one
    element, after a text that is closed and does not mention the name;
    an item that does not hold the text name=Qformat Q at all, or holds
    the attribute value first, gets the format "Unknown", and so does an
    empty value; without the text name=Qbitrate Q there is no bitrate.
    (Q stands for the double quote.)  On the JSON path the last format
    attribute wins: a text is stored as it is, a value that is missing
    or not a text leaves no string in [quality.format], and an item
    without format attribute gets "Unknown"; without bitrate attribute
    there is no bitrate. *)
Theorem normalizer_format_verbatim (Date_parse : string -> num) (now : Z) :
  (forall pre a1 a2 v tail post name c,
     closed_by ">" pre = true ->
     occurs true (name_is "format") pre = false ->
     free_of ">" a1 = true -> free_of ">" a2 = true ->
     free_of ">" v = true -> free_of ">" tail = true ->
     free_of (ascii_of_nat 34) v = true ->
     occurs true (name_is "format")
       (String.append a2
          (String.append value_is (String.append v (String.append dquote tail))))
     = false ->
     occurs true value_is (String.append v (String.append dquote tail)) = false ->
     parseXmlItem Date_parse now
       (String.append pre
          (String.append "<newznab:attr"
             (String.append a1
                (String.append (name_is "format")
                   (String.append a2
                      (String.append value_is
                         (String.append v
                            (String.append dquote
                               (String.append tail (String ">" post))))))))))
       name = Some c ->
     format (quality c) = if truthy_string v then v else "Unknown") /\
  (forall xml name c,
     parseXmlItem Date_parse now xml name = Some c ->
     (occurs true (name_is "format") xml = false -> format (quality c) = "Unknown") /\
     (occurs true (name_is "bitrate") xml = false -> bitrate (quality c) = None)) /\
  option_map (fun c => format (quality c))
    (parseXmlItem Date_parse now xml_value_first "ix") = Some "Unknown" /\
  (forall item name c,
     parseNewznabItem Date_parse now item name = Some c ->
     (last_value "format" (attrs_of item) = None ->
      format (quality c) = "Unknown" /\ format_is_string c = true) /\
     (forall v, last_value "format" (attrs_of item) = Some (Text v) ->
        format (quality c) = v /\ format_is_string c = true) /\
     (forall shown, last_value "format" (attrs_of item) = Some (NoText shown) ->
        format_is_string c = false) /\
     (last_value "bitrate" (attrs_of item) = None -> bitrate (quality c) = None)).
Proof.
  split; [|split; [|split]].
  - intros pre a1 a2 v tail post name c Hc Hpre Ha1 Ha2 Hv Htail Hq Hname Hvalue H.
    destruct (parseXmlItem_quality Date_parse now _ name c H) as [Hf _].
    rewrite Hf.
    rewrite (extractNewznabAttr_found "format" pre a1 a2 v tail post eq_refl
               Hc Hpre Ha1 Ha2 Hv Htail Hq (format_name_once _ Hname) Hvalue).
    reflexivity.
  - intros xml name c H.
    destruct (parseXmlItem_quality Date_parse now xml name c H) as [Hf Hb].
    split; intros Hocc.
    + now rewrite Hf, extractNewznabAttr_absent.
    + now rewrite Hb, extractNewznabAttr_absent.
  - reflexivity.
  - intros item name c H.
    destruct (parseNewznabItem_quality Date_parse now item name c H) as [Hq Hs].
    cbv zeta in Hq, Hs. rewrite Hq, Hs. simpl.
    repeat split.
    + now rewrite H0.
    + now rewrite H0.
    + now rewrite H0.
    + now rewrite H0.
    + intros shown E. now rewrite E.
    + intros E. now rewrite E.
Qed.

(** C5, as the specification words it, fails: an item without a format
    attribute gets "Unknown", which is neither "UNKNOWN" nor upper case,
    and a format attribute written flac is stored as flac. *)
Lemma format_not_uppercase_counterexample :
  option_map (fun c : Parsed => format (quality c))
    (parseNewznabItem IsoDate.parse now_jan_11 json_no_attrs "ix") = Some "Unknown" /\
  "Unknown" <> "UNKNOWN" /\
  toUpperCase "Unknown" <> "Unknown" /\
  option_map (fun c => format (quality c))
    (parseXmlItem IsoDate.parse now_jan_11 xml_no_attrs "ix") = Some "Unknown" /\
  option_map (fun c : Parsed => format (quality c))
    (parseNewznabItem IsoDate.parse now_jan_11 json_lower_flac "ix") = Some "flac" /\
  option_map (fun c => format (quality c))
    (parseXmlItem IsoDate.parse now_jan_11 xml_lower_flac "ix") = Some "flac" /\
  toUpperCase "flac" <> "flac".
Proof.
  split; [reflexivity|]. split; [discriminate|]. split; [discriminate|].
  split; [reflexivity|]. split; [reflexivity|]. split; [reflexivity|].
  discriminate.
Qed.

Lemma normalizer_format_verbatim_witness :
  parseXmlItem IsoDate.parse now_jan_11 xml_two_attrs "ix"
  = Some (mkSearchResult "Album" "http://ix/1" (Int 0) (Int 0) "ix"
                         (mkQuality "flac" None)) /\
  format (quality (mkSearchResult "Album" "http://ix/1" (Int 0) (Int 0) "ix"
                                  (mkQuality "flac" None))) = "flac" /\
  parseNewznabItem IsoDate.parse now_jan_11 json_lower_flac "ix"
  = Some (typed (mkSearchResult "Album" "http://ix/1" (Int 0) (Int 0) "ix"
                                (mkQuality "flac" None))).
Proof.
  split; [reflexivity|]. split; [|reflexivity].
  destruct (normalizer_format_verbatim IsoDate.parse now_jan_11) as [H _].
  apply (H ("<title>Album</title><link>http://ix/1</link><newznab:attr name="
            ++ dquote ++ "category" ++ dquote ++ " value=" ++ dquote ++ "3040"
            ++ dquote ++ "/>")%string
           " " " " "flac" "/" EmptyString "ix"); reflexivity.
Defined.

(** ** The fan-out search (IndexerService.searchAlbum) *)

Lemma keep_parsed_app {A R : Type} (parse : A -> option R) (l : list A)
  (acc : list R) :
  fold_left (fun (results : list R) (x : A) =>
               match parse x with
               | Some result => results ++ [result]
               | None => results
               end) l acc
  = acc ++ keep_parsed parse l.
Proof.
  unfold keep_parsed. revert acc.
  induction l as [|x l IH]; intros acc; simpl; [now rewrite List.app_nil_r|].
  rewrite IH. symmetry. rewrite IH. symmetry.
  destruct (parse x); simpl; [now rewrite <- List.app_assoc|reflexivity].
Qed.

Lemma keep_parsed_cons {A R : Type} (parse : A -> option R) (x : A)
  (l : list A) :
  keep_parsed parse (x :: l)
  = match parse x with
    | Some result => result :: keep_parsed parse l
    | None => keep_parsed parse l
    end.
Proof.
  unfold keep_parsed at 1. simpl. rewrite keep_parsed_app.
  destruct (parse x); reflexivity.
Qed.

Lemma keep_parsed_In {A R : Type} (parse : A -> option R) (l : list A)
  (c : R) :
  In c (keep_parsed parse l) <-> exists x, In x l /\ parse x = Some c.
Proof.
  induction l as [|x l IH].
  - simpl. split; [contradiction|]. intros (x & [] & _).
  - rewrite keep_parsed_cons. split.
    + destruct (parse x) as [r|] eqn:E.
      * intros [<- | H]; [exists x; simpl; auto|].
        apply IH in H. destruct H as (y & Hy & Hp). exists y. simpl. auto.
      * intros H. apply IH in H. destruct H as (y & Hy & Hp). exists y. simpl. auto.
    + intros (y & [<- | Hy] & Hp).
      * rewrite Hp. now left.
      * assert (In c (keep_parsed parse l)) by (apply IH; eauto).
        destruct (parse x); simpl; auto.
Qed.

Lemma keep_parsed_length {A R : Type} (parse : A -> option R) (l : list A) :
  (length (keep_parsed parse l) <= length l)%nat.
Proof.
  induction l as [|x l IH]; [reflexivity|].
  rewrite keep_parsed_cons. destruct (parse x); simpl; lia.
Qed.

Lemma concat_In {A : Type} (ls : list (list A)) (x : A) :
  In x (List.concat ls) <-> exists l, In l ls /\ In x l.
Proof.
  induction ls as [|l ls IH]; simpl.
  - split; [contradiction|]. intros (l & [] & _).
  - rewrite List.in_app_iff, IH. split.
    + intros [H | (l' & H1 & H2)]; [exists l; auto|exists l'; auto].
    + intros (l' & [<- | H1] & H2); [now left|right; eauto].
Qed.


Section FanOut.
Context (Date_parse : string -> num) (now : Z).
Context (http_get : string -> string -> string -> string -> Reply).
Context (svc : IndexerService) (artist album : string).

Abbreviation search := (searchIndexer Date_parse now http_get svc).

(** A failed query contributes nothing to the flattened list. *)
Lemma concat_succeeded (l : list IndexerConfig) :
  List.concat (List.map (fun indexer => catch_empty (search indexer artist album)) l)
  = List.concat
      (List.map (fun indexer => catch_empty (search indexer artist album))
         (List.filter (fun indexer =>
                         match search indexer artist album with
                         | Ok _ => true
                         | Throw _ => false
                         end) l)).
Proof.
  induction l as [|x l IH]; simpl; [reflexivity|].
  destruct (search x artist album) eqn:E; simpl.
  - rewrite E. simpl. now rewrite IH.
  - exact IH.
Qed.

Lemma searchAlbum_union (qualityProfile : option QualityProfile) :
  List.filter ix_enabled (indexers svc) <> [] ->
  searchAlbum Date_parse now http_get svc artist album qualityProfile
  = match qualityProfile with
    | Some profile =>
        if qualityProfileService svc
        then filter_and_rank (union_of_succeeded Date_parse now http_get svc artist album)
                             profile
        else Ok (union_of_succeeded Date_parse now http_get svc artist album)
    | None => Ok (union_of_succeeded Date_parse now http_get svc artist album)
    end.
Proof.
  intros Hne. unfold searchAlbum, union_of_succeeded, succeeded.
  destruct (List.filter ix_enabled (indexers svc)) as [|x l] eqn:E;
    [now contradiction Hne|].
  cbv zeta. simpl Nat.eqb. cbv iota.
  rewrite concat_succeeded.
  destruct qualityProfile as [p|]; [|reflexivity].
  now destruct (qualityProfileService svc).
Qed.

End FanOut.

(** A response without items gives no result and no error. *)
Example malformed_xml_gives_nothing (Date_parse : string -> num) (now : Z) :
  parseNewznabResponse Date_parse now (XmlData "<html>502 Bad Gateway</html>") "ix"
  = [].
Proof. reflexivity. Qed.

(** With a profile the value is filtered and ranked, so it is not the
    plain union: of two indexers one times out and the other returns an
    MP3 release; with a FLAC-only profile the search returns the empty
    list. *)
Example searchAlbum_profile_filters :
  List.filter ix_enabled (indexers service_two) = [ix_good; ix_down] /\
  searchIndexer IsoDate.parse now_jan_11 http_one_down service_two ix_down
                "Pink Floyd" "The Wall" = Throw "timeout of 30000ms exceeded" /\
  length (union_of_succeeded IsoDate.parse now_jan_11 http_one_down service_two
                             "Pink Floyd" "The Wall") = 1%nat /\
  searchAlbum IsoDate.parse now_jan_11 http_one_down service_two
              "Pink Floyd" "The Wall" (Some profile_flac_only) = Ok [].
Proof.
  split; [reflexivity|]. split; [reflexivity|]. split; [reflexivity|].
  vm_compute; reflexivity.
Qed.

(** C6.  What [searchAlbum] does with at least one enabled indexer.  A
    query that fails (rejected request, time-out) contributes no result,
    and without a quality profile the search resolves with the flattened
    union, in indexer order, of the results of the queries that
    succeeded.  With a quality profile the union is passed to
    [filterResults] and [rankResults] outside every [catch]: when a
    response held a JSON item whose format attribute has no text value
    (the value is missing, null or a number), the candidate's format is
    no string, the filter throws a TypeError on it, and the search
    rejects although other indexers delivered valid results; otherwise
    it resolves with the filtered and ranked union. *)
Theorem searchAlbum_rejects_untyped_format
  (Date_parse : string -> num) (now : Z)
  (http_get : string -> string -> string -> string -> Reply)
  (svc : IndexerService) (artist album : string) :
  List.filter ix_enabled (indexers svc) <> [] ->
  let union := union_of_succeeded Date_parse now http_get svc artist album in
  searchAlbum Date_parse now http_get svc artist album None = Ok union /\
  (forall profile,
     qualityProfileService svc = true ->
     (forall c, In c union -> format_is_string c = true) ->
     searchAlbum Date_parse now http_get svc artist album (Some profile)
     = Ok (List.map typed
             (Ranking.rankResults (filterResults (List.map candidate union) profile)
                                  profile))) /\
  (forall profile c,
     qualityProfileService svc = true ->
     In c union -> format_is_string c = false ->
     exists message,
       searchAlbum Date_parse now http_get svc artist album (Some profile)
       = Throw message) /\
  (forall profile indexer client data item shown,
     qualityProfileService svc = true ->
     In indexer (indexers svc) -> ix_enabled indexer = true ->
     clients svc !! ix_id indexer = Some client ->
     http_get client (ix_apiKey indexer) artist album = Resolved (JsonData data) ->
     In item (items_of data) ->
     truthy_opt_string (it_title item) = true ->
     truthy_opt_string (it_link item) = true ->
     no_null_entry (attrs_of item) = true ->
     last_value "format" (attrs_of item) = Some (NoText shown) ->
     exists message,
       searchAlbum Date_parse now http_get svc artist album (Some profile)
       = Throw message) /\
  (forall indexer message,
     searchIndexer Date_parse now http_get svc indexer artist album = Throw message ->
     ~ In indexer (succeeded Date_parse now http_get svc artist album)).
Proof.
  intros Hne. cbv zeta.
  assert (Hthrow : forall profile c,
            qualityProfileService svc = true ->
            In c (union_of_succeeded Date_parse now http_get svc artist album) ->
            format_is_string c = false ->
            exists message,
              searchAlbum Date_parse now http_get svc artist album (Some profile)
              = Throw message).
  { intros profile c Hq Hin Hf. rewrite searchAlbum_union by exact Hne.
    rewrite Hq. unfold filter_and_rank.
    destruct (forallb format_is_string _) eqn:F; [|eauto].
    rewrite forallb_forall in F. rewrite (F c Hin) in Hf. discriminate. }
  split; [now rewrite searchAlbum_union|].
  split.
  { intros profile Hq Hall. rewrite searchAlbum_union by exact Hne.
    rewrite Hq. unfold filter_and_rank.
    destruct (forallb format_is_string _) eqn:F; [reflexivity|].
    assert (F' : forallb format_is_string
                   (union_of_succeeded Date_parse now http_get svc artist album) = true)
      by (apply forallb_forall; exact Hall).
    congruence. }
  split; [exact Hthrow|].
  split.
  { intros profile indexer client data item shown Hq Hin Hen Hcl Hget Hitem Ht Hl Hnull Hfmt.
    assert (Hs : searchIndexer Date_parse now http_get svc indexer artist album
                 = Ok (parseNewznabJson Date_parse now data (ix_name indexer))).
    { unfold searchIndexer. now rewrite Hcl, Hget. }
    pose proof (parseNewznabItem_eq Date_parse now item (ix_name indexer)) as E.
    destruct (it_title item) as [t|]; [|discriminate Ht].
    destruct (it_link item) as [l|]; [|discriminate Hl].
    simpl in Ht, Hl. rewrite Ht, Hl, Hnull, Hfmt in E. cbv zeta in E. simpl in E.
    match type of E with _ = Some ?x => set (c := x) in E end.
    apply (Hthrow profile c Hq); [|reflexivity].
    unfold union_of_succeeded. apply concat_In.
    exists (parseNewznabJson Date_parse now data (ix_name indexer)). split.
    - apply List.in_map_iff. exists indexer. rewrite Hs. split; [reflexivity|].
      unfold succeeded. apply List.filter_In. rewrite Hs.
      split; [|reflexivity]. apply List.filter_In. auto.
    - destruct data as [|i|items]; simpl in Hitem |- *.
      + contradiction.
      + destruct Hitem as [<- | []]. apply keep_parsed_In. exists i. simpl. auto.
      + apply keep_parsed_In. eauto. }
  intros indexer message Hthrow' Hin. unfold succeeded in Hin.
  apply List.filter_In in Hin. destruct Hin as [_ Hok].
  rewrite Hthrow' in Hok. discriminate.
Qed.

(** The failing input: of two indexers the first returns an MP3
    release, the second a JSON item whose format attribute has no
    value.  Without a profile both candidates are returned; with a
    profile the search rejects. *)
Lemma searchAlbum_rejects_untyped_format_witness :
  List.filter ix_enabled (indexers service_two) <> [] /\
  searchAlbum IsoDate.parse now_jan_11 http_one_untyped service_two
              "Pink Floyd" "The Wall" None
  = Ok [typed (mkSearchResult "Album MP3" "http://good/1" (Int 52428800) (Int 0) "Good"
                              (mkQuality "MP3" (Some (Int 320))));
        mkParsed (mkSearchResult "Album" "http://down/1" (Int 0) (Int 0) "Down"
                                 (mkQuality "undefined" None)) false] /\
  searchAlbum IsoDate.parse now_jan_11 http_one_untyped service_two
              "Pink Floyd" "The Wall" (Some profile_std)
  = Throw "TypeError: result.quality.format.toUpperCase is not a function" /\
  exists message,
    searchAlbum IsoDate.parse now_jan_11 http_one_untyped service_two
                "Pink Floyd" "The Wall" (Some profile_std) = Throw message.
Proof.
  assert (Hne : List.filter ix_enabled (indexers service_two) <> [])
    by (simpl; discriminate).
  split; [exact Hne|]. split; [reflexivity|]. split; [reflexivity|].
  destruct (searchAlbum_rejects_untyped_format IsoDate.parse now_jan_11
              http_one_untyped service_two "Pink Floyd" "The Wall" Hne)
    as (_ & _ & _ & H & _).
  apply (H profile_std ix_down "http://down" (ItemsOne json_format_no_value)
           json_format_no_value "undefined"); try reflexivity.
  - simpl. auto.
  - simpl. now left.
Defined.



(* ================================================================== *)
(** * Further properties of the code *)
(* ================================================================== *)

(** ** Filtering and ranking compose *)

Section SortCompose.
Context {A : Type} (after : A -> A -> bool) (ok : A -> Prop).

Hypothesis not_after_trans :
  forall x y z, ok x -> ok y -> ok z ->
    after x y = false -> after y z = false -> after x z = false.

(** A sorted list is a fixed point of the sort. *)
Lemma sort_sorted_id (l : list A) :
  StronglySorted (not_after after) l -> sort after l = l.
Proof.
  induction 1 as [|x l Hs IH Hx]; simpl; [reflexivity|].
  rewrite IH. destruct l as [|y l]; simpl; [reflexivity|].
  inversion Hx as [|? ? Hxy _]; subst. unfold not_after in Hxy.
  now rewrite Hxy.
Qed.

(** Inserting into the kept part of a sorted list. *)
Lemma filter_insert_sorted (P : A -> bool) (x : A) (l : list A) :
  ok x -> Forall ok l -> StronglySorted (not_after after) l ->
  List.filter P (insert_sorted after x l)
  = if P x then insert_sorted after x (List.filter P l) else List.filter P l.
Proof.
  intros Hx Hok Hs. induction Hs as [|y l Hs IH Hy]; simpl.
  - destruct (P x); reflexivity.
  - inversion Hok as [|? ? Hoky Hokl]; subst.
    destruct (after x y) eqn:E; simpl.
    + rewrite IH by assumption.
      destruct (P x), (P y); simpl; try reflexivity. now rewrite E.
    + destruct (P x) eqn:Px; [|reflexivity].
      destruct (P y) eqn:Py; simpl; [now rewrite E|].
      destruct (List.filter P l) as [|z l'] eqn:F; simpl; [reflexivity|].
      assert (Hz : In z l).
      { apply (proj1 (List.filter_In P z l)). rewrite F. now left. }
      rewrite List.Forall_forall in Hy, Hokl.
      rewrite (not_after_trans x y z); auto. apply Hy, Hz.
Qed.

Hypothesis after_asym :
  forall x y, ok x -> ok y -> after x y = true -> after y x = false.

(** Filtering before or after the sort gives the same list. *)
Lemma filter_sort (P : A -> bool) (l : list A) :
  Forall ok l -> List.filter P (sort after l) = sort after (List.filter P l).
Proof.
  induction 1 as [|x l Hx Hl IH]; simpl; [reflexivity|].
  rewrite filter_insert_sorted; auto.
  - rewrite IH. destruct (P x); reflexivity.
  - now apply sort_ok.
  - now apply (sort_sorted after ok).
Qed.

End SortCompose.

Lemma after_score_asym (p : QualityProfile) (x y : SearchResult) :
  scored_ok p x -> scored_ok p y ->
  after_score p x y = true -> after_score p y x = false.
Proof.
  intros Hx Hy H. apply after_score_false; auto.
  apply after_score_lt in H; auto. now apply Qlt_le_weak.
Qed.

Lemma after_score_trans (p : QualityProfile) (x y z : SearchResult) :
  scored_ok p x -> scored_ok p y -> scored_ok p z ->
  after_score p x y = false -> after_score p y z = false ->
  after_score p x z = false.
Proof.
  intros Hx Hy Hz Hxy Hyz.
  apply after_score_false in Hxy, Hyz; auto.
  apply after_score_false; auto. eapply Qle_trans; eauto.
Qed.

Lemma rankResults_not_after (l : list SearchResult) (p : QualityProfile) :
  Forall (scored_ok p) l ->
  StronglySorted (not_after (after_score p)) (rankResults l p).
Proof.
  intros Hok. rewrite rankResults_sort.
  apply (sort_sorted _ (scored_ok p)); auto using after_score_asym.
  intros x y z. apply after_score_trans.
Qed.

Lemma filterResults_scored_ok (l : list SearchResult) (p : QualityProfile) :
  Forall (scored_ok p) l -> Forall (scored_ok p) (filterResults l p).
Proof.
  intros H. apply List.Forall_forall. intros c Hc.
  apply List.filter_In in Hc. rewrite List.Forall_forall in H. now apply H.
Qed.

(** X1.  Filtering and ranking compose, for candidates whose age is a
    number: ranking the merged list and then filtering it gives the same
    list as filtering and then ranking, the order [searchAlbum] and
    [selectBestResult] use; ranking a ranked list changes nothing; and
    [selectBestResult] picks the same candidate from a list and from its
    ranking. *)
Theorem filter_rank_compose (l : list SearchResult) (p : QualityProfile) :
  Forall (scored_ok p) l ->
  filterResults (rankResults l p) p = rankResults (filterResults l p) p /\
  rankResults (rankResults l p) p = rankResults l p /\
  selectBestResult (rankResults l p) p = selectBestResult l p.
Proof.
  intros Hok.
  assert (Hid : forall l', Forall (scored_ok p) l' ->
                  rankResults (rankResults l' p) p = rankResults l' p).
  { intros l' Hl'. rewrite (rankResults_sort (rankResults l' p)).
    apply sort_sorted_id. now apply rankResults_not_after. }
  assert (E : filterResults (rankResults l p) p = rankResults (filterResults l p) p).
  { rewrite !rankResults_sort. unfold filterResults.
    apply (filter_sort _ (scored_ok p)); auto using after_score_asym.
    intros x y z. apply after_score_trans. }
  split; [exact E|]. split; [now apply Hid|].
  rewrite !selectBestResult_head.
  rewrite E, Hid; [reflexivity|]. now apply filterResults_scored_ok.
Qed.

Lemma filter_rank_compose_witness :
  Forall (scored_ok profile_std) [cand_C; cand_B; cand_A] /\
  filterResults (rankResults [cand_C; cand_B; cand_A] profile_std) profile_std
  = [cand_A; cand_C] /\
  selectBestResult (rankResults [cand_C; cand_B; cand_A] profile_std) profile_std
  = Some cand_A.
Proof.
  assert (H : Forall (scored_ok profile_std) [cand_C; cand_B; cand_A]).
  { repeat constructor; eexists; vm_compute; reflexivity. }
  split; [exact H|].
  destruct (filter_rank_compose _ _ H) as (H1 & _ & H2).
  split; [rewrite H1|rewrite H2]; vm_compute; reflexivity.
Defined.

(** The same equations for the ranking in the arithmetic of the code:
    the sign of a rounded difference is the sign of the difference, so
    the comparator is as consistent there. *)
Lemma ranking_filter_rank_compose (l : list SearchResult) (p : QualityProfile) :
  Forall Ranking.numeric_age l ->
  filterResults (Ranking.rankResults l p) p
  = Ranking.rankResults (filterResults l p) p /\
  Ranking.rankResults (Ranking.rankResults l p) p = Ranking.rankResults l p /\
  Ranking.selectBestResult (Ranking.rankResults l p) p = Ranking.selectBestResult l p.
Proof.
  intros Hok.
  assert (Hasym : forall x y, Ranking.numeric_age x -> Ranking.numeric_age y ->
            Ranking.after_score p x y = true -> Ranking.after_score p y x = false).
  { intros x y Hx Hy H. apply ranking_after_false; auto.
    apply ranking_after_lt in H; auto. now apply Qlt_le_weak. }
  assert (Htrans : forall x y z,
            Ranking.numeric_age x -> Ranking.numeric_age y -> Ranking.numeric_age z ->
            Ranking.after_score p x y = false -> Ranking.after_score p y z = false ->
            Ranking.after_score p x z = false).
  { intros x y z Hx Hy Hz Hxy Hyz.
    apply ranking_after_false in Hxy, Hyz; auto.
    apply ranking_after_false; auto. eapply Qle_trans; eauto. }
  assert (Hid : forall l', Forall Ranking.numeric_age l' ->
                  Ranking.rankResults (Ranking.rankResults l' p) p
                  = Ranking.rankResults l' p).
  { intros l' Hl'. rewrite (ranking_sort (Ranking.rankResults l' p)).
    apply sort_sorted_id. rewrite ranking_sort.
    apply (sort_sorted _ Ranking.numeric_age); auto. }
  assert (E : filterResults (Ranking.rankResults l p) p
              = Ranking.rankResults (filterResults l p) p).
  { rewrite !ranking_sort. unfold filterResults.
    apply (filter_sort _ Ranking.numeric_age); auto. }
  split; [exact E|]. split; [now apply Hid|].
  rewrite !ranking_select_head.
  rewrite E, Hid; [reflexivity|].
  apply List.Forall_forall. intros c Hc. apply List.filter_In in Hc.
  rewrite List.Forall_forall in Hok. now apply Hok.
Qed.

(** ** The score: age, format order, bounds *)

Lemma position_ci_lt (fmt : string) (l : list string) (idx : nat) :
  position_ci fmt l = Some idx -> (idx < length l)%nat.
Proof.
  revert idx. induction l as [|f l IH]; intros idx; simpl; [discriminate|].
  destruct (String.eqb _ _).
  - intros [= <-]. lia.
  - destruct (position_ci fmt l) as [i|]; simpl; [|discriminate].
    intros [= <-]. specialize (IH i eq_refl). lia.
Qed.

Lemma size_penalty_range (s : Z) : (0 <= size_penalty s <= 20)%Q.
Proof.
  unfold size_penalty. destruct (Qlt_bool _ 10); [|destruct (Qlt_bool 500 _)]; lra.
Qed.

Lemma age_penalty_le (a : Z) : (age_penalty a <= 30)%Q.
Proof.
  unfold age_penalty. change 30%Q with (inject_Z 30).
  rewrite <- Zle_Qle. lia.
Qed.

Lemma ceiling_pos (f : string) : (0 < inject_Z (ceiling f))%Q.
Proof. unfold ceiling. destruct (_ || _); reflexivity. Qed.

Lemma bitrate_points_range (c : SearchResult) :
  (forall b, bitrate (quality c) = Some (Int b) -> 0 <= b) ->
  (0 <= bitrate_points c <= 50)%Q.
Proof.
  intros Hb. unfold bitrate_points.
  destruct (bitrate (quality c)) as [[|b]|]; try lra.
  specialize (Hb b eq_refl). split.
  - apply Q.min_glb; [|lra].
    apply Qmult_le_0_compat; [|lra].
    apply Qle_shift_div_l; [apply ceiling_pos|].
    rewrite Qmult_0_l. change 0%Q with (inject_Z 0). now rewrite <- Zle_Qle.
  - apply Q.le_min_r.
Qed.

(** *** The order of the binary64 scores *)

Lemma add_mono (x x' y y' : Q) :
  (x <= x')%Q -> (y <= y')%Q -> (Double.add x y <= Double.add x' y')%Q.
Proof. intros H1 H2. apply round_mono. lra. Qed.

Lemma sub_mono (x x' y y' : Q) :
  (x <= x')%Q -> (y' <= y)%Q -> (Double.sub x y <= Double.sub x' y')%Q.
Proof. intros H1 H2. apply round_mono. lra. Qed.

Lemma of_Z_mono (a b : Z) : a <= b -> (Double.of_Z a <= Double.of_Z b)%Q.
Proof. intros H. apply round_mono. now rewrite <- Zle_Qle. Qed.

Lemma age_penalty_mono (a1 a2 : Z) :
  a1 <= a2 -> (Ranking.age_penalty a1 <= Ranking.age_penalty a2)%Q.
Proof.
  intros H. unfold Ranking.age_penalty.
  apply Q.min_le_compat_r. now apply of_Z_mono.
Qed.

Lemma age_penalty_capped (a : Z) : 30 <= a -> (Ranking.age_penalty a == 30)%Q.
Proof.
  intros H. unfold Ranking.age_penalty. apply Q.min_r.
  assert (E : (30 == Double.of_Z 30)%Q) by reflexivity.
  rewrite E at 1. now apply of_Z_mono.
Qed.

(** A rounded value lies between the integers its argument lies
    between. *)
Lemma round_between (x : Q) (lo hi : Z) :
  - 2 ^ 53 <= lo -> hi <= 2 ^ 53 ->
  (inject_Z lo <= x <= inject_Z hi)%Q ->
  (inject_Z lo <= Double.round x <= inject_Z hi)%Q.
Proof.
  intros Hlo Hhi [H1 H2].
  assert (Hle : lo <= hi).
  { rewrite Zle_Qle. eapply Qle_trans; eassumption. }
  split.
  - rewrite <- (round_Z lo) by lia. now apply round_mono.
  - rewrite <- (round_Z hi) by lia. now apply round_mono.
Qed.

Lemma add_between (x y : Q) (l1 h1 l2 h2 : Z) :
  - 2 ^ 53 <= l1 + l2 -> h1 + h2 <= 2 ^ 53 ->
  (inject_Z l1 <= x <= inject_Z h1)%Q ->
  (inject_Z l2 <= y <= inject_Z h2)%Q ->
  (inject_Z (l1 + l2) <= Double.add x y <= inject_Z (h1 + h2))%Q.
Proof.
  intros Hl Hh [H1 H2] [H3 H4]. apply round_between; [exact Hl|exact Hh|].
  rewrite !inject_Z_plus. split; lra.
Qed.

Lemma sub_between (x y : Q) (l1 h1 l2 h2 : Z) :
  - 2 ^ 53 <= l1 - h2 -> h1 - l2 <= 2 ^ 53 ->
  (inject_Z l1 <= x <= inject_Z h1)%Q ->
  (inject_Z l2 <= y <= inject_Z h2)%Q ->
  (inject_Z (l1 - h2) <= Double.sub x y <= inject_Z (h1 - l2))%Q.
Proof.
  intros Hl Hh [H1 H2] [H3 H4]. apply round_between; [exact Hl|exact Hh|].
  unfold Z.sub. rewrite !inject_Z_plus, !inject_Z_opp. split; lra.
Qed.

Lemma of_Z_exact (z : Z) :
  - 2 ^ 53 <= z <= 2 ^ 53 -> (inject_Z z <= Double.of_Z z <= inject_Z z)%Q.
Proof. intros H. unfold Double.of_Z. rewrite (round_Z z H). split; lra. Qed.

Lemma age_penalty_exact (a : Z) :
  - 2 ^ 53 <= a <= 2 ^ 53 ->
  (inject_Z (Z.min a 30) <= Ranking.age_penalty a <= inject_Z (Z.min a 30))%Q.
Proof.
  intros H. unfold Ranking.age_penalty, Double.of_Z. 
  assert (E : (Qmin (Double.round (inject_Z a)) 30 == inject_Z (Z.min a 30))%Q).
  { destruct (Z.le_ge_cases a 30) as [Hle|Hge].
    - rewrite Z.min_l by exact Hle. rewrite Q.min_l; [apply round_Z, H|].
      rewrite (round_Z a H). change 30%Q with (inject_Z 30). now rewrite <- Zle_Qle.
    - rewrite Z.min_r by exact Hge. rewrite Q.min_r; [reflexivity|].
      rewrite (round_Z a H). change 30%Q with (inject_Z 30). now rewrite <- Zle_Qle. }
  rewrite E. split; lra.
Qed.

Lemma size_penalty_cases (c : SearchResult) :
  exists sigma, 0 <= sigma <= 20 /\ Ranking.size_penalty c = inject_Z sigma.
Proof.
  unfold Ranking.size_penalty. destruct (size c) as [|sz].
  - exists 0. split; [lia|reflexivity].
  - destruct (Qlt_bool _ 10).
    + exists 20. split; [lia|reflexivity].
    + destruct (Qlt_bool 500 _).
      * exists 10. split; [lia|reflexivity].
      * exists 0. split; [lia|reflexivity].
Qed.

(** The points for the bitrate lie between 0 and 50 when the bitrate is
    not negative. *)
Lemma ranking_bitrate_points_range (c : SearchResult) :
  (forall b, bitrate (quality c) = Some (Int b) -> 0 <= b) ->
  (0 <= Ranking.bitrate_points c <= 50)%Q.
Proof.
  intros Hb. unfold Ranking.bitrate_points.
  destruct (bitrate (quality c)) as [[|b]|]; try (split; lra).
  specialize (Hb b eq_refl). split; [|apply Q.le_min_r].
  apply Q.min_glb; [|lra].
  assert (H0 : (0 <= Double.of_Z b)%Q).
  { change 0%Q with (Double.of_Z 0). now apply of_Z_mono. }
  assert (Hc : (0 < Double.of_Z (ceiling (format (quality c))))%Q).
  { unfold ceiling. destruct (_ || _); reflexivity. }
  assert (Hd : (0 <= Double.div (Double.of_Z b)
                        (Double.of_Z (ceiling (format (quality c)))))%Q).
  { unfold Double.div. rewrite <- round_0 at 1. apply round_mono.
    apply Qle_shift_div_l; [exact Hc|]. now rewrite Qmult_0_l. }
  unfold Double.mul. rewrite <- round_0 at 1. apply round_mono.
  apply Qmult_le_0_compat; [exact Hd|lra].
Qed.

(** X2.  The age penalty, in the arithmetic of the code: of two
    candidates that differ only in their age the younger never scores
    lower, and from 30 days on the age no longer changes the score. *)
Theorem score_age_monotone (p : QualityProfile) (t u ix : string) (sz : num)
  (q : Types.Quality) (a1 a2 : Z) :
  a1 <= a2 ->
  exists s1 s2,
    Ranking.score p (mkSearchResult t u sz (Int a1) ix q) = Some s1 /\
    Ranking.score p (mkSearchResult t u sz (Int a2) ix q) = Some s2 /\
    (s2 <= s1)%Q /\
    (30 <= a1 -> s1 = s2).
Proof.
  intros Hle.
  rewrite (ranking_score_formula p (mkSearchResult t u sz (Int a1) ix q) a1 eq_refl).
  rewrite (ranking_score_formula p (mkSearchResult t u sz (Int a2) ix q) a2 eq_refl).
  do 2 eexists. split; [reflexivity|]. split; [reflexivity|].
  unfold Ranking.spec_score.
  change (Ranking.format_points p (mkSearchResult t u sz (Int a2) ix q))
    with (Ranking.format_points p (mkSearchResult t u sz (Int a1) ix q)).
  change (Ranking.bitrate_points (mkSearchResult t u sz (Int a2) ix q))
    with (Ranking.bitrate_points (mkSearchResult t u sz (Int a1) ix q)).
  change (Ranking.size_penalty (mkSearchResult t u sz (Int a2) ix q))
    with (Ranking.size_penalty (mkSearchResult t u sz (Int a1) ix q)).
  split.
  - apply sub_mono; [|lra]. apply sub_mono; [lra|]. now apply age_penalty_mono.
  - intros H30. f_equal. apply round_comp.
    rewrite (age_penalty_capped a1 H30), (age_penalty_capped a2) by lia.
    reflexivity.
Qed.

Lemma score_age_monotone_witness :
  2 <= 45 /\
  exists s1 s2,
    Ranking.score profile_std
      (mkSearchResult "A" "u" (Int (50 * MB)) (Int 2) "ix" (mkQuality "FLAC" None))
    = Some s1 /\
    Ranking.score profile_std
      (mkSearchResult "A" "u" (Int (50 * MB)) (Int 45) "ix" (mkQuality "FLAC" None))
    = Some s2 /\
    (s2 <= s1)%Q.
Proof.
  split; [lia|].
  destruct (score_age_monotone profile_std "A" "u" "ix" (Int (50 * MB))
              (mkQuality "FLAC" None) 2 45) as (s1 & s2 & H1 & H2 & H3 & _);
    [lia|].
  exists s1, s2. auto.
Defined.

Lemma ranking_bitrate_points_ceiling (f1 f2 : string) (b : option num)
  (t u ix : string) (sz a : num) :
  ceiling f1 = ceiling f2 \/ b = None ->
  Ranking.bitrate_points (mkSearchResult t u sz a ix (mkQuality f1 b))
  = Ranking.bitrate_points (mkSearchResult t u sz a ix (mkQuality f2 b)).
Proof.
  unfold Ranking.bitrate_points. simpl. intros [H | ->]; [now rewrite H|reflexivity].
Qed.

(** The score between two integers: the format points are an integer,
    the bitrate points lie between two, the penalties are integers. *)
Lemma spec_score_between (p : QualityProfile) (c : SearchResult) (a : Z)
  (idx : nat) (lo hi : Z) :
  position_ci (format (quality c)) (formats p) = Some idx ->
  Z.of_nat (length (formats p)) <= 2 ^ 40 ->
  - 2 ^ 40 <= a <= 2 ^ 40 ->
  0 <= lo -> hi <= 51 ->
  (inject_Z lo <= Ranking.bitrate_points c <= inject_Z hi)%Q ->
  exists sigma,
    Ranking.size_penalty c = inject_Z sigma /\
    (inject_Z ((Z.of_nat (length (formats p)) - Z.of_nat idx) * 20
               + lo - Z.min a 30 - sigma)
     <= Ranking.spec_score p c a
     <= inject_Z ((Z.of_nat (length (formats p)) - Z.of_nat idx) * 20
                  + hi - Z.min a 30 - sigma))%Q.
Proof.
  intros Hi Hlen Ha Hlo Hhi HB.
  destruct (size_penalty_cases c) as (sigma & Hs & Es).
  exists sigma. split; [exact Es|].
  pose proof (position_ci_lt _ _ _ Hi) as Hidx.
  assert (Hlh : lo <= hi).
  { rewrite Zle_Qle. destruct HB. eapply Qle_trans; eassumption. }
  unfold Ranking.spec_score, Ranking.format_points. rewrite Hi, Es.
  set (A := (Z.of_nat (length (formats p)) - Z.of_nat idx) * 20).
  assert (HA : 0 <= A <= 2 ^ 45) by (unfold A; lia).
  apply sub_between; [lia|lia| |split; lra].
  apply sub_between; [lia|lia| |apply age_penalty_exact; lia].
  apply add_between; [lia|lia| |exact HB].
  apply of_Z_exact. lia.
Qed.

(** X3.  The format preference, in the arithmetic of the code: of two
    candidates that differ only in their format, both formats in the
    profile and of the same bitrate ceiling (or the bitrate unknown), the
    one whose format comes earlier in the profile never scores lower.
    With at most 2^40 formats in the profile, an age of at most 2^40
    days either way and a bitrate that is not negative it scores higher,
    by at least 20 points per position less one; by 20 points per
    position when the bitrate is unknown. *)
Theorem score_format_order (p : QualityProfile) (t u ix : string) (s a : Z)
  (b : option num) (f1 f2 : string) (i j : nat) :
  position_ci f1 (formats p) = Some i ->
  position_ci f2 (formats p) = Some j ->
  ceiling f1 = ceiling f2 \/ b = None ->
  exists s1 s2,
    Ranking.score p (mkSearchResult t u (Int s) (Int a) ix (mkQuality f1 b)) = Some s1 /\
    Ranking.score p (mkSearchResult t u (Int s) (Int a) ix (mkQuality f2 b)) = Some s2 /\
    ((i <= j)%nat -> (s2 <= s1)%Q) /\
    (Z.of_nat (length (formats p)) <= 2 ^ 40 -> - 2 ^ 40 <= a <= 2 ^ 40 ->
     (forall bv, b = Some (Int bv) -> 0 <= bv) ->
     (inject_Z (20 * (Z.of_nat j - Z.of_nat i) - 1) <= s1 - s2)%Q /\
     ((i < j)%nat -> (s2 < s1)%Q) /\
     (b = None -> (s1 - s2 == inject_Z (20 * (Z.of_nat j - Z.of_nat i)))%Q)).
Proof.
  intros Hi Hj Hb.
  set (c1 := mkSearchResult t u (Int s) (Int a) ix (mkQuality f1 b)).
  set (c2 := mkSearchResult t u (Int s) (Int a) ix (mkQuality f2 b)).
  rewrite (ranking_score_formula p c1 a eq_refl).
  rewrite (ranking_score_formula p c2 a eq_refl).
  do 2 eexists. split; [reflexivity|]. split; [reflexivity|].
  pose proof (ranking_bitrate_points_ceiling f1 f2 b t u ix (Int s) (Int a) Hb) as EB.
  fold c1 c2 in EB.
  assert (ES : Ranking.size_penalty c2 = Ranking.size_penalty c1) by reflexivity.
  split.
  - intros Hij. unfold Ranking.spec_score. rewrite ES, <- EB.
    apply sub_mono; [|lra]. apply sub_mono; [|lra]. apply add_mono; [|lra].
    unfold Ranking.format_points. cbn [format quality c1 c2]. rewrite Hi, Hj.
    apply of_Z_mono. lia.
  - intros Hlen Ha Hbv.
    assert (HR : (0 <= Ranking.bitrate_points c1 <= 50)%Q).
    { apply ranking_bitrate_points_range. exact Hbv. }
    set (B := Ranking.bitrate_points c1) in *.
    set (m := Qfloor B).
    assert (Hm : (inject_Z m <= B <= inject_Z (m + 1))%Q).
    { split; [apply Qfloor_le|]. apply Qlt_le_weak, Qlt_floor. }
    assert (Hm0 : 0 <= m).
    { change 0 with (Qfloor 0). apply Qfloor_resp_le. apply HR. }
    assert (Hm50 : m <= 50).
    { change 50 with (Qfloor 50). apply Qfloor_resp_le. apply HR. }
    destruct (spec_score_between p c1 a i m (m + 1) Hi Hlen Ha Hm0 ltac:(lia) Hm)
      as (sg1 & Es1 & L1 & _).
    assert (Hm2 : (inject_Z m <= Ranking.bitrate_points c2 <= inject_Z (m + 1))%Q)
      by (rewrite <- EB; exact Hm).
    destruct (spec_score_between p c2 a j m (m + 1) Hj Hlen Ha Hm0 ltac:(lia) Hm2)
      as (sg2 & Es2 & _ & U2).
    assert (sg2 = sg1) as ->.
    { apply inject_Z_injective. rewrite <- Es1, <- Es2, ES. reflexivity. }
    assert (Hgap : (inject_Z (20 * (Z.of_nat j - Z.of_nat i) - 1)
                    <= Ranking.spec_score p c1 a - Ranking.spec_score p c2 a)%Q).
    { set (x1 := Ranking.spec_score p c1 a) in *.
      set (x2 := Ranking.spec_score p c2 a) in *.
      assert (E : (inject_Z (20 * (Z.of_nat j - Z.of_nat i) - 1)
                   == inject_Z ((Z.of_nat (length (formats p)) - Z.of_nat i) * 20
                                + m - Z.min a 30 - sg1)
                      - inject_Z ((Z.of_nat (length (formats p)) - Z.of_nat j) * 20
                                  + (m + 1) - Z.min a 30 - sg1))%Q).
      { unfold Qminus. rewrite <- inject_Z_opp, <- inject_Z_plus.
        apply inject_Z_injective. lia. }
      rewrite E. lra. }
    split; [exact Hgap|]. split.
    + intros Hlt.
      assert (Hp : (0 < inject_Z (20 * (Z.of_nat j - Z.of_nat i) - 1))%Q).
      { change 0%Q with (inject_Z 0). rewrite <- Zlt_Qlt. lia. }
      lra.
    + intros ->.
      assert (H0 : (inject_Z 0 <= Ranking.bitrate_points c1 <= inject_Z 0)%Q)
        by (split; apply Qle_refl).
      assert (H0' : (inject_Z 0 <= Ranking.bitrate_points c2 <= inject_Z 0)%Q)
        by (split; apply Qle_refl).
      destruct (spec_score_between p c1 a i 0 0 Hi Hlen Ha ltac:(lia) ltac:(lia) H0)
        as (sg & Es & L & U).
      destruct (spec_score_between p c2 a j 0 0 Hj Hlen Ha ltac:(lia) ltac:(lia) H0')
        as (sg' & Es' & L' & U').
      assert (sg' = sg) as ->.
      { apply inject_Z_injective. rewrite <- Es, <- Es', ES. reflexivity. }
      set (x1 := Ranking.spec_score p c1 a) in *.
      set (x2 := Ranking.spec_score p c2 a) in *.
      assert (E : (inject_Z (20 * (Z.of_nat j - Z.of_nat i))
                   == inject_Z ((Z.of_nat (length (formats p)) - Z.of_nat i) * 20
                                + 0 - Z.min a 30 - sg)
                      - inject_Z ((Z.of_nat (length (formats p)) - Z.of_nat j) * 20
                                  + 0 - Z.min a 30 - sg))%Q).
      { unfold Qminus. rewrite <- inject_Z_opp, <- inject_Z_plus.
        apply inject_Z_injective. lia. }
      rewrite E. lra.
Qed.

Lemma score_format_order_witness :
  exists s1 s2,
    Ranking.score profile_std
      (mkSearchResult "A" "u" (Int (50 * MB)) (Int 2) "ix" (mkQuality "flac" None))
    = Some s1 /\
    Ranking.score profile_std
      (mkSearchResult "A" "u" (Int (50 * MB)) (Int 2) "ix" (mkQuality "mp3" None))
    = Some s2 /\
    (s2 < s1)%Q /\ (s1 - s2 == 20)%Q.
Proof.
  destruct (score_format_order profile_std "A" "u" "ix" (50 * MB) 2 None
              "flac" "mp3" 0 1 eq_refl eq_refl (or_intror eq_refl))
    as (s1 & s2 & H1 & H2 & _ & H).
  exists s1, s2. split; [exact H1|]. split; [exact H2|].
  destruct H as (_ & Hlt & Hex).
  - vm_compute. discriminate.
  - split; [vm_compute; discriminate|vm_compute; discriminate].
  - discriminate.
  - split; [apply Hlt; lia|]. now apply Hex.
Defined.

(** X4.  The bitrate can outweigh the format order: when a lossless
    format is listed directly before a lossy one and both candidates
    claim the same bitrate between 166 and 846 kbps, the candidate in the
    lossy format scores higher, although its format comes later. *)
Theorem score_bitrate_outweighs_order (p : QualityProfile) (t u ix : string)
  (s a b : Z) (f1 f2 : string) (i : nat) :
  position_ci f1 (formats p) = Some i ->
  position_ci f2 (formats p) = Some (S i) ->
  ceiling f1 = 1411 -> ceiling f2 = 320 ->
  166 <= b <= 846 ->
  exists s1 s2,
    score p (mkSearchResult t u (Int s) (Int a) ix (mkQuality f1 (Some (Int b))))
    = Some s1 /\
    score p (mkSearchResult t u (Int s) (Int a) ix (mkQuality f2 (Some (Int b))))
    = Some s2 /\
    (s1 < s2)%Q.
Proof.
  intros Hi Hj C1 C2 Hb.
  destruct (score_formula p
              (mkSearchResult t u (Int s) (Int a) ix (mkQuality f1 (Some (Int b))))
              i a s Hi eq_refl eq_refl) as (s1 & H1 & E1).
  destruct (score_formula p
              (mkSearchResult t u (Int s) (Int a) ix (mkQuality f2 (Some (Int b))))
              (S i) a s Hj eq_refl eq_refl) as (s2 & H2 & E2).
  exists s1, s2. split; [exact H1|]. split; [exact H2|].
  unfold spec_score, bitrate_points in E1, E2. simpl in E1, E2.
  rewrite C1 in E1. rewrite C2 in E2.
  assert (Hd : (format_points p i == format_points p (S i) + 20)%Q).
  { unfold format_points. change 20%Q with (inject_Z 20).
    rewrite <- inject_Z_plus. apply inject_Z_injective. lia. }
  assert (Hlo : (166 <= inject_Z b)%Q).
  { change 166%Q with (inject_Z 166). rewrite <- Zle_Qle. lia. }
  assert (Hhi : (inject_Z b <= 846)%Q).
  { change 846%Q with (inject_Z 846). rewrite <- Zle_Qle. lia. }
  change (inject_Z 1411) with 1411%Q in E1.
  change (inject_Z 320) with 320%Q in E2.
  generalize dependent (inject_Z b). intros B E1 E2 Hlo Hhi.
  assert (M1 : (Qmin (B / 1411 * 50) 50 <= B / 1411 * 50)%Q) by apply Q.le_min_l.
  destruct (Q.min_spec (B / 320 * 50) 50) as [[_ M2] | [_ M2]];
    rewrite M2 in E2; clear M2;
    generalize dependent (Qmin (B / 1411 * 50) 50); intros m1 E1 M1;
    rewrite E1, E2, Hd; clear E1 E2 Hd;
    generalize (format_points p (S i)) (age_penalty a) (size_penalty s);
    intros fp ap sp; unfold Qdiv in *;
    change (/ 1411)%Q with (1 # 1411)%Q in *;
    change (/ 320)%Q with (1 # 320)%Q in *; lra.
Qed.

Lemma score_bitrate_outweighs_order_witness :
  exists s1 s2,
    score profile_std (mkSearchResult "A" "u" (Int (50 * MB)) (Int 2) "ix"
                                      (mkQuality "FLAC" (Some (Int 320)))) = Some s1 /\
    score profile_std (mkSearchResult "A" "u" (Int (50 * MB)) (Int 2) "ix"
                                      (mkQuality "MP3" (Some (Int 320)))) = Some s2 /\
    (s1 < s2)%Q.
Proof.
  apply (score_bitrate_outweighs_order profile_std "A" "u" "ix" (50 * MB) 2 320
           "FLAC" "MP3" 0 eq_refl eq_refl eq_refl eq_refl).
  lia.
Defined.

(** X5.  Bounds of the score: for a candidate whose format is at
    position idx of the profile, whose age is not negative and whose
    claimed bitrate is not negative, the score lies within 50 points of
    the format points (len - idx) * 20, hence between -30 and
    20 * len + 50. *)
Theorem score_bounds (p : QualityProfile) (c : SearchResult) (idx : nat) (a s : Z) :
  position_ci (format (quality c)) (formats p) = Some idx ->
  age c = Int a -> 0 <= a -> size c = Int s ->
  (forall b, bitrate (quality c) = Some (Int b) -> 0 <= b) ->
  exists q, score p c = Some q /\
    (format_points p idx - 50 <= q <= format_points p idx + 50)%Q /\
    (-30 <= q <= inject_Z (20 * Z.of_nat (length (formats p)) + 50))%Q.
Proof.
  intros Hidx Ha Hpos Hs Hb.
  destruct (score_formula p c idx a s Hidx Ha Hs) as (q & Hq & E).
  exists q. split; [exact Hq|].
  pose proof (position_ci_lt _ _ _ Hidx) as Hlt.
  pose proof (bitrate_points_range c Hb) as [B0 B50].
  pose proof (size_penalty_range s) as [S0 S20].
  pose proof (age_penalty_le a) as A30.
  assert (A0 : (0 <= age_penalty a)%Q).
  { unfold age_penalty. change 0%Q with (inject_Z 0). rewrite <- Zle_Qle. lia. }
  assert (F20 : (20 <= format_points p idx)%Q).
  { unfold format_points. change 20%Q with (inject_Z 20). rewrite <- Zle_Qle. lia. }
  assert (Fmax : (format_points p idx + 50
                  <= inject_Z (20 * Z.of_nat (length (formats p)) + 50))%Q).
  { unfold format_points. change 50%Q with (inject_Z 50).
    rewrite <- inject_Z_plus, <- Zle_Qle. lia. }
  unfold spec_score in E. rewrite E. clear E Hq.
  generalize dependent (format_points p idx).
  generalize dependent (bitrate_points c).
  generalize dependent (age_penalty a).
  generalize dependent (size_penalty s).
  generalize (inject_Z (20 * Z.of_nat (length (formats p)) + 50)).
  intros top sp S0 S20 ap A30 A0 bp B0 B50 fp F20 Fmax.
  repeat split; lra.
Qed.

Lemma score_bounds_witness :
  exists q, score profile_std cand_A = Some q /\ (-30 <= q <= 90)%Q.
Proof.
  destruct (score_bounds profile_std cand_A 0 2 (50 * MB) eq_refl eq_refl)
    as (q & Hq & _ & H); [lia|reflexivity| |].
  - intros b [= <-]. lia.
  - exists q. split; [exact Hq|exact H].
Defined.

(** ** What the normalizer lets through *)

Lemma truthy_string_nonempty (s : string) : truthy_string s = true -> s <> EmptyString.
Proof. destruct s; [discriminate|]. intros _. discriminate. Qed.

Section NormalizerInvariants.
Context (Date_parse : string -> num) (now : Z).

Lemma parseXmlItem_wellformed (xml name : string) (c : SearchResult) :
  parseXmlItem Date_parse now xml name = Some c ->
  title c = extractXmlValue xml "title" /\ nzbUrl c = extractXmlValue xml "link" /\
  title c <> EmptyString /\ nzbUrl c <> EmptyString /\ indexer c = name.
Proof.
  unfold parseXmlItem.
  destruct (truthy_string (extractXmlValue xml "title")) eqn:T; [|discriminate].
  destruct (truthy_string (extractXmlValue xml "link")) eqn:L; [|discriminate].
  simpl. intros [= <-]. simpl.
  repeat split; auto using truthy_string_nonempty.
Qed.

Lemma parseNewznabItem_wellformed (item : NewznabItem) (name : string)
  (c : Parsed) :
  parseNewznabItem Date_parse now item name = Some c ->
  it_title item = Some (title c) /\ it_link item = Some (nzbUrl c) /\
  title c <> EmptyString /\ nzbUrl c <> EmptyString /\ indexer c = name.
Proof.
  rewrite parseNewznabItem_eq.
  destruct (it_title item) as [t|]; [|discriminate].
  destruct (it_link item) as [l|]; [|discriminate].
  destruct (truthy_string t) eqn:T; [|discriminate].
  destruct (truthy_string l) eqn:L; [|discriminate].
  destruct (no_null_entry (attrs_of item)); [|discriminate].
  simpl. intros [= <-]. simpl.
  repeat split; auto using truthy_string_nonempty.
Qed.

Lemma parseNewznabResponse_wellformed (data : Payload) (name : string)
  (c : Parsed) :
  In c (parseNewznabResponse Date_parse now data name) ->
  title c <> EmptyString /\ nzbUrl c <> EmptyString /\ indexer c = name.
Proof.
  destruct data as [[|i|l]|xml]; simpl.
  - contradiction.
  - intros H. apply keep_parsed_In in H. destruct H as (x & _ & H).
    now apply parseNewznabItem_wellformed in H.
  - intros H. apply keep_parsed_In in H. destruct H as (x & _ & H).
    now apply parseNewznabItem_wellformed in H.
  - unfold parseNewznabXml. intros H. apply keep_parsed_In in H.
    destruct H as (x & _ & H).
    destruct (parseXmlItem Date_parse now x name) as [r|] eqn:E; [|discriminate].
    injection H as <-. now apply parseXmlItem_wellformed in E.
Qed.

End NormalizerInvariants.

(** X6.  Every candidate the normalizer produces has a non-empty title
    and a non-empty download link, taken from the item as they are, and
    carries the name of the indexer it was asked for; a JSON item is
    dropped exactly when it has no title, no link, or a null entry among
    its attributes (the TypeError of the attribute loop is caught), so a
    JSON response never gives more candidates than it has items, a single
    item object counts as a list of one, and a response without items
    gives none. *)
Theorem normalizer_identity_fields (Date_parse : string -> num) (now : Z) :
  (forall data name (c : Parsed),
     In c (parseNewznabResponse Date_parse now data name) ->
     title c <> EmptyString /\ nzbUrl c <> EmptyString /\ indexer c = name) /\
  (forall item name,
     parseNewznabItem Date_parse now item name = None <->
     truthy_opt_string (it_title item) = false \/
     truthy_opt_string (it_link item) = false \/
     no_null_entry (attrs_of item) = false) /\
  (forall item name (c : Parsed),
     parseNewznabItem Date_parse now item name = Some c ->
     it_title item = Some (title c) /\ it_link item = Some (nzbUrl c)) /\
  (forall l name,
     (length (parseNewznabJson Date_parse now (ItemsArray l) name) <= length l)%nat) /\
  (forall i name,
     parseNewznabJson Date_parse now (ItemsOne i) name
     = parseNewznabJson Date_parse now (ItemsArray [i]) name) /\
  (forall name, parseNewznabJson Date_parse now ItemsAbsent name = []).
Proof.
  split; [apply parseNewznabResponse_wellformed|].
  split.
  { intros item name. rewrite parseNewznabItem_eq.
    destruct (it_title item) as [t|]; simpl; [|tauto].
    destruct (it_link item) as [l|]; simpl; [|tauto].
    destruct (truthy_string t), (truthy_string l),
      (no_null_entry (attrs_of item)); simpl;
      split; try discriminate; auto; intros [H | [H | H]]; discriminate. }
  split.
  { intros item name c H. now apply parseNewznabItem_wellformed in H. }
  split; [intros; apply keep_parsed_length|].
  split; reflexivity.
Qed.

(** ** The clients of the constructor *)

Lemma clients_fold_lookup (l : list IndexerConfig) (m : gmap string string)
  (ix : IndexerConfig) :
  In ix l ->
  exists ix', In ix' l /\ ix_id ix' = ix_id ix /\
    fold_left (fun m indexer => <[ix_id indexer := ix_url indexer]> m) l m
    !! ix_id ix = Some (ix_url ix').
Proof.
  revert m. induction l as [|x l IH] using rev_ind; intros m Hin; [contradiction|].
  rewrite fold_left_app. simpl.
  destruct (decide (ix_id x = ix_id ix)) as [E|NE].
  - exists x. split; [apply in_or_app; right; now left|]. split; [exact E|].
    rewrite E. apply lookup_insert_eq.
  - apply in_app_or in Hin. destruct Hin as [Hin | [-> | []]]; [|congruence].
    destruct (IH m Hin) as (ix' & Hin' & Hid & Hl).
    exists ix'. split; [apply in_or_app; now left|]. split; [exact Hid|].
    rewrite lookup_insert_ne by exact NE. exact Hl.
Qed.

Lemma clients_fold_absent (l : list IndexerConfig) (m : gmap string string)
  (id : string) :
  (forall ix, In ix l -> ix_id ix <> id) ->
  fold_left (fun m indexer => <[ix_id indexer := ix_url indexer]> m) l m !! id
  = m !! id.
Proof.
  revert m. induction l as [|x l IH]; intros m H; simpl; [reflexivity|].
  rewrite IH by (intros; apply H; simpl; auto).
  apply lookup_insert_ne. apply H. now left.
Qed.

Lemma NoDup_ids_eq (l : list IndexerConfig) (ix ix' : IndexerConfig) :
  List.NoDup (List.map ix_id l) -> In ix l -> In ix' l ->
  ix_id ix' = ix_id ix -> ix' = ix.
Proof.
  induction l as [|x l IH]; simpl; [contradiction|].
  intros Hnd. inversion Hnd as [|? ? Hx Hl]; subst.
  intros [-> | Hin] [-> | Hin'] E; auto.
  - exfalso. apply Hx. rewrite <- E. now apply List.in_map.
  - exfalso. apply Hx. rewrite E. now apply List.in_map.
Qed.

(** X7.  The constructor gives every configured indexer a client, so
    [searchIndexer] never fails for want of one; the clients are keyed by
    indexer id, so with unique ids each indexer is queried at its own URL
    with its own key, while indexers that share an id are all queried at
    the URL of one of them. *)
Theorem constructor_clients (l : list IndexerConfig) (qps : bool) :
  (forall ix, In ix l ->
     exists ix', In ix' l /\ ix_id ix' = ix_id ix /\
       clients (newIndexerService l qps) !! ix_id ix = Some (ix_url ix')) /\
  (forall id, (forall ix, In ix l -> ix_id ix <> id) ->
     clients (newIndexerService l qps) !! id = None) /\
  (List.NoDup (List.map ix_id l) ->
   forall ix, In ix l ->
     clients (newIndexerService l qps) !! ix_id ix = Some (ix_url ix) /\
     forall Date_parse now http_get artist album,
       searchIndexer Date_parse now http_get (newIndexerService l qps) ix artist album
       = match http_get (ix_url ix) (ix_apiKey ix) artist album with
         | Rejected message => Throw message
         | Resolved data => Ok (parseNewznabResponse Date_parse now data (ix_name ix))
         end).
Proof.
  split; [intros ix Hin; now apply clients_fold_lookup|].
  split; [intros id H; simpl; now rewrite clients_fold_absent|].
  intros Hnd ix Hin.
  assert (E : clients (newIndexerService l qps) !! ix_id ix = Some (ix_url ix)).
  { destruct (clients_fold_lookup l ∅ ix Hin) as (ix' & Hin' & Hid & Hl).
    simpl. rewrite Hl. now rewrite (NoDup_ids_eq l ix ix' Hnd Hin Hin' Hid). }
  split; [exact E|]. intros. unfold searchIndexer. now rewrite E.
Qed.

(** ** What the fan-out returns *)

(** X8.  What the fan-out returns is sound: whenever [searchAlbum]
    resolves, every candidate of its result was produced by the query of
    an enabled indexer, carries that indexer's name and has a non-empty
    title and link; with a quality profile (and the profile service
    attached) every candidate also has a string as format and passes
    the profile's filter. *)
Theorem searchAlbum_results_sound (Date_parse : string -> num) (now : Z)
  (http_get : string -> string -> string -> string -> Reply)
  (svc : IndexerService) (artist album : string)
  (qualityProfile : option QualityProfile) (l : list Parsed) :
  searchAlbum Date_parse now http_get svc artist album qualityProfile = Ok l ->
  forall c, In c l ->
    (exists ix, In ix (indexers svc) /\ ix_enabled ix = true /\
       indexer c = ix_name ix /\
       exists found,
         searchIndexer Date_parse now http_get svc ix artist album = Ok found /\
         In c found) /\
    title c <> EmptyString /\ nzbUrl c <> EmptyString /\
    (forall p, qualityProfile = Some p -> qualityProfileService svc = true ->
       format_is_string c = true /\ accepted p c = true).
Proof.
  intros H c Hc.
  assert (Hall : forall c', In c' (List.concat
                    (List.map (fun indexer =>
                       catch_empty (searchIndexer Date_parse now http_get svc
                                                  indexer artist album))
                       (List.filter ix_enabled (indexers svc)))) ->
            (exists ix, In ix (indexers svc) /\ ix_enabled ix = true /\
               indexer c' = ix_name ix /\
               exists found,
                 searchIndexer Date_parse now http_get svc ix artist album = Ok found /\
                 In c' found) /\
            title c' <> EmptyString /\ nzbUrl c' <> EmptyString).
  { intros c' Hc'. apply concat_In in Hc'. destruct Hc' as (r & Hr & Hin).
    apply List.in_map_iff in Hr. destruct Hr as (ix & <- & Hix).
    apply List.filter_In in Hix. destruct Hix as [Hix Hen].
    destruct (searchIndexer Date_parse now http_get svc ix artist album)
      as [found|e] eqn:E; simpl in Hin; [|contradiction].
    assert (W : title c' <> EmptyString /\ nzbUrl c' <> EmptyString /\
                indexer c' = ix_name ix).
    { unfold searchIndexer in E.
      destruct (clients svc !! ix_id ix); [|discriminate].
      destruct (http_get _ _ _ _) as [m|data]; [discriminate|].
      injection E as <-. now apply parseNewznabResponse_wellformed in Hin. }
    destruct W as (Wt & Wl & Wi).
    split; [|auto]. exists ix. split; [exact Hix|]. split; [exact Hen|].
    split; [exact Wi|]. exists found. rewrite E. auto. }
  unfold searchAlbum in H.
  destruct (Nat.eqb _ 0); [discriminate|].
  destruct qualityProfile as [p|].
  - destruct (qualityProfileService svc) eqn:Q.
    + unfold filter_and_rank in H.
      destruct (forallb format_is_string _) eqn:F; [|discriminate].
      injection H as <-.
      apply List.in_map_iff in Hc. destruct Hc as (r & <- & Hr).
      assert (Hf : In r (filterResults
                 (List.map candidate
                    (List.concat
                       (List.map (fun indexer =>
                          catch_empty (searchIndexer Date_parse now http_get svc
                                                     indexer artist album))
                          (List.filter ix_enabled (indexers svc))))) p)).
      { eapply Permutation_in; [apply Permutation_sym, ranking_perm|exact Hr]. }
      apply List.filter_In in Hf. destruct Hf as [Hin Hacc].
      apply List.in_map_iff in Hin. destruct Hin as (c0 & <- & Hin).
      rewrite forallb_forall in F. pose proof (F c0 Hin) as F0.
      assert (E0 : typed (candidate c0) = c0).
      { destruct c0 as [r0 f0]. simpl in F0. subst f0. reflexivity. }
      rewrite E0. destruct (Hall c0 Hin) as (H1 & H2 & H3).
      split; [exact H1|]. split; [exact H2|]. split; [exact H3|].
      intros p' [= <-] _. split; [exact F0|exact Hacc].
    + injection H as <-. destruct (Hall c Hc) as (H1 & H2 & H3).
      split; [exact H1|]. split; [exact H2|]. split; [exact H3|].
      intros p' _ [=].
  - injection H as <-. destruct (Hall c Hc) as (H1 & H2 & H3).
    split; [exact H1|]. split; [exact H2|]. split; [exact H3|].
    intros p' [=].
Qed.

Lemma searchAlbum_results_sound_witness :
  searchAlbum IsoDate.parse now_jan_11 http_one_down service_two "Artist" "Album" None
  = Ok [typed (mkSearchResult "Album MP3" "http://good/1" (Int 52428800) (Int 0) "Good"
                              (mkQuality "MP3" (Some (Int 320))))] /\
  nzbUrl (mkSearchResult "Album MP3" "http://good/1" (Int 52428800) (Int 0) "Good"
                         (mkQuality "MP3" (Some (Int 320)))) <> EmptyString.
Proof.
  assert (H : searchAlbum IsoDate.parse now_jan_11 http_one_down service_two
                          "Artist" "Album" None
              = Ok [typed (mkSearchResult "Album MP3" "http://good/1" (Int 52428800)
                                          (Int 0) "Good"
                                          (mkQuality "MP3" (Some (Int 320))))])
    by reflexivity.
  split; [exact H|].
  destruct (searchAlbum_results_sound _ _ _ _ _ _ _ _ H
              (typed (mkSearchResult "Album MP3" "http://good/1" (Int 52428800)
                                     (Int 0) "Good" (mkQuality "MP3" (Some (Int 320))))))
    as (_ & _ & Hn & _); [now left|exact Hn].
Defined.

(** ** Deleting and creating profiles *)

Lemma find_filter_other {A : Type} (p q : A -> bool) (l : list A) :
  (forall x, In x l -> p x = true -> q x = true) ->
  List.find p (List.filter q l) = List.find p l.
Proof.
  induction l as [|x l IH]; intros H; simpl; [reflexivity|].
  destruct (q x) eqn:Q; simpl.
  - destruct (p x); [reflexivity|]. apply IH. intros; apply H; simpl; auto.
  - destruct (p x) eqn:P.
    + rewrite H in Q; simpl; auto. discriminate.
    + apply IH. intros; apply H; simpl; auto.
Qed.

Lemma find_filter_none {A : Type} (p : A -> bool) (l : list A) :
  List.find p (List.filter (fun x => negb (p x)) l) = None.
Proof.
  induction l as [|x l IH]; simpl; [reflexivity|].
  destruct (p x) eqn:P; simpl; [exact IH|]. now rewrite P.
Qed.

Lemma pk_row_eq (t : table) (r r' : QualityProfile) :
  pk_unique t -> In r t -> In r' t -> qp_id r = qp_id r' -> r = r'.
Proof.
  unfold pk_unique. induction t as [|x t IH]; simpl; [contradiction|].
  intros Hnd. inversion Hnd as [|? ? Hx Hl]; subst.
  intros [-> | Hin] [-> | Hin'] E; auto.
  - exfalso. apply Hx. rewrite E. now apply List.in_map.
  - exfalso. apply Hx. rewrite <- E. now apply List.in_map.
Qed.

Lemma pk_unique_filter (f : QualityProfile -> bool) (t : table) :
  pk_unique t -> pk_unique (List.filter f t).
Proof.
  unfold pk_unique. induction t as [|x t IH]; simpl; intros Hnd; [constructor|].
  inversion Hnd as [|? ? Hx Hl]; subst.
  destruct (f x); simpl; auto. constructor; auto.
  intros Hin. apply Hx. apply List.in_map_iff in Hin.
  destruct Hin as (r & Hr & Hin). apply List.filter_In in Hin.
  rewrite <- Hr. apply List.in_map. tauto.
Qed.

(** X9.  [deleteProfile] never removes the default profile: it throws
    for an unknown id and for the default profile, leaving the table as
    it is; when it returns, the profile is gone, the default profile and
    every other profile are found as before and the ids stay unique. *)
Theorem deleteProfile_keeps_default (id : string) (t : table) :
  pk_unique t ->
  (forall t', deleteProfile id t = (Ok tt, t') ->
     findById id t' = None /\
     findDefault t' = findDefault t /\
     (forall id', id' <> id -> findById id' t' = findById id' t) /\
     pk_unique t') /\
  (forall m t', deleteProfile id t = (Throw m, t') -> t' = t) /\
  (forall p, findById id t = Some p -> isDefault p = true ->
     exists m, deleteProfile id t = (Throw m, t)) /\
  (findById id t = None -> exists m, deleteProfile id t = (Throw m, t)).
Proof.
  intros Hpk. unfold deleteProfile.
  destruct (findById id t) as [p|] eqn:F.
  - destruct (isDefault p) eqn:D.
    + split; [intros t' [=]|]. split; [now intros m t' [= _ <-]|].
      split; [eauto|discriminate].
    + split.
      * intros t' [= <-]. unfold delete.
        split; [apply find_filter_none|].
        split; [|split].
        -- apply find_filter_other. intros r Hr Hd.
           destruct (has_id id r) eqn:E; [|reflexivity].
           apply List.find_some in F. destruct F as [Hp Hid].
           apply has_id_true in E, Hid.
           rewrite (pk_row_eq t r p Hpk Hr Hp) in Hd by congruence. congruence.
        -- intros id' Hne. apply find_filter_other. intros r Hr Hid.
           apply has_id_true in Hid. destruct (has_id id r) eqn:E; [|reflexivity].
           apply has_id_true in E. congruence.
        -- now apply pk_unique_filter.
      * split; [intros m t' [=]|]. split; [|discriminate].
        intros p' [= <-] Hd. congruence.
  - split; [intros t' [=]|]. split; [now intros m t' [= _ <-]|].
    split; [discriminate|eauto].
Qed.

Lemma deleteProfile_keeps_default_witness :
  pk_unique profiles_two_defaults /\
  exists m, deleteProfile "p1" profiles_two_defaults = (Throw m, profiles_two_defaults).
Proof.
  assert (H : pk_unique profiles_two_defaults).
  { unfold pk_unique. simpl. repeat constructor; simpl; intuition discriminate. }
  split; [exact H|].
  destruct (deleteProfile_keeps_default "p1" profiles_two_defaults H)
    as (_ & _ & Hd & _).
  apply (Hd _ eq_refl eq_refl).
Defined.

Lemma find_snoc_absent {A : Type} (p : A -> bool) (l : list A) (x : A) :
  existsb p l = false -> p x = true -> List.find p (l ++ [x]) = Some x.
Proof.
  induction l as [|y l IH]; simpl; intros H Hx; [now rewrite Hx|].
  apply orb_false_iff in H. destruct H as [Hy Hl]. rewrite Hy. auto.
Qed.

Lemma existsb_find_none {A : Type} (p : A -> bool) (l : list A) :
  existsb p l = false <-> List.find p l = None.
Proof.
  induction l as [|y l IH]; simpl; [tauto|].
  destruct (p y); simpl; [split; discriminate|exact IH].
Qed.

(** X10.  A profile that [createProfile] returns is stored and found
    again, by id and by name, with the fields it was given; it is the
    last row of the table, placed after the rows that were there (their
    default flags cleared when the new profile is the default); and it
    has passed the validation: a name, at least one format, only known
    formats, no negative limit, and neither its id nor its name in use. *)
Theorem createProfile_roundtrip (id : string) (now : Z) (profile : NewProfile)
  (t t' : table) (created : QualityProfile) :
  createProfile id now profile t = (Ok created, t') ->
  created = mkQualityProfile id (np_name profile) (np_formats profile)
              (np_minBitrate profile) (np_maxFileSize profile)
              (np_isDefault profile) now /\
  t' = (if np_isDefault profile then clear_defaults t else t) ++ [created] /\
  findById id t' = Some created /\
  findByName (np_name profile) t' = Some created /\
  findById id t = None /\ findByName (np_name profile) t = None /\
  np_name profile <> EmptyString /\ np_formats profile <> [] /\
  all_valid (np_formats profile) = true /\
  negative (np_minBitrate profile) = false /\
  negative (np_maxFileSize profile) = false.
Proof.
  unfold createProfile.
  destruct (is_empty (np_name profile)) eqn:En; [discriminate|].
  destruct (Nat.eqb (length (np_formats profile)) 0) eqn:Ef; [discriminate|].
  destruct (findByName (np_name profile) t) eqn:Fn; [discriminate|].
  destruct (all_valid (np_formats profile)) eqn:Ev; [|discriminate].
  destruct (negative (np_minBitrate profile)) eqn:Eb; [discriminate|].
  destruct (negative (np_maxFileSize profile)) eqn:Es; [discriminate|].
  simpl. unfold create.
  set (t1 := if np_isDefault profile then clear_defaults t else t).
  cbv zeta.
  destruct (existsb (has_id id) t1) eqn:Eid; [discriminate|].
  destruct (existsb (has_name (np_name profile)) t1) eqn:Ename; [discriminate|].
  simpl.
  set (row := mkQualityProfile _ _ _ _ _ _ _).
  assert (Hrow : row = mkQualityProfile id (np_name profile) (np_formats profile)
                         (np_minBitrate profile) (np_maxFileSize profile)
                         (np_isDefault profile) now).
  { unfold row. now destruct (np_isDefault profile). }
  assert (Hf : findById id (t1 ++ [row]) = Some row).
  { apply find_snoc_absent; [exact Eid|]. unfold has_id. simpl. apply String.eqb_refl. }
  rewrite Hf. intros [= <- <-].
  split; [exact Hrow|]. split; [reflexivity|]. split; [exact Hf|].
  split.
  { apply find_snoc_absent; [exact Ename|]. unfold has_name. simpl.
    apply String.eqb_refl. }
  split.
  { apply existsb_find_none. apply existsb_find_none in Eid.
    unfold t1 in Eid. destruct (np_isDefault profile); [|now apply existsb_find_none].
    destruct (existsb (has_id id) t) eqn:E; [|reflexivity].
    exfalso. apply List.existsb_exists in E. destruct E as (r & Hr & Hid).
    assert (X : existsb (has_id id) (clear_defaults t) = true).
    { apply List.existsb_exists. exists (set_isDefault false r).
      split; [now apply List.in_map|exact Hid]. }
    apply existsb_find_none in Eid. congruence. }
  split; [reflexivity|].
  split; [now destruct (np_name profile)|].
  split; [now destruct (np_formats profile)|].
  auto.
Qed.

Lemma createProfile_roundtrip_witness :
  createProfile "p9" 7 (mkNewProfile "Lossy" ["mp3"; "OGG"] (Some 192) None true)
                [profile_std]
  = (Ok (mkQualityProfile "p9" "Lossy" ["mp3"; "OGG"] (Some 192) None true 7),
     [set_isDefault false profile_std;
      mkQualityProfile "p9" "Lossy" ["mp3"; "OGG"] (Some 192) None true 7]) /\
  findByName "Lossy"
    [set_isDefault false profile_std;
     mkQualityProfile "p9" "Lossy" ["mp3"; "OGG"] (Some 192) None true 7]
  = Some (mkQualityProfile "p9" "Lossy" ["mp3"; "OGG"] (Some 192) None true 7).
Proof.
  assert (H : createProfile "p9" 7
                (mkNewProfile "Lossy" ["mp3"; "OGG"] (Some 192) None true) [profile_std]
              = (Ok (mkQualityProfile "p9" "Lossy" ["mp3"; "OGG"] (Some 192) None true 7),
                 [set_isDefault false profile_std;
                  mkQualityProfile "p9" "Lossy" ["mp3"; "OGG"] (Some 192) None true 7]))
    by reflexivity.
  split; [exact H|].
  apply (createProfile_roundtrip _ _ _ _ _ _ H).
Defined.

(** ** Profile names stay unique *)

Lemma names_clear_defaults (t : table) :
  List.map qp_name (clear_defaults t) = List.map qp_name t.
Proof. unfold clear_defaults. rewrite List.map_map. reflexivity. Qed.

Lemma names_map_where_same (id : string) (f : QualityProfile -> QualityProfile)
  (t : table) :
  (forall r, qp_name (f r) = qp_name r) ->
  List.map qp_name (List.map (fun r => if has_id id r then f r else r) t)
  = List.map qp_name t.
Proof.
  intros Hf. rewrite List.map_map. apply List.map_ext.
  intros r. destruct (has_id id r); auto.
Qed.

(** Renaming the row of one id to a name that no other row has. *)
Lemma names_rename (id name : string) (f : QualityProfile -> QualityProfile)
  (t : table) :
  (forall r, qp_name (f r) = name) ->
  pk_unique t -> List.NoDup (List.map qp_name t) ->
  (forall r, In r t -> has_id id r = false -> qp_name r <> name) ->
  List.NoDup (List.map qp_name (List.map (fun r => if has_id id r then f r else r) t)).
Proof.
  intros Hf. unfold pk_unique.
  induction t as [|x t IH]; simpl; intros Hpk Hnd Hother; [constructor|].
  inversion Hpk as [|? ? Hx Hpk']; subst.
  inversion Hnd as [|? ? Hn Hnd']; subst.
  destruct (has_id id x) eqn:E.
  - apply has_id_true in E. subst id.
    rewrite map_where_absent by exact Hx. rewrite Hf.
    constructor; [|exact Hnd'].
    intros Hin. apply List.in_map_iff in Hin. destruct Hin as (r & Hr & Hin).
    apply (Hother r); [now right| |exact Hr].
    destruct (has_id (qp_id x) r) eqn:E'; [|reflexivity].
    apply has_id_true in E'. exfalso. apply Hx. rewrite <- E'. now apply List.in_map.
  - constructor.
    + intros Hin. apply List.in_map_iff in Hin. destruct Hin as (r' & Hr' & Hin).
      apply List.in_map_iff in Hin. destruct Hin as (r & <- & Hin).
      destruct (has_id id r) eqn:E'.
      * rewrite Hf in Hr'. apply (Hother x); [now left|exact E|now symmetry].
      * apply Hn. rewrite <- Hr'. now apply List.in_map.
    + apply IH; auto.
Qed.

Lemma existsb_forall_false {A : Type} (p : A -> bool) (l : list A) :
  existsb p l = false -> forall x, In x l -> p x = false.
Proof.
  intros H x Hx. destruct (p x) eqn:E; [|reflexivity].
  assert (existsb p l = true) by (apply List.existsb_exists; eauto). congruence.
Qed.

Lemma names_create (id : string) (now : Z) (profile : NewProfile) (t : table) :
  List.NoDup (List.map qp_name t) ->
  List.NoDup (List.map qp_name (snd (create id now profile t))).
Proof.
  intros Hnd. unfold create.
  set (t1 := if np_isDefault profile then clear_defaults t else t).
  assert (Ht1 : List.NoDup (List.map qp_name t1)).
  { unfold t1. destruct (np_isDefault profile); [|exact Hnd].
    now rewrite names_clear_defaults. }
  cbv zeta.
  destruct (existsb (has_id id) t1); simpl; [exact Ht1|].
  destruct (existsb (has_name (np_name profile)) t1) eqn:En; simpl; [exact Ht1|].
  set (row := mkQualityProfile _ _ _ _ _ _ _).
  assert (Hok : List.NoDup (List.map qp_name (t1 ++ [row]))).
  { rewrite List.map_app. simpl. apply List.NoDup_app. repeat split; auto.
    - repeat constructor. simpl. tauto.
    - intros n Hn [<- | []]. apply List.in_map_iff in Hn.
      destruct Hn as (r & Hr & Hin).
      pose proof (existsb_forall_false _ _ En r Hin) as Hf.
      unfold has_name in Hf. apply String.eqb_neq in Hf. now apply Hf. }
  destruct (findById id (t1 ++ [row])); exact Hok.
Qed.

Lemma names_update (id : string) (updates : ProfileUpdates) (t : table) :
  pk_unique t -> List.NoDup (List.map qp_name t) ->
  List.NoDup (List.map qp_name (snd (update id updates t))).
Proof.
  intros Hpk Hnd. unfold update.
  set (t1 := match u_isDefault updates with
             | Some true => clear_defaults t
             | _ => t
             end).
  assert (Ht1 : List.NoDup (List.map qp_name t1) /\ pk_unique t1).
  { unfold t1. destruct (u_isDefault updates) as [[|]|]; auto.
    split; [now rewrite names_clear_defaults|now apply pk_unique_clear]. }
  destruct Ht1 as [Hn1 Hpk1]. cbv zeta.
  destruct (no_clause updates); simpl; [exact Hn1|].
  destruct (name_taken id updates t1) eqn:Et; simpl; [exact Hn1|].
  unfold name_taken in Et.
  destruct (u_name updates) as [name|] eqn:Eu.
  - destruct (existsb (has_id id) t1) eqn:Ex; simpl in Et.
    + apply (names_rename id name); auto.
      * intros r. unfold apply_updates. simpl. now rewrite Eu.
      * intros r Hr Hid. pose proof (existsb_forall_false _ _ Et r Hr) as Hf.
        simpl in Hf. rewrite Hid in Hf. simpl in Hf.
        unfold has_name in Hf. now apply String.eqb_neq in Hf.
    + rewrite map_where_absent; [exact Hn1|]. now apply existsb_has_id_false.
  - rewrite names_map_where_same; [exact Hn1|].
    intros r. unfold apply_updates. simpl. now rewrite Eu.
Qed.

(** X11.  Profile names stay unique: on a table with unique ids and
    unique names (the schema's constraints), every profile operation, at
    repository and at service level, returning or throwing, leaves the
    names unique; so does deleting a profile. *)
Theorem profile_names_unique (t : table) :
  pk_unique t -> List.NoDup (List.map qp_name t) ->
  (forall op, List.NoDup (List.map qp_name (run op t))) /\
  (forall id, List.NoDup (List.map qp_name (delete id t))) /\
  (forall id, List.NoDup (List.map qp_name (snd (deleteProfile id t)))).
Proof.
  intros Hpk Hnd.
  assert (Hset : forall id, List.NoDup (List.map qp_name (snd (setDefault id t)))).
  { intros id. rewrite setDefault_table. unfold mark_default.
    rewrite names_map_where_same by reflexivity.
    now rewrite names_clear_defaults. }
  assert (Hdel : forall id, List.NoDup (List.map qp_name (delete id t))).
  { intros id. unfold delete. clear Hpk Hset.
    induction t as [|x t IH]; simpl; [constructor|].
    inversion Hnd as [|? ? Hx Hl]; subst.
    destruct (negb (has_id id x)); simpl; auto.
    constructor; auto. intros Hin. apply Hx.
    apply List.in_map_iff in Hin. destruct Hin as (r & Hr & Hin).
    apply List.filter_In in Hin. rewrite <- Hr. apply List.in_map. tauto. }
  split; [|split; [exact Hdel|]].
  - intros [id now profile|id updates|id|id now profile|id updates|id]; simpl.
    + now apply names_create.
    + now apply names_update.
    + apply Hset.
    + unfold createProfile.
      destruct (is_empty _); [exact Hnd|].
      destruct (Nat.eqb _ 0); [exact Hnd|].
      destruct (findByName _ t); [exact Hnd|].
      destruct (negb _); [exact Hnd|].
      destruct (negative _); [exact Hnd|].
      destruct (negative _); [exact Hnd|].
      now apply names_create.
    + unfold updateProfile.
      destruct (findById id t); [|exact Hnd].
      destruct (match u_name updates with Some _ => _ | None => _ end); [exact Hnd|].
      destruct (match u_formats updates with Some _ => _ | None => _ end);
        [exact Hnd|].
      destruct (match u_formats updates with Some _ => _ | None => _ end);
        [exact Hnd|].
      destruct (negative _); [exact Hnd|].
      destruct (negative _); [exact Hnd|].
      pose proof (names_update id updates t Hpk Hnd) as H.
      destruct (update id updates t) as [[[u|]|m] t']; exact H.
    + unfold setDefaultProfile.
      destruct (findById id t); [|exact Hnd].
      pose proof (Hset id) as H.
      destruct (setDefault id t) as [[u|] t']; exact H.
  - intros id. unfold deleteProfile.
    destruct (findById id t) as [p|]; [|exact Hnd].
    destruct (isDefault p); [exact Hnd|apply Hdel].
Qed.

Lemma profile_names_unique_witness :
  List.NoDup (List.map qp_name
                (run (OpUpdate "p2" (mkProfileUpdates (Some "One") None None None None))
                     profiles_two_defaults)).
Proof.
  apply (profile_names_unique profiles_two_defaults).
  - unfold pk_unique. simpl. repeat constructor; simpl; intuition discriminate.
  - simpl. repeat constructor; simpl; intuition discriminate.
Defined.

(** ** Settings (ConfigRepository, ConfigService) *)

Lemma truthy_string_iff (s : string) : truthy_string s = true <-> s <> EmptyString.
Proof.
  destruct s; simpl; split.
  - discriminate.
  - intros H. now contradiction H.
  - intros _. discriminate.
  - reflexivity.
Qed.

Lemma set_fresh_or_truthy (key value : string) (t : gmap string string) :
  t !! key <> Some EmptyString ->
  Settings.set key value t = (Ok tt, <[key := value]> t).
Proof.
  intros H. unfold Settings.set, Settings.get.
  destruct (t !! key) as [[|c s]|]; [congruence| |]; reflexivity.
Qed.

Lemma set_locked (key value : string) (t : gmap string string) :
  t !! key = Some EmptyString ->
  Settings.set key value t = (Throw "constraint failed", t).
Proof. intros H. unfold Settings.set, Settings.get. now rewrite H. Qed.

Lemma strip_slash_empty (url : string) :
  IndexerRepo.strip_slash url = EmptyString <-> url = EmptyString \/ url = "/".
Proof.
  unfold IndexerRepo.strip_slash. split.
  - destruct url as [|c [|c' s]]; simpl; auto.
    + destruct (Ascii.eqb_spec c "/"%char) as [->|]; auto.
    + destruct (match s with EmptyString => _ | String _ _ => _ end); discriminate.
  - intros [-> | ->]; reflexivity.
Qed.

(** X12.  The download client settings round trip: a configuration with
    a URL and a key, saved on a table that holds no empty value under
    the two keys, is read back by [getSabnzbdConfig], the URL without its
    trailing slash; no other key is touched.  A configuration without URL
    or key is refused and nothing is written. *)
Theorem sabnzbd_config_roundtrip (cfg : SabnzbdConfig) (t : gmap string string) :
  sab_url cfg <> EmptyString -> sab_url cfg <> "/" ->
  sab_apiKey cfg <> EmptyString ->
  t !! "sabnzbd_url" <> Some EmptyString ->
  t !! "sabnzbd_api_key" <> Some EmptyString ->
  exists t',
    Settings.setSabnzbdConfig cfg t = (Ok tt, t') /\
    getSabnzbdConfig t'
    = Some {| sab_url := IndexerRepo.strip_slash (sab_url cfg);
              sab_apiKey := sab_apiKey cfg |} /\
    (forall key, key <> "sabnzbd_url" -> key <> "sabnzbd_api_key" ->
       t' !! key = t !! key).
Proof.
  intros Hu Hs Hk Tu Tk.
  unfold Settings.setSabnzbdConfig, Settings.repo_setSabnzbdConfig.
  apply truthy_string_iff in Hu, Hk. rewrite Hu, Hk. simpl.
  rewrite set_fresh_or_truthy by exact Tu.
  rewrite set_fresh_or_truthy by (rewrite lookup_insert_ne; [exact Tk|discriminate]).
  eexists. split; [reflexivity|]. split.
  - unfold getSabnzbdConfig.
    rewrite lookup_insert_ne by discriminate.
    rewrite !lookup_insert_eq. rewrite Hk.
    assert (Hne : IndexerRepo.strip_slash (sab_url cfg) <> EmptyString).
    { intros E. apply strip_slash_empty in E. apply truthy_string_iff in Hu. tauto. }
    apply truthy_string_iff in Hne. now rewrite Hne.
  - intros key H1 H2. now rewrite !lookup_insert_ne by congruence.
Qed.

Lemma sabnzbd_config_roundtrip_witness :
  exists t',
    Settings.setSabnzbdConfig (mkSabnzbdConfig "http://sab:8080/" "key") ∅ = (Ok tt, t') /\
    getSabnzbdConfig t' = Some (mkSabnzbdConfig "http://sab:8080" "key").
Proof.
  destruct (sabnzbd_config_roundtrip (mkSabnzbdConfig "http://sab:8080/" "key") ∅)
    as (t' & H1 & H2 & _); try discriminate.
  exists t'. split; [exact H1|exact H2].
Defined.

(** X13.  A URL that is one slash locks the setting: [setSabnzbdConfig]
    accepts it and stores the empty string as the URL; from then on the
    client counts as not configured, and every further
    [setSabnzbdConfig], whatever its argument, throws and changes
    nothing, because [set] takes the empty value for a missing row and
    inserts the key a second time. *)
Theorem sabnzbd_url_slash_locks (apiKey : string) (t : gmap string string) :
  apiKey <> EmptyString ->
  t !! "sabnzbd_url" <> Some EmptyString ->
  t !! "sabnzbd_api_key" <> Some EmptyString ->
  exists t',
    Settings.setSabnzbdConfig {| sab_url := "/"; sab_apiKey := apiKey |} t = (Ok tt, t') /\
    t' !! "sabnzbd_url" = Some EmptyString /\
    getSabnzbdConfig t' = None /\
    (forall cfg, exists m, Settings.setSabnzbdConfig cfg t' = (Throw m, t')).
Proof.
  intros Hk Tu Tk.
  unfold Settings.setSabnzbdConfig at 1, Settings.repo_setSabnzbdConfig.
  apply truthy_string_iff in Hk. simpl. rewrite Hk. simpl.
  change (IndexerRepo.strip_slash "/") with EmptyString.
  rewrite set_fresh_or_truthy by exact Tu.
  rewrite set_fresh_or_truthy by (rewrite lookup_insert_ne; [exact Tk|discriminate]).
  eexists. split; [reflexivity|].
  assert (L : (<["sabnzbd_api_key" := apiKey]>
                 (<["sabnzbd_url" := EmptyString]> t) : gmap string string)
              !! "sabnzbd_url" = Some EmptyString).
  { rewrite lookup_insert_ne by discriminate. apply lookup_insert_eq. }
  split; [exact L|]. split.
  - unfold getSabnzbdConfig. rewrite L, lookup_insert_eq. reflexivity.
  - intros cfg. unfold Settings.setSabnzbdConfig.
    destruct (negb (truthy_string (sab_url cfg)) || negb (truthy_string (sab_apiKey cfg)));
      [eauto|].
    unfold Settings.repo_setSabnzbdConfig. simpl.
    rewrite (set_locked _ _ _ L). eauto.
Qed.

Lemma sabnzbd_url_slash_locks_witness :
  exists t',
    Settings.setSabnzbdConfig (mkSabnzbdConfig "/" "key") ∅ = (Ok tt, t') /\
    exists m,
      Settings.setSabnzbdConfig (mkSabnzbdConfig "http://sab:8080" "key") t'
      = (Throw m, t').
Proof.
  destruct (sabnzbd_url_slash_locks "key" ∅) as (t' & H1 & _ & _ & H2);
    try discriminate.
  exists t'. split; [exact H1|apply H2].
Defined.

(** *** The monitoring interval *)

Lemma digit_value_digit_char (d : Z) :
  0 <= d < 10 -> digit_value (Settings.digit_char d) = Some d.
Proof.
  intros H.
  assert (C : d = 0 \/ d = 1 \/ d = 2 \/ d = 3 \/ d = 4 \/ d = 5 \/ d = 6 \/
              d = 7 \/ d = 8 \/ d = 9) by lia.
  repeat (destruct C as [-> | C]; [reflexivity|]). now subst.
Qed.

Lemma is_digit_digit_char (d : Z) :
  0 <= d < 10 -> is_digit (Settings.digit_char d) = true.
Proof.
  intros H. pose proof (digit_value_digit_char d H) as E.
  unfold digit_value in E. now destruct (is_digit _).
Qed.

Lemma read_digits_step (acc : option Z) (d : Z) (rest : string) :
  0 <= d < 10 ->
  read_digits acc (String (Settings.digit_char d) rest)
  = read_digits (Some (10 * match acc with Some a => a | None => 0 end + d)) rest.
Proof.
  intros H. cbn [read_digits]. now rewrite digit_value_digit_char.
Qed.

(** Reading back the digits that [digits] writes. *)
Lemma read_digits_digits (fuel : nat) :
  forall n, 0 <= n < 2 ^ Z.of_nat fuel -> (1 <= fuel)%nat ->
  (exists c s, Settings.digits fuel n = String c s /\ is_digit c = true) /\
  exists pw, forall acc rest,
    read_digits acc (Settings.digits fuel n ++ rest)
    = read_digits (Some (match acc with Some a => a | None => 0 end * pw + n)) rest.
Proof.
  induction fuel as [|fuel IH]; intros n Hn Hf; [lia|].
  cbn [Settings.digits].
  assert (Hmod : 0 <= n mod 10 < 10) by (apply Z.mod_pos_bound; lia).
  destruct (Z.ltb_spec n 10) as [Hlt|Hge].
  - split.
    + do 2 eexists. split; [reflexivity|]. now apply is_digit_digit_char.
    + exists 10. intros acc rest. rewrite append_nil_l, append_cons, append_nil_l.
      rewrite read_digits_step by exact Hmod.
      rewrite Z.mod_small by lia. f_equal. f_equal. lia.
  - assert (Hdiv : 0 <= n / 10 < 2 ^ Z.of_nat fuel).
    { split; [apply Z.div_pos; lia|].
      apply Z.div_lt_upper_bound; [lia|].
      rewrite Nat2Z.inj_succ, Z.pow_succ_r in Hn by lia. lia. }
    assert (Hfuel : (1 <= fuel)%nat).
    { destruct fuel; [|lia]. simpl in Hdiv.
      assert (1 <= n / 10) by (apply Z.div_le_lower_bound; lia). lia. }
    destruct (IH (n / 10) Hdiv Hfuel) as [(c & s & Hs & Hc) [pw Hpw]].
    split.
    + rewrite Hs, append_cons. eauto.
    + exists (10 * pw). intros acc rest.
      rewrite append_assoc, Hpw, append_cons, append_nil_l.
      rewrite read_digits_step by exact Hmod.
      f_equal. f_equal. rewrite (Z.div_mod n 10) at 3 by lia. simpl. lia.
Qed.

Lemma log2_fuel (n : Z) : 0 <= n -> n < 2 ^ Z.of_nat (S (Z.to_nat (Z.log2 n))).
Proof.
  intros H. rewrite Nat2Z.inj_succ, Z2Nat.id by apply Z.log2_nonneg.
  destruct (Z.eq_dec n 0) as [->|Hn]; [reflexivity|].
  apply Z.log2_spec. lia.
Qed.

Lemma parseInt_digit_head (c : ascii) (s : string) :
  is_digit c = true ->
  parseInt (String c s) = match read_digits None (String c s) with
                          | Some v => Int v
                          | None => NaN
                          end.
Proof.
  intros H. unfold parseInt.
  assert (Hs : is_space c = false /\ c <> "-"%char /\ c <> "+"%char).
  { destruct c as [[] [] [] [] [] [] [] []]; try discriminate H;
      repeat split; try reflexivity; discriminate. }
  destruct Hs as (Hs & Hm & Hp). cbn [trimStart]. rewrite Hs.
  assert (E : (let '(sign, s2) :=
                 match String c s with
                 | String "-"%char r => (-1, r)
                 | String "+"%char r => (1, r)
                 | _ => (1, String c s)
                 end in
               match read_digits None s2 with
               | Some v => Int (sign * v)
               | None => NaN
               end)
              = match read_digits None (String c s) with
                | Some v => Int (1 * v)
                | None => NaN
                end).
  { destruct c as [[] [] [] [] [] [] [] []]; try reflexivity;
      congruence. }
  rewrite E. destruct (read_digits None (String c s)); [|reflexivity].
  now rewrite Z.mul_1_l.
Qed.

(** [parseInt] reads back what [toString] writes. *)
Lemma parseInt_toString (n : Z) : 0 <= n -> parseInt (Settings.toString n) = Int n.
Proof.
  intros H. unfold Settings.toString.
  destruct (Z.ltb_spec n 0) as [Hneg|_]; [lia|].
  destruct (read_digits_digits _ n (conj H (log2_fuel n H)) ltac:(lia))
    as [(c & s & Hs & Hc) [pw Hpw]].
  specialize (Hpw None EmptyString). rewrite append_nil_r in Hpw.
  rewrite Hs in *. rewrite parseInt_digit_head by exact Hc.
  rewrite Hpw. simpl. reflexivity.
Qed.

Lemma toString_nonempty (n : Z) : 0 <= n -> Settings.toString n <> EmptyString.
Proof.
  intros H. unfold Settings.toString.
  destruct (Z.ltb_spec n 0) as [Hneg|_]; [lia|].
  destruct (read_digits_digits _ n (conj H (log2_fuel n H)) ltac:(lia))
    as [(c & s & Hs & Hc) _].
  rewrite Hs. discriminate.
Qed.

(** X14.  The monitoring interval round trip: an integer interval of at
    least one hour and at most 2^53, the range in which the number is
    written with all its decimal digits, saved on a table that holds no
    empty value under the key, is read back as the same number, its
    decimal text parsed again, and no other key is touched; an interval
    below one hour is refused and nothing is written; without a stored
    value the interval is 6. *)
Theorem monitoring_interval_roundtrip (hours : Z) (t : gmap string string) :
  t !! "monitoring_interval" <> Some EmptyString ->
  (1 <= hours <= 2 ^ 53 ->
   exists t',
     Settings.setMonitoringInterval hours t = (Ok tt, t') /\
     Settings.getMonitoringInterval t' = Int hours /\
     (forall key, key <> "monitoring_interval" -> t' !! key = t !! key)) /\
  (hours < 1 -> exists m, Settings.setMonitoringInterval hours t = (Throw m, t)) /\
  (t !! "monitoring_interval" = None -> Settings.getMonitoringInterval t = Int 6).
Proof.
  intros Ht. split; [|split].
  - intros H. unfold Settings.setMonitoringInterval, Settings.repo_setMonitoringInterval.
    destruct (Z.ltb_spec hours 1) as [|_]; [lia|].
    rewrite set_fresh_or_truthy by exact Ht.
    eexists. split; [reflexivity|]. split.
    + unfold Settings.getMonitoringInterval, Settings.get.
      rewrite lookup_insert_eq.
      assert (Hne : Settings.toString hours <> EmptyString)
        by (apply toString_nonempty; lia).
      apply truthy_string_iff in Hne. rewrite Hne.
      apply parseInt_toString. lia.
    + intros key Hk. now rewrite lookup_insert_ne by congruence.
  - intros H. unfold Settings.setMonitoringInterval.
    destruct (Z.ltb_spec hours 1) as [_|]; [eauto|lia].
  - intros H. unfold Settings.getMonitoringInterval, Settings.get. now rewrite H.
Qed.

Lemma monitoring_interval_roundtrip_witness :
  exists t',
    Settings.setMonitoringInterval 12 ∅ = (Ok tt, t') /\
    Settings.getMonitoringInterval t' = Int 12.
Proof.
  destruct (monitoring_interval_roundtrip 12 ∅) as (H & _); [discriminate|].
  destruct H as (t' & H1 & H2 & _); [lia|].
  exists t'. split; [exact H1|exact H2].
Defined.

(** ** Reading an element back (IndexerService.extractXmlValue) *)

(** X15.  An element is read back: for an element that opens the text,
    whose tag is the requested one up to letter case, with attributes
    that hold no closing angle bracket and a content that holds no
    opening angle bracket, [extractXmlValue] returns the content,
    trimmed, whatever follows the element. *)
Theorem extractXmlValue_reads_element (tag opening closing attrs v rest : string) :
  toLowerCase opening = toLowerCase tag ->
  toLowerCase closing = toLowerCase tag ->
  (forall c, In c (list_ascii_of_string attrs) -> c <> ">"%char) ->
  (forall c, In c (list_ascii_of_string v) -> c <> "<"%char) ->
  extractXmlValue
    (String.append ("<" ++ opening)
       (String.append attrs
          (String.append ">"
             (String.append v (String.append ("</" ++ closing ++ ">") rest)))))
    tag
  = trim v.
Proof.
  intros Hopen Hclose Hattrs Hv. unfold extractXmlValue.
  set (close := ("</" ++ tag ++ ">")%string).
  set (text_close := ("</" ++ closing ++ ">")%string).
  set (p := [Lit ("<" ++ tag); NotStar ">"%char; Lit ">"; CapLazyAny; Lit close]).
  assert (Hlow : toLowerCase close = toLowerCase text_close).
  { unfold close, text_close.
    change ("</" ++ tag ++ ">")%string
      with (String.append "</" (String.append tag ">")).
    change ("</" ++ closing ++ ">")%string
      with (String.append "</" (String.append closing ">")).
    rewrite !toLowerCase_append. now rewrite Hclose. }
  assert (M : match_here true p EmptyString
                (String.append ("<" ++ opening)
                   (String.append attrs
                      (String.append ">"
                         (String.append v (String.append text_close rest)))))
              = Some (v, rest)).
  { unfold p. rewrite match_here_lit.
    rewrite lit_ci_append
      by (change ("<" ++ tag)%string with (String.append "<" tag);
          change ("<" ++ opening)%string with (String.append "<" opening);
          rewrite !toLowerCase_append; now rewrite Hopen).
    change (greedy_not (fun _ s' =>
                          match_here true [Lit ">"; CapLazyAny; Lit close] EmptyString s')
                       ">"%char EmptyString
                       (String.append attrs
                          (String ">"%char
                             (String.append v (String.append text_close rest))))
            = Some (v, rest)).
    apply greedy_not_stops; [exact Hattrs|].
    cbv beta. rewrite match_here_lit.
    change (lit true ">"
              (String ">"%char (String.append v (String.append text_close rest))))
      with (Some (String.append v (String.append text_close rest))).
    change (lazy_any (fun t s' => match_here true [Lit close] t s') EmptyString
                     (String.append v (String.append text_close rest))
            = Some (v, rest)).
    rewrite lazy_any_skips.
    - rewrite append_nil_l. apply lazy_any_now.
      rewrite match_here_lit, lit_ci_append by exact Hlow. reflexivity.
    - intros t x s' Hx. rewrite match_here_lit. unfold close.
      change (lit true ("</" ++ tag ++ ">") (String x s'))
        with (if char_eq true "<"%char x
              then lit true (String "/"%char (tag ++ ">")) s' else None).
      now rewrite char_eq_lt by (apply Hv, Hx). }
  assert (E : exec true p
                (String.append ("<" ++ opening)
                   (String.append attrs
                      (String.append ">"
                         (String.append v (String.append text_close rest)))))
              = Some (v, rest)).
  { change (String.append ("<" ++ opening)
              (String.append attrs
                 (String.append ">"
                    (String.append v (String.append text_close rest)))))
      with (String "<"%char
              (String.append opening
                 (String.append attrs
                    (String.append ">"
                       (String.append v (String.append text_close rest))))))
      in *.
    rewrite exec_cons. now rewrite M. }
  now rewrite E.
Qed.

Lemma extractXmlValue_reads_element_witness :
  extractXmlValue "<Title lang=en> The Wall </TITLE><link>http://ix/1</link>" "title"
  = "The Wall".
Proof.
  apply (extractXmlValue_reads_element "title" "Title" "TITLE" " lang=en" " The Wall "
           "<link>http://ix/1</link>"); try reflexivity.
  - intros c Hc. simpl in Hc. intuition (subst; discriminate).
  - intros c Hc. simpl in Hc. intuition (subst; discriminate).
Defined.

(** ** The scheduler (MonitoringService) *)

Lemma startScheduler_invariant (cron_validate : Scheduler.Value -> bool)
  (st : Scheduler.State) :
  (forall s, Scheduler.task st = Some s ->
     s = Scheduler.schedule (Scheduler.config st) /\
     Scheduler.truthy (Scheduler.enabled (Scheduler.config st)) = true /\
     cron_validate s = true) ->
  forall s, Scheduler.task (snd (Scheduler.startScheduler cron_validate st)) = Some s ->
    s = Scheduler.schedule (Scheduler.config (snd (Scheduler.startScheduler cron_validate st))) /\
    Scheduler.truthy
      (Scheduler.enabled (Scheduler.config (snd (Scheduler.startScheduler cron_validate st))))
    = true /\
    cron_validate s = true.
Proof.
  intros H s. unfold Scheduler.startScheduler.
  destruct (Scheduler.task st) as [s0|] eqn:T; simpl.
  - rewrite T. apply H.
  - destruct (Scheduler.truthy (Scheduler.enabled (Scheduler.config st))) eqn:E; simpl;
      [|rewrite T; discriminate].
    destruct (cron_validate (Scheduler.schedule (Scheduler.config st))) eqn:V; simpl;
      [|rewrite T; discriminate].
    intros [= <-]. auto.
Qed.

(** X16.  A running scheduler always runs the schedule of the current
    configuration: after any sequence of [startScheduler],
    [stopScheduler] and [updateConfig] calls on a new service, whatever
    values the calls carry (a key may be absent, undefined or of any
    type), a task that exists was created with the configured schedule,
    [cron.validate] accepts that schedule, and the configured [enabled]
    is truthy. *)
Theorem scheduler_runs_current_schedule (cron_validate : Scheduler.Value -> bool)
  (init : option Scheduler.PartialConfig) (calls : list Scheduler.call) :
  forall s,
    Scheduler.task (fold_left (Scheduler.perform cron_validate) calls
                              (Scheduler.newMonitoringService init)) = Some s ->
    s = Scheduler.schedule
          (Scheduler.config (fold_left (Scheduler.perform cron_validate) calls
                                       (Scheduler.newMonitoringService init))) /\
    Scheduler.truthy
      (Scheduler.enabled
         (Scheduler.config (fold_left (Scheduler.perform cron_validate) calls
                                      (Scheduler.newMonitoringService init)))) = true /\
    cron_validate s = true.
Proof.
  assert (Hinit : forall s, Scheduler.task (Scheduler.newMonitoringService init) = Some s ->
            s = Scheduler.schedule (Scheduler.config (Scheduler.newMonitoringService init)) /\
            Scheduler.truthy
              (Scheduler.enabled (Scheduler.config (Scheduler.newMonitoringService init)))
            = true /\
            cron_validate s = true) by discriminate.
  revert Hinit. generalize (Scheduler.newMonitoringService init) as st.
  induction calls as [|c calls IH]; intros st Hst; simpl; [exact Hst|].
  apply IH. destruct c as [| |new]; simpl.
  - now apply startScheduler_invariant.
  - unfold Scheduler.stopScheduler. destruct (Scheduler.task st) eqn:T; simpl.
    + discriminate.
    + rewrite T. discriminate.
  - unfold Scheduler.updateConfig, Scheduler.isSchedulerRunning, Scheduler.stopScheduler.
    cbv zeta. destruct (Scheduler.task st) as [s0|] eqn:T.
    + cbn [andb Scheduler.config Scheduler.task].
      destruct (Scheduler.truthy
                  (Scheduler.enabled (Scheduler.merge (Scheduler.config st) new))).
      * apply startScheduler_invariant. intros s. cbn [Scheduler.task]. discriminate.
      * intros s. cbn [snd Scheduler.task]. discriminate.
    + cbn [andb snd Scheduler.config Scheduler.task]. intros s. rewrite T. discriminate.
Qed.

(** The service is started, then the route posts a body with a new
    schedule and no [enabled] key, then the scheduler is started again:
    no task is left, and the schedule posted next with [enabled] set is
    the one that runs. *)
Lemma scheduler_runs_current_schedule_witness :
  Scheduler.task
    (fold_left (Scheduler.perform (fun _ => true))
       [Scheduler.Start;
        Scheduler.Update
          (Scheduler.post_config
             (Scheduler.mkPartialConfig None (Some (Scheduler.Str "0 3 * * *"))));
        Scheduler.Start]
       (Scheduler.newMonitoringService None)) = None /\
  (Scheduler.Str "0 4 * * *"
   = Scheduler.schedule
       (Scheduler.config
          (fold_left (Scheduler.perform (fun _ => true))
             [Scheduler.Update
                (Scheduler.post_config
                   (Scheduler.mkPartialConfig (Some (Scheduler.Bool true))
                                              (Some (Scheduler.Str "0 4 * * *"))));
              Scheduler.Start]
             (Scheduler.newMonitoringService None))) /\
   Scheduler.truthy
     (Scheduler.enabled
        (Scheduler.config
           (fold_left (Scheduler.perform (fun _ => true))
              [Scheduler.Update
                 (Scheduler.post_config
                    (Scheduler.mkPartialConfig (Some (Scheduler.Bool true))
                                               (Some (Scheduler.Str "0 4 * * *"))));
               Scheduler.Start]
              (Scheduler.newMonitoringService None)))) = true /\
   (fun _ : Scheduler.Value => true) (Scheduler.Str "0 4 * * *") = true).
Proof.
  split; [reflexivity|].
  apply (scheduler_runs_current_schedule (fun _ => true) None
           [Scheduler.Update
              (Scheduler.post_config
                 (Scheduler.mkPartialConfig (Some (Scheduler.Bool true))
                                            (Some (Scheduler.Str "0 4 * * *"))));
            Scheduler.Start]
           (Scheduler.Str "0 4 * * *")).
  reflexivity.
Defined.

(** X17.  [updateConfig] stores the merged configuration whatever
    happens: a key of the argument overwrites the stored value, also when
    its value is undefined, and an absent key keeps it.  It never starts
    a scheduler that was stopped: the scheduler runs afterwards exactly
    when it ran before, the new [enabled] is truthy and [cron.validate]
    accepts the new schedule.  It throws exactly when the scheduler ran,
    the new [enabled] is truthy and the schedule is refused, and then the
    scheduler is left stopped.  So the route, which passes both keys, stops
    a running scheduler when the body has no [enabled]. *)
Theorem updateConfig_restarts_only_running (cron_validate : Scheduler.Value -> bool)
  (new : Scheduler.PartialConfig) (st : Scheduler.State) :
  Scheduler.config (snd (Scheduler.updateConfig cron_validate new st))
  = Scheduler.merge (Scheduler.config st) new /\
  Scheduler.enabled (Scheduler.merge (Scheduler.config st) new)
  = match Scheduler.pc_enabled new with
    | Some v => v
    | None => Scheduler.enabled (Scheduler.config st)
    end /\
  Scheduler.schedule (Scheduler.merge (Scheduler.config st) new)
  = match Scheduler.pc_schedule new with
    | Some v => v
    | None => Scheduler.schedule (Scheduler.config st)
    end /\
  Scheduler.isSchedulerRunning (snd (Scheduler.updateConfig cron_validate new st))
  = Scheduler.isSchedulerRunning st
    && Scheduler.truthy (Scheduler.enabled (Scheduler.merge (Scheduler.config st) new))
    && cron_validate (Scheduler.schedule (Scheduler.merge (Scheduler.config st) new)) /\
  ((exists m, fst (Scheduler.updateConfig cron_validate new st) = Throw m) <->
   Scheduler.isSchedulerRunning st = true /\
   Scheduler.truthy (Scheduler.enabled (Scheduler.merge (Scheduler.config st) new)) = true /\
   cron_validate (Scheduler.schedule (Scheduler.merge (Scheduler.config st) new)) = false) /\
  (forall body,
     new = Scheduler.post_config body ->
     Scheduler.pc_enabled body = None ->
     Scheduler.enabled
       (Scheduler.config (snd (Scheduler.updateConfig cron_validate new st)))
     = Scheduler.Undefined /\
     Scheduler.isSchedulerRunning (snd (Scheduler.updateConfig cron_validate new st))
     = false).
Proof.
  assert (Hmain :
    Scheduler.config (snd (Scheduler.updateConfig cron_validate new st))
    = Scheduler.merge (Scheduler.config st) new /\
    Scheduler.isSchedulerRunning (snd (Scheduler.updateConfig cron_validate new st))
    = Scheduler.isSchedulerRunning st
      && Scheduler.truthy (Scheduler.enabled (Scheduler.merge (Scheduler.config st) new))
      && cron_validate (Scheduler.schedule (Scheduler.merge (Scheduler.config st) new)) /\
    ((exists m, fst (Scheduler.updateConfig cron_validate new st) = Throw m) <->
     Scheduler.isSchedulerRunning st = true /\
     Scheduler.truthy (Scheduler.enabled (Scheduler.merge (Scheduler.config st) new))
     = true /\
     cron_validate (Scheduler.schedule (Scheduler.merge (Scheduler.config st) new))
     = false)).
  { unfold Scheduler.updateConfig, Scheduler.isSchedulerRunning, Scheduler.stopScheduler.
    cbv zeta. destruct (Scheduler.task st) as [s0|] eqn:T.
    - cbn [andb Scheduler.config Scheduler.task].
      destruct (Scheduler.truthy
                  (Scheduler.enabled (Scheduler.merge (Scheduler.config st) new))) eqn:E.
      + unfold Scheduler.startScheduler. cbn [Scheduler.config Scheduler.task].
        rewrite E. cbn [negb].
        destruct (cron_validate (Scheduler.schedule
                    (Scheduler.merge (Scheduler.config st) new))) eqn:V;
          cbn [negb fst snd Scheduler.config Scheduler.task andb].
        * split; [reflexivity|]. split; [reflexivity|]. split.
          -- intros [m [=]].
          -- intros (_ & _ & [=]).
        * split; [reflexivity|]. split; [reflexivity|]. split; eauto.
      + cbn [negb fst snd Scheduler.config Scheduler.task andb].
        split; [reflexivity|]. split; [reflexivity|]. split.
        * intros [m [=]].
        * intros (_ & [=] & _).
    - cbn [negb fst snd Scheduler.config Scheduler.task andb]. rewrite T.
      split; [reflexivity|]. split; [reflexivity|]. split.
      + intros [m [=]].
      + intros ([=] & _). }
  destruct Hmain as (Hc & Hr & Ht).
  split; [exact Hc|]. split; [reflexivity|]. split; [reflexivity|].
  split; [exact Hr|]. split; [exact Ht|].
  intros body -> Hb. rewrite Hc, Hr.
  unfold Scheduler.merge, Scheduler.post_config. cbn [Scheduler.pc_enabled Scheduler.enabled].
  rewrite Hb. cbn [Scheduler.read Scheduler.truthy].
  split; [reflexivity|]. now rewrite andb_false_r.
Qed.

(** ** Listings *)

Lemma insert_default_first (x : QualityProfile) (l : list QualityProfile)
  (d : QualityProfile) :
  (forall d', In d' l -> isDefault d' = true ->
     exists h rest, l = h :: rest /\ isDefault h = true) ->
  In d (x :: l) -> isDefault d = true ->
  exists h rest, insert_sorted Listings.profile_after x l = h :: rest /\
                 isDefault h = true.
Proof.
  intros Hl Hd Hdef. destruct l as [|y l]; simpl.
  - destruct Hd as [<- | []]. eauto.
  - destruct (Listings.profile_after x y) eqn:E.
    + exists y. eexists. split; [reflexivity|].
      unfold Listings.profile_after in E.
      destruct (isDefault y) eqn:Dy; [reflexivity|].
      destruct (isDefault x) eqn:Dx; [discriminate|].
      destruct Hd as [<- | Hd]; [congruence|].
      destruct (Hl d Hd Hdef) as (h & rest & [= <- <-] & Hh). congruence.
    + exists x. eexists. split; [reflexivity|].
      destruct (isDefault x) eqn:Dx; [reflexivity|].
      destruct Hd as [<- | Hd]; [congruence|].
      destruct (Hl d Hd Hdef) as (h & rest & [= <- <-] & Hh).
      unfold Listings.profile_after in E. rewrite Dx, Hh in E. discriminate.
Qed.

Lemma findAll_default_first (t : table) :
  forall d, In d t -> isDefault d = true ->
    exists h rest, Listings.profile_findAll t = h :: rest /\ isDefault h = true.
Proof.
  unfold Listings.profile_findAll.
  induction t as [|x t IH]; simpl; [contradiction|].
  intros d Hd Hdef. apply (insert_default_first x (sort Listings.profile_after t) d); [| |exact Hdef].
  - intros d' Hd' Hdef'. apply (IH d'); [|exact Hdef'].
    eapply Permutation_in; [apply Permutation_sym, sort_perm|exact Hd'].
  - destruct Hd as [<- | Hd]; [now left|right].
    eapply Permutation_in; [apply sort_perm|exact Hd].
Qed.

(** X18.  [getAllProfiles] lists every profile once and the default
    first: the listing is a permutation of the table, its head is a
    default profile whenever there is one, and with at most one default
    (the invariant of the table) the head is the very profile that
    [getDefaultProfile] returns. *)
Theorem profile_findAll_default_first (t : table) :
  Permutation t (Listings.profile_findAll t) /\
  (forall d, In d t -> isDefault d = true ->
     exists h rest, Listings.profile_findAll t = h :: rest /\ isDefault h = true) /\
  (at_most_one_default t ->
   forall d, findDefault t = Some d -> head (Listings.profile_findAll t) = Some d).
Proof.
  split; [apply sort_perm|]. split; [apply findAll_default_first|].
  intros Hone d Hd. unfold findDefault in Hd.
  apply List.find_some in Hd. destruct Hd as [Hin Hdef].
  destruct (findAll_default_first t d Hin Hdef) as (h & rest & E & Hh).
  rewrite E. simpl. f_equal.
  assert (Hh_in : In h t).
  { eapply Permutation_in; [apply Permutation_sym, (sort_perm Listings.profile_after)|].
    fold (Listings.profile_findAll t). rewrite E. now left. }
  assert (Hd1 : In d (defaults t)) by (apply List.filter_In; auto).
  assert (Hh1 : In h (defaults t)) by (apply List.filter_In; auto).
  unfold at_most_one_default in Hone.
  destruct (defaults t) as [|a [|b l]]; simpl in *; [contradiction| |lia].
  destruct Hd1 as [<- | []], Hh1 as [<- | []]. reflexivity.
Qed.

(** *** Downloads *)



Lemma filter_newest_first (P : Download -> bool) (l : list Download) :
  List.filter P (DownloadRepo.newest_first l)
  = DownloadRepo.newest_first (List.filter P l).
Proof.
  unfold DownloadRepo.newest_first.
  apply (filter_sort _ (fun _ => True)).
  - intros x y z _ _ _ H1 H2. apply Z.ltb_ge in H1, H2. apply Z.ltb_ge. lia.
  - intros x y _ _ H. apply Z.ltb_lt in H. apply Z.ltb_ge. lia.
  - apply List.Forall_forall. auto.
Qed.






(** ** Enabling and disabling indexers (IndexerRepository, ConfigService) *)

Lemma findEnabled_In (t : list IndexerConfig) (ix : IndexerConfig) :
  In ix (findEnabled t) <-> In ix t /\ ix_enabled ix = true.
Proof.
  unfold findEnabled. rewrite <- List.filter_In. split; intros H.
  - eapply Permutation_in; [apply Permutation_sym, sort_perm|exact H].
  - eapply Permutation_in; [apply sort_perm|exact H].
Qed.

Lemma indexer_has_id_true (id : string) (r : IndexerConfig) :
  IndexerRepo.has_id id r = true <-> ix_id r = id.
Proof. unfold IndexerRepo.has_id. apply String.eqb_eq. Qed.

Lemma indexer_set_enabled (id : string) (b : bool) (t : IndexerRepo.table) :
  IndexerRepo.update id (IndexerRepo.mkIndexerUpdates None None None (Some b)) t
  = (Ok (IndexerRepo.findById id
           (List.map (fun r => if IndexerRepo.has_id id r
                               then mkIndexerConfig (ix_id r) (ix_name r) (ix_url r)
                                      (ix_apiKey r) b (ix_createdAt r)
                               else r) t)),
     List.map (fun r => if IndexerRepo.has_id id r
                        then mkIndexerConfig (ix_id r) (ix_name r) (ix_url r)
                               (ix_apiKey r) b (ix_createdAt r)
                        else r) t).
Proof.
  unfold IndexerRepo.update, IndexerRepo.apply_updates. simpl.
  now destruct b.
Qed.

Lemma indexer_find_map_where (id : string) (f : IndexerConfig -> IndexerConfig)
  (t : IndexerRepo.table) :
  (forall r, ix_id (f r) = ix_id r) ->
  IndexerRepo.findById id
    (List.map (fun r => if IndexerRepo.has_id id r then f r else r) t)
  = option_map f (IndexerRepo.findById id t).
Proof.
  intros Hf. unfold IndexerRepo.findById.
  induction t as [|r t IH]; simpl; [reflexivity|].
  destruct (IndexerRepo.has_id id r) eqn:E.
  - unfold IndexerRepo.has_id in *. now rewrite Hf, E.
  - now rewrite E.
Qed.

Section SetEnabled.
Context (id : string) (b : bool) (t : IndexerRepo.table).

Abbreviation switched :=
  (List.map (fun r => if IndexerRepo.has_id id r
                      then mkIndexerConfig (ix_id r) (ix_name r) (ix_url r)
                             (ix_apiKey r) b (ix_createdAt r)
                      else r) t).

Lemma switched_ids : List.map ix_id switched = List.map ix_id t.
Proof.
  rewrite List.map_map. apply List.map_ext. intros r.
  now destruct (IndexerRepo.has_id id r).
Qed.

Lemma switched_target (ix : IndexerConfig) :
  In ix switched -> ix_id ix = id -> ix_enabled ix = b.
Proof.
  intros Hin Hid. apply List.in_map_iff in Hin. destruct Hin as (r & <- & Hr).
  destruct (IndexerRepo.has_id id r) eqn:E; [reflexivity|].
  apply indexer_has_id_true in Hid. congruence.
Qed.

Lemma switched_others (ix : IndexerConfig) :
  ix_id ix <> id -> (In ix switched <-> In ix t).
Proof.
  intros Hne. rewrite List.in_map_iff. split.
  - intros (r & <- & Hr). destruct (IndexerRepo.has_id id r) eqn:E; [|exact Hr].
    apply indexer_has_id_true in E. simpl in Hne. congruence.
  - intros Hin. exists ix. split; [|exact Hin].
    destruct (IndexerRepo.has_id id ix) eqn:E; [|reflexivity].
    apply indexer_has_id_true in E. congruence.
Qed.

End SetEnabled.

(** X20.  Disabling and enabling an indexer: when [disableIndexer]
    returns, the row it returns is stored and disabled, no indexer of
    that id is among the enabled indexers any more, and every other
    indexer is enabled exactly when it was before; when [enableIndexer]
    returns, the row it returns is among the enabled indexers.  The ids
    of the table never change, and for an unknown id both calls throw
    and change nothing. *)
Theorem indexer_enable_disable (id : string) (t t' : IndexerRepo.table)
  (r : IndexerConfig) :
  (IndexerRepo.disableIndexer id t = (Ok r, t') ->
   IndexerRepo.findById id t' = Some r /\ ix_enabled r = false /\
   (forall ix, In ix (findEnabled t') -> ix_id ix <> id) /\
   (forall ix, ix_id ix <> id -> In ix (findEnabled t') <-> In ix (findEnabled t)) /\
   List.map ix_id t' = List.map ix_id t) /\
  (IndexerRepo.enableIndexer id t = (Ok r, t') ->
   IndexerRepo.findById id t' = Some r /\ In r (findEnabled t') /\
   (forall ix, ix_id ix <> id -> In ix (findEnabled t') <-> In ix (findEnabled t)) /\
   List.map ix_id t' = List.map ix_id t) /\
  (IndexerRepo.findById id t = None ->
   (exists m, IndexerRepo.disableIndexer id t = (Throw m, t)) /\
   (exists m, IndexerRepo.enableIndexer id t = (Throw m, t))).
Proof.
  unfold IndexerRepo.disableIndexer, IndexerRepo.enableIndexer,
    IndexerRepo.disable, IndexerRepo.enable.
  rewrite !indexer_set_enabled.
  split; [|split].
  - destruct (IndexerRepo.findById id _) as [u|] eqn:F; [|discriminate].
    intros [= <- <-]. split; [exact F|].
    apply List.find_some in F. destruct F as [Hin Hid].
    apply indexer_has_id_true in Hid.
    split; [now apply (switched_target id false t u)|].
    split; [|split; [|apply switched_ids]].
    + intros ix Hix Heq. apply findEnabled_In in Hix. destruct Hix as [Hix Hen].
      rewrite (switched_target id false t ix Hix Heq) in Hen. discriminate.
    + intros ix Hne. rewrite !findEnabled_In.
      now rewrite (switched_others id false t ix Hne).
  - destruct (IndexerRepo.findById id _) as [u|] eqn:F; [|discriminate].
    intros [= <- <-]. split; [exact F|].
    apply List.find_some in F. destruct F as [Hin Hid].
    apply indexer_has_id_true in Hid.
    split; [|split; [|apply switched_ids]].
    + apply findEnabled_In. split; [exact Hin|].
      now apply (switched_target id true t u).
    + intros ix Hne. rewrite !findEnabled_In.
      now rewrite (switched_others id true t ix Hne).
  - intros Hnone.
    rewrite !indexer_find_map_where by reflexivity. rewrite Hnone. simpl.
    assert (E : forall b, List.map (fun r => if IndexerRepo.has_id id r
                 then mkIndexerConfig (ix_id r) (ix_name r) (ix_url r)
                        (ix_apiKey r) b (ix_createdAt r)
                 else r) t = t).
    { intros b. unfold IndexerRepo.findById in Hnone.
      induction t as [|x l IH]; simpl; [reflexivity|].
      simpl in Hnone. destruct (IndexerRepo.has_id id x); [discriminate|].
      now rewrite IH. }
    rewrite !E. eauto.
Qed.

Import Frames.

(** ** Running the services step by step *)

Lemma bind_Ok {A B : Type} (m : M A) (k : A -> M B) (w w' : World) (b : B) :
  bind m k w = (Ok b, w') ->
  exists a w1, m w = (Ok a, w1) /\ k a w1 = (Ok b, w').
Proof.
  unfold bind. destruct (m w) as [[a|e] w1]; [eauto|discriminate].
Qed.

Lemma same_catalog_refl (w : World) : same_catalog w w.
Proof. unfold same_catalog. auto. Qed.


Lemma log_extends_refl (w : World) : log_extends w w.
Proof. exists []. now rewrite List.app_nil_r. Qed.


(** The search changes nothing but the log. *)
Lemma searchAlbum_frame (env : Env) (now : Z) (artist album qp : string) (w : World) :
  same_catalog w (snd (Services.searchAlbum env now artist album qp w)) /\
  downloads (snd (Services.searchAlbum env now artist album qp w)) = downloads w /\
  drawn (snd (Services.searchAlbum env now artist album qp w)) = drawn w /\
  log_extends w (snd (Services.searchAlbum env now artist album qp w)).
Proof.
  unfold Services.searchAlbum, bind, gets, modify, throw.
  destruct (Nat.eqb _ 0); simpl;
    [auto using same_catalog_refl, log_extends_refl|].
  destruct (Profiles.findById qp (profiles w)); simpl;
    [|auto using same_catalog_refl, log_extends_refl].
  destruct (lift_result _ _) as [r w1] eqn:E.
  assert (w1 = add_requests
                 (search_requests
                    (newIndexerService (findEnabled (indexerTable w)) true)
                    artist album) w).
  { unfold lift_result in E.
    destruct (Indexer.searchAlbum _ _ _ _ _ _ _); now inversion E. }
  subst w1. destruct r as [l|e]; simpl; repeat split; auto using same_catalog_refl.
  all: eexists; reflexivity.
Qed.

Lemma sendNzbUrl_state (env : Env) (url cat : string) (w : World) :
  snd (sendNzbUrl env url cat w) = add_requests [ReqSabAddUrl url cat] w.
Proof.
  unfold sendNzbUrl, bind, gets, request, modify. simpl.
  destruct (sab_addurl env (requests w) url cat) as [m|e|[|x l]]; reflexivity.
Qed.

Lemma create_outcome (id : string) (now : Z) (nd : DownloadRepo.NewDownload)
  (t : DownloadRepo.table) :
  (DownloadRepo.findById id t = None /\
   DownloadRepo.create id now nd t
   = (Ok (mkDownload id (DownloadRepo.nd_albumId nd) (DownloadRepo.nd_sabnzbdId nd)
            (DownloadRepo.nd_indexerName nd) (DownloadRepo.nd_status nd)
            (DownloadRepo.nd_progress nd) (DownloadRepo.nd_qualityProfileId nd) now
            (DownloadRepo.nd_completedAt nd) (DownloadRepo.nd_errorMessage nd)),
      t ++ [mkDownload id (DownloadRepo.nd_albumId nd) (DownloadRepo.nd_sabnzbdId nd)
              (DownloadRepo.nd_indexerName nd) (DownloadRepo.nd_status nd)
              (DownloadRepo.nd_progress nd) (DownloadRepo.nd_qualityProfileId nd) now
              (DownloadRepo.nd_completedAt nd) (DownloadRepo.nd_errorMessage nd)])) \/
  (DownloadRepo.findById id t <> None /\
   DownloadRepo.create id now nd t = (Throw "constraint failed", t)).
Proof.
  unfold DownloadRepo.create.
  destruct (existsb (DownloadRepo.has_id id) t) eqn:E.
  - right. split; [|reflexivity]. unfold DownloadRepo.findById.
    apply List.existsb_exists in E. destruct E as (x & Hx & Hid).
    intros Hn. apply (List.find_none _ _ Hn) in Hx. congruence.
  - left. split.
    + unfold DownloadRepo.findById.
      destruct (List.find (DownloadRepo.has_id id) t) as [x|] eqn:F; [|reflexivity].
      apply List.find_some in F. destruct F as [Hx Hid].
      assert (existsb (DownloadRepo.has_id id) t = true)
        by (apply List.existsb_exists; eauto).
      congruence.
    + cbv zeta. unfold DownloadRepo.findById.
      set (row := mkDownload _ _ _ _ _ _ _ _ _ _).
      assert (F : List.find (DownloadRepo.has_id id) (t ++ [row]) = Some row).
      { clear -E. induction t as [|y t IH]; simpl.
        - unfold DownloadRepo.has_id at 1. simpl. now rewrite String.eqb_refl.
        - simpl in E. apply orb_false_iff in E. destruct E as [Ey Et].
          rewrite Ey. auto. }
      now rewrite F.
Qed.

(** What [initiateDownload] does, in one statement for both outcomes. *)
Lemma initiateDownload_outcome (env : Env) (now : Z) (req : DownloadRequest)
  (w : World) :
  match initiateDownload env now req w with
  | (Ok r, w') =>
      exists selected others sabId ids searches,
        searchResults r = selected :: others /\
        selectedResult r = Some selected /\
        download r
        = mkDownload (uuidv4 env (drawn w)) (rq_albumId req) (Some sabId)
                     (Some (indexer selected)) queued 0
                     (qualityProfileId (download r)) now None None /\
        (exists p, In p (profiles w) /\
                   qualityProfileId (download r) = Some (qp_id p)) /\
        sab_addurl env (requests w ++ searches) (nzbUrl selected) "music"
        = AddAccepted (sabId :: ids) /\
        requests w' = requests w ++ searches ++ [ReqSabAddUrl (nzbUrl selected) "music"] /\
        DownloadRepo.findById (uuidv4 env (drawn w)) (downloads w) = None /\
        downloads w' = downloads w ++ [download r] /\
        same_catalog w w'
  | (Throw m, w') =>
      downloads w' = downloads w /\ same_catalog w w' /\ log_extends w w'
  end.
Proof.
  assert (Hthrow : downloads w = downloads w /\ same_catalog w w /\ log_extends w w).
  { auto using same_catalog_refl, log_extends_refl. }
  unfold initiateDownload, getArtistForAlbum, throw.
  unfold bind at 1. unfold gets at 1.
  destruct (album_findById (rq_albumId req) (albums w)) as [album|];
    [|exact Hthrow].
  unfold bind at 1. unfold bind at 1. unfold gets at 1.
  destruct (artist_findById (al_artistId album) (artists w)) as [artist|];
    [|exact Hthrow].
  unfold ret at 1. unfold bind at 1. unfold gets at 1.
  destruct (match rq_qualityProfileId req with
            | Some id => _
            | None => _
            end) as [qp|] eqn:Q;
    [|exact Hthrow].
  assert (Hqp : In qp (profiles w)).
  { destruct (rq_qualityProfileId req) as [id|]; [destruct (truthy_string id)|];
      apply List.find_some in Q; tauto. }
  unfold bind at 1.
  pose proof (searchAlbum_frame env now (a_name artist) (al_title album) (qp_id qp) w)
    as (Fc & Fd & Fn & [searches Fl]).
  destruct (Services.searchAlbum env now (a_name artist) (al_title album) (qp_id qp) w)
    as [[results|e] w1]; simpl in Fc, Fd, Fn, Fl;
    [|split; [exact Fd|]; split; [exact Fc|now exists searches]].
  destruct results as [|selected others];
    [split; [exact Fd|]; split; [exact Fc|now exists searches]|].
  unfold bind at 1. unfold gets at 1.
  destruct (getSabnzbdConfig (config w1));
    [|split; [exact Fd|]; split; [exact Fc|now exists searches]].
  unfold bind at 1.
  pose proof (sendNzbUrl_state env (nzbUrl selected) "music" w1) as Hs.
  assert (Hadd : forall sabId w2,
            sendNzbUrl env (nzbUrl selected) "music" w1 = (Ok sabId, w2) ->
            exists ids, sab_addurl env (requests w1) (nzbUrl selected) "music"
                        = AddAccepted (sabId :: ids)).
  { unfold sendNzbUrl, bind, gets, request, modify, throw, ret. simpl.
    destruct (sab_addurl env (requests w1) (nzbUrl selected) "music")
      as [m|e|[|x l]]; try discriminate.
    intros sabId w2 [= <- _]. eauto. }
  destruct (sendNzbUrl env (nzbUrl selected) "music" w1) as [[sabId|e] w2];
    simpl in Hs; subst w2.
  2:{ simpl. split; [exact Fd|]. split; [exact Fc|].
      exists (searches ++ [ReqSabAddUrl (nzbUrl selected) "music"]).
      simpl. now rewrite Fl, <- List.app_assoc. }
  destruct (Hadd sabId _ eq_refl) as [ids Hids]. clear Hadd.
  unfold bind at 1. unfold fresh_id at 1.
  unfold bind at 1. unfold on_table at 1. cbn [downloads add_requests set_drawn].
  match goal with
  | |- context [DownloadRepo.create ?id ?n ?nd ?t] =>
      destruct (create_outcome id n nd t) as [[Hfresh ->] | [_ ->]]
  end.
  - cbn [DownloadRepo.nd_albumId DownloadRepo.nd_sabnzbdId DownloadRepo.nd_indexerName
         DownloadRepo.nd_status DownloadRepo.nd_progress
         DownloadRepo.nd_qualityProfileId DownloadRepo.nd_completedAt
         DownloadRepo.nd_errorMessage] in *.
    unfold ret. cbn.
    exists selected, others, sabId, ids, searches.
    rewrite Fn, Fd, Fl in *.
    split; [reflexivity|]. split; [reflexivity|]. split; [reflexivity|].
    split; [eauto|]. split; [exact Hids|].
    split; [now rewrite <- List.app_assoc|].
    split; [simpl in Hfresh; now rewrite Fn in Hfresh|]. split; [reflexivity|].
    exact Fc.
  - cbn.
    split; [exact Fd|]. split; [exact Fc|].
    exists (searches ++ [ReqSabAddUrl (nzbUrl selected) "music"]).
    simpl. now rewrite Fl, <- List.app_assoc.
Qed.

(** X21.  [initiateDownload] stores a download exactly when it returns:
    the record it returns is the one new row of the table, queued with
    progress 0, for the requested album, under a fresh id, with the job
    id the download client gave for the first candidate of the search,
    that candidate's indexer and a stored quality profile; the last
    outbound call is the submission of that candidate's link, after the
    calls of the search.  When it throws, the downloads are as before.
    Either way no other table changes and the log of outbound calls only
    grows. *)
Theorem initiateDownload_persists_iff_succeeds (env : Env) (now : Z)
  (req : DownloadRequest) (w : World) :
  (forall r w', initiateDownload env now req w = (Ok r, w') ->
     exists selected others sabId ids searches,
       searchResults r = selected :: others /\
       selectedResult r = Some selected /\
       download r
       = mkDownload (uuidv4 env (drawn w)) (rq_albumId req) (Some sabId)
                    (Some (indexer selected)) queued 0
                    (qualityProfileId (download r)) now None None /\
       (exists p, In p (profiles w) /\
                  qualityProfileId (download r) = Some (qp_id p)) /\
       sab_addurl env (requests w ++ searches) (nzbUrl selected) "music"
       = AddAccepted (sabId :: ids) /\
       requests w' = requests w ++ searches ++ [ReqSabAddUrl (nzbUrl selected) "music"] /\
       DownloadRepo.findById (uuidv4 env (drawn w)) (downloads w) = None /\
       downloads w' = downloads w ++ [download r] /\
       same_catalog w w') /\
  (forall m w', initiateDownload env now req w = (Throw m, w') ->
     downloads w' = downloads w /\ same_catalog w w' /\ log_extends w w').
Proof.
  pose proof (initiateDownload_outcome env now req w) as H.
  split.
  - intros r w' E. now rewrite E in H.
  - intros m w' E. now rewrite E in H.
Qed.

Lemma findEnabled_nil (t : list IndexerConfig) :
  findEnabled t = [] <-> forall ix, In ix t -> ix_enabled ix = false.
Proof.
  unfold findEnabled. split.
  - intros H ix Hin. destruct (ix_enabled ix) eqn:E; [|reflexivity].
    assert (Hf : In ix (List.filter ix_enabled t)) by (apply List.filter_In; auto).
    eapply Permutation_in in Hf; [|apply sort_perm]. rewrite H in Hf. contradiction.
  - intros H. assert (E : List.filter ix_enabled t = []).
    { induction t as [|x t IH]; simpl; [reflexivity|].
      rewrite (H x) by now left. apply IH. intros; apply H; now right. }
    now rewrite E.
Qed.

(** X22.  Without an enabled indexer nothing is attempted: the search
    of the download service throws "No enabled indexers configured" and
    [initiateDownload] throws, both leaving the state exactly as it was,
    so no request goes to an indexer or to the download client and no
    download is stored. *)
Theorem no_enabled_indexer_no_attempt (env : Env) (now : Z) (w : World) :
  (forall ix, In ix (indexerTable w) -> ix_enabled ix = false) ->
  (forall artist album qp,
     Services.searchAlbum env now artist album qp w
     = (Throw "No enabled indexers configured", w)) /\
  (forall req, exists m, initiateDownload env now req w = (Throw m, w)).
Proof.
  intros Hdis. apply findEnabled_nil in Hdis.
  assert (Hs : forall artist album qp,
            Services.searchAlbum env now artist album qp w
            = (Throw "No enabled indexers configured", w)).
  { intros. unfold Services.searchAlbum, bind, gets. now rewrite Hdis. }
  split; [exact Hs|].
  intros req. unfold initiateDownload, getArtistForAlbum, throw.
  unfold bind at 1. unfold gets at 1.
  destruct (album_findById (rq_albumId req) (albums w)) as [album|]; [|eauto].
  unfold bind at 1. unfold bind at 1. unfold gets at 1.
  destruct (artist_findById (al_artistId album) (artists w)) as [artist|]; [|eauto].
  unfold ret at 1. unfold bind at 1. unfold gets at 1.
  destruct (match rq_qualityProfileId req with
            | Some id => _
            | None => _
            end) as [qp|]; [|eauto].
  unfold bind at 1. rewrite Hs. eauto.
Qed.

Lemma no_enabled_indexer_no_attempt_witness :
  exists m,
    initiateDownload env_online now_jan_11 (mkDownloadRequest "al1" None)
      (mkWorld [artist_floyd] [album_the_wall] [] [profile_std] [] ∅ [] O false)
    = (Throw m, mkWorld [artist_floyd] [album_the_wall] [] [profile_std] [] ∅ [] O false).
Proof.
  apply (no_enabled_indexer_no_attempt env_online now_jan_11
           (mkWorld [artist_floyd] [album_the_wall] [] [profile_std] [] ∅ [] O false)).
  intros ix [].
Defined.

(** ** Status updates (DownloadService.updateDownloadStatus) *)

Lemma same_identity_refl (d : Download) : same_identity d d.
Proof. unfold same_identity. repeat split. Qed.

Lemma same_identity_trans (d1 d2 d3 : Download) :
  same_identity d1 d2 -> same_identity d2 d3 -> same_identity d1 d3.
Proof.
  unfold same_identity.
  intros (A1 & A2 & A3 & A4 & A5 & A6) (B1 & B2 & B3 & B4 & B5 & B6).
  repeat split; congruence.
Qed.

Lemma same_rows_refl (t : list Download) : same_rows t t.
Proof. induction t; constructor; auto using same_identity_refl. Qed.

Lemma same_rows_trans (t1 t2 t3 : list Download) :
  same_rows t1 t2 -> same_rows t2 t3 -> same_rows t1 t3.
Proof.
  unfold same_rows. intros H. revert t3.
  induction H as [|a b l1 l2 Hab H IH]; intros t3 H3; inversion H3; subst;
    constructor; eauto using same_identity_trans.
Qed.

Lemma same_rows_where (id : string) (f : Download -> Download) (t : list Download) :
  (forall d, same_identity d (f d)) ->
  same_rows t (List.map (fun d => if DownloadRepo.has_id id d then f d else d) t).
Proof.
  intros Hf. induction t as [|d t IH]; simpl; constructor; auto.
  destruct (DownloadRepo.has_id id d); auto using same_identity_refl.
Qed.

Lemma same_identity_stamped (now : Z) (st : Status) (pr : Z) (d : Download) :
  same_identity d (DownloadRepo.stamped now st pr d).
Proof. unfold same_identity. simpl. repeat split. Qed.

Lemma same_identity_error (msg : option string) (d : Download) :
  same_identity d
    (DownloadRepo.apply_updates
       (DownloadRepo.mkUpdates None None None None msg) d).
Proof. unfold same_identity. simpl. repeat split. Qed.

Lemma same_rows_ids (t t' : list Download) :
  same_rows t t' -> List.map d_id t' = List.map d_id t.
Proof.
  induction 1 as [|a b l1 l2 Hab H IH]; simpl; [reflexivity|].
  destruct Hab as (E & _). now rewrite E, IH.
Qed.

Lemma getDownloadStatus_frame (env : Env) (sabId : string) (w : World) :
  same_catalog w (snd (getDownloadStatus env sabId w)) /\
  downloads (snd (getDownloadStatus env sabId w)) = downloads w /\
  log_extends w (snd (getDownloadStatus env sabId w)).
Proof.
  unfold getDownloadStatus, bind, gets, request, modify, throw, ret. simpl.
  destruct (sab_queue env (requests w)) as [slots|]; simpl.
  - destruct (List.find _ slots); simpl.
    + repeat split. eexists; reflexivity.
    + destruct (sab_history env _) as [hslots|]; simpl.
      * destruct (List.find _ hslots); simpl; repeat split;
          exists [ReqSabQueue; ReqSabHistory]; simpl; now rewrite <- List.app_assoc.
      * repeat split. exists [ReqSabQueue; ReqSabHistory].
        simpl. now rewrite <- List.app_assoc.
  - repeat split. eexists; reflexivity.
Qed.

(** What [updateDownloadStatus] does, in one statement for both outcomes. *)
Lemma updateDownloadStatus_outcome (env : Env) (now : Z) (id : string) (w : World) :
  match updateDownloadStatus env now id w with
  | (Ok d', w') =>
      stored id d' w' /\
      (exists d, stored id d w /\ same_identity d d') /\
      same_rows (downloads w) (downloads w') /\
      (forall id', id' <> id ->
         DownloadRepo.findById id' (downloads w') = DownloadRepo.findById id' (downloads w)) /\
      same_catalog w w' /\ log_extends w w'
  | (Throw m, w') =>
      downloads w' = downloads w /\ same_catalog w w' /\ log_extends w w'
  end.
Proof.
  assert (Hthrow : downloads w = downloads w /\ same_catalog w w /\ log_extends w w).
  { auto using same_catalog_refl, log_extends_refl. }
  unfold updateDownloadStatus, throw.
  unfold bind at 1. unfold gets at 1.
  destruct (DownloadRepo.findById id (downloads w)) as [d|] eqn:F; [|exact Hthrow].
  destruct (DownloadRepo.is_terminal (status d)).
  { unfold ret. split; [exact F|]. split; [exists d; auto using same_identity_refl|].
    split; [apply same_rows_refl|]. split; [reflexivity|].
    auto using same_catalog_refl, log_extends_refl. }
  destruct (sabnzbdId d) as [sabId|]; [|exact Hthrow].
  destruct (negb (truthy_string sabId)); [exact Hthrow|].
  unfold bind at 1. unfold gets at 1.
  destruct (getSabnzbdConfig (config w)); [|exact Hthrow].
  unfold bind at 1.
  pose proof (getDownloadStatus_frame env sabId w) as (Fc & Fd & Fl).
  destruct (getDownloadStatus env sabId w) as [[st|e] w1]; simpl in Fc, Fd, Fl;
    [|auto].
  unfold bind at 1. unfold on_table at 1. rewrite updateStatus_table.
  rewrite find_map_where by reflexivity. rewrite Fd, F. cbn [option_map].
  set (t1 := List.map (fun x => if DownloadRepo.has_id id x
                                then DownloadRepo.stamped now (ds_status st)
                                       (ds_progress st) x
                                else x) (downloads w)).
  assert (S1 : DownloadRepo.findById id t1
               = Some (DownloadRepo.stamped now (ds_status st) (ds_progress st) d)).
  { unfold t1. rewrite find_map_where by reflexivity. now rewrite F. }
  assert (R1 : same_rows (downloads w) t1).
  { apply same_rows_where. intros; apply same_identity_stamped. }
  assert (O1 : forall id', id' <> id ->
            DownloadRepo.findById id' t1 = DownloadRepo.findById id' (downloads w)).
  { intros id' Hne. unfold t1. now apply find_where_other. }
  destruct (is_failed (ds_status st) && Services.truthy_opt_string (ds_errorMessage st))
    eqn:B.
  - unfold bind at 1. unfold on_table at 1. cbn [downloads set_downloads].
    unfold DownloadRepo.update.
    assert (Hmsg : exists msg, ds_errorMessage st = Some msg).
    { apply andb_true_iff in B. destruct B as [_ B].
      destruct (ds_errorMessage st); [eauto|discriminate]. }
    destruct Hmsg as [msg Hmsg]. rewrite Hmsg.
    simpl (DownloadRepo.no_clause _). cbv iota. unfold DownloadRepo.update_where.
    rewrite find_map_where by reflexivity. rewrite S1. cbn [option_map].
    unfold ret. cbv beta iota zeta.
    split; [unfold stored; cbn [downloads set_downloads];
            rewrite find_map_where by reflexivity; now rewrite S1|].
    split.
    { exists d. split; [exact F|].
      eapply same_identity_trans; [apply same_identity_stamped|].
      apply same_identity_error. }
    split.
    { cbn [downloads set_downloads]. eapply same_rows_trans; [exact R1|].
      apply same_rows_where. intros; apply same_identity_error. }
    split.
    { intros id' Hne. cbn [downloads set_downloads].
      rewrite find_where_other by auto. now apply O1. }
    split; [exact Fc|exact Fl].
  - unfold ret. cbv beta iota zeta. unfold stored. cbn [downloads set_downloads].
    split; [exact S1|].
    split; [exists d; split; [exact F|apply same_identity_stamped]|].
    split; [exact R1|]. split; [exact O1|].
    split; [exact Fc|exact Fl].
Qed.

(** X23.  A status query rewrites one row at most and never its
    identity: whatever [updateDownloadStatus] does, the table keeps the
    same rows in the same order, each with its id, album, job id,
    indexer, profile and start date; every download of another id is
    found unchanged; no other table changes.  When the query returns,
    the record it returns is the stored one, and when it throws (unknown
    id, no job id, client not configured, poll failed, job unknown to
    the client) the downloads are exactly as before. *)
Theorem updateDownloadStatus_frame (env : Env) (now : Z) (id : string) (w : World) :
  same_rows (downloads w) (downloads (snd (updateDownloadStatus env now id w))) /\
  List.map d_id (downloads (snd (updateDownloadStatus env now id w)))
  = List.map d_id (downloads w) /\
  (forall id', id' <> id ->
     DownloadRepo.findById id' (downloads (snd (updateDownloadStatus env now id w)))
     = DownloadRepo.findById id' (downloads w)) /\
  same_catalog w (snd (updateDownloadStatus env now id w)) /\
  log_extends w (snd (updateDownloadStatus env now id w)) /\
  (forall d' w', updateDownloadStatus env now id w = (Ok d', w') ->
     stored id d' w' /\ exists d, stored id d w /\ same_identity d d') /\
  (forall m w', updateDownloadStatus env now id w = (Throw m, w') ->
     downloads w' = downloads w).
Proof.
  pose proof (updateDownloadStatus_outcome env now id w) as H.
  destruct (updateDownloadStatus env now id w) as [[d'|m] w']; simpl.
  - destruct H as (H1 & H2 & H3 & H4 & H5 & H6).
    split; [exact H3|]. split; [now apply same_rows_ids|].
    split; [exact H4|]. split; [exact H5|]. split; [exact H6|].
    split; [|discriminate]. intros d0 w0 [= <- <-]. auto.
  - destruct H as (H1 & H2 & H3). rewrite H1.
    split; [apply same_rows_refl|]. split; [reflexivity|].
    split; [reflexivity|]. split; [exact H2|]. split; [exact H3|].
    split; [discriminate|]. now intros m0 w0 [= _ <-].
Qed.

Lemma mapSabnzbdStatus_active (s : string) :
  DownloadRepo.is_terminal (mapSabnzbdStatus s) = false.
Proof.
  unfold mapSabnzbdStatus.
  destruct (_ || _); [reflexivity|]. destruct (_ || _); reflexivity.
Qed.

Lemma mapHistoryStatus_terminal (s : string) :
  DownloadRepo.is_terminal (mapHistoryStatus s) = true.
Proof.
  unfold mapHistoryStatus.
  destruct (String.eqb _ "completed"); [reflexivity|].
  destruct (String.eqb _ "failed"); reflexivity.
Qed.

(** X24.  A download that the client still has in its queue stays
    active: the query stores the mapped status, which is queued or
    downloading and never completed or failed, and the reported
    percentage (0 when it is not a number), leaves the completion date
    as it was, and makes exactly one outbound call. *)
Theorem status_from_queue (env : Env) (now : Z) (id sabId : string) (w : World)
  (d : Download) (cfg : SabnzbdConfig) (slots : list QueueItem) (item : QueueItem) :
  stored id d w ->
  DownloadRepo.is_terminal (status d) = false ->
  sabnzbdId d = Some sabId -> sabId <> EmptyString ->
  getSabnzbdConfig (config w) = Some cfg ->
  sab_queue env (requests w) = Some slots ->
  List.find (fun item => String.eqb (q_nzo_id item) sabId) slots = Some item ->
  exists w',
    updateDownloadStatus env now id w
    = (Ok (DownloadRepo.stamped now (mapSabnzbdStatus (q_status item))
             (parseInt_or_0 (q_percentage item)) d), w') /\
    stored id (DownloadRepo.stamped now (mapSabnzbdStatus (q_status item))
                 (parseInt_or_0 (q_percentage item)) d) w' /\
    (mapSabnzbdStatus (q_status item) = queued \/
     mapSabnzbdStatus (q_status item) = downloading) /\
    completedAt (DownloadRepo.stamped now (mapSabnzbdStatus (q_status item))
                   (parseInt_or_0 (q_percentage item)) d) = completedAt d /\
    requests w' = requests w ++ [ReqSabQueue].
Proof.
  intros Hst Ht Hsab Hne Hcfg Hq Hfind.
  pose proof (mapSabnzbdStatus_active (q_status item)) as Hact.
  unfold updateDownloadStatus.
  unfold bind at 1. unfold gets at 1. unfold stored in Hst. rewrite Hst, Ht, Hsab.
  assert (Htr : truthy_string sabId = true) by (destruct sabId; [congruence|reflexivity]).
  rewrite Htr. cbn [negb]. cbv iota.
  unfold bind at 1. unfold gets at 1. rewrite Hcfg.
  unfold bind at 1.
  assert (G : getDownloadStatus env sabId w
              = (Ok (mkDownloadStatus sabId (mapSabnzbdStatus (q_status item))
                       (parseInt_or_0 (q_percentage item)) None),
                 add_requests [ReqSabQueue] w)).
  { unfold getDownloadStatus, bind, gets, request, modify, ret. simpl.
    rewrite Hq. now rewrite Hfind. }
  rewrite G. unfold bind at 1. unfold on_table at 1. rewrite updateStatus_table.
  rewrite find_map_where by reflexivity.
  cbn [downloads add_requests ds_status ds_progress ds_errorMessage].
  rewrite Hst. cbn [option_map].
  assert (F : is_failed (mapSabnzbdStatus (q_status item)) = false).
  { destruct (mapSabnzbdStatus (q_status item)); try reflexivity. discriminate Hact. }
  rewrite F. cbn [andb]. unfold ret. cbv beta iota zeta.
  eexists. split; [reflexivity|]. split.
  { unfold stored. cbn [downloads set_downloads].
    rewrite find_map_where by reflexivity. now rewrite Hst. }
  split.
  { destruct (mapSabnzbdStatus (q_status item)); auto; discriminate Hact. }
  split.
  { unfold DownloadRepo.stamped. cbn [completedAt]. now rewrite Hact. }
  reflexivity.
Qed.

Lemma status_from_queue_witness :
  exists w',
    updateDownloadStatus
      (mkEnv (fun _ => "uuid") IsoDate.parse (fun _ _ => Throw "offline")
             (fun _ _ _ _ _ => Rejected "offline") (fun _ _ _ => AddRejected "offline")
             (fun _ => Some [mkQueueItem "nzo1" "42" "Downloading"])
             (fun _ => Some []))
      now_jan_11 "d2"
      (mkWorld [] [] [mkDownload "d2" "al1" (Some "nzo1") None queued 0 None 0 None None]
               [] [] (config world_wall) [] O false)
    = (Ok (mkDownload "d2" "al1" (Some "nzo1") None downloading 42 None 0 None None), w') /\
    requests w' = [ReqSabQueue].
Proof.
  destruct (status_from_queue
              (mkEnv (fun _ => "uuid") IsoDate.parse (fun _ _ => Throw "offline")
                     (fun _ _ _ _ _ => Rejected "offline")
                     (fun _ _ _ => AddRejected "offline")
                     (fun _ => Some [mkQueueItem "nzo1" "42" "Downloading"])
                     (fun _ => Some []))
              now_jan_11 "d2" "nzo1"
              (mkWorld [] []
                 [mkDownload "d2" "al1" (Some "nzo1") None queued 0 None 0 None None]
                 [] [] (config world_wall) [] O false)
              (mkDownload "d2" "al1" (Some "nzo1") None queued 0 None 0 None None)
              (mkSabnzbdConfig "http://sab" "key")
              [mkQueueItem "nzo1" "42" "Downloading"]
              (mkQueueItem "nzo1" "42" "Downloading"))
    as (w' & H1 & _ & _ & _ & H2);
    try reflexivity; [discriminate|].
  exists w'. split; [exact H1|exact H2].
Defined.

(** X25.  A download that has left the queue and is in the client's
    history becomes terminal: the query stores completed or failed,
    never an active status, with the current time as completion date and
    progress 100 for completed and 0 for failed; a failure message, when
    the client gives one, is stored with a failed download; exactly two
    outbound calls are made, the queue and then the history. *)
Theorem status_from_history (env : Env) (now : Z) (id sabId : string) (w : World)
  (d : Download) (cfg : SabnzbdConfig) (slots : list QueueItem)
  (hslots : list HistoryItem) (h : HistoryItem) :
  stored id d w ->
  DownloadRepo.is_terminal (status d) = false ->
  sabnzbdId d = Some sabId -> sabId <> EmptyString ->
  getSabnzbdConfig (config w) = Some cfg ->
  sab_queue env (requests w) = Some slots ->
  List.find (fun item => String.eqb (q_nzo_id item) sabId) slots = None ->
  sab_history env (requests w ++ [ReqSabQueue]) = Some hslots ->
  List.find (fun item => String.eqb (h_nzo_id item) sabId) hslots = Some h ->
  exists d' w',
    updateDownloadStatus env now id w = (Ok d', w') /\
    stored id d' w' /\
    status d' = mapHistoryStatus (h_status h) /\
    (status d' = completed \/ status d' = failed) /\
    completedAt d' = Some now /\
    progress d' = (if is_failed (status d') then 0 else 100) /\
    errorMessage d'
    = (if is_failed (status d') && truthy_string (h_fail_message h)
       then Some (h_fail_message h) else errorMessage d) /\
    same_identity d d' /\
    requests w' = requests w ++ [ReqSabQueue; ReqSabHistory].
Proof.
  intros Hst Ht Hsab Hne Hcfg Hq Hfind Hh Hfindh.
  pose proof (mapHistoryStatus_terminal (h_status h)) as Hterm.
  unfold updateDownloadStatus.
  unfold bind at 1. unfold gets at 1. unfold stored in Hst. rewrite Hst, Ht, Hsab.
  assert (Htr : truthy_string sabId = true) by (destruct sabId; [congruence|reflexivity]).
  rewrite Htr. cbn [negb]. cbv iota.
  unfold bind at 1. unfold gets at 1. rewrite Hcfg.
  unfold bind at 1.
  assert (G : getDownloadStatus env sabId w
              = (Ok (mkDownloadStatus sabId (mapHistoryStatus (h_status h))
                       (match mapHistoryStatus (h_status h) with
                        | completed => 100
                        | _ => 0
                        end)
                       (if truthy_string (h_fail_message h)
                        then Some (h_fail_message h) else None)),
                 add_requests [ReqSabHistory] (add_requests [ReqSabQueue] w))).
  { unfold getDownloadStatus, bind, gets, request, modify, ret. simpl.
    rewrite Hq. simpl. rewrite Hfind. simpl. rewrite Hh. simpl. now rewrite Hfindh. }
  rewrite G. unfold bind at 1. unfold on_table at 1. rewrite updateStatus_table.
  rewrite find_map_where by reflexivity.
  cbn [downloads add_requests ds_status ds_progress ds_errorMessage].
  rewrite Hst. cbn [option_map].
  assert (Hcases : mapHistoryStatus (h_status h) = completed \/
                   mapHistoryStatus (h_status h) = failed).
  { destruct (mapHistoryStatus (h_status h)); auto; discriminate Hterm. }
  destruct Hcases as [E | E]; rewrite E in *.
  - cbn [is_failed andb]. unfold ret. cbv beta iota zeta.
    do 2 eexists. split; [reflexivity|]. split.
    { unfold stored. cbn [downloads set_downloads].
      rewrite find_map_where by reflexivity. now rewrite Hst. }
    cbn. repeat split; auto.
    rewrite <- List.app_assoc. reflexivity.
  - cbn [is_failed andb].
    destruct (truthy_string (h_fail_message h)) eqn:Tm;
      cbn [Services.truthy_opt_string].
    + rewrite Tm. unfold bind at 1. unfold on_table at 1.
      cbn [downloads set_downloads]. unfold DownloadRepo.update.
      simpl (DownloadRepo.no_clause _). cbv iota. unfold DownloadRepo.update_where.
      rewrite !find_map_where by reflexivity. rewrite Hst. cbn [option_map].
      unfold ret. cbv beta iota zeta.
      do 2 eexists. split; [reflexivity|]. split.
      { unfold stored. cbn [downloads set_downloads].
        rewrite !find_map_where by reflexivity. now rewrite Hst. }
      cbn. repeat split; auto.
      rewrite <- List.app_assoc. reflexivity.
    + unfold ret. cbv beta iota zeta.
      do 2 eexists. split; [reflexivity|]. split.
      { unfold stored. cbn [downloads set_downloads].
        rewrite find_map_where by reflexivity. now rewrite Hst. }
      cbn. repeat split; auto.
      rewrite <- List.app_assoc. reflexivity.
Qed.

Lemma status_from_history_witness :
  exists d' w',
    updateDownloadStatus
      (mkEnv (fun _ => "uuid") IsoDate.parse (fun _ _ => Throw "offline")
             (fun _ _ _ _ _ => Rejected "offline") (fun _ _ _ => AddRejected "offline")
             (fun _ => Some [])
             (fun _ => Some [mkHistoryItem "nzo1" "Failed" "out of retention"]))
      now_jan_11 "d2"
      (mkWorld [] []
         [mkDownload "d2" "al1" (Some "nzo1") None downloading 40 None 0 None None]
         [] [] (config world_wall) [] O false)
    = (Ok d', w') /\
    status d' = failed /\ completedAt d' = Some now_jan_11 /\
    errorMessage d' = Some "out of retention".
Proof.
  destruct (status_from_history
              (mkEnv (fun _ => "uuid") IsoDate.parse (fun _ _ => Throw "offline")
                     (fun _ _ _ _ _ => Rejected "offline")
                     (fun _ _ _ => AddRejected "offline")
                     (fun _ => Some [])
                     (fun _ => Some [mkHistoryItem "nzo1" "Failed" "out of retention"]))
              now_jan_11 "d2" "nzo1"
              (mkWorld [] []
                 [mkDownload "d2" "al1" (Some "nzo1") None downloading 40 None 0 None None]
                 [] [] (config world_wall) [] O false)
              (mkDownload "d2" "al1" (Some "nzo1") None downloading 40 None 0 None None)
              (mkSabnzbdConfig "http://sab" "key") []
              [mkHistoryItem "nzo1" "Failed" "out of retention"]
              (mkHistoryItem "nzo1" "Failed" "out of retention"))
    as (d' & w' & H1 & _ & H2 & _ & H3 & _ & H4 & _);
    try reflexivity; [discriminate|].
  exists d', w'. split; [exact H1|]. split; [exact H2|]. split; [exact H3|].
  rewrite H4, H2. reflexivity.
Defined.



(** ** The monitoring pass (MonitoringService) *)

Section ArtistFrame.
Context (env : Env) (now : Z) (P : list Artist -> Prop).

Lemma artists_searchAlbum (artist album qp : string) :
  preserves (fun w => P (artists w)) (Services.searchAlbum env now artist album qp).
Proof.
  unfold Services.searchAlbum. pres. apply preserves_modify. intros w H. exact H.
Qed.

Lemma artists_initiateDownload (req : DownloadRequest) :
  preserves (fun w => P (artists w)) (initiateDownload env now req).
Proof.
  unfold initiateDownload, getArtistForAlbum. pres.
  - apply artists_searchAlbum.
  - unfold sendNzbUrl, request. pres. apply preserves_modify. intros w H. exact H.
  - intros w H. exact H.
  - apply preserves_on_table. intros w H. exact H.
Qed.

End ArtistFrame.

Lemma artist_find_map_where (id : string) (f : Artist -> Artist) (t : list Artist) :
  (forall a, a_id (f a) = a_id a) ->
  artist_findById id
    (List.map (fun a => if String.eqb (a_id a) id then f a else a) t)
  = option_map f (artist_findById id t).
Proof.
  intros Hf. unfold artist_findById.
  induction t as [|a t IH]; simpl; [reflexivity|].
  destruct (String.eqb (a_id a) id) eqn:E.
  - now rewrite Hf, E.
  - now rewrite E.
Qed.

Lemma artist_find_other (id id' : string) (f : Artist -> Artist) (t : list Artist) :
  id <> id' -> (forall a, a_id (f a) = a_id a) ->
  artist_findById id
    (List.map (fun a => if String.eqb (a_id a) id' then f a else a) t)
  = artist_findById id t.
Proof.
  intros Hne Hf. unfold artist_findById.
  induction t as [|a t IH]; simpl; [reflexivity|].
  destruct (String.eqb (a_id a) id') eqn:E.
  - rewrite Hf. apply String.eqb_eq in E. rewrite E.
    destruct (String.eqb id' id) eqn:E'.
    + apply String.eqb_eq in E'. congruence.
    + exact IH.
  - destruct (String.eqb (a_id a) id); [reflexivity|exact IH].
Qed.

(** The monitored artist of the given id is still there, still
    monitored. *)
Lemma monitored_processNewRelease (env : Env) (now : Z) (id : string)
  (artist : Artist) (am : AlbumMetadata) :
  preserves (fun w => exists a, artist_findById id (artists w) = Some a /\
                                monitored a = true)
            (processNewRelease env now artist am).
Proof.
  unfold processNewRelease. pres.
  - intros w H. exact H.
  - apply preserves_on_table. intros w H. exact H.
  - apply preserves_modify. intros w (found & Ha & Hm). cbn [artists set_artists].
    unfold incrementAlbumCount.
    destruct (String.eqb_spec id (a_id artist)) as [->|Hne].
    + rewrite artist_find_map_where by reflexivity. rewrite Ha. simpl. eauto.
    + rewrite artist_find_other by auto. eauto.
  - apply (artists_initiateDownload env now
             (fun t => exists a, artist_findById id t = Some a /\ monitored a = true)).
Qed.

Lemma try_catch_ret_Ok {A : Type} (m : M A) (a : A) (w : World) :
  exists a' w', try_catch m (fun _ => ret a) w = (Ok a', w').
Proof.
  unfold try_catch, ret. destruct (m w) as [[x|e] w']; eauto.
Qed.

Lemma check_each_never_throws (env : Env) (now : Z) (l : list Artist) (w : World) :
  exists w', check_each env now l w = (Ok tt, w').
Proof.
  revert w. unfold check_each. induction l as [|a l IH]; intros w; simpl.
  - unfold ret. eauto.
  - unfold bind at 1.
    destruct (try_catch_ret_Ok (checkArtistForNewReleases env now a) tt w)
      as (u & w1 & E).
    rewrite E. apply IH.
Qed.

Lemma In_map_where_other (id : string) (f : Artist -> Artist) (t : list Artist)
  (a : Artist) :
  a_id a <> id -> In a t ->
  In a (List.map (fun x => if String.eqb (a_id x) id then f x else x) t).
Proof.
  intros Hne Hin. apply List.in_map_iff. exists a. split; [|exact Hin].
  destruct (String.eqb_spec (a_id a) id); [contradiction|reflexivity].
Qed.

(** The check of one artist leaves the rows of the other artists alone. *)
Lemma untouched_checkArtistForNewReleases (env : Env) (now : Z) (a m : Artist) :
  a_id a <> a_id m ->
  preserves (fun w => In a (artists w)) (checkArtistForNewReleases env now m).
Proof.
  intros Hne. unfold checkArtistForNewReleases, check_discography, processNewRelease.
  pres.
  - unfold request. apply preserves_modify. intros w H. exact H.
  - intros w H. exact H.
  - apply preserves_on_table. intros w H. exact H.
  - apply preserves_modify. intros w H. cbn [artists set_artists].
    now apply In_map_where_other.
  - apply (artists_initiateDownload env now (fun t => In a t)).
  - apply preserves_modify. intros w H. cbn [artists set_artists].
    now apply In_map_where_other.
Qed.

Lemma untouched_check_each (env : Env) (now : Z) (a : Artist) (l : list Artist) :
  (forall m, In m l -> a_id a <> a_id m) ->
  preserves (fun w => In a (artists w)) (check_each env now l).
Proof.
  unfold check_each. induction l as [|m l IH]; intros H; simpl.
  - apply preserves_ret.
  - apply preserves_bind.
    + apply preserves_try_catch; [|intros; apply preserves_ret].
      apply untouched_checkArtistForNewReleases. apply H. now left.
    + intros _. apply IH. intros; apply H; now right.
Qed.

Lemma NoDup_map_eq {A B : Type} (f : A -> B) (l : list A) (x y : A) :
  List.NoDup (List.map f l) -> In x l -> In y l -> f x = f y -> x = y.
Proof.
  induction l as [|z l IH]; simpl; [contradiction|].
  intros Hnd. inversion Hnd as [|? ? Hz Hl]; subst.
  intros [-> | Hx] [-> | Hy] E; auto.
  - exfalso. apply Hz. rewrite E. now apply List.in_map.
  - exfalso. apply Hz. rewrite <- E. now apply List.in_map.
Qed.

(** X27.  The monitoring pass contains every failure, always frees the
    busy flag and touches monitored artists only: [checkForNewReleases]
    never throws; started while a pass is running it does nothing at
    all; otherwise the flag is clear again when it returns, whatever
    happened to the single artists; and with unique artist ids the row
    of an artist that is not monitored is in the table afterwards as it
    was before. *)
Theorem checkForNewReleases_contained (env : Env) (now : Z) (w : World) :
  exists w',
    checkForNewReleases env now w = (Ok tt, w') /\
    (isRunning w = true -> w' = w) /\
    isRunning w' = isRunning w /\
    (isRunning w = false ->
     exists w1,
       check_each env now (getMonitored (artists w)) (set_isRunning true w)
       = (Ok tt, w1) /\
       w' = set_isRunning false w1) /\
    (List.NoDup (List.map a_id (artists w)) ->
     forall a, In a (artists w) -> monitored a = false -> In a (artists w')).
Proof.
  unfold checkForNewReleases. unfold bind at 1. unfold gets at 1.
  destruct (isRunning w) eqn:R.
  - exists w. unfold ret. repeat split; auto. discriminate.
  - unfold bind at 1. unfold modify at 1. unfold bind at 1. unfold try_catch at 1.
    unfold bind at 1. unfold gets at 1.
    destruct (check_each_never_throws env now
                (getMonitored (artists (set_isRunning true w))) (set_isRunning true w))
      as (w1 & E).
    rewrite E. unfold modify.
    exists (set_isRunning false w1). split; [reflexivity|].
    split; [discriminate|]. split; [reflexivity|].
    split; [intros _; exists w1; split; [exact E|reflexivity]|].
    intros Hnd a Hin Hmon. cbn [artists set_isRunning].
    pose proof (untouched_check_each env now a
                  (getMonitored (artists (set_isRunning true w)))) as P.
    assert (Hother : forall m, In m (getMonitored (artists (set_isRunning true w))) ->
                       a_id a <> a_id m).
    { intros m Hm Heq. unfold getMonitored in Hm. apply List.filter_In in Hm.
      destruct Hm as [Hm Hmm]. cbn [artists set_isRunning] in Hm.
      rewrite (NoDup_map_eq a_id (artists w) a m Hnd Hin Hm Heq) in Hmon.
      congruence. }
    specialize (P Hother (set_isRunning true w) Hin). now rewrite E in P.
Qed.

Lemma album_create_outcome (id : string) (now : Z) (na : NewAlbum) (t : list Album) :
  (album_findById id t = None /\
   album_create id now na t
   = (Ok (mkAlbum id (na_artistId na) (na_title na) (na_releaseYear na)
            (na_trackCount na) (na_artworkUrl na) (na_localPath na) (na_isOwned na)
            now now),
      t ++ [mkAlbum id (na_artistId na) (na_title na) (na_releaseYear na)
              (na_trackCount na) (na_artworkUrl na) (na_localPath na) (na_isOwned na)
              now now])) \/
  (album_findById id t <> None /\
   album_create id now na t = (Throw "constraint failed", t)).
Proof.
  unfold album_create, album_findById.
  destruct (existsb (fun a => String.eqb (al_id a) id) t) eqn:E.
  - right. split; [|reflexivity].
    apply List.existsb_exists in E. destruct E as (x & Hx & Hid).
    intros Hn. apply (List.find_none _ _ Hn) in Hx. congruence.
  - left. split.
    + destruct (List.find (fun a => String.eqb (al_id a) id) t) as [x|] eqn:F;
        [|reflexivity].
      apply List.find_some in F. destruct F as [Hx Hid].
      assert (existsb (fun a => String.eqb (al_id a) id) t = true)
        by (apply List.existsb_exists; eauto).
      congruence.
    + cbv zeta.
      set (row := mkAlbum _ _ _ _ _ _ _ _ _ _).
      assert (F : List.find (fun a => String.eqb (al_id a) id) (t ++ [row]) = Some row).
      { clear -E. induction t as [|y t IH]; simpl.
        - now rewrite String.eqb_refl.
        - simpl in E. apply orb_false_iff in E. destruct E as [Ey Et].
          rewrite Ey. auto. }
      rewrite F. unfold row. now destruct (na_isOwned na).
Qed.

(** ** New releases (MonitoringService.checkArtistForNewReleases) *)

(** The calls of a search carry the album title it was asked for. *)
Lemma search_requests_title (svc : Indexer.IndexerService) (artist album : string)
  (url art t : string) :
  In (ReqIndexerSearch url art t) (search_requests svc artist album) -> t = album.
Proof.
  unfold search_requests. intros H. apply concat_In in H.
  destruct H as (l & Hl & Hin). apply List.in_map_iff in Hl.
  destruct Hl as (ix & <- & _).
  destruct (Indexer.clients svc !! ix_id ix); [|contradiction].
  destruct Hin as [[= _ _ <-]|[]]. reflexivity.
Qed.

Lemma searchAlbum_requests (env : Env) (now : Z) (artist album qp : string) (w : World) :
  exists rs,
    requests (snd (Services.searchAlbum env now artist album qp w)) = requests w ++ rs /\
    forall url art t, In (ReqIndexerSearch url art t) rs -> t = album.
Proof.
  assert (Hnone : exists rs : list Request,
            requests w = requests w ++ rs /\
            forall url art t, In (ReqIndexerSearch url art t) rs -> t = album).
  { exists []. split; [now rewrite List.app_nil_r|contradiction]. }
  unfold Services.searchAlbum, bind, gets, modify, throw.
  destruct (Nat.eqb _ 0); simpl; [exact Hnone|].
  destruct (Profiles.findById qp (profiles w)); simpl; [|exact Hnone].
  destruct (lift_result _ _) as [r w1] eqn:E.
  assert (w1 = add_requests
                 (search_requests
                    (newIndexerService (findEnabled (indexerTable w)) true)
                    artist album) w).
  { unfold lift_result in E.
    destruct (Indexer.searchAlbum _ _ _ _ _ _ _); now inversion E. }
  subst w1.
  exists (search_requests (newIndexerService (findEnabled (indexerTable w)) true)
            artist album).
  split; [now destruct r|]. apply search_requests_title.
Qed.

(** The orchestrator searches for the title of the album it was given. *)
Lemma initiateDownload_searches (env : Env) (now : Z) (req : DownloadRequest)
  (w : World) :
  exists rs,
    requests (snd (initiateDownload env now req w)) = requests w ++ rs /\
    forall url art t,
      In (ReqIndexerSearch url art t) rs ->
      exists album,
        album_findById (rq_albumId req) (albums w) = Some album /\ t = al_title album.
Proof.
  assert (Hnone : forall P : string -> Prop, exists rs : list Request,
            requests w = requests w ++ rs /\
            forall url art t, In (ReqIndexerSearch url art t) rs -> P t).
  { intros P. exists []. split; [now rewrite List.app_nil_r|contradiction]. }
  unfold initiateDownload, getArtistForAlbum, throw.
  unfold bind at 1. unfold gets at 1.
  destruct (album_findById (rq_albumId req) (albums w)) as [album|];
    [|apply Hnone].
  unfold bind at 1. unfold bind at 1. unfold gets at 1.
  destruct (artist_findById (al_artistId album) (artists w)) as [artist|];
    [|apply Hnone].
  unfold ret at 1. unfold bind at 1. unfold gets at 1.
  destruct (match rq_qualityProfileId req with
            | Some id => _
            | None => _
            end) as [qp|];
    [|apply Hnone].
  unfold bind at 1.
  destruct (searchAlbum_requests env now (a_name artist) (al_title album) (qp_id qp) w)
    as (searches & Fl & Ft).
  pose proof (searchAlbum_frame env now (a_name artist) (al_title album) (qp_id qp) w)
    as (_ & _ & _ & _).
  assert (Hs : exists rs : list Request,
            requests w ++ searches = requests w ++ rs /\
            forall url art t, In (ReqIndexerSearch url art t) rs ->
              exists album0, Some album = Some album0 /\ t = al_title album0).
  { exists searches. split; [reflexivity|]. intros url art t H.
    exists album. split; [reflexivity|]. now apply (Ft url art). }
  assert (Hs' : forall u c, exists rs : list Request,
            (requests w ++ searches) ++ [ReqSabAddUrl u c] = requests w ++ rs /\
            forall url art t, In (ReqIndexerSearch url art t) rs ->
              exists album0, Some album = Some album0 /\ t = al_title album0).
  { intros u c. exists (searches ++ [ReqSabAddUrl u c]).
    split; [now rewrite List.app_assoc|]. intros url art t H.
    apply List.in_app_or in H. destruct H as [H|[H|[]]]; [|discriminate].
    exists album. split; [reflexivity|]. now apply (Ft url art). }
  destruct (Services.searchAlbum env now (a_name artist) (al_title album) (qp_id qp) w)
    as [[results|e] w1]; simpl in Fl; [|simpl; rewrite Fl; exact Hs].
  destruct results as [|selected others]; [simpl; rewrite Fl; exact Hs|].
  unfold bind at 1. unfold gets at 1.
  destruct (getSabnzbdConfig (config w1)); [|simpl; rewrite Fl; exact Hs].
  unfold bind at 1.
  pose proof (sendNzbUrl_state env (nzbUrl selected) "music" w1) as Hn.
  destruct (sendNzbUrl env (nzbUrl selected) "music" w1) as [[sabId|e] w2];
    simpl in Hn; subst w2.
  2:{ simpl. rewrite Fl. apply Hs'. }
  unfold bind at 1. unfold fresh_id at 1.
  unfold bind at 1. unfold on_table at 1. cbn [downloads add_requests set_drawn].
  match goal with
  | |- context [DownloadRepo.create ?id ?n ?nd ?t] =>
      destruct (DownloadRepo.create id n nd t) as [[d|e] t']
  end; cbn; rewrite Fl; apply Hs'.
Qed.

Lemma album_find_snoc (id : string) (t : list Album) (row : Album) :
  album_findById id t = None -> al_id row = id ->
  album_findById id (t ++ [row]) = Some row.
Proof.
  unfold album_findById. intros Hn <-. induction t as [|y t IH]; simpl in *.
  - now rewrite String.eqb_refl.
  - destruct (String.eqb (al_id y) (al_id row)); [discriminate|auto].
Qed.

(** One new release: when the call returns, one record has been added
    for the entry, not owned, and whatever was searched for or queued
    was for that record; when it throws, nothing was written but the
    identifier drawn. *)
Lemma processNewRelease_step (env : Env) (now : Z) (artist : Artist)
  (am : AlbumMetadata) (w : World) :
  match processNewRelease env now artist am w with
  | (Ok _, w') =>
      exists row rs,
        albums w' = albums w ++ [row] /\
        al_title row = am_title am /\ isOwned row = false /\
        al_artistId row = a_id artist /\
        requests w' = requests w ++ rs /\
        (forall url art t, In (ReqIndexerSearch url art t) rs -> t = am_title am) /\
        (forall d, In d (downloads w') ->
                   In d (downloads w) \/ d_albumId d = al_id row)
  | (Throw _, w') =>
      albums w' = albums w /\ requests w' = requests w /\ downloads w' = downloads w
  end.
Proof.
  unfold processNewRelease. unfold bind at 1. unfold fresh_id at 1.
  unfold bind at 1. unfold on_table at 1. cbn [albums set_drawn].
  match goal with
  | |- context [album_create ?id ?n ?na ?t] =>
      destruct (album_create_outcome id n na t) as [[Hfresh ->] | [_ ->]]
  end.
  2:{ cbn. auto. }
  cbn [na_artistId na_title na_releaseYear na_trackCount na_artworkUrl
       na_localPath na_isOwned].
  set (row := mkAlbum _ _ _ _ _ _ _ _ _ _).
  unfold bind at 1. unfold modify at 1. unfold try_catch. unfold bind at 1.
  match goal with
  | |- context [initiateDownload env now ?req ?w0] =>
      pose proof (initiateDownload_outcome env now req w0) as H;
      destruct (initiateDownload_searches env now req w0) as (rs & Hr & Ht);
      destruct (initiateDownload env now req w0) as [[r|e] w']
  end.
  - destruct H as (sel & oth & sab & ids & srch & _ & _ & Hd0 & _ & _ & _ & _ & Hd & Hc).
    destruct Hc as (_ & Hb & _).
    unfold ret. exists row, rs. simpl in Hr.
    split; [now rewrite Hb|]. split; [reflexivity|]. split; [reflexivity|].
    split; [reflexivity|]. split; [exact Hr|]. split.
    + intros url art t Hin. destruct (Ht url art t Hin) as (album & Hf & ->).
      change (album_findById (al_id row) (albums w ++ [row]) = Some album) in Hf.
      assert (Hrow : album_findById (al_id row) (albums w ++ [row]) = Some row)
        by (apply album_find_snoc; [exact Hfresh|reflexivity]).
      rewrite Hrow in Hf. now injection Hf as <-.
    + intros d Hin. simpl snd in Hin. rewrite Hd in Hin.
      apply List.in_app_or in Hin. destruct Hin as [Hin|[<-|[]]]; [now left|].
      right. rewrite Hd0. reflexivity.
  - destruct H as (Hd & (_ & Hb & _) & _).
    unfold ret. exists row, rs. simpl in Hr.
    split; [now rewrite Hb|]. split; [reflexivity|]. split; [reflexivity|].
    split; [reflexivity|]. split; [exact Hr|]. split.
    + intros url art t Hin. destruct (Ht url art t Hin) as (album & Hf & ->).
      change (album_findById (al_id row) (albums w ++ [row]) = Some album) in Hf.
      assert (Hrow : album_findById (al_id row) (albums w ++ [row]) = Some row)
        by (apply album_find_snoc; [exact Hfresh|reflexivity]).
      rewrite Hrow in Hf. now injection Hf as <-.
    + intros d Hin. simpl snd in Hin. rewrite Hd in Hin. now left.
Qed.

(** The loop over the new releases: the records added are those of the
    entries processed, in order, one each; all of them when the loop
    returns. *)
Lemma process_each_step (env : Env) (now : Z) (artist : Artist)
  (l : list AlbumMetadata) (w : World) :
  exists done created rs,
    albums (snd (for_each (processNewRelease env now artist) l w))
    = albums w ++ created /\
    List.map al_title created = List.map am_title done /\
    Forall (fun a => isOwned a = false /\ al_artistId a = a_id artist) created /\
    (exists rest, l = done ++ rest) /\
    (fst (for_each (processNewRelease env now artist) l w) = Ok tt -> done = l) /\
    requests (snd (for_each (processNewRelease env now artist) l w))
    = requests w ++ rs /\
    (forall url art t, In (ReqIndexerSearch url art t) rs ->
                       In t (List.map am_title done)) /\
    (forall d, In d (downloads (snd (for_each (processNewRelease env now artist) l w))) ->
               In d (downloads w) \/ exists a, In a created /\ d_albumId d = al_id a).
Proof.
  revert w. induction l as [|am l IH]; intros w.
  - exists [], [], []. simpl. rewrite !List.app_nil_r.
    repeat split; auto. exists []. reflexivity.
  - cbn [for_each]. unfold bind at 1 2 3 4.
    pose proof (processNewRelease_step env now artist am w) as H.
    destruct (processNewRelease env now artist am w) as [[u|e] w1].
    + destruct H as (row & rs1 & Ha & Ht & Ho & Hart & Hr & Hs & Hd).
      destruct (IH w1) as (done & created & rs & IHa & IHt & IHo & [rest IHl]
                           & IHk & IHr & IHs & IHd).
      exists (am :: done), (row :: created), (rs1 ++ rs).
      split; [now rewrite IHa, Ha, <- List.app_assoc|].
      split; [simpl; now rewrite Ht, IHt|].
      split; [constructor; auto|].
      split; [exists rest; simpl; now rewrite <- IHl|].
      split; [intros Hok; now rewrite (IHk Hok)|].
      split; [now rewrite IHr, Hr, <- List.app_assoc|].
      split.
      * intros url art t Hin. apply List.in_app_or in Hin.
        destruct Hin as [Hin|Hin].
        -- left. symmetry. now apply (Hs url art).
        -- right. now apply (IHs url art).
      * intros d Hin. destruct (IHd d Hin) as [Hin1|(a & Hina & Hid)].
        -- destruct (Hd d Hin1) as [Hin0|Hid]; [now left|].
           right. exists row. split; [now left|exact Hid].
        -- right. exists a. split; [now right|exact Hid].
    + destruct H as (Ha & Hr & Hd).
      exists [], [], []. simpl. rewrite !List.app_nil_r.
      split; [exact Ha|]. split; [reflexivity|]. split; [constructor|].
      split; [now exists (am :: l)|]. split; [discriminate|].
      split; [exact Hr|]. split; [contradiction|].
      intros d Hin. left. now rewrite <- Hd.
Qed.

(** What the check of one artist does with a discography: it processes
    the new entries in order and nothing else. *)
Lemma check_discography_processes_new (env : Env) (now : Z) (artist : Artist)
  (w : World) (disc : Discography) :
  getArtistDiscography env (requests w) (a_name artist) = Ok disc ->
  exists done created rs,
    albums (snd (check_discography env now artist w)) = albums w ++ created /\
    List.map al_title created = List.map am_title done /\
    Forall (fun a => isOwned a = false /\ al_artistId a = a_id artist) created /\
    (exists rest,
       newAlbums (album_findByArtistId (a_id artist) (albums w)) (dg_albums disc)
       = done ++ rest) /\
    (fst (check_discography env now artist w) = Ok tt ->
     done = newAlbums (album_findByArtistId (a_id artist) (albums w)) (dg_albums disc)) /\
    requests (snd (check_discography env now artist w))
    = requests w ++ ReqDiscography (a_name artist) :: rs /\
    (forall url art t, In (ReqIndexerSearch url art t) rs ->
                       In t (List.map am_title done)) /\
    (forall d, In d (downloads (snd (check_discography env now artist w))) ->
               In d (downloads w) \/ exists a, In a created /\ d_albumId d = al_id a).
Proof.
  intros Hd.
  assert (E : check_discography env now artist w
              = match for_each (processNewRelease env now artist)
                        (newAlbums (album_findByArtistId (a_id artist) (albums w))
                                   (dg_albums disc))
                        (add_requests [ReqDiscography (a_name artist)] w) with
                | (Ok _, w1) =>
                    (Ok tt, set_artists (artist_touch (a_id artist) now now) w1)
                | (Throw e, w1) => (Throw e, w1)
                end).
  { unfold check_discography, bind, gets, request, modify, lift_result.
    simpl. rewrite Hd. simpl. reflexivity. }
  rewrite E. clear E.
  set (new := newAlbums _ _).
  destruct (process_each_step env now artist new
              (add_requests [ReqDiscography (a_name artist)] w))
    as (done & created & rs & Ha & Ht & Ho & Hl & Hk & Hr & Hs & Hdl).
  exists done, created, rs.
  assert (Hreq : forall w1, requests w1
                   = requests (add_requests [ReqDiscography (a_name artist)] w) ++ rs ->
                   requests w1 = requests w ++ ReqDiscography (a_name artist) :: rs).
  { intros w1 ->. cbn. now rewrite <- List.app_assoc. }
  destruct (for_each (processNewRelease env now artist) new
              (add_requests [ReqDiscography (a_name artist)] w)) as [[u|e] w1];
    cbn [fst snd] in *.
  - destruct u.
    split; [exact Ha|]. split; [exact Ht|]. split; [exact Ho|]. split; [exact Hl|].
    split; [exact Hk|].
    split; [now apply Hreq|]. split; [exact Hs|exact Hdl].
  - split; [exact Ha|]. split; [exact Ht|]. split; [exact Ho|]. split; [exact Hl|].
    split; [discriminate|].
    split; [now apply Hreq|]. split; [exact Hs|exact Hdl].
Qed.

(** Entries of one title are owned together. *)
Lemma owned_by_title (existing : list Album) (albums : list AlbumMetadata)
  (entry : AlbumMetadata) (done rest : list AlbumMetadata) :
  newAlbums existing albums = done ++ rest ->
  (exists a, In a existing /\
             normalizeTitle (al_title a) = normalizeTitle (am_title entry)) ->
  ~ In (am_title entry) (List.map am_title done).
Proof.
  intros Hl (a & Ha & Heq) Hin. apply List.in_map_iff in Hin.
  destruct Hin as (e & Ht & He).
  assert (Hnew : In e (newAlbums existing albums))
    by (rewrite Hl; apply List.in_or_app; now left).
  apply newAlbums_spec in Hnew. destruct Hnew as [_ Hno]. apply Hno.
  exists a. split; [exact Ha|]. now rewrite Ht.
Qed.

(** C3, as the code has it.  Titles are compared after lower-casing,
    trimming, deleting every character that is not an ASCII letter, a
    digit, an underscore or white space (punctuation and letters outside
    ASCII alike), and collapsing each run of white space to one space;
    words are neither reordered nor dropped.  A discography entry is new
    exactly when no album on record for the artist has the same
    normalized title.  The check of an artist processes the new entries
    and no others, whatever the discography lists: the album records it
    adds are unowned records of the artist, one for each new entry
    processed, in order (all of them when the check returns); every
    indexer search it makes is for the title of such an entry; every
    download it adds is for one of the records added.  So for an entry
    that is already owned no album record is created and no search is
    made, also when other entries are new; and when no entry is new the
    check creates no album record and initiates no download.  "The Wall"
    normalizes to "the wall" and "Wall, The!!" to "wall the": with "The
    Wall" on record the entry "Wall, The!!" is treated as new, an unowned
    album record is created for it and it is handed to the download
    orchestrator, which searches the indexer and queues a download; an
    entry "  THE   WALL!! " listed before it is passed over. *)
Theorem owned_by_normalized_title :
  normalizeTitle "The Wall" = "the wall" /\
  normalizeTitle "Wall, The!!" = "wall the" /\
  (forall existing albums entry,
     In entry (newAlbums existing albums) <->
     In entry albums /\
     ~ exists a, In a existing /\
                 normalizeTitle (al_title a) = normalizeTitle (am_title entry)) /\
  (forall env now artist w disc,
     getArtistDiscography env (requests w) (a_name artist) = Ok disc ->
     let existing := album_findByArtistId (a_id artist) (albums w) in
     let new := newAlbums existing (dg_albums disc) in
     let run := check_discography env now artist w in
     exists done created rs,
       albums (snd run) = albums w ++ created /\
       List.map al_title created = List.map am_title done /\
       Forall (fun a => isOwned a = false /\ al_artistId a = a_id artist) created /\
       (exists rest, new = done ++ rest) /\
       (fst run = Ok tt -> done = new) /\
       requests (snd run) = requests w ++ ReqDiscography (a_name artist) :: rs /\
       (forall url art t, In (ReqIndexerSearch url art t) rs ->
                          In t (List.map am_title done)) /\
       (forall d, In d (downloads (snd run)) ->
                  In d (downloads w) \/
                  exists a, In a created /\ d_albumId d = al_id a) /\
       (forall entry,
          (exists a, In a existing /\
                     normalizeTitle (al_title a) = normalizeTitle (am_title entry)) ->
          ~ In (am_title entry) (List.map al_title created) /\
          (forall url art, ~ In (ReqIndexerSearch url art (am_title entry)) rs))) /\
  (forall env now artist w disc,
     getArtistDiscography env (requests w) (a_name artist) = Ok disc ->
     newAlbums (album_findByArtistId (a_id artist) (albums w)) (dg_albums disc) = [] ->
     let w' := snd (check_discography env now artist w) in
     albums w' = albums w /\ downloads w' = downloads w /\
     requests w' = requests w ++ [ReqDiscography (a_name artist)]) /\
  (let w' := snd (checkArtist env_online now_jan_11 "ar1" world_wall) in
   List.map (fun a => (al_title a, isOwned a)) (albums w')
   = [("The Wall", true); ("Wall, The!!", false)] /\
   List.map (fun d => (d_albumId d, status d)) (downloads w') = [("uuid-0", queued)] /\
   requests w' = [ReqDiscography "Pink Floyd";
                  ReqIndexerSearch "http://good" "Pink Floyd" "Wall, The!!";
                  ReqSabAddUrl "http://good/nzb/1" "music"]) /\
  (let w' := snd (checkArtist env_mixed now_jan_11 "ar1" world_wall) in
   List.map (fun a => (al_title a, isOwned a)) (albums w')
   = [("The Wall", true); ("Wall, The!!", false)] /\
   List.map (fun d => (d_albumId d, status d)) (downloads w') = [("uuid-0", queued)] /\
   requests w' = [ReqDiscography "Pink Floyd";
                  ReqIndexerSearch "http://good" "Pink Floyd" "Wall, The!!";
                  ReqSabAddUrl "http://good/nzb/1" "music"]).
Proof.
  split; [reflexivity|]. split; [reflexivity|].
  split; [apply newAlbums_spec|].
  split.
  - intros env now artist w disc Hd existing new run.
    destruct (check_discography_processes_new env now artist w disc Hd)
      as (done & created & rs & Ha & Ht & Ho & [rest Hl] & Hk & Hr & Hs & Hdl).
    exists done, created, rs.
    split; [exact Ha|]. split; [exact Ht|]. split; [exact Ho|].
    split; [now exists rest|]. split; [exact Hk|]. split; [exact Hr|].
    split; [exact Hs|]. split; [exact Hdl|].
    intros entry Howned.
    pose proof (owned_by_title _ _ entry done rest Hl Howned) as Hno.
    split; [now rewrite Ht|].
    intros url art Hin. apply Hno. now apply (Hs url art).
  - split; [apply check_discography_nothing_new|].
    split; vm_compute; auto.
Qed.

(** C3, as the specification words it, fails: with "The Wall" on record
    the entry "Wall, The!!" does not normalize to the same string and is
    treated as a new album. *)
Lemma wall_the_counterexample :
  normalizeTitle "The Wall" <> normalizeTitle "Wall, The!!" /\
  normalizeTitle "Wall, The!!" <> "wall" /\
  newAlbums [album_the_wall] [entry_wall_the] = [entry_wall_the].
Proof.
  split; [vm_compute; discriminate|].
  split; [vm_compute; discriminate|].
  vm_compute. reflexivity.
Qed.

(** The discography lists "  THE   WALL!! " and "Wall, The!!" with "The
    Wall" on record: only the second is new, and the check adds no
    record and makes no search for the first. *)
Lemma owned_by_normalized_title_witness :
  newAlbums [album_the_wall] [entry_the_wall_shouted; entry_wall_the]
  = [entry_wall_the] /\
  ~ In entry_the_wall_shouted
       (newAlbums [album_the_wall] [entry_the_wall_shouted; entry_wall_the]) /\
  (forall a,
     In a (albums (snd (check_discography env_mixed now_jan_11 artist_unchecked
                          world_wall))) ->
     al_title a <> "  THE   WALL!! ") /\
  (forall url art,
     ~ In (ReqIndexerSearch url art "  THE   WALL!! ")
          (requests (snd (check_discography env_mixed now_jan_11 artist_unchecked
                            world_wall)))).
Proof.
  split; [vm_compute; reflexivity|].
  destruct owned_by_normalized_title as (_ & _ & H & Hrun & _).
  assert (Howned : exists a,
            In a (album_findByArtistId (a_id artist_unchecked) (albums world_wall)) /\
            normalizeTitle (al_title a)
            = normalizeTitle (am_title entry_the_wall_shouted)).
  { exists album_the_wall. split; [left; reflexivity|reflexivity]. }
  split.
  - intros Hin. apply H in Hin. destruct Hin as [_ Hno]. apply Hno.
    exists album_the_wall. split; [left; reflexivity|reflexivity].
  - destruct (Hrun env_mixed now_jan_11 artist_unchecked world_wall
                (mkDiscography "Pink Floyd" [entry_the_wall_shouted; entry_wall_the] None)
                eq_refl)
      as (done & created & rs & Ha & _ & _ & _ & _ & Hr & _ & _ & Hno).
    destruct (Hno entry_the_wall_shouted Howned) as [Hc Hs].
    split.
    + intros a Hin Ht. rewrite Ha in Hin. apply List.in_app_or in Hin.
      destruct Hin as [[<-|[]]|Hin]; [discriminate Ht|].
      apply Hc. change (In "  THE   WALL!! " (List.map al_title created)).
      rewrite <- Ht. now apply List.in_map.
    + intros url art Hin. rewrite Hr in Hin. apply List.in_app_or in Hin.
      destruct Hin as [[]|[Hin|Hin]]; [discriminate Hin|].
      now apply (Hs url art).
Defined.

(** X28.  A new release is recorded whether or not its download can be
    started: with a fresh album id, [processNewRelease] returns, the new
    album is the last row of the albums, not owned, under the artist,
    with the fields of the discography entry, the artist's album count
    has gone up by one, and at most one download has been added.  When
    the id is taken, the call throws and neither albums nor artists
    change. *)
Theorem processNewRelease_records_album (env : Env) (now : Z) (artist : Artist)
  (am : AlbumMetadata) (w : World) :
  (album_findById (uuidv4 env (drawn w)) (albums w) = None ->
   exists w',
     processNewRelease env now artist am w = (Ok tt, w') /\
     albums w'
     = albums w ++ [mkAlbum (uuidv4 env (drawn w)) (a_id artist) (am_title am)
                      (am_releaseYear am) (am_trackCount am) (am_artworkUrl am)
                      None false now now] /\
     artists w' = incrementAlbumCount (a_id artist) now (artists w) /\
     (downloads w' = downloads w \/ exists d, downloads w' = downloads w ++ [d])) /\
  (album_findById (uuidv4 env (drawn w)) (albums w) <> None ->
   exists m w',
     processNewRelease env now artist am w = (Throw m, w') /\
     albums w' = albums w /\ artists w' = artists w /\ downloads w' = downloads w).
Proof.
  split.
  - intros Hfresh.
    unfold processNewRelease. unfold bind at 1. unfold fresh_id at 1.
    unfold bind at 1. unfold on_table at 1. cbn [albums set_drawn].
    match goal with
    | |- context [album_create ?id ?n ?na ?t] =>
        destruct (album_create_outcome id n na t) as [[_ ->] | [Htaken _]];
          [|contradiction]
    end.
    cbn [na_artistId na_title na_releaseYear na_trackCount na_artworkUrl
         na_localPath na_isOwned].
    unfold bind at 1. unfold modify at 1. unfold try_catch. unfold bind at 1.
    match goal with
    | |- context [initiateDownload env now ?req ?w0] =>
        pose proof (initiateDownload_outcome env now req w0) as H;
        destruct (initiateDownload env now req w0) as [[r|e] w']
    end.
    + destruct H as (sel & oth & sab & ids & srch & _ & _ & _ & _ & _ & _ & _ & Hd & Hc).
      destruct Hc as (Ha & Hb & _).
      unfold ret. eexists. split; [reflexivity|].
      rewrite Hb, Ha, Hd. cbn. repeat split. right. eauto.
    + destruct H as (Hd & (Ha & Hb & _) & _).
      unfold ret. eexists. split; [reflexivity|].
      rewrite Hb, Ha, Hd. cbn. repeat split. now left.
  - intros Htaken.
    unfold processNewRelease. unfold bind at 1. unfold fresh_id at 1.
    unfold bind at 1. unfold on_table at 1. cbn [albums set_drawn].
    match goal with
    | |- context [album_create ?id ?n ?na ?t] =>
        destruct (album_create_outcome id n na t) as [[Hfresh _] | [_ ->]];
          [contradiction|]
    end.
    do 2 eexists. split; [reflexivity|]. cbn. auto.
Qed.

Lemma find_artist_id (id : string) (t : list Artist) (a : Artist) :
  artist_findById id t = Some a -> a_id a = id.
Proof.
  unfold artist_findById. intros H. apply List.find_some in H.
  destruct H as [_ H]. now apply String.eqb_eq in H.
Qed.

(** X29.  A check that ran and returned throttles the next one: when
    [checkArtist] returns for an artist that was not skipped, the
    artist's last-checked timestamp is the time of the check and the
    artist is still monitored, so a second [checkArtist] less than 24
    hours later returns at once and leaves the state as it is, whatever
    the metadata service would answer. *)
Theorem check_throttles_next (env : Env) (now : Z) (artistId : string)
  (artist : Artist) (w w' : World) :
  artist_findById artistId (artists w) = Some artist ->
  checked_recently now artist = false ->
  checkArtist env now artistId w = (Ok tt, w') ->
  (exists artist',
     artist_findById artistId (artists w') = Some artist' /\
     lastChecked artist' = Some now /\ monitored artist' = true) /\
  (forall env' now', now' - now < 24 * 60 * 60 * 1000 ->
     checkArtist env' now' artistId w' = (Ok tt, w')).
Proof.
  intros Hfind Hnot Hcheck.
  pose proof (find_artist_id _ _ _ Hfind) as Hid.
  unfold checkArtist in Hcheck. unfold bind at 1 in Hcheck.
  unfold gets at 1 in Hcheck. rewrite Hfind in Hcheck.
  destruct (monitored artist) eqn:Hmon; [|discriminate Hcheck].
  cbn [negb] in Hcheck. cbv iota in Hcheck.
  unfold checkArtistForNewReleases in Hcheck. rewrite Hnot in Hcheck.
  unfold check_discography in Hcheck.
  apply bind_Ok in Hcheck. destruct Hcheck as (log & w1 & E1 & Hcheck).
  unfold gets in E1. injection E1 as <- <-.
  apply bind_Ok in Hcheck. destruct Hcheck as (u & w2 & E2 & Hcheck).
  apply bind_Ok in Hcheck. destruct Hcheck as (dg & w3 & E3 & Hcheck).
  apply bind_Ok in Hcheck. destruct Hcheck as (existing & w4 & E4 & Hcheck).
  apply bind_Ok in Hcheck. destruct Hcheck as (u5 & w5 & E5 & Hcheck).
  unfold modify in Hcheck. injection Hcheck as <-.
  assert (I5 : exists a, artist_findById artistId (artists w5) = Some a /\
                         monitored a = true).
  { assert (I2 : exists a, artist_findById artistId (artists w2) = Some a /\
                           monitored a = true).
    { unfold request, modify in E2. injection E2 as _ <-. cbn. eauto. }
    assert (w3 = w2) as ->.
    { unfold lift_result in E3.
      destruct (getArtistDiscography env _ _); now inversion E3. }
    unfold gets in E4. injection E4 as _ <-.
    pose proof (preserves_for_each
                  (fun w => exists a, artist_findById artistId (artists w) = Some a /\
                                      monitored a = true)
                  (processNewRelease env now artist)
                  (newAlbums existing (dg_albums dg))
                  (monitored_processNewRelease env now artistId artist)
                  w2 I2) as H.
    now rewrite E5 in H. }
  destruct I5 as (a5 & Ha5 & Hm5).
  assert (Hfound : artist_findById artistId
                     (artists (set_artists (artist_touch (a_id artist) now now) w5))
                   = Some (mkArtist (a_id a5) (a_name a5) (monitored a5) (albumCount a5)
                                    (Some now) (a_createdAt a5) now)).
  { cbn [artists set_artists]. unfold artist_touch. rewrite Hid.
    rewrite artist_find_map_where by reflexivity. now rewrite Ha5. }
  split.
  - eexists. split; [exact Hfound|]. split; [reflexivity|exact Hm5].
  - intros env' now' Hlt. unfold checkArtist. unfold bind at 1. unfold gets at 1.
    rewrite Hfound. cbn [monitored]. rewrite Hm5. cbn [negb]. cbv iota.
    apply checkArtistForNewReleases_skip.
    apply checked_recently_iff. exists now. split; [reflexivity|exact Hlt].
Qed.

Lemma check_throttles_next_witness :
  checkArtist env_offline (now_jan_11 + 60 * 60 * 1000) "ar1"
    (snd (checkArtist env_online now_jan_11 "ar1" world_wall))
  = (Ok tt, snd (checkArtist env_online now_jan_11 "ar1" world_wall)).
Proof.
  assert (H : checkArtist env_online now_jan_11 "ar1" world_wall
              = (Ok tt, snd (checkArtist env_online now_jan_11 "ar1" world_wall)))
    by (vm_compute; reflexivity).
  apply (check_throttles_next env_online now_jan_11 "ar1" artist_unchecked
           world_wall _ eq_refl eq_refl H).
  unfold now_jan_11. lia.
Defined.

(** ** Title normalization (MonitoringService.normalizeTitle) *)

Lemma lower_upper_char (c : ascii) : lower_char (upper_char c) = lower_char c.
Proof. destruct c as [[] [] [] [] [] [] [] []]; reflexivity. Qed.

Lemma lower_lower_char (c : ascii) : lower_char (lower_char c) = lower_char c.
Proof. destruct c as [[] [] [] [] [] [] [] []]; reflexivity. Qed.

Lemma lower_char_not_upper (c : ascii) : is_upper (lower_char c) = false.
Proof. destruct c as [[] [] [] [] [] [] [] []]; reflexivity. Qed.

Lemma toLowerCase_toUpperCase (s : string) :
  toLowerCase (toUpperCase s) = toLowerCase s.
Proof.
  unfold toLowerCase, toUpperCase.
  induction s as [|c s IH]; simpl; [reflexivity|].
  now rewrite lower_upper_char, IH.
Qed.

Lemma toLowerCase_idempotent (s : string) :
  toLowerCase (toLowerCase s) = toLowerCase s.
Proof.
  unfold toLowerCase.
  induction s as [|c s IH]; simpl; [reflexivity|].
  now rewrite lower_lower_char, IH.
Qed.

Lemma In_toLowerCase (s : string) (c : ascii) :
  In c (list_ascii_of_string (toLowerCase s)) -> is_upper c = false.
Proof.
  unfold toLowerCase. induction s as [|x s IH]; simpl; [contradiction|].
  intros [<- | H]; [apply lower_char_not_upper|auto].
Qed.

Lemma In_trimStart (s : string) (c : ascii) :
  In c (list_ascii_of_string (trimStart s)) -> In c (list_ascii_of_string s).
Proof.
  induction s as [|x s IH]; simpl; [contradiction|].
  destruct (is_space x); simpl; auto.
Qed.

Lemma In_trimEnd (s : string) (c : ascii) :
  In c (list_ascii_of_string (trimEnd s)) -> In c (list_ascii_of_string s).
Proof.
  induction s as [|x s IH]; simpl; [contradiction|].
  destruct (is_space x && is_empty (trimEnd s)); simpl; [contradiction|].
  intros [<- | H]; auto.
Qed.

Lemma In_filter_string (f : ascii -> bool) (s : string) (c : ascii) :
  In c (list_ascii_of_string (filter_string f s)) ->
  In c (list_ascii_of_string s) /\ f c = true.
Proof.
  induction s as [|x s IH]; simpl; [contradiction|].
  destruct (f x) eqn:E; simpl.
  - intros [<- | H]; [auto|]. destruct (IH H). auto.
  - intros H. destruct (IH H). auto.
Qed.

Lemma In_collapse_spaces (b : bool) (s : string) (c : ascii) :
  In c (list_ascii_of_string (collapse_spaces b s)) ->
  c = " "%char \/ (In c (list_ascii_of_string s) /\ is_space c = false).
Proof.
  revert b. induction s as [|x s IH]; intros b; simpl; [contradiction|].
  destruct (is_space x) eqn:E.
  - destruct b; simpl.
    + intros H. destruct (IH _ H) as [-> | [H1 H2]]; auto.
    + intros [<- | H]; [auto|]. destruct (IH _ H) as [-> | [H1 H2]]; auto.
  - simpl. intros [<- | H]; [auto|]. destruct (IH _ H) as [-> | [H1 H2]]; auto.
Qed.

(** X30.  Title normalization ignores letter case and leaves only
    lower-case letters, digits, underscores and single-space separators:
    an ASCII title and its upper-case or lower-case form normalize to
    the same string, and no character of the normalized title is an
    upper-case letter, a punctuation mark, or white space other than the
    space.  Hence a discography entry whose ASCII title differs from the
    ASCII title of an album on record only in letter case is not
    reported as new. *)
Theorem normalizeTitle_case_insensitive (t : string) :
  ascii_only t = true ->
  normalizeTitle (toUpperCase t) = normalizeTitle t /\
  normalizeTitle (toLowerCase t) = normalizeTitle t /\
  (forall c, In c (list_ascii_of_string (normalizeTitle t)) ->
     c = " "%char \/
     (is_upper c = false /\ is_space c = false /\
      (is_lower c = true \/ is_digit c = true \/ c = "_"%char))) /\
  (forall existing entries entry album,
     al_title album = t -> ascii_only (am_title entry) = true ->
     In album existing -> toLowerCase (al_title album) = toLowerCase (am_title entry) ->
     ~ In entry (newAlbums existing entries)).
Proof.
  intros _.
  assert (Hup : forall s, normalizeTitle (toUpperCase s) = normalizeTitle s).
  { intros s. unfold normalizeTitle. now rewrite toLowerCase_toUpperCase. }
  assert (Hlow : forall s, normalizeTitle (toLowerCase s) = normalizeTitle s).
  { intros s. unfold normalizeTitle. now rewrite toLowerCase_idempotent. }
  split; [apply Hup|]. split; [apply Hlow|]. split.
  - intros c Hc. unfold normalizeTitle in Hc.
    apply In_collapse_spaces in Hc. destruct Hc as [-> | [Hc Hsp]]; [now left|right].
    apply In_filter_string in Hc. destruct Hc as [Hc Hkeep].
    unfold trim in Hc. apply In_trimEnd, In_trimStart, In_toLowerCase in Hc.
    rewrite Hsp, orb_false_r in Hkeep. unfold is_word in Hkeep. rewrite Hc in Hkeep.
    simpl in Hkeep. split; [exact Hc|]. split; [exact Hsp|].
    apply orb_true_iff in Hkeep. destruct Hkeep as [Hkeep | Hkeep].
    + apply orb_true_iff in Hkeep. tauto.
    + right. right. apply Nat.eqb_eq in Hkeep. unfold code in Hkeep.
      rewrite <- (ascii_nat_embedding c), Hkeep. reflexivity.
  - intros existing entries entry album _ _ Hin Heq Hnew.
    unfold newAlbums in Hnew. apply List.filter_In in Hnew.
    destruct Hnew as [_ Hnew]. apply negb_true_iff in Hnew.
    apply bool_decide_eq_false in Hnew. apply Hnew.
    unfold existingTitles. apply elem_of_list_to_set, list_elem_of_In.
    apply List.in_map_iff. exists album. split; [|exact Hin].
    rewrite <- (Hlow (al_title album)), Heq. apply Hlow.
Qed.

Lemma normalizeTitle_case_insensitive_witness :
  normalizeTitle "THE WALL" = normalizeTitle "The Wall" /\
  ~ In (mkAlbumMetadata "rg3" "the wall" (Some 1979) None None None)
       (newAlbums [album_the_wall]
          [mkAlbumMetadata "rg3" "the wall" (Some 1979) None None None]).
Proof.
  destruct (normalizeTitle_case_insensitive "The Wall" eq_refl) as (H1 & _ & _ & H4).
  split; [exact H1|].
  apply (H4 [album_the_wall]
            [mkAlbumMetadata "rg3" "the wall" (Some 1979) None None None]
            (mkAlbumMetadata "rg3" "the wall" (Some 1979) None None None)
            album_the_wall eq_refl eq_refl);
    [now left|reflexivity].
Defined.

